(** * cdecl: type algebra, AST printers and lookup helpers

    A shallow embedding of the parts of cdecl (the C gibberish translator)
    that its specification makes claims about, with the claims proved or
    refuted on the embedding.

    - [CType]      src/c_type.h: the 64-bit type identifier and its sectors.
    - [Options]    src/options.h (globals) and [graph_token_c] of
                   src/gibberish.c.
    - [English]    src/english.c: the pseudo-English printer.
    - [Gibberish]  src/gibberish.c: the C/C++ declaration printer.
    - [Builder]    placeholder patching, declared in src/c_ast_util.h.
    - [DamLev]     src/dam_lev.c: sizes, the Damerau-Levenshtein edit
                   distance, and the loops of [dam_lev_dist] on a matrix
                   without memory.
    - [Matrix2]    src/dam_lev.c: the matrix of the edit distance.
    - [DamLevDist] src/dam_lev.c: [matrix2_new] and [dam_lev_dist] on the
                   block of memory that [malloc] returns.
    - [Util]       src/util.c: paths and string copies.
    - [FreeList]   src/util.c: the memory to free at exit.
    - [Cdecl]      src/cdecl.c: a command given on the command line.
    - [CliOptions] src/cli_options.c: the command-line options.
    - [Autocomplete], [Autocomplete2]  src/autocomplete.c in two revisions:
                   the completion of commands and keywords.
    - [Help]       src/help.c: the help text.
    - [CKind]      src/c_kind.h: the kinds of AST nodes as bits.
    - [EnglishVisit]  the nodes that the printer of src/english.c visits.
    - [CTypeData]  src/c_type.h: a type identifier as an opaque handle.

    Machine integers are modelled as [Z] (bit sets, and [size_t] with its
    wrap-around) or [nat] (counters and indices); C strings as [string] or
    as lists of characters; a [FILE*] written to as the string of
    everything written so far. *)

From Stdlib Require Import ZArith List String Ascii Bool Lia Arith.
From Stdlib Require Import DecimalString.
Import ListNotations.

Set Implicit Arguments.
Set Warnings "-register-all".

(* ------------------------------------------------------------------ *)
(** ** src/c_type.h: type identifiers *)

Module CType.
Open Scope Z_scope.

(** [c_type_id_t] is an unsigned 64-bit integer used as a bit set. *)
Definition c_type_id_t := Z.

(* types *)
Definition T_NONE               : c_type_id_t := 0.
Definition T_VOID               : c_type_id_t := 0x0000000000000001.
Definition T_AUTO_TYPE          : c_type_id_t := 0x0000000000000002.
Definition T_BOOL               : c_type_id_t := 0x0000000000000004.
Definition T_CHAR               : c_type_id_t := 0x0000000000000008.
Definition T_CHAR8_T            : c_type_id_t := 0x0000000000000010.
Definition T_CHAR16_T           : c_type_id_t := 0x0000000000000020.
Definition T_CHAR32_T           : c_type_id_t := 0x0000000000000040.
Definition T_WCHAR_T            : c_type_id_t := 0x0000000000000080.
Definition T_SHORT              : c_type_id_t := 0x0000000000000100.
Definition T_INT                : c_type_id_t := 0x0000000000000200.
Definition T_LONG               : c_type_id_t := 0x0000000000000400.
Definition T_LONG_LONG          : c_type_id_t := 0x0000000000000800.
Definition T_SIGNED             : c_type_id_t := 0x0000000000001000.
Definition T_UNSIGNED           : c_type_id_t := 0x0000000000002000.
Definition T_FLOAT              : c_type_id_t := 0x0000000000004000.
Definition T_DOUBLE             : c_type_id_t := 0x0000000000008000.
Definition T_COMPLEX            : c_type_id_t := 0x0000000000010000.
Definition T_IMAGINARY          : c_type_id_t := 0x0000000000020000.
Definition T_ENUM               : c_type_id_t := 0x0000000000040000.
Definition T_STRUCT             : c_type_id_t := 0x0000000000080000.
Definition T_UNION              : c_type_id_t := 0x0000000000100000.
Definition T_CLASS              : c_type_id_t := 0x0000000000200000.
Definition T_NAMESPACE          : c_type_id_t := 0x0000000000400000.
Definition T_SCOPE              : c_type_id_t := 0x0000000000800000.
Definition T_TYPEDEF_TYPE       : c_type_id_t := 0x0000000001000000.

(* storage classes *)
Definition T_AUTO_STORAGE       : c_type_id_t := 0x0000000010000000.
Definition T_APPLE_BLOCK        : c_type_id_t := 0x0000000020000000.
Definition T_EXTERN             : c_type_id_t := 0x0000000040000000.
Definition T_MUTABLE            : c_type_id_t := 0x0000000080000000.
Definition T_REGISTER           : c_type_id_t := 0x0000000100000000.
Definition T_STATIC             : c_type_id_t := 0x0000000200000000.
Definition T_THREAD_LOCAL       : c_type_id_t := 0x0000000400000000.
Definition T_TYPEDEF            : c_type_id_t := 0x0000000800000000.

(* storage-class-like *)
Definition T_CONSTEVAL          : c_type_id_t := 0x0000001000000000.
Definition T_CONSTEXPR          : c_type_id_t := 0x0000002000000000.
Definition T_DEFAULT            : c_type_id_t := 0x0000004000000000.
Definition T_DELETE             : c_type_id_t := 0x0000008000000000.
Definition T_EXPLICIT           : c_type_id_t := 0x0000010000000000.
Definition T_FINAL              : c_type_id_t := 0x0000020000000000.
Definition T_FRIEND             : c_type_id_t := 0x0000040000000000.
Definition T_INLINE             : c_type_id_t := 0x0000080000000000.
Definition T_NOEXCEPT           : c_type_id_t := 0x0000100000000000.
Definition T_OVERRIDE           : c_type_id_t := 0x0000200000000000.
Definition T_PURE_VIRTUAL       : c_type_id_t := 0x0000400000000000.
Definition T_THROW              : c_type_id_t := 0x0000800000000000.
Definition T_VIRTUAL            : c_type_id_t := 0x0001000000000000.

(* attributes *)
Definition T_CARRIES_DEPENDENCY : c_type_id_t := 0x0002000000000000.
Definition T_DEPRECATED         : c_type_id_t := 0x0004000000000000.
Definition T_MAYBE_UNUSED       : c_type_id_t := 0x0008000000000000.
Definition T_NODISCARD          : c_type_id_t := 0x0010000000000000.
Definition T_NORETURN           : c_type_id_t := 0x0020000000000000.

(* qualifiers *)
Definition T_ATOMIC             : c_type_id_t := 0x0100000000000000.
Definition T_CONST              : c_type_id_t := 0x0200000000000000.
Definition T_RESTRICT           : c_type_id_t := 0x0400000000000000.
Definition T_VOLATILE           : c_type_id_t := 0x0800000000000000.

(* ref-qualifiers *)
Definition T_REFERENCE          : c_type_id_t := 0x1000000000000000.
Definition T_RVALUE_REFERENCE   : c_type_id_t := 0x2000000000000000.

(* bit masks *)
Definition T_MASK_TYPE          : c_type_id_t := 0x000000000FFFFFFF.
Definition T_MASK_STORAGE       : c_type_id_t := 0x0001FFFFF0000000.
Definition T_MASK_ATTRIBUTE     : c_type_id_t := 0x003E000000000000.
Definition T_MASK_QUALIFIER     : c_type_id_t := 0x0F00000000000000.
Definition T_MASK_REF_QUALIFIER : c_type_id_t := 0xF000000000000000.

(* shorthands *)
Definition T_ANY_FLOAT     := Z.lor T_FLOAT T_DOUBLE.
Definition T_ANY_REFERENCE := Z.lor T_REFERENCE T_RVALUE_REFERENCE.
Definition T_MEMBER_ONLY :=
  fold_right Z.lor 0
    [ T_CONST; T_VOLATILE; T_DEFAULT; T_DELETE; T_OVERRIDE; T_FINAL;
      T_VIRTUAL; T_REFERENCE; T_RESTRICT; T_RVALUE_REFERENCE ].

(** The five sectors of a type identifier, and the mask of each. *)
Inductive sector :=
  | S_TYPE | S_STORAGE | S_ATTRIBUTE | S_QUALIFIER | S_REF_QUALIFIER.

Definition sector_mask (s : sector) : c_type_id_t :=
  match s with
  | S_TYPE          => T_MASK_TYPE
  | S_STORAGE       => T_MASK_STORAGE
  | S_ATTRIBUTE     => T_MASK_ATTRIBUTE
  | S_QUALIFIER     => T_MASK_QUALIFIER
  | S_REF_QUALIFIER => T_MASK_REF_QUALIFIER
  end.

Definition all_sectors : list sector :=
  [ S_TYPE; S_STORAGE; S_ATTRIBUTE; S_QUALIFIER; S_REF_QUALIFIER ].

(** Every single-bit [T_] constant of the header, in the header's order. *)
Definition T_single_bits : list c_type_id_t :=
  [ T_VOID; T_AUTO_TYPE; T_BOOL; T_CHAR; T_CHAR8_T; T_CHAR16_T; T_CHAR32_T;
    T_WCHAR_T; T_SHORT; T_INT; T_LONG; T_LONG_LONG; T_SIGNED; T_UNSIGNED;
    T_FLOAT; T_DOUBLE; T_COMPLEX; T_IMAGINARY; T_ENUM; T_STRUCT; T_UNION;
    T_CLASS; T_NAMESPACE; T_SCOPE; T_TYPEDEF_TYPE;
    T_AUTO_STORAGE; T_APPLE_BLOCK; T_EXTERN; T_MUTABLE; T_REGISTER; T_STATIC;
    T_THREAD_LOCAL; T_TYPEDEF;
    T_CONSTEVAL; T_CONSTEXPR; T_DEFAULT; T_DELETE; T_EXPLICIT; T_FINAL;
    T_FRIEND; T_INLINE; T_NOEXCEPT; T_OVERRIDE; T_PURE_VIRTUAL; T_THROW;
    T_VIRTUAL;
    T_CARRIES_DEPENDENCY; T_DEPRECATED; T_MAYBE_UNUSED; T_NODISCARD;
    T_NORETURN;
    T_ATOMIC; T_CONST; T_RESTRICT; T_VOLATILE;
    T_REFERENCE; T_RVALUE_REFERENCE ].

(** [t] has at least one of the bits [bits]: [(t & bits) != T_NONE]. *)
Definition has_any (t bits : c_type_id_t) : bool :=
  negb (Z.land t bits =? T_NONE).

(** [c] lies inside the sector [s]: all its bits are bits of the mask. *)
Definition in_sector (c : c_type_id_t) (s : sector) : bool :=
  Z.land c (sector_mask s) =? c.

(** [c] is a single bit of a 64-bit word. *)
Definition single_bit (c : c_type_id_t) : bool :=
  existsb (fun k => c =? Z.shiftl 1 (Z.of_nat k)) (seq 0 64).

(** Modelled from the spec: [c_type_add] is declared in src/c_type.h but its
    body (c_type.c) is not among the sources.  The model follows the rule of
    the specification (4.1) and the comment on the declaration: sectors are
    merged by bitwise or; a type is never added twice; [long] added to [long]
    becomes [long long]; [long] added to [long long] fails; [signed] with
    [unsigned] fails; [float] with [int] fails; two storage classes fail (the
    storage classes are the bits of [T_AUTO_STORAGE] up to [T_TYPEDEF]);
    storage-class-like bits coexist.  The result is the returned flag and the
    value of [*dest_type] afterwards, which a failed call leaves alone. *)
Definition T_STORAGE_CLASSES : c_type_id_t :=
  fold_right Z.lor 0
    [ T_AUTO_STORAGE; T_APPLE_BLOCK; T_EXTERN; T_MUTABLE; T_REGISTER;
      T_STATIC; T_THREAD_LOCAL; T_TYPEDEF ].

Definition crosses (dest new a b : c_type_id_t) : bool :=
  (has_any dest a && has_any new b) || (has_any dest b && has_any new a).

Definition c_type_add (dest_type new_type : c_type_id_t)
  : bool * c_type_id_t :=
  if has_any dest_type T_LONG_LONG && has_any new_type T_LONG then
    (false, dest_type)                          (* no long long long *)
  else
    let new_type :=
      if has_any dest_type T_LONG && has_any new_type T_LONG
      then Z.lor (Z.land new_type (Z.lnot T_LONG)) T_LONG_LONG
      else new_type in
    if has_any dest_type new_type then (false, dest_type)
    else if crosses dest_type new_type T_SIGNED T_UNSIGNED then
      (false, dest_type)
    else if crosses dest_type new_type T_FLOAT T_INT then (false, dest_type)
    else if has_any dest_type T_STORAGE_CLASSES
            && has_any new_type T_STORAGE_CLASSES then (false, dest_type)
    else (true, Z.lor dest_type new_type).

End CType.

(* ------------------------------------------------------------------ *)
(** ** Languages and options (src/options.h), and [graph_token_c] *)

Module Options.
Open Scope Z_scope.

(** Modelled from the spec: c_lang.h is not among the sources.  A language
    id is a single bit of a [c_lang_id_t]; the dialects of the specification
    (section 1) get successive bits in the order it lists them, the order
    the comparisons on [opt_lang] in the sources rely on. *)
Definition c_lang_id_t := Z.
Definition LANG_NONE   : c_lang_id_t := 0.
Definition LANG_C_KNR  : c_lang_id_t := Z.shiftl 1 0.
Definition LANG_C_89   : c_lang_id_t := Z.shiftl 1 1.
Definition LANG_C_95   : c_lang_id_t := Z.shiftl 1 2.
Definition LANG_C_99   : c_lang_id_t := Z.shiftl 1 3.
Definition LANG_C_11   : c_lang_id_t := Z.shiftl 1 4.
Definition LANG_C_17   : c_lang_id_t := Z.shiftl 1 5.
Definition LANG_C_2X   : c_lang_id_t := Z.shiftl 1 6.
Definition LANG_CPP_98 : c_lang_id_t := Z.shiftl 1 7.
Definition LANG_CPP_03 : c_lang_id_t := Z.shiftl 1 8.
Definition LANG_CPP_11 : c_lang_id_t := Z.shiftl 1 9.
Definition LANG_CPP_14 : c_lang_id_t := Z.shiftl 1 10.
Definition LANG_CPP_17 : c_lang_id_t := Z.shiftl 1 11.
Definition LANG_CPP_20 : c_lang_id_t := Z.shiftl 1 12.
Definition LANG_CPP_23 : c_lang_id_t := Z.shiftl 1 13.

(** The languages of the specification, oldest first. *)
Definition all_langs : list c_lang_id_t :=
  [ LANG_C_KNR; LANG_C_89; LANG_C_95; LANG_C_99; LANG_C_11; LANG_C_17;
    LANG_C_2X; LANG_CPP_98; LANG_CPP_03; LANG_CPP_11; LANG_CPP_14;
    LANG_CPP_17; LANG_CPP_20; LANG_CPP_23 ].

(** [LANG_C_ANY]: every C dialect; [LANG_CPP_ANY]: every C++ dialect;
    [LANG_MIN(L)]: [L] and every later language. *)
Definition LANG_C_ANY   : c_lang_id_t := LANG_CPP_98 - 1.
Definition LANG_CPP_ANY : c_lang_id_t := Z.shiftl 1 14 - LANG_CPP_98.
Definition LANG_MIN (l : c_lang_id_t) : c_lang_id_t := Z.shiftl 1 14 - l.

(** Di/trigraph mode. *)
Inductive c_graph_t := C_GRAPH_NONE | C_GRAPH_DI | C_GRAPH_TRI.

(** The option globals that the printers read. *)
Record options := {
  opt_alt_tokens : bool;        (* Print alternative tokens. *)
  opt_east_const : bool;        (* Print in "east const" form? *)
  opt_graph      : c_graph_t;   (* Di/Trigraph mode. *)
  opt_lang       : c_lang_id_t; (* Current language. *)
  opt_semicolon  : bool;        (* Print `;` at end of gibberish? *)
}.

Definition OPT_LANG_IS (o : options) (langs : c_lang_id_t) : bool :=
  negb (Z.land (opt_lang o) langs =? LANG_NONE).

(** [s[i]] of a NUL-terminated string: the terminator is read at (and, in
    this model, past) the end. *)
Definition char_at (s : string) (i : nat) : ascii :=
  match String.get i s with
  | Some c => c
  | None => zero
  end.

Open Scope string_scope.

(** src/gibberish.c, [graph_token_c]. *)
Definition graph_token_c (o : options) (token : string) : string :=
  if negb (opt_alt_tokens o) then
    match opt_graph o with
    | C_GRAPH_NONE => token
    | C_GRAPH_DI =>
        if (LANG_C_95 <=? opt_lang o)%Z then
          match char_at token 0 with
          | "#"%char => if Ascii.eqb (char_at token 1) "#" then "%:%:" else "%:"
          | "["%char => if Ascii.eqb (char_at token 1) "[" then "<:<:" else "<:"
          | "]"%char => if Ascii.eqb (char_at token 1) "]" then ":>:>" else ":>"
          | "{"%char => "<%"
          | "}"%char => "%>"
          | _ => token
          end
        else token
    | C_GRAPH_TRI =>
        if ((LANG_C_89 <=? opt_lang o) && (opt_lang o <=? LANG_CPP_14))%Z then
          match char_at token 0 with
          | "#"%char => "??="
          | "["%char => if Ascii.eqb (char_at token 1) "[" then "??(??(" else "??("
          | "]"%char => if Ascii.eqb (char_at token 1) "]" then "??)??)" else "??)"
          | "\"%char => "??/"
          | "^"%char => if Ascii.eqb (char_at token 1) "=" then "??'=" else "??'"
          | "{"%char => "??<"
          | "}"%char => "??>"
          | "|"%char => if Ascii.eqb (char_at token 1) "=" then "??!="
                   else if Ascii.eqb (char_at token 1) "|" then "??!??!"
                   else "??!"
          | "~"%char => "??-"
          | _ => token
          end
        else token
    end
  else token.

(** The spellings [graph_token_c] substitutes. *)
Definition digraph_spellings : list string :=
  [ "%:%:"; "%:"; "<:<:"; "<:"; ":>:>"; ":>"; "<%"; "%>" ]%string.

Definition trigraph_spellings : list string :=
  [ "??="; "??(??("; "??("; "??)??)"; "??)"; "??/"; "??'="; "??'"; "??<";
    "??>"; "??!="; "??!??!"; "??!"; "??-" ]%string.

End Options.

(* ------------------------------------------------------------------ *)
(** ** Results of code that can stop at an assertion *)

Module Outcome.

(** How a printer can stop early: it reached the assertion that guards
    against [K_PLACEHOLDER]; or another assertion failed (or a null pointer
    was followed). *)
Inductive failure := PlaceholderReached | AssertionFailed.

Inductive outcome (A : Type) : Type :=
  | Done (a : A)
  | Stop (f : failure).
Arguments Done {A} a.
Arguments Stop {A} f.

Definition bind {A B : Type} (m : outcome A) (k : A -> outcome B)
  : outcome B :=
  match m with
  | Done a => k a
  | Stop f => Stop f
  end.

(** [assert( b )]. *)
Definition assert (b : bool) : outcome unit :=
  if b then Done tt else Stop AssertionFailed.

(** An outcome that is a result. *)
Definition is_done {A : Type} (m : outcome A) : Prop :=
  match m with Done _ => True | Stop _ => False end.

(** The outcome is not the assertion against placeholders. *)
Definition npr {A : Type} (m : outcome A) : Prop :=
  m <> Stop PlaceholderReached.

End Outcome.

Declare Scope outcome_scope.
Delimit Scope outcome_scope with outcome.
Notation "x <- m ;; k" := (Outcome.bind m (fun x => k))
  (at level 61, m at next level, right associativity) : outcome_scope.
Notation "m ;;; k" := (Outcome.bind m (fun _ => k))
  (at level 61, right associativity) : outcome_scope.

(** Decimal digits of an integer, as [printf]'s [%d] writes them. *)
Definition string_of_Z (z : Z) : string :=
  DecimalString.NilZero.string_of_int (Z.to_int z).

(* ------------------------------------------------------------------ *)
(** ** src/english.c: the pseudo-English printer *)

Module English.
Import CType Outcome.
Open Scope string_scope.
Open Scope outcome_scope.

(** The kinds that the [switch] of [c_ast_visitor_english] lists. *)
Inductive c_kind_t :=
  | K_NONE | K_PLACEHOLDER
  | K_ARRAY | K_BLOCK | K_BUILTIN | K_ENUM_CLASS_STRUCT_UNION | K_FUNCTION
  | K_NAME | K_OPERATOR | K_POINTER | K_POINTER_TO_MEMBER | K_REFERENCE
  | K_RVALUE_REFERENCE | K_TYPEDEF | K_VARIADIC.

Definition c_kind_eqb (a b : c_kind_t) : bool :=
  match a, b with
  | K_NONE, K_NONE | K_PLACEHOLDER, K_PLACEHOLDER | K_ARRAY, K_ARRAY
  | K_BLOCK, K_BLOCK | K_BUILTIN, K_BUILTIN
  | K_ENUM_CLASS_STRUCT_UNION, K_ENUM_CLASS_STRUCT_UNION
  | K_FUNCTION, K_FUNCTION | K_NAME, K_NAME | K_OPERATOR, K_OPERATOR
  | K_POINTER, K_POINTER | K_POINTER_TO_MEMBER, K_POINTER_TO_MEMBER
  | K_REFERENCE, K_REFERENCE | K_RVALUE_REFERENCE, K_RVALUE_REFERENCE
  | K_TYPEDEF, K_TYPEDEF | K_VARIADIC, K_VARIADIC => true
  | _, _ => false
  end.

(** The fields of a [c_ast_t] that the printer reads; the members of the
    union [as] are laid side by side. *)
Record c_ast_data := {
  kind          : c_kind_t;
  name          : option string;  (* [name], null when there is none *)
  type_id       : c_type_id_t;
  array_size    : Z;              (* [as.array.size] *)
  array_type_id : c_type_id_t;    (* [as.array.type_id] *)
  ecsu_name     : string;         (* [as.ecsu.ecsu_name] *)
  class_name    : string;         (* [as.ptr_mbr.class_name] *)
  typedef_name  : string;         (* [as.c_typedef->ast->name] *)
}.

(** A node, the AST it is "of", "to" or "returning" ([as.parent.of_ast],
    null for a leaf), and its argument list ([c_ast_args]). *)
Inductive c_ast :=
  | C_AST (d : c_ast_data) (of_ast : option c_ast) (args : list c_ast).

Definition c_ast_d (ast : c_ast) : c_ast_data :=
  let '(C_AST d _ _) := ast in d.
Definition c_ast_of (ast : c_ast) : option c_ast :=
  let '(C_AST _ of_ast _) := ast in of_ast.
Definition c_ast_args (ast : c_ast) : list c_ast :=
  let '(C_AST _ _ args) := ast in args.

(** Functions of other translation units that compute strings or flags, with
    the constants they answer with. *)
Class names := {
  c_type_name     : c_type_id_t -> string;
  c_kind_name     : c_kind_t -> string;
  op_get_overload : c_ast -> Z;
  OP_MEMBER       : Z;
  OP_NON_MEMBER   : Z;
}.

(** Modelled from the spec: literals.h and c_ast.h are not among the
    sources.  A literal [L_X] is the word of the grammar of the English
    printer (4.6) that it names; the sentinel for a variable length array is
    negative, as every array size that is not printed is. *)
Definition L_ARRAY      := "array".
Definition L_AS         := "as".
Definition L_LENGTH     := "length".
Definition L_MEMBER     := "member".
Definition L_NON_MEMBER := "non-member".
Definition L_OF         := "of".
Definition L_POINTER    := "pointer".
Definition L_RETURNING  := "returning".
Definition L_TO         := "to".
Definition L_VARIABLE   := "variable".
Definition C_ARRAY_SIZE_NONE     : Z := -1.
Definition C_ARRAY_SIZE_VARIABLE : Z := -2.

(** [SP_AFTER(S)]: [S] and a space after it unless [S] is empty. *)
Definition SP_AFTER (s : string) : string :=
  s ++ (if String.eqb s "" then "" else " ").

(** Modelled from the spec: c_ast.c is not among the sources.  The kinds
    marked "parent" in the data model (3.3) have a child AST. *)
Definition c_ast_is_parent (d : c_ast_data) : bool :=
  match kind d with
  | K_ARRAY | K_BLOCK | K_FUNCTION | K_OPERATOR | K_POINTER
  | K_POINTER_TO_MEMBER | K_REFERENCE | K_RVALUE_REFERENCE => true
  | _ => false
  end.

(** Modelled from the spec: [c_ast_name( ast, V_DOWN )] walks down from
    [ast] to the first node that carries a name (4.3, "find"). *)
Fixpoint c_ast_name (ast : c_ast) : option string :=
  let '(C_AST d of_ast _) := ast in
  match name d with
  | Some n => Some n
  | None =>
      if c_ast_is_parent d then
        match of_ast with
        | Some child => c_ast_name child
        | None => None
        end
      else None
  end.

Section Visitor.
Context {N : names}.

(** What [c_ast_visit( arg, V_DOWN, c_ast_visitor_english, data )] does with
    the output so far. *)
Variable visit : c_ast -> string -> outcome string.

(** The loop over the arguments of a function-like AST; [comma] is the
    flag that [true_or_set] reads and sets. *)
Fixpoint visit_args (args : list c_ast) (comma : bool) (eout : string)
  : outcome string :=
  match args with
  | [] => Done eout
  | arg_ast :: next =>
      let eout := if comma then eout ++ ", " else eout in
      let eout :=
        if negb (c_kind_eqb (kind (c_ast_d arg_ast)) K_NAME) then
          match c_ast_name arg_ast with
          | Some name => eout ++ name ++ " " ++ L_AS ++ " "
          | None => eout
          end
        else eout in
      eout <- visit arg_ast eout ;;
      visit_args next true eout
  end.

(** src/english.c, [c_ast_visitor_english]: the output after the call and
    the flag it returns. *)
Definition c_ast_visitor_english (ast : c_ast) (eout : string)
  : outcome (bool * string) :=
  let d := c_ast_d ast in
  match kind d with
  | K_ARRAY =>
      let eout :=
        if negb (type_id d =? T_NONE)%Z     (* storage class *)
        then eout ++ c_type_name (type_id d) ++ " " else eout in
      let eout :=
        if (array_size d =? C_ARRAY_SIZE_VARIABLE)%Z
        then eout ++ L_VARIABLE ++ " " ++ L_LENGTH ++ " " else eout in
      let eout := eout ++ L_ARRAY ++ " " in
      let eout :=
        if negb (array_type_id d =? T_NONE)%Z
        then eout ++ c_type_name (array_type_id d) ++ " " else eout in
      let eout :=
        if (0 <=? array_size d)%Z
        then eout ++ string_of_Z (array_size d) ++ " " else eout in
      Done (false, eout ++ L_OF ++ " ")

  | K_BLOCK                         (* Apple extension *)
  | K_FUNCTION
  | K_OPERATOR =>
      let eout :=
        if negb (type_id d =? T_NONE)%Z     (* storage class *)
        then eout ++ c_type_name (type_id d) ++ " " else eout in
      let eout :=
        match kind d with
        | K_FUNCTION =>
            if negb (Z.land (type_id d) T_MEMBER_ONLY =? T_NONE)%Z
            then eout ++ L_MEMBER ++ " " else eout
        | K_OPERATOR =>
            let overload_flags := op_get_overload ast in
            let op_literal :=
              if (overload_flags =? OP_MEMBER)%Z then L_MEMBER
              else if (overload_flags =? OP_NON_MEMBER)%Z then L_NON_MEMBER
              else "" in
            eout ++ SP_AFTER op_literal
        | _ => eout
        end in
      let eout := eout ++ c_kind_name (kind d) in
      eout <-
        match c_ast_args ast with
        | [] => Done eout
        | args =>
            let eout := eout ++ " (" in   (* print function arguments *)
            eout <- visit_args args false eout ;;
            Done (eout ++ ")")
        end ;;
      Done (false, eout ++ " " ++ L_RETURNING ++ " ")

  | K_BUILTIN =>
      Done (false, eout ++ c_type_name (type_id d))

  | K_ENUM_CLASS_STRUCT_UNION =>
      Done (false, eout ++ c_type_name (type_id d) ++ " " ++ ecsu_name d)

  | K_NAME =>
      match name d with
      | Some n => Done (false, eout ++ n)
      | None => Done (false, eout)
      end

  | K_NONE => Stop AssertionFailed
  | K_PLACEHOLDER => Stop PlaceholderReached

  | K_POINTER
  | K_REFERENCE
  | K_RVALUE_REFERENCE =>
      let qualifier := Z.land (type_id d) T_MASK_QUALIFIER in
      let eout :=
        if negb (qualifier =? T_NONE)%Z
        then eout ++ c_type_name qualifier ++ " " else eout in
      Done (false, eout ++ c_kind_name (kind d) ++ " " ++ L_TO ++ " ")

  | K_POINTER_TO_MEMBER =>
      let qualifier := Z.land (type_id d) T_MASK_QUALIFIER in
      let eout :=
        if negb (qualifier =? T_NONE)%Z
        then eout ++ c_type_name qualifier ++ " " else eout in
      let eout :=
        eout ++ L_POINTER ++ " " ++ L_TO ++ " " ++ L_MEMBER ++ " " ++ L_OF
             ++ " " in
      let name :=
        c_type_name (Z.land (type_id d) (Z.lnot T_MASK_QUALIFIER)) in
      Done (false, eout ++ SP_AFTER name ++ class_name d ++ " ")

  | K_TYPEDEF =>
      let eout :=
        if negb (type_id d =? T_TYPEDEF_TYPE)%Z
        then eout ++ c_type_name (type_id d) ++ " " else eout in
      Done (false, eout ++ typedef_name d)

  | K_VARIADIC =>
      Done (false, eout ++ c_kind_name (kind d))
  end.

End Visitor.

(** Modelled from the spec: [c_ast_visit] is defined in c_ast.c, which is not
    among the sources.  Visiting down (4.2) calls the visitor on a node
    before its child (pre-order); it stops at a node for which the visitor
    returns true and otherwise goes on with the AST that a parent node is
    "of", "to" or "returning", the one traversal of the grammar of 4.6.
    The visitor is [c_ast_visitor_english], which visits the arguments of a
    function-like node itself. *)
Fixpoint c_ast_visit_down {N : names} (ast : c_ast) (eout : string)
  : outcome string :=
  r <- c_ast_visitor_english c_ast_visit_down ast eout ;;
  let '(found, eout) := r in
  if found then Done eout
  else if c_ast_is_parent (c_ast_d ast) then
    match c_ast_of ast with
    | Some child => c_ast_visit_down child eout
    | None => Done eout
    end
  else Done eout.

(** src/english.c, [c_ast_english]. *)
Definition c_ast_english {N : names} (ast : c_ast) (eout : string)
  : outcome string :=
  c_ast_visit_down ast eout.

(** The parameter list in the words of the specification (4.6): a typed
    parameter that carries a name reads "<name> as <english>", an unnamed one
    "<english>", an untyped K&R one "<name>"; commas separate them. *)
Definition english_of {N : names} (ast : c_ast) : outcome string :=
  c_ast_english ast "".

Definition param_phrase {N : names} (arg_ast : c_ast) : outcome string :=
  match kind (c_ast_d arg_ast) with
  | K_NAME =>
      match name (c_ast_d arg_ast) with
      | Some n => Done n
      | None => Done ""
      end
  | _ =>
      english <- english_of arg_ast ;;
      match c_ast_name arg_ast with
      | Some n => Done (n ++ " as " ++ english)
      | None => Done english
      end
  end.

Fixpoint param_phrases {N : names} (args : list c_ast)
  : outcome (list string) :=
  match args with
  | [] => Done []
  | a :: rest =>
      p <- param_phrase a ;;
      ps <- param_phrases rest ;;
      Done (p :: ps)
  end.

(** What is written before the parameter list of a function-like node. *)
Definition func_head {N : names} (ast : c_ast) : string :=
  let d := c_ast_d ast in
  (if negb (type_id d =? T_NONE)%Z then c_type_name (type_id d) ++ " "
   else "")
  ++ match kind d with
     | K_FUNCTION =>
         if negb (Z.land (type_id d) T_MEMBER_ONLY =? T_NONE)%Z
         then L_MEMBER ++ " " else ""
     | K_OPERATOR =>
         SP_AFTER
           (if (op_get_overload ast =? OP_MEMBER)%Z then L_MEMBER
            else if (op_get_overload ast =? OP_NON_MEMBER)%Z
                 then L_NON_MEMBER
                 else "")
     | _ => ""
     end
  ++ c_kind_name (kind d).

Definition is_function_like (k : c_kind_t) : bool :=
  match k with
  | K_BLOCK | K_FUNCTION | K_OPERATOR => true
  | _ => false
  end.

(** No node of the AST is a placeholder. *)
Fixpoint no_placeholder (ast : c_ast) : bool :=
  let '(C_AST d of_ast args) := ast in
  negb (c_kind_eqb (kind d) K_PLACEHOLDER)
  && match of_ast with
     | Some child => no_placeholder child
     | None => true
     end
  && forallb no_placeholder args.

(** A [names] to run the printer with: types by the keyword of their first
    bit, kinds by the word of the grammar. *)
Definition demo_type_name (t : c_type_id_t) : string :=
  if (Z.land t T_CONST =? 0)%Z then
    if (Z.land t T_INT =? 0)%Z then
      if (Z.land t T_CHAR =? 0)%Z then
        if (Z.land t T_DOUBLE =? 0)%Z then "void" else "double"
      else "char"
    else "int"
  else "const".

Definition demo_kind_name (k : c_kind_t) : string :=
  match k with
  | K_NONE => "none" | K_PLACEHOLDER => "placeholder" | K_ARRAY => "array"
  | K_BLOCK => "block" | K_BUILTIN => "built-in type"
  | K_ENUM_CLASS_STRUCT_UNION => "enum, class, struct, or union"
  | K_FUNCTION => "function" | K_NAME => "name" | K_OPERATOR => "operator"
  | K_POINTER => "pointer" | K_POINTER_TO_MEMBER => "pointer-to-member"
  | K_REFERENCE => "reference" | K_RVALUE_REFERENCE => "rvalue reference"
  | K_TYPEDEF => "typedef" | K_VARIADIC => "..."
  end.

Definition demo_names : names := {|
  c_type_name := demo_type_name;
  c_kind_name := demo_kind_name;
  op_get_overload := fun _ => 0%Z;
  OP_MEMBER := 1%Z;
  OP_NON_MEMBER := 2%Z;
|}.

Definition mk_data (k : c_kind_t) (n : option string) (t : c_type_id_t)
  : c_ast_data :=
  {| kind := k; name := n; type_id := t;
     array_size := C_ARRAY_SIZE_NONE; array_type_id := T_NONE;
     ecsu_name := ""; class_name := ""; typedef_name := "" |}.

(** [f] as function (x as int, char, y) returning pointer to char, with [y]
    an untyped K&R parameter. *)
Definition demo_func : c_ast :=
  C_AST (mk_data K_FUNCTION (Some "f") T_NONE)
    (Some (C_AST (mk_data K_POINTER None T_NONE)
             (Some (C_AST (mk_data K_BUILTIN None T_CHAR) None [])) []))
    [ C_AST (mk_data K_BUILTIN (Some "x") T_INT) None [];
      C_AST (mk_data K_BUILTIN None T_CHAR) None [];
      C_AST (mk_data K_NAME (Some "y") T_NONE) None [] ].

(** A writer only appends: it either stops whatever the output so far, or
    appends a text that does not depend on it. *)
Definition appends (w : string -> outcome string) : Prop :=
  forall eout, w eout = (s <- w "" ;; Done (eout ++ s)).

(** The separator that the argument loop writes before its first argument:
    none unless the comma flag is already set. *)
Definition sep_before (comma : bool) (args : list c_ast) : string :=
  if comma then match args with [] => "" | _ => ", " end else "".

End English.

(* ------------------------------------------------------------------ *)
(** ** src/gibberish.c: the C/C++ declaration printer *)

Module Gibberish.
Import CType Options Outcome.
Open Scope string_scope.
Open Scope outcome_scope.

(** The kinds that the [switch] statements of gibberish.c list. *)
Inductive c_ast_kind_t :=
  | K_PLACEHOLDER | K_BUILTIN | K_ENUM_CLASS_STRUCT_UNION | K_NAME
  | K_TYPEDEF | K_VARIADIC
  | K_ARRAY | K_POINTER | K_POINTER_TO_MEMBER | K_REFERENCE
  | K_RVALUE_REFERENCE
  | K_CONSTRUCTOR | K_DESTRUCTOR
  | K_APPLE_BLOCK | K_FUNCTION | K_OPERATOR | K_USER_DEF_CONVERSION
  | K_USER_DEF_LITERAL.

Definition c_ast_kind_eq_dec (a b : c_ast_kind_t) : {a = b} + {a <> b}.
Proof. decide equality. Defined.

Definition kind_eqb (a b : c_ast_kind_t) : bool :=
  if c_ast_kind_eq_dec a b then true else false.

(** A bitwise-or of kinds is used as a set of kinds only; it is modelled as
    the list of them. *)
Definition kind_in (k : c_ast_kind_t) (kinds : list c_ast_kind_t) : bool :=
  existsb (kind_eqb k) kinds.

(** src/c_kind.h. *)
Definition K_ANY_FUNCTION_LIKE :=
  [ K_APPLE_BLOCK; K_CONSTRUCTOR; K_DESTRUCTOR; K_FUNCTION; K_OPERATOR;
    K_USER_DEF_CONVERSION; K_USER_DEF_LITERAL ].
Definition K_ANY_POINTER   := [ K_POINTER; K_POINTER_TO_MEMBER ].
Definition K_ANY_REFERENCE := [ K_REFERENCE; K_RVALUE_REFERENCE ].
(** [enum] is a parent kind; in gibberish.c it shares the kind
    [K_ENUM_CLASS_STRUCT_UNION]. *)
Definition K_ANY_PARENT :=
  (K_ANY_FUNCTION_LIKE ++ K_ANY_POINTER ++ K_ANY_REFERENCE
   ++ [ K_ARRAY; K_ENUM_CLASS_STRUCT_UNION ])%list.

(** Modelled from the spec: the header that declares [c_type_t], the
    [TB_], [TS_] and [TA_] bits and [c_tid_compl] for gibberish.c is not
    among the sources.  A type has its base types, its storage classes and
    qualifiers, and its attributes apart; each bit is the bit of the [T_]
    constant of the same name in src/c_type.h (the sectors of 3.1), "none"
    is zero, and [c_tid_compl] is the complement within 64 bits. *)
Definition c_tid_t := Z.
Record c_type_t := {
  btids : c_tid_t;
  stids : c_tid_t;
  atids : c_tid_t;
}.
Definition TB_NONE : c_tid_t := T_NONE.
Definition TS_NONE : c_tid_t := T_NONE.
Definition TA_NONE : c_tid_t := T_NONE.
Definition TB_ENUM      := T_ENUM.
Definition TB_STRUCT    := T_STRUCT.
Definition TB_CLASS     := T_CLASS.
Definition TB_NAMESPACE := T_NAMESPACE.
Definition TB_SCOPE     := T_SCOPE.
Definition TB_TYPEDEF   := T_TYPEDEF_TYPE.
Definition TS_ATOMIC       := T_ATOMIC.
Definition TS_CV           := Z.lor T_CONST T_VOLATILE.
Definition TS_DEFAULT      := T_DEFAULT.
Definition TS_DELETE       := T_DELETE.
Definition TS_FINAL        := T_FINAL.
Definition TS_INLINE       := T_INLINE.
Definition TS_NOEXCEPT     := T_NOEXCEPT.
Definition TS_OVERRIDE     := T_OVERRIDE.
Definition TS_PURE_VIRTUAL := T_PURE_VIRTUAL.
Definition TS_REFERENCE    := T_REFERENCE.
Definition TS_THROW        := T_THROW.
Definition TS_VIRTUAL      := T_VIRTUAL.
Definition TS_MASK_QUALIFIER     := T_MASK_QUALIFIER.
Definition TS_MASK_REF_QUALIFIER := T_MASK_REF_QUALIFIER.
Definition TS_MASK_STORAGE       := T_MASK_STORAGE.

Definition c_tid_compl (tids : c_tid_t) : c_tid_t :=
  Z.land (Z.lnot tids) 0xFFFFFFFFFFFFFFFF.

Definition c_tid_is_any (tids is_tids : c_tid_t) : bool :=
  negb (Z.land tids is_tids =? 0)%Z.

Definition c_type_is_none (type : c_type_t) : bool :=
  (btids type =? TB_NONE)%Z && (stids type =? TS_NONE)%Z
  && (atids type =? TA_NONE)%Z.

Definition c_type_equal (i j : c_type_t) : bool :=
  (btids i =? btids j)%Z && (stids i =? stids j)%Z
  && (atids i =? atids j)%Z.

(** [c_type_is_tid_any]: the bits of [tids] are bits of one part of a type;
    the parts are disjoint sectors. *)
Definition c_type_is_tid_any (type : c_type_t) (tids : c_tid_t) : bool :=
  c_tid_is_any (Z.lor (Z.lor (btids type) (stids type)) (atids type)) tids.

Definition T_NONE_type : c_type_t :=
  {| btids := TB_NONE; stids := TS_NONE; atids := TA_NONE |}.
Definition C_TYPE_LIT_B (b : c_tid_t) : c_type_t :=
  {| btids := b; stids := TS_NONE; atids := TA_NONE |}.
Definition set_btids (b : c_tid_t) (t : c_type_t) : c_type_t :=
  {| btids := b; stids := stids t; atids := atids t |}.
Definition set_stids (s : c_tid_t) (t : c_type_t) : c_type_t :=
  {| btids := btids t; stids := s; atids := atids t |}.
Definition set_atids (a : c_tid_t) (t : c_type_t) : c_type_t :=
  {| btids := btids t; stids := stids t; atids := a |}.

(** Modelled from the spec: a scoped name is an ordered sequence of
    (scope-type, identifier) segments (3.2); c_sname.h is not among the
    sources. *)
Record c_scope_data := {
  scope_name : string;
  scope_type : c_type_t;
}.
Definition c_sname_t := list c_scope_data.

Definition c_sname_count (sname : c_sname_t) : nat := List.length sname.
Definition c_sname_empty (sname : c_sname_t) : bool :=
  match sname with [] => true | _ => false end.
(** The type of the first scope. *)
Definition c_sname_first_type (sname : c_sname_t) : c_type_t :=
  match sname with
  | s :: _ => scope_type s
  | [] => T_NONE_type
  end.
(** The scope's type: the type of the next to last segment, the [T] of
    [S::T::I]. *)
Definition c_sname_scope_type (sname : c_sname_t) : c_type_t :=
  c_sname_first_type (List.skipn (List.length sname - 2) sname).

(** Alignment (3.4). *)
Inductive c_alignas_kind := C_ALIGNAS_NONE | C_ALIGNAS_EXPR | C_ALIGNAS_TYPE.

(** Modelled from the spec: an array size is a non-negative integer or one
    of two sentinels (3.3); c_ast.h is not among the sources. *)
Definition C_ARRAY_SIZE_NONE     : Z := -1.
Definition C_ARRAY_SIZE_VARIABLE : Z := -2.

(** The fields of a [c_ast_t] that the printer reads; the members of the
    union [as] are laid side by side. *)
Record c_ast_data := {
  kind        : c_ast_kind_t;
  type        : c_type_t;
  sname       : c_sname_t;
  align_kind  : c_alignas_kind;   (* [align.kind] *)
  align_expr  : Z;                (* [align.as.expr] *)
  bit_width   : Z;                (* [as.builtin.bit_width] *)
  array_size  : Z;                (* [as.array.size] *)
  array_stids : c_tid_t;          (* [as.array.stids] *)
  oper_id     : Z;                (* [as.oper.oper_id] *)
  ecsu_sname  : c_sname_t;        (* [as.ecsu.ecsu_sname] *)
  class_sname : c_sname_t;        (* [as.ptr_mbr.class_sname] *)
}.

(** A node with the ASTs it points to, each null or an AST:
    [as.parent.of_ast] (the same member as [as.array.of_ast],
    [as.func.ret_ast], [as.ptr_ref.to_ast], [as.ptr_mbr.of_ast] and
    [as.ecsu.of_ast]), the parameters [as.func.param_ast_list],
    [align.as.type_ast] and [as.tdef.for_ast].  The AST is a tree (3.2):
    [parent_ast] is not stored, the printer is handed the chain of
    ancestors instead. *)
Inductive c_ast :=
  | C_AST (d : c_ast_data) (of_ast : option c_ast)
          (param_ast_list : list c_ast)
          (align_type_ast : option c_ast) (for_ast : option c_ast).

Definition c_ast_d (ast : c_ast) : c_ast_data :=
  let '(C_AST d _ _ _ _) := ast in d.
Definition c_ast_of (ast : c_ast) : option c_ast :=
  let '(C_AST _ of_ast _ _ _) := ast in of_ast.
Definition c_ast_params (ast : c_ast) : list c_ast :=
  let '(C_AST _ _ params _ _) := ast in params.
Definition c_ast_align_type (ast : c_ast) : option c_ast :=
  let '(C_AST _ _ _ a _) := ast in a.
Definition c_ast_for (ast : c_ast) : option c_ast :=
  let '(C_AST _ _ _ _ f) := ast in f.
Definition c_ast_kind (ast : c_ast) : c_ast_kind_t := kind (c_ast_d ast).

(** A registered typedef. *)
Record c_typedef_t := {
  tdef_ast      : c_ast;          (* [ast] *)
  tdef_lang_ids : c_lang_id_t;    (* [lang_ids] *)
}.

(** Functions of other translation units that compute strings, and constants
    of headers that are not among the sources. *)
Class names := {
  c_type_name_c      : options -> c_type_t -> string;
  c_type_name_ecsu   : options -> c_type_t -> string;
  c_tid_name_c       : options -> c_tid_t -> string;
  c_oper_token_c     : Z -> string;
  alignas_lang       : options -> string;
  c_sname_full_name  : c_sname_t -> string;
  c_sname_local_name : c_sname_t -> string;
  c_sname_scope_name : c_sname_t -> string;
  TA_ANY_MSC_CALL    : c_tid_t;
  C_GIB_CAST         : Z;
  C_GIB_DECL         : Z;
  C_GIB_MULTI_DECL   : Z;
  C_GIB_OMIT_TYPE    : Z;
  C_GIB_TYPEDEF      : Z;
  C_GIB_USING        : Z;
}.

(** Modelled from the spec: literals.h is not among the sources.  A literal
    [L_X] is the keyword or token that it names (4.7). *)
Definition L_AND      := "and".
Definition L_BITAND   := "bitand".
Definition L_COMPL    := "compl".
Definition L_DEFAULT  := "default".
Definition L_DELETE   := "delete".
Definition L_ELLIPSIS := "...".
Definition L_FINAL    := "final".
Definition L_INT      := "int".
Definition L_NOEXCEPT := "noexcept".
Definition L_OPERATOR := "operator".
Definition L_OVERRIDE := "override".
Definition L_THROW    := "throw".
Definition L_TYPEDEF  := "typedef".
Definition L_USING    := "using".

(** A string of one double quote. *)
Definition dquote : string := String (ascii_of_nat 34) "".

(** [isalpha] in the C locale. *)
Definition isalpha (c : ascii) : bool :=
  let n := nat_of_ascii c in
  ((65 <=? n) && (n <=? 90) || (97 <=? n) && (n <=? 122))%nat.

(** Modelled from the spec: the helpers on ASTs below are declared in
    src/c_ast_util.h or belong to c_ast.h; their bodies are not among the
    sources.  [up] is the chain of ancestors that [parent_ast] links,
    nearest first. *)
Definition c_ast_is_parent (ast : option c_ast) : bool :=
  match ast with
  | Some a => kind_in (c_ast_kind a) K_ANY_PARENT
  | None => false
  end.

(** "Checks whether [ast] is an AST of one of [kinds] or a reference or
    rvalue reference thereto." *)
Definition c_ast_is_kind_any (ast : c_ast) (kinds : list c_ast_kind_t)
  : bool :=
  if kind_in (c_ast_kind ast) K_ANY_REFERENCE then
    match c_ast_of ast with
    | Some to_ast => kind_in (c_ast_kind to_ast) kinds
    | None => false
    end
  else kind_in (c_ast_kind ast) kinds.

Definition c_ast_parent_is_kind (up : list c_ast)
           (kinds : list c_ast_kind_t) : bool :=
  match up with
  | parent_ast :: _ => c_ast_is_kind_any parent_ast kinds
  | [] => false
  end.

(** "If [ast] is a [K_TYPEDEF], returns the underlying type AST." *)
Fixpoint c_ast_untypedef (ast : c_ast) : c_ast :=
  match ast with
  | C_AST d _ _ _ (Some for_ast) =>
      match kind d with
      | K_TYPEDEF => c_ast_untypedef for_ast
      | _ => ast
      end
  | _ => ast
  end.

(** "If [ast] is a [K_POINTER], returns the pointed-to AST", typedefs
    stripped, "or null if [ast] is not a pointer". *)
Definition c_ast_unpointer (ast : c_ast) : option c_ast :=
  let ast := c_ast_untypedef ast in
  match c_ast_kind ast with
  | K_POINTER => option_map c_ast_untypedef (c_ast_of ast)
  | _ => None
  end.

Definition c_ast_is_ptr_to_kind (ast : c_ast) (kinds : list c_ast_kind_t)
  : bool :=
  match c_ast_unpointer ast with
  | Some to_ast => kind_in (c_ast_kind to_ast) kinds
  | None => false
  end.

(** [c_ast_find_name( ast, C_VISIT_UP )]: the name of the first node, from
    [ast] up, that has one. *)
Fixpoint c_ast_find_name_up (nodes : list c_ast) : option c_sname_t :=
  match nodes with
  | [] => None
  | ast :: up =>
      if c_sname_empty (sname (c_ast_d ast)) then c_ast_find_name_up up
      else Some (sname (c_ast_d ast))
  end.

(** [c_ast_find_name( ast, C_VISIT_DOWN )]. *)
Fixpoint c_ast_find_name_down (ast : c_ast) : option c_sname_t :=
  match ast with
  | C_AST d of_ast _ _ _ =>
      if c_sname_empty (sname d) then
        if kind_in (kind d) K_ANY_PARENT then
          match of_ast with
          | Some child => c_ast_find_name_down child
          | None => None
          end
        else None
      else Some (sname d)
  end.

(** [c_ast_find_kind_any( ast, C_VISIT_UP, kinds )]. *)
Fixpoint c_ast_find_kind_any_up (nodes : list c_ast)
         (kinds : list c_ast_kind_t) : option c_ast :=
  match nodes with
  | [] => None
  | ast :: up =>
      if kind_in (c_ast_kind ast) kinds then Some ast
      else c_ast_find_kind_any_up up kinds
  end.

(** State maintained by [c_ast_gibberish]; [gout] is what has been written
    to the [FILE]. *)
Record g_state := {
  flags               : Z;
  gout                : string;
  postfix             : bool;
  printed_space       : bool;
  printing_typedef    : bool;
  skip_name_for_using : bool;
}.

Definition set_gout (s : string) (g : g_state) : g_state :=
  {| flags := flags g; gout := s; postfix := postfix g;
     printed_space := printed_space g;
     printing_typedef := printing_typedef g;
     skip_name_for_using := skip_name_for_using g |}.
Definition set_postfix (b : bool) (g : g_state) : g_state :=
  {| flags := flags g; gout := gout g; postfix := b;
     printed_space := printed_space g;
     printing_typedef := printing_typedef g;
     skip_name_for_using := skip_name_for_using g |}.
Definition set_printed_space (b : bool) (g : g_state) : g_state :=
  {| flags := flags g; gout := gout g; postfix := postfix g;
     printed_space := b;
     printing_typedef := printing_typedef g;
     skip_name_for_using := skip_name_for_using g |}.
Definition set_skip_name_for_using (b : bool) (g : g_state) : g_state :=
  {| flags := flags g; gout := gout g; postfix := postfix g;
     printed_space := printed_space g;
     printing_typedef := printing_typedef g;
     skip_name_for_using := b |}.

(** [FPUTS], [FPUTC] and [FPRINTF] on [g->gout]. *)
Definition FPUTS (s : string) (g : g_state) : g_state :=
  set_gout (gout g ++ s) g.

(** [(flags & bits) != 0]. *)
Definition flag_set (fl bits : Z) : bool := negb (Z.land fl bits =? 0)%Z.

Section Printer.
Context {N : names}.
Variable o : options.

(** [g_print_space_once]; [false_set( &flag )] sets a false flag and tells
    whether it was false. *)
Definition g_print_space_once (g : g_state) : g_state :=
  if printed_space g then g
  else FPUTS " " (set_printed_space true g).

(** [g_init]. *)
Definition g_init (fl : Z) (printing_typedef : bool) (gout : string)
  : g_state :=
  {| flags := fl; gout := gout; postfix := false;
     printed_space := flag_set fl C_GIB_OMIT_TYPE;
     printing_typedef := printing_typedef;
     skip_name_for_using := flag_set fl C_GIB_USING |}.

(** [g_print_ast_name]. *)
Definition g_print_ast_name (g : g_state) (ast : c_ast) : g_state :=
  if skip_name_for_using g then
    set_printed_space true (set_skip_name_for_using false g)
  else
    FPUTS (if flag_set (flags g) C_GIB_TYPEDEF
           then c_sname_local_name (sname (c_ast_d ast))
           else c_sname_full_name (sname (c_ast_d ast))) g.

(** [g_print_space_ast_name]. *)
Definition g_print_space_ast_name (g : g_state) (ast : c_ast) : g_state :=
  let d := c_ast_d ast in
  if flag_set (flags g) C_GIB_CAST then g   (* for casts, print nothing *)
  else
    match kind d with
    | K_CONSTRUCTOR => FPUTS (c_sname_full_name (sname d)) g
    | K_DESTRUCTOR =>
        let g := if (1 <? c_sname_count (sname d))%nat
                 then FPUTS (c_sname_scope_name (sname d) ++ "::") g
                 else g in
        let g := if opt_alt_tokens o then FPUTS (L_COMPL ++ " ") g
                 else FPUTS "~" g in
        FPUTS (c_sname_local_name (sname d)) g
    | K_OPERATOR =>
        let g := g_print_space_once g in
        let g := if negb (c_sname_empty (sname d))
                 then FPUTS (c_sname_full_name (sname d) ++ "::") g
                 else g in
        let token := c_oper_token_c (oper_id d) in
        FPUTS (L_OPERATOR ++ (if isalpha (char_at token 0) then " " else "")
                          ++ token) g
    | K_USER_DEF_CONVERSION => g  (* these don't have names *)
    | K_USER_DEF_LITERAL =>
        let g := g_print_space_once g in
        let g := if (1 <? c_sname_count (sname d))%nat
                 then FPUTS (c_sname_scope_name (sname d) ++ "::") g
                 else g in
        FPUTS (L_OPERATOR ++ dquote ++ dquote ++ " "
                          ++ c_sname_local_name (sname d)) g
    | _ =>
        if negb (c_sname_empty (sname d)) then
          let g := if negb (skip_name_for_using g)
                   then g_print_space_once g else g in
          g_print_ast_name g ast
        else g
    end.

(** [g_print_ast_array_size]. *)
Definition g_print_ast_array_size (g : g_state) (ast : c_ast)
  : outcome g_state :=
  let d := c_ast_d ast in
  assert (kind_eqb (kind d) K_ARRAY) ;;;
  let g := FPUTS (graph_token_c o "[") g in
  let g := if negb (array_stids d =? TS_NONE)%Z
           then FPUTS (c_tid_name_c o (array_stids d) ++ " ") g else g in
  let g :=
    if (array_size d =? C_ARRAY_SIZE_NONE)%Z then g
    else if (array_size d =? C_ARRAY_SIZE_VARIABLE)%Z then FPUTS "*" g
    else FPUTS (string_of_Z (array_size d)) g in
  Done (FPUTS (graph_token_c o "]") g).

(** [g_print_ast_bit_width]. *)
Definition g_print_ast_bit_width (g : g_state) (ast : c_ast)
  : outcome g_state :=
  assert (c_ast_is_kind_any ast [K_BUILTIN; K_TYPEDEF]) ;;;
  if (0 <? bit_width (c_ast_d ast))%Z
  then Done (FPUTS (" : " ++ string_of_Z (bit_width (c_ast_d ast))) g)
  else Done g.

(** [g_print_qual_name]; [up] are the ancestors of [ast]. *)
Definition g_print_qual_name (g : g_state) (up : list c_ast) (ast : c_ast)
  : g_state :=
  let d := c_ast_d ast in
  let qual_stid := Z.land (stids (type d)) TS_MASK_QUALIFIER in
  let g :=
    match kind d with
    | K_POINTER =>
        let g :=
          if negb (qual_stid =? TS_NONE)%Z
             && negb (flag_set (flags g) C_GIB_CAST)
             && negb (c_ast_is_ptr_to_kind ast [K_FUNCTION])
          then g_print_space_once g else g in
        FPUTS "*" g
    | K_POINTER_TO_MEMBER =>
        FPUTS (c_sname_full_name (class_sname d) ++ "::*") g
    | K_REFERENCE =>
        if opt_alt_tokens o
        then FPUTS (L_BITAND ++ " ") (g_print_space_once g)
        else FPUTS "&" g
    | K_RVALUE_REFERENCE =>
        if opt_alt_tokens o
        then FPUTS (L_AND ++ " ") (g_print_space_once g)
        else FPUTS "&&" g
    | _ => g
    end in
  let g :=
    if negb (qual_stid =? TS_NONE)%Z then
      let g := FPUTS (c_tid_name_c o qual_stid) g in
      if flag_set (flags g) (Z.lor C_GIB_DECL C_GIB_TYPEDEF)
         && match c_ast_find_name_up (ast :: up) with
            | Some _ => true
            | None => false
            end
      then FPUTS " " g else g
    else g in
  g_print_ast_name g ast.

(** [g_space_before_ptr_ref]. *)
Definition g_space_before_ptr_ref (g : g_state) (up : list c_ast)
           (ast : c_ast) : bool :=
  if skip_name_for_using g then false
  else if flag_set (flags g) C_GIB_CAST then false
  else match c_ast_find_name_up (ast :: up) with
       | None => false
       | Some _ =>
           match c_ast_find_kind_any_up up K_ANY_FUNCTION_LIKE with
           | Some _ => flag_set (flags g) C_GIB_MULTI_DECL
           | None => true
           end
       end.

End Printer.

(** The local variables of [g_print_ast] that its cases share. *)
Record g_locals := {
  l_type          : c_type_t;
  cv_qual_stid    : c_tid_t;
  is_default      : bool;
  is_delete       : bool;
  is_final        : bool;
  is_noexcept     : bool;
  is_override     : bool;
  is_pure_virtual : bool;
  is_throw        : bool;
  msc_call_atid   : c_tid_t;
  ref_qual_stid   : c_tid_t;
}.

(** Their initial values, at the head of [g_print_ast]. *)
Definition g_locals_init (type : c_type_t) : g_locals :=
  {| l_type := type; cv_qual_stid := TS_NONE;
     is_default := false; is_delete := false; is_final := false;
     is_noexcept := false; is_override := false; is_pure_virtual := false;
     is_throw := false; msc_call_atid := TA_NONE;
     ref_qual_stid := TS_NONE |}.


Section Tail.
Context {N : names}.
Variable o : options.

(** [g_print_ast], the statements of the function-like cases up to the
    fall-through into the case of [K_ARRAY]: what is printed after the
    parameters is stripped out of the type. *)
Definition g_func_locals (type : c_type_t) : g_locals :=
  let cv_qual_stid    := Z.land (stids type) TS_MASK_QUALIFIER in
  let is_default      := negb (Z.land (stids type) TS_DEFAULT =? TS_NONE)%Z in
  let is_delete       := negb (Z.land (stids type) TS_DELETE =? TS_NONE)%Z in
  let is_final        := negb (Z.land (stids type) TS_FINAL =? TS_NONE)%Z in
  let is_noexcept     := negb (Z.land (stids type) TS_NOEXCEPT =? TS_NONE)%Z in
  let is_pure_virtual :=
    negb (Z.land (stids type) TS_PURE_VIRTUAL =? TS_NONE)%Z in
  let is_throw        := negb (Z.land (stids type) TS_THROW =? TS_NONE)%Z in
  let ref_qual_stid   := Z.land (stids type) TS_MASK_REF_QUALIFIER in
  (* In C++, "override" should be printed only if "final" isn't. *)
  let is_override     :=
    negb is_final && negb (Z.land (stids type) TS_OVERRIDE =? TS_NONE)%Z in
  let type :=
    set_stids
      (Z.land (stids type)
         (c_tid_compl
            (fold_right Z.lor 0%Z
               [ TS_MASK_QUALIFIER; TS_DEFAULT; TS_DELETE; TS_FINAL;
                 TS_NOEXCEPT; TS_OVERRIDE; TS_PURE_VIRTUAL; TS_THROW;
                 TS_MASK_REF_QUALIFIER;
                 (* In C++, if either "override" or "final" is printed,
                    "virtual" shouldn't be. *)
                 if is_override || is_final then TS_VIRTUAL else TS_NONE ])))
      type in
  (* Microsoft calling conventions are printed specially. *)
  let msc_call_atid := Z.land (atids type) TA_ANY_MSC_CALL in
  let type :=
    set_atids (Z.land (atids type) (c_tid_compl TA_ANY_MSC_CALL)) type in
  (* Depending on the C++ language version, change noexcept to throw() or
     vice versa. *)
  let '(is_noexcept, is_throw) :=
    if (opt_lang o <? LANG_CPP_11)%Z then
      if is_noexcept then (false, true) else (is_noexcept, is_throw)
    else
      if is_throw then (true, false) else (is_noexcept, is_throw) in
  {| l_type := type; cv_qual_stid := cv_qual_stid;
     is_default := is_default; is_delete := is_delete; is_final := is_final;
     is_noexcept := is_noexcept; is_override := is_override;
     is_pure_virtual := is_pure_virtual; is_throw := is_throw;
     msc_call_atid := msc_call_atid; ref_qual_stid := ref_qual_stid |}.

(** [g_print_ast], the statements of the case of [K_ARRAY] after the call
    of [g_print_postfix]: what follows the parameters. *)
Definition g_print_tail (l : g_locals) (g : g_state) : g_state :=
  let g := if negb (cv_qual_stid l =? TS_NONE)%Z
           then FPUTS (" " ++ c_tid_name_c o (cv_qual_stid l)) g else g in
  let g := if negb (ref_qual_stid l =? TS_NONE)%Z
           then FPUTS (if c_tid_is_any (ref_qual_stid l) TS_REFERENCE
                       then " &" else " &&") g
           else g in
  let g := if is_noexcept l then FPUTS (" " ++ L_NOEXCEPT) g
           else if is_throw l then FPUTS (" " ++ L_THROW ++ "()") g
           else g in
  let g := if is_override l then FPUTS (" " ++ L_OVERRIDE) g
           else if is_final l then FPUTS (" " ++ L_FINAL) g
           else if is_pure_virtual l then FPUTS " = 0" g
           else g in
  if is_default l then FPUTS (" = " ++ L_DEFAULT) g
  else if is_delete l then FPUTS (" = " ++ L_DELETE) g
  else g.


End Tail.

(** An ancestor of the node being printed, as [g_print_postfix] needs it:
    the node, and what [g_print_ast_list] does for its parameter list.  The
    printer recurses on the AST; it hands the printing of the parameters of
    the nodes above down with the chain of ancestors. *)
Definition frame := (c_ast * (g_state -> outcome g_state))%type.

Section Recursion.
Context {N : names}.
Variable o : options.

(** [g_print_ast_list]: the parameters, separated by commas, each printed
    from a fresh state on the same [FILE]. *)
Fixpoint g_print_ast_list (print : g_state -> c_ast -> outcome g_state)
         (g : g_state) (comma : bool) (ast_list : list c_ast)
  : outcome g_state :=
  match ast_list with
  | [] => Done g
  | param_ast :: next =>
      let g := if comma then FPUTS ", " g else g in
      let params_g :=
        g_init (Z.land (flags g) (Z.lnot C_GIB_OMIT_TYPE)) false (gout g) in
      params_g <- print params_g param_ast ;;
      g_print_ast_list print (set_gout (gout params_g) g) true next
  end.

(** [g_print_postfix]; [print_params] prints the parameter list of [ast]. *)
Fixpoint g_print_postfix (g : g_state) (up : list frame) (ast : c_ast)
         (print_params : g_state -> outcome g_state) {struct up}
  : outcome g_state :=
  assert (c_ast_is_parent (Some ast)) ;;;
  g <-
    match up with
    | (parent_ast, parent_params) :: up' =>
        match c_ast_kind parent_ast with
        | K_ARRAY | K_APPLE_BLOCK | K_CONSTRUCTOR | K_DESTRUCTOR
        | K_FUNCTION | K_OPERATOR | K_USER_DEF_CONVERSION
        | K_USER_DEF_LITERAL =>
            g_print_postfix g up' parent_ast parent_params
        | K_POINTER | K_POINTER_TO_MEMBER | K_REFERENCE
        | K_RVALUE_REFERENCE =>
            let g :=
              match c_ast_kind ast with
              | K_APPLE_BLOCK => FPUTS "(^" g
              | K_POINTER => g
              | _ =>
                  let g := FPUTS "(" g in
                  if c_type_is_tid_any (type (c_ast_d ast)) TA_ANY_MSC_CALL
                  then
                    let msc_call_atid :=
                      Z.land (atids (type (c_ast_d ast))) TA_ANY_MSC_CALL in
                    FPUTS (c_tid_name_c o msc_call_atid ++ " ") g
                  else g
              end in
            let g := g_print_qual_name o g (map fst up') parent_ast in
            g <- (if c_ast_is_parent (option_map fst (hd_error up'))
                  then g_print_postfix g up' parent_ast parent_params
                  else Done g) ;;
            Done (if negb (c_ast_is_kind_any ast K_ANY_POINTER)
                  then FPUTS ")" g else g)
        | K_BUILTIN | K_ENUM_CLASS_STRUCT_UNION | K_NAME | K_TYPEDEF
        | K_VARIADIC =>
            Done g               (* nothing to do *)
        | K_PLACEHOLDER => Stop PlaceholderReached
        end
    | [] =>
        (* We've reached the root of the AST that has the name of the thing
           we're printing the gibberish for. *)
        let g := if kind_eqb (c_ast_kind ast) K_APPLE_BLOCK
                 then FPUTS "(^" g else g in
        let g := g_print_space_ast_name o g ast in
        Done (if kind_eqb (c_ast_kind ast) K_APPLE_BLOCK
              then FPUTS ")" g else g)
    end ;;
  (* We're now unwinding the recursion: print the "postfix" things (size
     for arrays, parameters for functions) in root-to-leaf order. *)
  match c_ast_kind ast with
  | K_ARRAY => g_print_ast_array_size o g ast
  | K_APPLE_BLOCK | K_CONSTRUCTOR | K_FUNCTION | K_OPERATOR
  | K_USER_DEF_LITERAL =>
      g <- print_params (FPUTS "(" g) ;;
      Done (FPUTS ")" g)
  | K_DESTRUCTOR | K_USER_DEF_CONVERSION => Done (FPUTS "()" g)
  | K_BUILTIN | K_ENUM_CLASS_STRUCT_UNION | K_NAME | K_POINTER
  | K_POINTER_TO_MEMBER | K_REFERENCE | K_RVALUE_REFERENCE | K_TYPEDEF
  | K_VARIADIC =>
      Done g                     (* nothing to do *)
  | K_PLACEHOLDER => Stop PlaceholderReached
  end.

(** [g_print_ast], the statements that the function-like cases and the
    cases of [K_ARRAY] and [K_APPLE_BLOCK] share, up to the call of
    [g_print_postfix]; [print_of] prints [as.parent.of_ast]. *)
Definition g_print_declarator
           (print_of : g_state -> c_ast -> outcome g_state)
           (print_params : g_state -> outcome g_state)
           (l : g_locals) (g : g_state) (up : list frame) (ast : c_ast)
  : outcome g_state :=
  let d := c_ast_d ast in
  let g := if negb (c_type_is_none (l_type l))
           then FPUTS (c_type_name_c o (l_type l) ++ " ") g else g in
  let g :=
    if kind_eqb (kind d) K_USER_DEF_CONVERSION then
      let g := if negb (c_sname_empty (sname d))
               then FPUTS (c_sname_full_name (sname d) ++ "::") g else g in
      FPUTS (L_OPERATOR ++ " ") g
    else g in
  g <- match c_ast_of ast with
       | Some of_ast => print_of g of_ast
       | None => Done g
       end ;;
  let g :=
    if negb (msc_call_atid l =? TA_NONE)%Z
       && negb (c_ast_parent_is_kind (map fst up) [K_POINTER])
    then FPUTS (" " ++ c_tid_name_c o (msc_call_atid l)) g
    else g in
  if postfix g then Done g
  else
    let g := set_postfix true g in
    let g := if negb (skip_name_for_using g)
                && negb (flag_set (flags g) C_GIB_CAST)
             then g_print_space_once g else g in
    g_print_postfix g up ast print_params.

(** [g_print_ast]; [up] are the ancestors of [ast]. *)
Fixpoint g_print_ast (g : g_state) (up : list frame) (ast : c_ast)
         {struct ast} : outcome g_state :=
  let d := c_ast_d ast in
  let print_params :=
    fun g => g_print_ast_list (fun g p => g_print_ast g [] p) g false
                              (c_ast_params ast) in
  let print_of := fun g of_ast => g_print_ast g ((ast, print_params) :: up)
                                              of_ast in
  match kind d with
  | K_CONSTRUCTOR | K_DESTRUCTOR | K_USER_DEF_CONVERSION =>
      (* Since none of these have a return type, no space needs to be
         printed before the name, so lie and set the "space" flag. *)
      let g := set_printed_space true g in
      let l := g_func_locals o (type d) in
      g <- g_print_declarator print_of print_params l g up ast ;;
      Done (g_print_tail o l g)
  | K_FUNCTION | K_OPERATOR | K_USER_DEF_LITERAL =>
      let l := g_func_locals o (type d) in
      g <- g_print_declarator print_of print_params l g up ast ;;
      Done (g_print_tail o l g)
  | K_ARRAY | K_APPLE_BLOCK =>
      let l := g_locals_init (type d) in
      g <- g_print_declarator print_of print_params l g up ast ;;
      Done (g_print_tail o l g)

  | K_BUILTIN =>
      let g := if negb (flag_set (flags g) C_GIB_OMIT_TYPE)
               then FPUTS (c_type_name_c o (type d)) g else g in
      let g := g_print_space_ast_name o g ast in
      g_print_ast_bit_width g ast

  | K_ENUM_CLASS_STRUCT_UNION =>
      let type := type d in
      let type :=
        if c_type_is_tid_any type TB_ENUM
        then set_btids (Z.land (btids type)
                          (c_tid_compl (Z.lor TB_STRUCT TB_CLASS))) type
        else type in
      let cv_qual_stid :=
        if opt_east_const o then Z.land (stids type) TS_CV else TS_NONE in
      let type :=
        if opt_east_const o
        then set_stids (Z.land (stids type) (c_tid_compl TS_CV)) type
        else type in
      let type_name :=
        if flag_set (flags g) (Z.lor C_GIB_CAST C_GIB_DECL)
        then c_type_name_ecsu o type else c_type_name_c o type in
      let g := FPUTS type_name g in
      let g :=
        if negb (flag_set (flags g) C_GIB_TYPEDEF) || printing_typedef g
        then FPUTS ((if String.eqb type_name "" then "" else " ")
                    ++ c_sname_full_name (ecsu_sname d)) g
        else g in
      g <- match c_ast_of ast with
           | Some of_ast => print_of (FPUTS " : " g) of_ast
           | None => Done g
           end ;;
      let g := if negb (cv_qual_stid =? TS_NONE)%Z
               then FPUTS (" " ++ c_tid_name_c o cv_qual_stid) g else g in
      Done (g_print_space_ast_name o g ast)

  | K_NAME =>
      assert (opt_lang o <? LANG_C_2X)%Z ;;;
      let g := if (LANG_C_KNR <? opt_lang o)%Z then FPUTS L_INT g else g in
      if negb (flag_set (flags g) C_GIB_CAST) then
        let g := if (LANG_C_KNR <? opt_lang o)%Z then FPUTS " " g else g in
        Done (g_print_ast_name g ast)
      else Done g

  | K_POINTER | K_REFERENCE | K_RVALUE_REFERENCE =>
      let g :=
        if negb (flag_set (flags g) C_GIB_OMIT_TYPE) then
          let stid := Z.land (stids (type d)) TS_MASK_STORAGE in
          if negb (stid =? TS_NONE)%Z
          then FPUTS (c_tid_name_c o stid ++ " ") g else g
        else g in
      g <- match c_ast_of ast with
           | Some to_ast => print_of g to_ast
           | None => Stop AssertionFailed
           end ;;
      let g := if g_space_before_ptr_ref g (map fst up) ast
               then g_print_space_once g else g in
      Done (if negb (postfix g)
            then g_print_qual_name o g (map fst up) ast else g)

  | K_POINTER_TO_MEMBER =>
      g <- match c_ast_of ast with
           | Some of_ast => print_of g of_ast
           | None => Stop AssertionFailed
           end ;;
      Done (if negb (postfix g)
            then g_print_qual_name o (FPUTS " " g) (map fst up) ast else g)

  | K_TYPEDEF =>
      g <-
        (if negb (flag_set (flags g) C_GIB_OMIT_TYPE) then
           (* Of course a K_TYPEDEF AST also has a type comprising
              TB_TYPEDEF, but we need to see whether there's any more to
              the type, e.g., "const". *)
           let is_more_than_plain_typedef :=
             negb (c_type_equal (type d) (C_TYPE_LIT_B TB_TYPEDEF)) in
           let g := if is_more_than_plain_typedef && negb (opt_east_const o)
                    then FPUTS (c_type_name_c o (type d)) g else g in
           let print_parens_for_cpp23_Atomic :=
             OPT_LANG_IS o (LANG_MIN LANG_CPP_23)
             && c_tid_is_any (stids (type d)) TS_ATOMIC in
           let g :=
             if print_parens_for_cpp23_Atomic then FPUTS "(" g
             else if is_more_than_plain_typedef && negb (opt_east_const o)
                  then FPUTS " " g
                  else g in
           (* Temporarily set skip_name_for_using to false to force
              printing of the type's name. *)
           let orig_skip_name_for_using := skip_name_for_using g in
           let g := set_skip_name_for_using false g in
           g <- match c_ast_for ast with
                | Some for_ast => Done (g_print_ast_name g for_ast)
                | None => Stop AssertionFailed
                end ;;
           let g := set_skip_name_for_using orig_skip_name_for_using g in
           let g := if print_parens_for_cpp23_Atomic then FPUTS ")" g
                    else g in
           Done (if is_more_than_plain_typedef && opt_east_const o
                 then FPUTS (" " ++ c_type_name_c o (type d)) g else g)
         else Done g) ;;
      let g := g_print_space_ast_name o g ast in
      g_print_ast_bit_width g ast

  | K_VARIADIC => Done (FPUTS L_ELLIPSIS g)

  | K_PLACEHOLDER => Stop PlaceholderReached
  end.

(** [c_ast_gibberish_impl]. *)
Definition c_ast_gibberish_impl (ast : c_ast) (fl : Z)
           (printing_typedef : bool) (gout : string) : outcome string :=
  g <- g_print_ast (g_init fl printing_typedef gout) [] ast ;;
  Done (Gibberish.gout g).

(** [c_ast_gibberish]. *)
Fixpoint c_ast_gibberish (ast : c_ast) (fl : Z) (gout : string)
         {struct ast} : outcome string :=
  assert (flag_set fl (Z.lor C_GIB_CAST C_GIB_DECL)) ;;;
  assert (negb (flag_set fl (Z.lor C_GIB_TYPEDEF C_GIB_USING))) ;;;
  assert (negb (flag_set fl C_GIB_OMIT_TYPE) || flag_set fl C_GIB_DECL) ;;;
  assert (negb (flag_set fl C_GIB_MULTI_DECL) || flag_set fl C_GIB_DECL) ;;;
  gout <-
    (if negb (flag_set fl C_GIB_OMIT_TYPE) then
       match align_kind (c_ast_d ast) with
       | C_ALIGNAS_NONE => Done gout
       | C_ALIGNAS_EXPR =>
           Done (gout ++ alignas_lang o ++ "("
                      ++ string_of_Z (align_expr (c_ast_d ast)) ++ ") ")
       | C_ALIGNAS_TYPE =>
           match c_ast_align_type ast with
           | Some type_ast =>
               gout <- c_ast_gibberish type_ast C_GIB_DECL
                         (gout ++ alignas_lang o ++ "(") ;;
               Done (gout ++ ") ")
           | None => Stop AssertionFailed
           end
       end
     else Done gout) ;;
  c_ast_gibberish_impl ast fl false gout.

(** Modelled from the spec: [c_lang_is_c] and [c_lang_is_cpp] belong to
    c_lang.h: whether a set of languages has a C, or a C++, dialect. *)
Definition c_lang_is_c (lang_ids : c_lang_id_t) : bool :=
  negb (Z.land lang_ids LANG_C_ANY =? LANG_NONE)%Z.
Definition c_lang_is_cpp (lang_ids : c_lang_id_t) : bool :=
  negb (Z.land lang_ids LANG_CPP_ANY =? LANG_NONE)%Z.

Definition newline : string := String (ascii_of_nat 10) "".

(** The loop [FOREACH_SNAME_SCOPE( scope, sname, sname->tail )] of
    [c_typedef_gibberish]: every scope but the last. *)
Fixpoint print_scopes (scopes : c_sname_t) (scope_type : c_type_t)
         (gout : string) : string * c_type_t :=
  match scopes with
  | [] | [_] => (gout, scope_type)
  | scope :: rest =>
      let scope_type := Gibberish.scope_type scope in
      let scope_type :=
        if (btids scope_type =? TB_SCOPE)%Z
        then set_btids TB_NAMESPACE scope_type else scope_type in
      print_scopes rest scope_type
        (gout ++ c_type_name_c o scope_type ++ " " ++ scope_name scope
              ++ " { ")
  end.

(** The locals that the first block of [c_typedef_gibberish] leaves. *)
Record scope_locals := {
  sl_gout  : string;
  sl_sname : option c_sname_t;            (* [sname], null if none *)
  scope_close_braces_to_print : nat;
  sl_scope_type : c_type_t;               (* [scope_type] *)
}.

(** [c_typedef_gibberish], the block that opens the scopes of a scoped
    type name. *)
Definition c_typedef_scope (tdef : c_typedef_t) (gout : string)
  : scope_locals :=
  let sname := c_ast_find_name_down (tdef_ast tdef) in
  match sname with
  | Some sn =>
      if (1 <? c_sname_count sn)%nat then
        let scope_type := c_sname_first_type sn in
        if negb (btids scope_type =? TB_NAMESPACE)%Z
           || OPT_LANG_IS o (Z.lor (LANG_MIN LANG_CPP_17) LANG_C_ANY)
        then
          if c_type_is_tid_any scope_type TS_INLINE then
            (* The "inline" of the first scope is turned off in a copy of
               the name; the copy is cleaned up at the end of the block, and
               [sname] still points to it. *)
            let temp_sname :=
              match sn with
              | s :: rest =>
                  {| scope_name := scope_name s;
                     scope_type :=
                       set_stids (Z.land (stids (Gibberish.scope_type s))
                                         (c_tid_compl TS_INLINE))
                                 (Gibberish.scope_type s) |} :: rest
              | [] => []
              end in
            {| sl_gout := gout ++ c_type_name_c o scope_type ++ " "
                               ++ c_sname_scope_name temp_sname ++ " { ";
               sl_sname := Some [];
               scope_close_braces_to_print := 1;
               sl_scope_type := scope_type |}
          else
            let scope_type := c_sname_scope_type sn in
            let scope_type :=
              if (btids scope_type =? TB_SCOPE)%Z
              then set_btids TB_NAMESPACE scope_type else scope_type in
            let scope_type :=
              set_stids (Z.land (stids scope_type) (c_tid_compl TS_INLINE))
                        scope_type in
            {| sl_gout := gout ++ c_type_name_c o scope_type ++ " "
                               ++ c_sname_scope_name sn ++ " { ";
               sl_sname := sname;
               scope_close_braces_to_print := 1;
               sl_scope_type := scope_type |}
        else
          (* Namespaces in C++14 and earlier require distinct
             declarations. *)
          let '(gout, scope_type) := print_scopes sn scope_type gout in
          {| sl_gout := gout; sl_sname := sname;
             scope_close_braces_to_print := c_sname_count sn - 1;
             sl_scope_type := scope_type |}
      else
        {| sl_gout := gout; sl_sname := sname;
           scope_close_braces_to_print := 0;
           sl_scope_type := T_NONE_type |}
  | None =>
      {| sl_gout := gout; sl_sname := None;
         scope_close_braces_to_print := 0;
         sl_scope_type := T_NONE_type |}
  end.

(** [" }"] written [n] times. *)
Fixpoint close_braces (n : nat) : string :=
  match n with
  | O => ""
  | S n => " }" ++ close_braces n
  end.

(** [c_typedef_gibberish], from the end of that block to the call of
    [c_ast_gibberish_impl]. *)
Definition c_typedef_declaration (tdef : c_typedef_t) (fl : Z)
           (sl : scope_locals) : outcome string :=
  let gout := sl_gout sl in
  let is_ecsu :=
    kind_eqb (c_ast_kind (tdef_ast tdef)) K_ENUM_CLASS_STRUCT_UNION in
  let printing_typedef :=
    flag_set fl C_GIB_TYPEDEF
    && (negb is_ecsu || c_lang_is_c (tdef_lang_ids tdef)
        || (OPT_LANG_IS o LANG_C_ANY
            && negb (c_lang_is_cpp (tdef_lang_ids tdef)))) in
  let printing_using := flag_set fl C_GIB_USING && negb is_ecsu in
  gout <-
    (if printing_typedef then Done (gout ++ L_TYPEDEF ++ " ")
     else if printing_using then
       match sl_sname sl with
       | Some sn =>
           Done (gout ++ L_USING ++ " " ++ c_sname_local_name sn ++ " = ")
       | None => Stop AssertionFailed
       end
     else Done gout) ;;
  c_ast_gibberish_impl (tdef_ast tdef)
    (if printing_using then C_GIB_USING else C_GIB_TYPEDEF)
    printing_typedef gout.

(** What [c_typedef_gibberish] writes after the declaration. *)
Definition c_typedef_end (sl : scope_locals) : string :=
  (if (0 <? scope_close_braces_to_print sl)%nat
   then ";" ++ close_braces (scope_close_braces_to_print sl) else "")
  ++ (if opt_semicolon o
         && negb (btids (sl_scope_type sl) =? TB_NAMESPACE)%Z
      then ";" else "")
  ++ newline.

(** [c_typedef_gibberish]. *)
Definition c_typedef_gibberish (tdef : c_typedef_t) (fl : Z)
           (gout : string) : outcome string :=
  assert (flag_set fl (Z.lor C_GIB_TYPEDEF C_GIB_USING)) ;;;
  assert (negb (flag_set fl
                  (fold_right Z.lor 0%Z
                     [ C_GIB_CAST; C_GIB_DECL; C_GIB_MULTI_DECL;
                       C_GIB_OMIT_TYPE ]))) ;;;
  let sl := c_typedef_scope tdef gout in
  gout <- c_typedef_declaration tdef fl sl ;;
  let gout :=
    if (0 <? scope_close_braces_to_print sl)%nat
    then gout ++ ";" ++ close_braces (scope_close_braces_to_print sl)
    else gout in
  let gout :=
    if opt_semicolon o
       && negb (btids (sl_scope_type sl) =? TB_NAMESPACE)%Z
    then gout ++ ";" else gout in
  Done (gout ++ newline).

End Recursion.

(** A [names] to run the printer with: a type is named by the keywords of
    its bits, storage and qualifiers first; a scoped name by its
    identifiers joined with "::". *)
Definition demo_tid_table : list (c_tid_t * string) :=
  [ (T_TYPEDEF, "typedef"); (T_EXTERN, "extern"); (T_STATIC, "static");
    (T_INLINE, "inline"); (T_VIRTUAL, "virtual"); (T_FRIEND, "friend");
    (T_CONSTEXPR, "constexpr"); (T_EXPLICIT, "explicit");
    (T_NOEXCEPT, "noexcept"); (T_THROW, "throw()");
    (T_OVERRIDE, "override"); (T_FINAL, "final");
    (T_CONST, "const"); (T_VOLATILE, "volatile");
    (T_UNSIGNED, "unsigned"); (T_SIGNED, "signed"); (T_SHORT, "short");
    (T_LONG, "long"); (T_LONG_LONG, "long long");
    (T_VOID, "void"); (T_BOOL, "bool"); (T_CHAR, "char"); (T_INT, "int");
    (T_FLOAT, "float"); (T_DOUBLE, "double");
    (T_ENUM, "enum"); (T_STRUCT, "struct"); (T_UNION, "union");
    (T_CLASS, "class"); (T_NAMESPACE, "namespace") ].

Definition demo_tid_name (tids : c_tid_t) : string :=
  String.concat " "
    (map snd (filter (fun e => c_tid_is_any tids (fst e)) demo_tid_table)).

Definition demo_type_name (t : c_type_t) : string :=
  demo_tid_name (Z.lor (Z.lor (btids t) (stids t)) (atids t)).

Definition demo_names : names := {|
  c_type_name_c      := fun _ => demo_type_name;
  c_type_name_ecsu   := fun _ => demo_type_name;
  c_tid_name_c       := fun _ => demo_tid_name;
  c_oper_token_c     := fun _ => "()";
  alignas_lang       := fun _ => "alignas";
  c_sname_full_name  := fun sn => String.concat "::" (map scope_name sn);
  c_sname_local_name := fun sn => last (map scope_name sn) "";
  c_sname_scope_name :=
    fun sn => String.concat "::" (removelast (map scope_name sn));
  TA_ANY_MSC_CALL    := 0%Z;
  C_GIB_CAST         := 1%Z;
  C_GIB_DECL         := 2%Z;
  C_GIB_MULTI_DECL   := 4%Z;
  C_GIB_OMIT_TYPE    := 8%Z;
  C_GIB_TYPEDEF      := 16%Z;
  C_GIB_USING        := 32%Z;
|}.

Definition demo_options (lang : c_lang_id_t) : options :=
  {| opt_alt_tokens := false; opt_east_const := false;
     opt_graph := C_GRAPH_NONE; opt_lang := lang; opt_semicolon := true |}.

(** Nodes to build demonstration ASTs with. *)
Definition mk_data (k : c_ast_kind_t) (b s : c_tid_t) (n : list string)
  : c_ast_data :=
  {| kind := k;
     type := {| btids := b; stids := s; atids := TA_NONE |};
     sname := map (fun x => {| scope_name := x;
                               scope_type := C_TYPE_LIT_B TB_SCOPE |}) n;
     align_kind := C_ALIGNAS_NONE; align_expr := 0%Z; bit_width := 0%Z;
     array_size := C_ARRAY_SIZE_NONE; array_stids := TS_NONE;
     oper_id := 0%Z; ecsu_sname := []; class_sname := [] |}.

Definition mk_leaf (b s : c_tid_t) (n : list string) : c_ast :=
  C_AST (mk_data K_BUILTIN b s n) None [] None None.

Definition mk_parent (k : c_ast_kind_t) (s : c_tid_t) (n : list string)
           (of_ast : c_ast) (params : list c_ast) : c_ast :=
  C_AST (mk_data k TB_NONE s n) (Some of_ast) params None None.

Definition mk_array (size : Z) (n : list string) (of_ast : c_ast) : c_ast :=
  C_AST {| kind := K_ARRAY; type := T_NONE_type;
           sname := map (fun x => {| scope_name := x;
                                     scope_type := C_TYPE_LIT_B TB_SCOPE |})
                        n;
           align_kind := C_ALIGNAS_NONE; align_expr := 0%Z;
           bit_width := 0%Z; array_size := size; array_stids := TS_NONE;
           oper_id := 0%Z; ecsu_sname := []; class_sname := [] |}
        (Some of_ast) [] None None.

(** [x]: pointer to array 10 of const int. *)
Definition demo_ptr_to_array : c_ast :=
  mk_parent K_POINTER TS_NONE ["x"]
    (mk_array 10 [] (mk_leaf T_INT T_CONST [])) [].

(** [f]: function (x as int, y as int) returning pointer to char. *)
Definition demo_func_ret_ptr : c_ast :=
  mk_parent K_FUNCTION TS_NONE ["f"]
    (mk_parent K_POINTER TS_NONE [] (mk_leaf T_CHAR TS_NONE []) [])
    [ mk_leaf T_INT TS_NONE ["x"]; mk_leaf T_INT TS_NONE ["y"] ].

(** [a]: array 3 of pointer to function (char) returning int. *)
Definition demo_array_of_ptr_to_func : c_ast :=
  mk_array 3 ["a"]
    (mk_parent K_POINTER TS_NONE []
       (mk_parent K_FUNCTION TS_NONE [] (mk_leaf T_INT TS_NONE [])
          [ mk_leaf T_CHAR TS_NONE [] ]) []).


(** The typedef [N::I] of [int] in namespace [N], and the typedef [I]. *)
Definition demo_typedef_in_namespace : c_typedef_t :=
  {| tdef_ast :=
       C_AST
         {| kind := K_BUILTIN; type := C_TYPE_LIT_B T_INT;
            sname := [ {| scope_name := "N";
                          scope_type := C_TYPE_LIT_B TB_NAMESPACE |};
                       {| scope_name := "I";
                          scope_type := C_TYPE_LIT_B TB_SCOPE |} ];
            align_kind := C_ALIGNAS_NONE; align_expr := 0%Z;
            bit_width := 0%Z; array_size := C_ARRAY_SIZE_NONE;
            array_stids := TS_NONE; oper_id := 0%Z; ecsu_sname := [];
            class_sname := [] |}
         None [] None None;
     tdef_lang_ids := LANG_CPP_ANY |}.

Definition demo_typedef_plain : c_typedef_t :=
  {| tdef_ast := mk_leaf T_INT TS_NONE ["I"];
     tdef_lang_ids := LANG_C_ANY |}.

Section PrinterNames.
Context {N : names}.
Variable o : options.

(** The two printers that [g_print_ast] hands to [g_print_declarator] and
    [g_print_postfix]. *)
Definition g_print_params (ast : c_ast) : g_state -> outcome g_state :=
  fun g => g_print_ast_list (fun g p => g_print_ast o g [] p) g false
                            (c_ast_params ast).

Definition g_print_of (up : list frame) (ast : c_ast)
  : g_state -> c_ast -> outcome g_state :=
  fun g of_ast => g_print_ast o g ((ast, g_print_params ast) :: up) of_ast.


End PrinterNames.

(** No node of the AST is a placeholder: the node, the AST it is of, its
    parameters, the type AST of its alignment. *)
Fixpoint no_placeholder (ast : c_ast) : bool :=
  match ast with
  | C_AST d of_ast params align_type _ =>
      negb (kind_eqb (kind d) K_PLACEHOLDER)
      && match of_ast with Some a => no_placeholder a | None => true end
      && forallb no_placeholder params
      && match align_type with Some a => no_placeholder a | None => true end
  end.

(** A completed AST that the checker has passed: no placeholder; every
    pointer, reference and pointer to member has its target; a typedef has
    the AST it is for; an alignment by type has its type; and an untyped
    K&R name occurs only before C2x. *)
Fixpoint well_formed (o : options) (ast : c_ast) : bool :=
  match ast with
  | C_AST d of_ast params align_type for_ast =>
      match kind d with
      | K_PLACEHOLDER => false
      | K_POINTER | K_REFERENCE | K_RVALUE_REFERENCE | K_POINTER_TO_MEMBER =>
          match of_ast with Some _ => true | None => false end
      | K_TYPEDEF => match for_ast with Some _ => true | None => false end
      | K_NAME => (opt_lang o <? LANG_C_2X)%Z
      | _ => true
      end
      && match of_ast with Some a => well_formed o a | None => true end
      && forallb (well_formed o) params
      && match align_kind d, align_type with
         | C_ALIGNAS_TYPE, Some a => well_formed o a
         | C_ALIGNAS_TYPE, None => false
         | _, _ => true
         end
  end.

(** Ancestors that are no placeholders and whose parameter lists print
    without reaching the assertion against placeholders. *)
Definition frames_ok (up : list frame) : Prop :=
  Forall (fun fr : frame =>
            c_ast_kind (fst fr) <> K_PLACEHOLDER
            /\ forall g, npr (snd fr g)) up.

(** Ancestors whose parameter lists print. *)
Definition frames_done (up : list frame) : Prop :=
  Forall (fun fr : frame =>
            c_ast_kind (fst fr) <> K_PLACEHOLDER
            /\ forall g, is_done (snd fr g)) up.

(** The flags that [c_ast_gibberish] asserts. *)
Definition gibberish_flags_ok {N : names} (fl : Z) : bool :=
  flag_set fl (Z.lor C_GIB_CAST C_GIB_DECL)
  && negb (flag_set fl (Z.lor C_GIB_TYPEDEF C_GIB_USING))
  && (negb (flag_set fl C_GIB_OMIT_TYPE) || flag_set fl C_GIB_DECL)
  && (negb (flag_set fl C_GIB_MULTI_DECL) || flag_set fl C_GIB_DECL).

(** Modelled from the spec: the declaration checker, which is not among
    the sources, passes the storage classes and qualifiers that are for
    members only (4.5: [override], [final] and [virtual] among them) on a
    function that is a member of a class and on nothing else, and what it
    refuses is not printed (7).  src/c_type.h names the bits:
    [T_MEMBER_ONLY].  An Apple block is no member of a class: it has
    none of them. *)
Definition member_only_ok (ast : c_ast) : bool :=
  match c_ast_kind ast with
  | K_APPLE_BLOCK =>
      (Z.land (stids (type (c_ast_d ast))) T_MEMBER_ONLY =? T_NONE)%Z
  | _ => true
  end.


(** [b]: [noexcept] block returning void. *)
Definition demo_block : c_ast :=
  mk_parent K_APPLE_BLOCK T_NOEXCEPT ["b"] (mk_leaf T_VOID TS_NONE []) [].

End Gibberish.

(* ------------------------------------------------------------------ *)
(** ** Patching placeholders (src/c_ast_util.h) *)

Module Builder.
Import Gibberish.

(** src/typedefs.h: both are [unsigned]. *)
Definition c_ast_id_t := nat.
Definition c_ast_depth_t := nat.

(** Modelled from the spec: src/c_ast_util.h declares
    [c_ast_patch_placeholder] and documents its three conditions, and its
    body and the node structure of the builder are not among the sources.
    Of a node the model keeps what patching reads: its unique id, its
    kind, its depth (how many parentheses deep it was parsed), the id of
    its parent, if it has one, and the nodes it points to. *)
Inductive c_ast : Type :=
  | C_AST (unique_id : c_ast_id_t) (kind : c_ast_kind_t)
          (depth : c_ast_depth_t) (parent_ast : option c_ast_id_t)
          (children : list c_ast).

Definition c_ast_kind (ast : c_ast) : c_ast_kind_t :=
  match ast with C_AST _ k _ _ _ => k end.
Definition c_ast_depth (ast : c_ast) : c_ast_depth_t :=
  match ast with C_AST _ _ d _ _ => d end.
Definition c_ast_parent (ast : c_ast) : option c_ast_id_t :=
  match ast with C_AST _ _ _ p _ => p end.
Definition c_ast_children (ast : c_ast) : list c_ast :=
  match ast with C_AST _ _ _ _ cs => cs end.

Definition c_ast_set_parent (child_ast : c_ast)
           (parent_ast : option c_ast_id_t) : c_ast :=
  match child_ast with
  | C_AST id k d _ cs => C_AST id k d parent_ast cs
  end.

(** Whether [ast] still contains a node of kind [K_PLACEHOLDER]. *)
Fixpoint has_placeholder (ast : c_ast) : bool :=
  match ast with
  | C_AST _ k _ _ cs =>
      kind_eqb k K_PLACEHOLDER || existsb has_placeholder cs
  end.

(** Modelled from the spec: every placeholder of [ast] is replaced with
    [type_ast], which takes the parent of the placeholder it replaces. *)
Fixpoint replace_placeholders (type_ast ast : c_ast) : c_ast :=
  match ast with
  | C_AST id k d p cs =>
      if kind_eqb k K_PLACEHOLDER then c_ast_set_parent type_ast p
      else C_AST id k d p (map (replace_placeholders type_ast) cs)
  end.

(** The three conditions of src/c_ast_util.h. *)
Definition may_patch (type_ast decl_ast : c_ast) : bool :=
  match c_ast_parent type_ast with None => true | Some _ => false end
  && (c_ast_depth type_ast <? c_ast_depth decl_ast)%nat
  && has_placeholder decl_ast.

(** Modelled from the spec: the two ASTs as they are after the call;
    [decl_ast] may be null.  Which of the two the function returns as "the
    final AST" the spec does not say, and the model leaves it out. *)
Definition c_ast_patch_placeholder (type_ast : c_ast)
           (decl_ast : option c_ast) : c_ast * option c_ast :=
  match decl_ast with
  | None => (type_ast, None)
  | Some decl =>
      if may_patch type_ast decl
      then (type_ast, Some (replace_placeholders type_ast decl))
      else (type_ast, Some decl)
  end.

(** In the words of the spec: [after] is [before] with every placeholder
    replaced with [type_ast] and every other node kept. *)
Inductive patched_with (type_ast : c_ast) : c_ast -> c_ast -> Prop :=
  | patched_placeholder id d p cs :
      patched_with type_ast (C_AST id K_PLACEHOLDER d p cs)
                   (c_ast_set_parent type_ast p)
  | patched_node id k d p cs cs' :
      k <> K_PLACEHOLDER ->
      Forall2 (patched_with type_ast) cs cs' ->
      patched_with type_ast (C_AST id k d p cs) (C_AST id k d p cs').

(** A pointer to a placeholder, one pair of parentheses deep, and the
    type [int] to patch into it. *)
Definition demo_type : c_ast := C_AST 1 K_BUILTIN 0 None [].
Definition demo_decl : c_ast :=
  C_AST 2 K_POINTER 1 None [ C_AST 3 K_PLACEHOLDER 1 (Some 2) [] ].

End Builder.

(* ------------------------------------------------------------------ *)
(** ** src/dam_lev.c: the Damerau-Levenshtein edit distance *)

Module DamLev.

Local Abbreviation length := (@List.length ascii).

(** *** Sizes *)

(** A [size_t] is an unsigned integer of [size_bits] bits: sums,
    differences and products wrap around.  The two strings are the
    characters before their terminating NUL; the loop counters and the
    indices into the matrix, which never exceed the lengths by more than
    one, are natural numbers. *)
Definition size_t := Z.

Section Code.
Variable size_bits : Z.

Definition size_wrap (z : Z) : size_t := (z mod 2 ^ size_bits)%Z.
Definition size_of_nat (n : nat) : size_t := size_wrap (Z.of_nat n).
Definition size_add (a b : size_t) : size_t := size_wrap (a + b).
Definition size_sub (a b : size_t) : size_t := size_wrap (a - b).

Definition min_dist (i j : size_t) : size_t := if (i <? j)%Z then i else j.

(** *** The loops on a matrix without memory *)

(** The loops of [dam_lev_dist] once more, on a matrix in which
    [dist_matrix[i][j]] is a cell of its own for every [i] and [j]: no
    block, no row pointers, no store that fails.  [DamLevDist.dam_lev_dist]
    below is the function on the block of memory that [matrix2_new] lays
    out; these definitions are what it is compared with in the proofs. *)
Definition ideal_matrix := nat -> nat -> size_t.

Definition ideal_set (m : ideal_matrix) (i j : nat) (v : size_t) :
  ideal_matrix :=
  fun i' j' => if (i' =? i) && (j' =? j) then v else m i' j'.

(** [for ( i = 0; i <= slen; ++i )]. *)
Definition ideal_init_rows (inf : size_t) (slen : nat)
           (dist_matrix : ideal_matrix) : ideal_matrix :=
  fold_left
    (fun m i => ideal_set (ideal_set m (i + 1) 1 (size_of_nat i))
                          (i + 1) 0 inf)
    (seq 0 (slen + 1)) dist_matrix.

(** [for ( j = 0; j <= tlen; ++j )]. *)
Definition ideal_init_cols (inf : size_t) (tlen : nat)
           (dist_matrix : ideal_matrix) : ideal_matrix :=
  fold_left
    (fun m j => ideal_set (ideal_set m 1 (j + 1) (size_of_nat j))
                          0 (j + 1) inf)
    (seq 0 (tlen + 1)) dist_matrix.

(** [size_t last_row[256]], indexed by a character. *)
Definition last_row_t := ascii -> nat.

(** The body of the loop over [col]; the state is the matrix and
    [last_match_col]. *)
Definition ideal_col_body (target : list ascii) (last_row : last_row_t)
           (row : nat) (sc : ascii) (st : ideal_matrix * nat) (col : nat) :
  ideal_matrix * nat :=
  let (dist_matrix, last_match_col) := st in
  let tc := nth (col - 1) target zero in
  let last_match_row := last_row tc in
  let match_ := Ascii.eqb sc tc in
  let ins_dist := size_add (dist_matrix row (col + 1)) 1%Z in
  let del_dist := size_add (dist_matrix (row + 1) col) 1%Z in
  let sub_dist := size_add (dist_matrix row col) (if match_ then 0%Z else 1%Z) in
  let xpos_dist :=
    size_add
      (size_add
         (size_add (dist_matrix last_match_row last_match_col)
                   (size_sub (size_sub (size_of_nat row)
                                       (size_of_nat last_match_row)) 1%Z))
         (size_sub (size_sub (size_of_nat col)
                             (size_of_nat last_match_col)) 1%Z))
      1%Z in
  let dist_min := min_dist ins_dist del_dist in
  let dist_min := min_dist dist_min sub_dist in
  let dist_min := min_dist dist_min xpos_dist in
  (ideal_set dist_matrix (row + 1) (col + 1) dist_min,
   if match_ then col else last_match_col).

(** The body of the loop over [row]; the state is the matrix and
    [last_row]. *)
Definition ideal_row_body (source target : list ascii)
           (st : ideal_matrix * last_row_t) (row : nat) :
  ideal_matrix * last_row_t :=
  let (dist_matrix, last_row) := st in
  let sc := nth (row - 1) source zero in
  let last_match_col := 0 in
  let (dist_matrix, _) :=
    fold_left (ideal_col_body target last_row row sc) (seq 1 (length target))
              (dist_matrix, last_match_col) in
  (dist_matrix, fun c => if Ascii.eqb c sc then row else last_row c).

(** [fresh] is what the matrix holds at first: anything. *)
Definition ideal_dist (fresh : ideal_matrix) (source target : list ascii) :
  size_t :=
  let slen := length source in
  let tlen := length target in
  if slen =? 0 then size_of_nat tlen
  else if tlen =? 0 then size_of_nat slen
  else
    let inf := size_add (size_of_nat slen) (size_of_nat tlen) in
    let dist_matrix := ideal_set fresh 0 0 inf in
    let dist_matrix := ideal_init_rows inf slen dist_matrix in
    let dist_matrix := ideal_init_cols inf tlen dist_matrix in
    let (dist_matrix, _) :=
      fold_left (ideal_row_body source target) (seq 1 slen)
                (dist_matrix, fun _ => 0) in
    dist_matrix (slen + 1) (tlen + 1).

End Code.

(** *** The Damerau-Levenshtein distance *)

(** One edit: a character inserted, deleted or replaced with another
    one, or two adjacent characters transposed, anywhere in the string. *)
Inductive edit : list ascii -> list ascii -> Prop :=
  | edit_insert p c q : edit (p ++ q) (p ++ c :: q)
  | edit_delete p c q : edit (p ++ c :: q) (p ++ q)
  | edit_substitute p c c' q : c <> c' -> edit (p ++ c :: q) (p ++ c' :: q)
  | edit_transpose p c c' q : edit (p ++ c :: c' :: q) (p ++ c' :: c :: q).

(** [edits n s t]: [n] edits, one after the other, turn [s] into [t]. *)
Inductive edits : nat -> list ascii -> list ascii -> Prop :=
  | edits_none s : edits 0 s s
  | edits_step n s u t : edit s u -> edits n u t -> edits (S n) s t.

(** [n] is the least number of edits that turn [s] into [t]. *)
Definition edit_distance (s t : list ascii) (n : nat) : Prop :=
  edits n s t /\ forall m, edits m s t -> n <= m.

(** One edit, by the place where it happens: at the head, or in the
    tail.  Replacing a character with itself is let through here. *)
Inductive step : list ascii -> list ascii -> Prop :=
  | step_ins c x : step x (c :: x)
  | step_del c x : step (c :: x) x
  | step_sub c c' x : step (c :: x) (c' :: x)
  | step_swap c c' x : step (c :: c' :: x) (c' :: c :: x)
  | step_cons c x x' : step x x' -> step (c :: x) (c :: x').

(** Traces (Wagner and Lowrance): [trace x y n] lines up [x] and [y] at
    cost [n].  A character of [x] is deleted, a character of [y] inserted,
    two characters are matched or replaced, or two characters of [x] with
    [u] between them are transposed, [u] being deleted and [v] inserted
    between them. *)
Inductive trace : list ascii -> list ascii -> nat -> Prop :=
  | trace_nil : trace [] [] 0
  | trace_del a x y n : trace x y n -> trace (a :: x) y (S n)
  | trace_ins b x y n : trace x y n -> trace x (b :: y) (S n)
  | trace_match a x y n : trace x y n -> trace (a :: x) (a :: y) n
  | trace_sub a b x y n : trace x y n -> trace (a :: x) (b :: y) (S n)
  | trace_swap a b u v x y n :
      trace x y n ->
      trace (a :: u ++ b :: x) (b :: v ++ a :: y)
            (S (n + length u + length v)).

Definition trace_le (x y : list ascii) (n : nat) : Prop :=
  exists m, m <= n /\ trace x y m.

(** [split_at c l]: [l] cut at the first [c] in it. *)
Fixpoint split_at (c : ascii) (l : list ascii) :
  option (list ascii * list ascii) :=
  match l with
  | [] => None
  | x :: l' =>
      if Ascii.eqb x c then Some ([], l')
      else match split_at c l' with
           | Some (u, r) => Some (x :: u, r)
           | None => None
           end
  end.

Definition min_opt (n : nat) (o : option nat) : nat :=
  match o with Some m => Nat.min n m | None => n end.

(** The recurrence of Lowrance and Wagner, on the two strings read from
    their ends: [x] and [y] are the reversed prefixes. *)
Fixpoint lw_fuel (fuel : nat) (x y : list ascii) : nat :=
  match fuel with
  | 0 => 0
  | S fuel =>
      match x, y with
      | [], _ => length y
      | _, [] => length x
      | a :: x', b :: y' =>
          min_opt
            (Nat.min (Nat.min (lw_fuel fuel x' y + 1) (lw_fuel fuel x y' + 1))
                     (lw_fuel fuel x' y' + (if Ascii.eqb a b then 0 else 1)))
            (match split_at b x', split_at a y' with
             | Some (u, xr), Some (v, yr) =>
                 Some (lw_fuel fuel xr yr + length u + length v + 1)
             | _, _ => None
             end)
      end
  end.

Definition lw (x y : list ascii) : nat :=
  lw_fuel (S (length x + length y)) x y.

(** The row at which [c] was last seen in the prefix of which [rl] is the
    reverse, or 0. *)
Fixpoint last_seen (c : ascii) (rl : list ascii) : nat :=
  match rl with
  | [] => 0
  | x :: rl' => if Ascii.eqb x c then length rl else last_seen c rl'
  end.

(** What [dist_matrix[i][j]] holds once it is computed: the recurrence on
    the prefixes of [i - 1] and [j - 1] characters, and [inf] in row 0 and
    in column 0. *)
Definition cell (source target : list ascii) (i j : nat) : Z :=
  match i, j with
  | S i', S j' =>
      Z.of_nat (lw (rev (firstn i' source)) (rev (firstn j' target)))
  | _, _ => Z.of_nat (length source + length target)
  end.

(** [m] holds what it should at the places of [region], within the bounds
    of the matrix. *)
Definition agrees (source target : list ascii) (m : ideal_matrix)
           (region : nat -> nat -> Prop) : Prop :=
  forall i j,
    i <= length source + 1 -> j <= length target + 1 -> region i j ->
    m i j = cell source target i j.

End DamLev.

(* ------------------------------------------------------------------ *)
(** ** src/dam_lev.c: the allocation of the matrix *)

Module Matrix2.
Import DamLev.

Section Alloc.
Variable size_bits : Z.

Definition size_mul (a b : size_t) : size_t := size_wrap size_bits (a * b).

(** [matrix2_new]: the number of bytes it asks [malloc] for, and the row
    pointers [rows[i]], [i < idim], it stores at the head of the block, each as
    the offset in bytes from [rows].  [sizeof_ptr] is the size of a pointer. *)
Definition matrix2_new (sizeof_ptr esize : size_t) (idim jdim : nat) :
  size_t * list size_t :=
  let ptrs_size := size_mul sizeof_ptr (size_of_nat size_bits idim) in
  let row_size := size_mul esize (size_of_nat size_bits jdim) in
  (* allocate the row pointers followed by the elements *)
  let block :=
    size_add size_bits ptrs_size
             (size_mul (size_of_nat size_bits idim) row_size) in
  let elements := ptrs_size in
  (block,
   map (fun i =>
          size_add size_bits elements
                   (size_mul (size_of_nat size_bits i) row_size))
       (seq 0 idim)).


End Alloc.
End Matrix2.

(* ------------------------------------------------------------------ *)
(** ** src/dam_lev.c: the edit distance on the allocated block *)

Module DamLevDist.
Import DamLev.

Local Abbreviation length := (@List.length ascii).

(** *** The block of memory *)

(** What a store leaves in memory: a row pointer or a [size_t].  A
    pointer into the block is the offset in bytes from its beginning;
    adding to a pointer does not wrap around, so that a pointer past the
    end of the block is outside of it. *)
Inductive value : Type :=
  | V_PTR (offset : Z)
  | V_SIZE (n : size_t).

(** The block that [malloc] returned: the number of its bytes, what they
    held when it was returned, read as a [size_t] at an offset, and the
    stores made since, the last one first, each with its offset and the
    number of bytes stored. *)
Record block : Type := {
  block_size : Z;
  block_fresh : Z -> size_t;
  block_stores : list (Z * Z * value)
}.

Definition in_block (b : block) (offset size : Z) : bool :=
  (0 <=? offset)%Z && (offset + size <=? block_size b)%Z.

Definition overlap (offset size offset' size' : Z) : bool :=
  (offset <? offset' + size')%Z && (offset' <? offset + size)%Z.

(** What [size] bytes at [offset] hold after the stores: what the last
    store that touched them left, when it stored these very bytes;
    otherwise some of these bytes are of another object, and nothing can be
    read from them. *)
Inductive content : Type :=
  | C_FRESH
  | C_VALUE (v : value)
  | C_TORN.

Fixpoint content_at (stores : list (Z * Z * value)) (offset size : Z) :
  content :=
  match stores with
  | [] => C_FRESH
  | (offset', size', v) :: stores' =>
      if (offset' =? offset)%Z && (size' =? size)%Z then C_VALUE v
      else if overlap offset size offset' size' then C_TORN
      else content_at stores' offset size
  end.

(** A store or a load outside of the block has no defined result. *)
Definition store (b : block) (offset size : Z) (v : value) : option block :=
  if in_block b offset size
  then Some {| block_size := block_size b;
               block_fresh := block_fresh b;
               block_stores := (offset, size, v) :: block_stores b |}
  else None.

Definition bind {A B : Type} (m : option A) (k : A -> option B) : option B :=
  match m with
  | Some a => k a
  | None => None
  end.

(** [for]: the body is run for each element of [l] in turn, as long as it
    has a result. *)
Fixpoint for_each {S : Type} (body : S -> nat -> option S) (l : list nat)
         (s : S) : option S :=
  match l with
  | [] => Some s
  | i :: l' => bind (body s i) (for_each body l')
  end.

Section Code.
Variable size_bits : Z.

(** The sizes in bytes of a pointer and of a [size_t]. *)
Variables sizeof_ptr sizeof_size_t : Z.

(** [malloc], which is given: NULL, or a block of as many bytes as asked
    for, holding anything. *)
Variable malloc : size_t -> option (Z -> size_t).

Definition size_mul (a b : size_t) : size_t := size_wrap size_bits (a * b).

(** A row pointer is read only where one was stored. *)
Definition load_ptr (b : block) (offset : Z) : option Z :=
  if in_block b offset sizeof_ptr
  then match content_at (block_stores b) offset sizeof_ptr with
       | C_VALUE (V_PTR p) => Some p
       | _ => None
       end
  else None.

(** A [size_t] is read where one was stored, or from bytes that are as
    [malloc] left them. *)
Definition load_size_t (b : block) (offset : Z) : option size_t :=
  if in_block b offset sizeof_size_t
  then match content_at (block_stores b) offset sizeof_size_t with
       | C_VALUE (V_SIZE n) => Some n
       | C_FRESH => Some (block_fresh b offset)
       | _ => None
       end
  else None.

(** [matrix2_new]: the block that it returns, with the row pointers
    stored at its head.  The result of [malloc] is not tested: when it is
    NULL, the first store has no defined result. *)
Definition matrix2_new (esize idim jdim : size_t) : option block :=
  let ptrs_size := size_mul sizeof_ptr idim in
  let row_size := size_mul esize jdim in
  (* allocate the row pointers followed by the elements *)
  bind (malloc (size_add size_bits ptrs_size (size_mul idim row_size)))
       (fun fresh =>
          let rows := {| block_size :=
                           size_add size_bits ptrs_size
                                    (size_mul idim row_size);
                         block_fresh := fresh;
                         block_stores := [] |} in
          let elements := ptrs_size in
          for_each
            (fun rows i =>
               store rows (Z.of_nat i * sizeof_ptr) sizeof_ptr
                     (V_PTR (elements
                             + size_mul (size_of_nat size_bits i) row_size)))
            (seq 0 (Z.to_nat idim)) rows).

(** [dist_matrix[i][j]], read. *)
Definition matrix_get (dist_matrix : block) (i j : nat) : option size_t :=
  bind (load_ptr dist_matrix (Z.of_nat i * sizeof_ptr))
       (fun row => load_size_t dist_matrix (row + Z.of_nat j * sizeof_size_t)).

(** [dist_matrix[i][j] = v]. *)
Definition matrix_set (dist_matrix : block) (i j : nat) (v : size_t) :
  option block :=
  bind (load_ptr dist_matrix (Z.of_nat i * sizeof_ptr))
       (fun row =>
          store dist_matrix (row + Z.of_nat j * sizeof_size_t) sizeof_size_t
                (V_SIZE v)).

(** [for ( i = 0; i <= slen; ++i )]. *)
Definition init_rows (inf : size_t) (slen : nat) (dist_matrix : block) :
  option block :=
  for_each
    (fun m i =>
       bind (matrix_set m (i + 1) 1 (size_of_nat size_bits i))
            (fun m => matrix_set m (i + 1) 0 inf))
    (seq 0 (slen + 1)) dist_matrix.

(** [for ( j = 0; j <= tlen; ++j )]. *)
Definition init_cols (inf : size_t) (tlen : nat) (dist_matrix : block) :
  option block :=
  for_each
    (fun m j =>
       bind (matrix_set m 1 (j + 1) (size_of_nat size_bits j))
            (fun m => matrix_set m 0 (j + 1) inf))
    (seq 0 (tlen + 1)) dist_matrix.

(** The body of the loop over [col]; the state is the matrix and
    [last_match_col]. *)
Definition col_body (target : list ascii) (last_row : last_row_t)
           (row : nat) (sc : ascii) (st : block * nat) (col : nat) :
  option (block * nat) :=
  let (dist_matrix, last_match_col) := st in
  let tc := nth (col - 1) target zero in
  let last_match_row := last_row tc in
  let match_ := Ascii.eqb sc tc in
  bind (matrix_get dist_matrix row (col + 1)) (fun ins =>
  let ins_dist := size_add size_bits ins 1%Z in
  bind (matrix_get dist_matrix (row + 1) col) (fun del =>
  let del_dist := size_add size_bits del 1%Z in
  bind (matrix_get dist_matrix row col) (fun sub =>
  let sub_dist := size_add size_bits sub (if match_ then 0%Z else 1%Z) in
  bind (matrix_get dist_matrix last_match_row last_match_col) (fun xpos =>
  let xpos_dist :=
    size_add size_bits
      (size_add size_bits
         (size_add size_bits xpos
                   (size_sub size_bits
                      (size_sub size_bits (size_of_nat size_bits row)
                                (size_of_nat size_bits last_match_row))
                      1%Z))
         (size_sub size_bits
            (size_sub size_bits (size_of_nat size_bits col)
                      (size_of_nat size_bits last_match_col))
            1%Z))
      1%Z in
  let dist_min := min_dist ins_dist del_dist in
  let dist_min := min_dist dist_min sub_dist in
  let dist_min := min_dist dist_min xpos_dist in
  bind (matrix_set dist_matrix (row + 1) (col + 1) dist_min)
       (fun dist_matrix =>
          Some (dist_matrix, if match_ then col else last_match_col)))))).

(** The body of the loop over [row]; the state is the matrix and
    [last_row]. *)
Definition row_body (source target : list ascii)
           (st : block * last_row_t) (row : nat) :
  option (block * last_row_t) :=
  let (dist_matrix, last_row) := st in
  let sc := nth (row - 1) source zero in
  let last_match_col := 0 in
  bind (for_each (col_body target last_row row sc) (seq 1 (length target))
                 (dist_matrix, last_match_col))
       (fun st' =>
          Some (fst st', fun c => if Ascii.eqb c sc then row else last_row c)).

(** [dam_lev_dist]: what it returns, when every store and every load on
    its way are inside the block. *)
Definition dam_lev_dist (source target : list ascii) : option size_t :=
  let slen := length source in
  let tlen := length target in
  if slen =? 0 then Some (size_of_nat size_bits tlen)
  else if tlen =? 0 then Some (size_of_nat size_bits slen)
  else
    bind (matrix2_new sizeof_size_t
                      (size_add size_bits (size_of_nat size_bits slen) 2%Z)
                      (size_add size_bits (size_of_nat size_bits tlen) 2%Z))
         (fun dist_matrix =>
    let inf :=
      size_add size_bits (size_of_nat size_bits slen)
               (size_of_nat size_bits tlen) in
    bind (matrix_set dist_matrix 0 0 inf) (fun dist_matrix =>
    bind (init_rows inf slen dist_matrix) (fun dist_matrix =>
    bind (init_cols inf tlen dist_matrix) (fun dist_matrix =>
    bind (for_each (row_body source target) (seq 1 slen)
                   (dist_matrix, fun _ => 0))
         (fun st => matrix_get (fst st) (slen + 1) (tlen + 1)))))).

(** The bytes of the matrix for the two strings: the row pointers and
    the rows, not wrapped around. *)
Definition matrix_bytes (source target : list ascii) : Z :=
  (sizeof_ptr * Z.of_nat (length source + 2)
   + Z.of_nat (length source + 2)
     * (sizeof_size_t * Z.of_nat (length target + 2)))%Z.

(** Where the row [i] begins, and where [dist_matrix[i][j]] lies, in a
    block of that size. *)
Definition row_offset (source target : list ascii) (i : nat) : Z :=
  (sizeof_ptr * Z.of_nat (length source + 2)
   + Z.of_nat i * (sizeof_size_t * Z.of_nat (length target + 2)))%Z.

Definition cell_offset (source target : list ascii) (i j : nat) : Z :=
  (row_offset source target i + Z.of_nat j * sizeof_size_t)%Z.

(** The block [m] is the matrix of the two strings and holds [d]: it has
    all the bytes of the matrix, its row pointers point to the rows, and
    the cell [dist_matrix[i][j]] reads [d i j]. *)
Definition holds (source target : list ascii) (m : block)
           (d : ideal_matrix) : Prop :=
  block_size m = matrix_bytes source target
  /\ (forall i, i < length source + 2 ->
        load_ptr m (Z.of_nat i * sizeof_ptr)
        = Some (row_offset source target i))
  /\ (forall i j, i < length source + 2 -> j < length target + 2 ->
        load_size_t m (cell_offset source target i j) = Some (d i j)).

End Code.

End DamLevDist.


(* ------------------------------------------------------------------ *)
(** ** src/english.c: the nodes that the printer visits *)

Module EnglishVisit.
Import English.

(** Every node that the printer visits is of a kind that it prints: the
    node itself, its arguments when it is a block, a function or an
    operator, and the AST that it is of when its kind is a parent kind. *)
Fixpoint visits_printable (ast : c_ast) : bool :=
  let '(C_AST d of_ast args) := ast in
  match kind d with
  | K_NONE | K_PLACEHOLDER => false
  | _ => true
  end
  && (if is_function_like (kind d) then forallb visits_printable args
      else true)
  && (if c_ast_is_parent d then
        match of_ast with
        | Some child => visits_printable child
        | None => true
        end
      else true).

End EnglishVisit.

(* ------------------------------------------------------------------ *)
(** ** src/util.c: strings and paths *)

Module Util.
Open Scope string_scope.

(** The character that ends a C string. *)
Definition NUL : ascii := Ascii.zero.

(** The C library's [strlen]: the characters before the first NUL. *)
Fixpoint strlen (s : string) : nat :=
  match s with
  | EmptyString => 0
  | String c rest => if Ascii.eqb c NUL then 0 else S (strlen rest)
  end.

(** The characters of a C string, those before its first NUL. *)
Fixpoint c_chars (s : string) : string :=
  match s with
  | EmptyString => EmptyString
  | String c rest =>
      if Ascii.eqb c NUL then EmptyString else String c (c_chars rest)
  end.

(** [c] occurs in [s]. *)
Fixpoint contains (c : ascii) (s : string) : bool :=
  match s with
  | EmptyString => false
  | String x rest => Ascii.eqb x c || contains c rest
  end.

(** The C library's [strrchr( s, c )] for a [c] other than NUL; a pointer
    into [s] is the rest of [s] from there on, and the null pointer is
    [None]. *)
Fixpoint strrchr (s : string) (c : ascii) : option string :=
  match s with
  | EmptyString => None
  | String x rest =>
      match strrchr rest c with
      | Some r => Some r
      | None => if Ascii.eqb x c then Some s else None
      end
  end.

(** src/util.c, [base_name]. *)
Definition base_name (path_name : string) : string :=
  match strrchr path_name "/" with
  | Some slash =>
      match slash with
      | String _ (String c rest) => String c rest   (* slash[1] is not NUL *)
      | _ => slash
      end
  | None => path_name
  end.

(** An array is the list of its elements.  Storing an element at an
    index; there is no result when the index is outside of the array. *)
Definition poke {A : Type} (buf : list A) (i : nat) (c : A)
  : option (list A) :=
  if Nat.ltb i (List.length buf)
  then Some (firstn i buf ++ c :: skipn (S i) buf)%list
  else None.

(** src/util.c, the loop of [strcpy_len]: [dst] is the index in [buf] that
    the pointer [dst] is at, [src] what is left to copy; the result is the
    array and the index after the loop. *)
Fixpoint strcpy_len_loop (buf : list ascii) (dst : nat) (src : string)
  : option (list ascii * nat) :=
  match src with
  | EmptyString =>
      match poke buf dst NUL with
      | Some buf => Some (buf, S dst)
      | None => None
      end
  | String c rest =>
      match poke buf dst c with
      | Some buf =>
          if Ascii.eqb c NUL then Some (buf, S dst)
          else strcpy_len_loop buf (S dst) rest
      | None => None
      end
  end.

(** src/util.c, [strcpy_len], called with a pointer to [buf[dst0]]. *)
Definition strcpy_len (buf : list ascii) (dst0 : nat) (src : string)
  : option (list ascii * nat) :=
  match strcpy_len_loop buf dst0 src with
  | Some (buf, dst) => Some (buf, dst - dst0 - 1)
  | None => None
  end.

End Util.

(* ------------------------------------------------------------------ *)
(** ** src/cdecl.c: a command given on the command line *)

Module Cdecl.
Import Util.
Open Scope string_scope.

Section CommandLine.

(** [true_or_set] of util.h, which is not among the sources: given the
    flag, what it returns and the flag afterwards. *)
Variable true_or_set : bool -> bool * bool.

(** The array that [malloc] returns for a size, with whatever it holds. *)
Variable malloc : nat -> list ascii.

(** src/cdecl.c, [parse_command_line]: the loop of the pre-flight. *)
Fixpoint preflight (argv : list string) (space : bool) (buf_len : nat)
  : nat :=
  match argv with
  | [] => buf_len
  | arg :: rest =>
      let '(sp, space) := true_or_set space in
      preflight rest space (buf_len + ((if sp then 1 else 0) + strlen arg))
  end.

(** src/cdecl.c, [parse_command_line]: the loop that builds the command;
    [s] is the index in [buf] that the pointer [s] is at. *)
Fixpoint build (argv : list string) (space : bool) (buf : list ascii)
         (s : nat) : option (list ascii * nat) :=
  match argv with
  | [] => Some (buf, s)
  | arg :: rest =>
      let '(sp, space) := true_or_set space in
      match (if sp then
               match poke buf s " "%char with
               | Some buf => Some (buf, S s)
               | None => None
               end
             else Some (buf, s)) with
      | Some (buf, s) =>
          match strcpy_len buf s arg with
          | Some (buf, n) => build rest space buf (s + n)
          | None => None
          end
      | None => None
      end
  end.

(** src/cdecl.c, [parse_command_line], up to its call of [parse_string]:
    the array and the length that it passes, or nothing when a store falls
    outside of the array.  A null [command] is [None]; lengths are counted
    without the wrap-around of [size_t]. *)
Definition parse_command_line (command : option string)
           (argv : list string) : option (list ascii * nat) :=
  let buf_len := 1 in
  let space := match command with Some _ => true | None => false end in
  let buf_len :=
    match command with
    | Some c => buf_len + strlen c
    | None => buf_len
    end in
  let buf_len := preflight argv space buf_len in
  let buf := malloc (buf_len + 1) in
  let s := 0 in
  match (match command with
         | Some c =>
             match strcpy_len buf 0 c with
             | Some (buf, n) => Some (buf, s + n)
             | None => None
             end
         | None => Some (buf, s)
         end) with
  | Some (buf, s) =>
      match build argv space buf s with
      | Some (buf, s) =>
          match poke buf s ";"%char with
          | Some buf => Some (buf, buf_len)
          | None => None
          end
      | None => None
      end
  | None => None
  end.

End CommandLine.

(** src/cdecl.c, [parse_string]: the text that [fmemopen] gives the parser
    to read, the first [s_len] characters of [s]. *)
Definition parse_string_input (s : list ascii) (s_len : nat) : string :=
  string_of_list_ascii (firstn s_len s).

(** What the building loop stores. *)
Fixpoint build_text (argv : list string) (space : bool) : list ascii :=
  match argv with
  | [] => []
  | arg :: rest =>
      (if space then [" "%char] else [])
      ++ list_ascii_of_string (c_chars arg) ++ build_text rest true
  end.

(** The words of the command: the name of the program when it is a
    command, and the arguments. *)
Definition command_words (command : option string) (argv : list string)
  : list string :=
  match command with
  | Some c => c :: argv
  | None => argv
  end.

(** The text of the command: the words with one space between them, and
    a semicolon. *)
Definition command_text (command : option string) (argv : list string)
  : string :=
  (String.concat " " (map c_chars (command_words command argv)) ++ ";")%string.

End Cdecl.

(* ------------------------------------------------------------------ *)
(** ** src/cli_options.c: command-line options *)

Module CliOptions.
Open Scope string_scope.

(** The macros that decide which options the program is built with. *)
Record build := {
  YYDEBUG            : bool;
  ENABLE_CDECL_DEBUG : bool;
  ENABLE_FLEX_DEBUG  : bool;
}.

(** The short options, [COPT(X)]. *)
Definition SOPT_DIGRAPHS      : ascii := "2".
Definition SOPT_TRIGRAPHS     : ascii := "3".
Definition SOPT_ALT_TOKENS    : ascii := "a".
Definition SOPT_BISON_DEBUG   : ascii := "B".
Definition SOPT_CONFIG        : ascii := "c".
Definition SOPT_NO_CONFIG     : ascii := "C".
Definition SOPT_CDECL_DEBUG   : ascii := "d".
Definition SOPT_EXPLAIN       : ascii := "e".
Definition SOPT_EAST_CONST    : ascii := "E".
Definition SOPT_FILE          : ascii := "f".
Definition SOPT_FLEX_DEBUG    : ascii := "F".
Definition SOPT_HELP          : ascii := "h".
Definition SOPT_INTERACTIVE   : ascii := "i".
Definition SOPT_EXPLICIT_INT  : ascii := "I".
Definition SOPT_COLOR         : ascii := "k".
Definition SOPT_OUTPUT        : ascii := "o".
Definition SOPT_NO_PROMPT     : ascii := "p".
Definition SOPT_NO_SEMICOLON  : ascii := "s".
Definition SOPT_EXPLICIT_ECSU : ascii := "S".
Definition SOPT_NO_TYPEDEFS   : ascii := "t".
Definition SOPT_NO_USING      : ascii := "u".
Definition SOPT_VERSION       : ascii := "v".
Definition SOPT_LANGUAGE      : ascii := "x".

(** [SOPT(X)]: the short option as a string. *)
Definition SOPT (c : ascii) : string := String c "".

(** What is compiled when a macro is defined. *)
Definition ifdef {A : Type} (defined : bool) (l : list A) : list A :=
  if defined then l else [].

Inductive has_arg_t := no_argument | required_argument.

(** A [struct option] of getopt_long; every [flag] of the table is null. *)
Record option_t := {
  name    : string;
  has_arg : has_arg_t;
  val     : ascii;
}.

(** src/cli_options.c, [CLI_OPTIONS_LONG] without the entry that ends
    it. *)
Definition CLI_OPTIONS_LONG (b : build) : list option_t :=
  [ {| name := "alt-tokens"; has_arg := no_argument;
       val := SOPT_ALT_TOKENS |} ]
  ++ ifdef (YYDEBUG b)
       [ {| name := "bison-debug"; has_arg := no_argument;
            val := SOPT_BISON_DEBUG |} ]
  ++ [ {| name := "color"; has_arg := required_argument;
          val := SOPT_COLOR |};
       {| name := "config"; has_arg := required_argument;
          val := SOPT_CONFIG |} ]
  ++ ifdef (ENABLE_CDECL_DEBUG b)
       [ {| name := "debug"; has_arg := no_argument;
            val := SOPT_CDECL_DEBUG |} ]
  ++ [ {| name := "digraphs"; has_arg := no_argument;
          val := SOPT_DIGRAPHS |};
       {| name := "east-const"; has_arg := no_argument;
          val := SOPT_EAST_CONST |};
       {| name := "explain"; has_arg := no_argument;
          val := SOPT_EXPLAIN |};
       {| name := "explicit-ecsu"; has_arg := required_argument;
          val := SOPT_EXPLICIT_ECSU |};
       {| name := "explicit-int"; has_arg := required_argument;
          val := SOPT_EXPLICIT_INT |};
       {| name := "file"; has_arg := required_argument;
          val := SOPT_FILE |} ]
  ++ ifdef (ENABLE_FLEX_DEBUG b)
       [ {| name := "flex-debug"; has_arg := no_argument;
            val := SOPT_FLEX_DEBUG |} ]
  ++ [ {| name := "help"; has_arg := no_argument; val := SOPT_HELP |};
       {| name := "interactive"; has_arg := no_argument;
          val := SOPT_INTERACTIVE |};
       {| name := "language"; has_arg := required_argument;
          val := SOPT_LANGUAGE |};
       {| name := "no-config"; has_arg := no_argument;
          val := SOPT_NO_CONFIG |};
       {| name := "no-prompt"; has_arg := no_argument;
          val := SOPT_NO_PROMPT |};
       {| name := "no-semicolon"; has_arg := no_argument;
          val := SOPT_NO_SEMICOLON |};
       {| name := "no-typedefs"; has_arg := no_argument;
          val := SOPT_NO_TYPEDEFS |};
       {| name := "no-using"; has_arg := no_argument;
          val := SOPT_NO_USING |};
       {| name := "output"; has_arg := required_argument;
          val := SOPT_OUTPUT |};
       {| name := "trigraphs"; has_arg := no_argument;
          val := SOPT_TRIGRAPHS |};
       {| name := "version"; has_arg := no_argument;
          val := SOPT_VERSION |} ].

Definition SOPT_NO_ARGUMENT       := "".
Definition SOPT_REQUIRED_ARGUMENT := ":".

(** src/cli_options.c, [CLI_OPTIONS_SHORT]. *)
Definition CLI_OPTIONS_SHORT (b : build) : string :=
  String.concat ""
    ([ ":";
       SOPT SOPT_ALT_TOKENS;    SOPT_NO_ARGUMENT ]
     ++ ifdef (YYDEBUG b)
       [ SOPT SOPT_BISON_DEBUG;   SOPT_NO_ARGUMENT ]
     ++ ifdef (ENABLE_CDECL_DEBUG b)
       [ SOPT SOPT_CDECL_DEBUG;   SOPT_NO_ARGUMENT ]
     ++ [ SOPT SOPT_COLOR;         SOPT_REQUIRED_ARGUMENT;
          SOPT SOPT_CONFIG;        SOPT_REQUIRED_ARGUMENT;
          SOPT SOPT_DIGRAPHS;      SOPT_NO_ARGUMENT;
          SOPT SOPT_EAST_CONST;    SOPT_NO_ARGUMENT;
          SOPT SOPT_EXPLAIN;       SOPT_NO_ARGUMENT;
          SOPT SOPT_EXPLICIT_ECSU; SOPT_REQUIRED_ARGUMENT;
          SOPT SOPT_EXPLICIT_INT;  SOPT_REQUIRED_ARGUMENT;
          SOPT SOPT_FILE;          SOPT_REQUIRED_ARGUMENT ]
     ++ ifdef (ENABLE_FLEX_DEBUG b)
       [ SOPT SOPT_FLEX_DEBUG;    SOPT_NO_ARGUMENT ]
     ++ [ SOPT SOPT_HELP;          SOPT_NO_ARGUMENT;
          SOPT SOPT_INTERACTIVE;   SOPT_NO_ARGUMENT;
          SOPT SOPT_LANGUAGE;      SOPT_REQUIRED_ARGUMENT;
          SOPT SOPT_NO_CONFIG;     SOPT_NO_ARGUMENT;
          SOPT SOPT_NO_PROMPT;     SOPT_NO_ARGUMENT;
          SOPT SOPT_NO_SEMICOLON;  SOPT_NO_ARGUMENT;
          SOPT SOPT_NO_TYPEDEFS;   SOPT_NO_ARGUMENT;
          SOPT SOPT_NO_USING;      SOPT_NO_ARGUMENT;
          SOPT SOPT_OUTPUT;        SOPT_REQUIRED_ARGUMENT;
          SOPT SOPT_TRIGRAPHS;     SOPT_NO_ARGUMENT;
          SOPT SOPT_VERSION;       SOPT_NO_ARGUMENT ])%list.

(** How getopt(3) reads a string of short options after the colon that
    it starts with: every character is an option, which requires an
    argument when a colon follows it. *)
Fixpoint getopt_shorts (s : string) : list (ascii * has_arg_t) :=
  match s with
  | EmptyString => []
  | String c (String ":" rest) => (c, required_argument) :: getopt_shorts rest
  | String c rest => (c, no_argument) :: getopt_shorts rest
  end.

(** The name of the entry at an index of the array [CLI_OPTIONS_LONG];
    that of the entry that ends the array is null. *)
Definition cli_option_name (b : build) (i : nat) : option string :=
  match nth_error (CLI_OPTIONS_LONG b) i with
  | Some e => Some (name e)
  | None => None
  end.

(** src/cli_options.c, [cli_option_next]; a pointer to an entry is its
    index, the null pointer is [None]. *)
Definition cli_option_next (b : build) (opt : option nat) : option nat :=
  match opt with
  | None => Some 0
  | Some i =>
      match cli_option_name b (S i) with
      | None => None
      | Some _ => Some (S i)
      end
  end.

(** src/cli_options.c, [opt_get_long]; [FOREACH_CLI_OPTION] goes through
    the entries in the order of the array. *)
Definition opt_get_long (b : build) (short_opt : ascii) : string :=
  match find (fun opt => Ascii.eqb (val opt) short_opt)
             (CLI_OPTIONS_LONG b) with
  | Some opt => name opt
  | None => ""
  end.

(** src/cli_options.c, [opt_format]: the string printed into [sbuf]. *)
Definition opt_format (b : build) (short_opt : ascii) : string :=
  let long_opt := opt_get_long b short_opt in
  (match long_opt with String _ _ => "--" | EmptyString => "" end)
  ++ long_opt
  ++ (match long_opt with String _ _ => "/" | EmptyString => "" end)
  ++ "-" ++ String short_opt "".

(** A function that either returns or prints an error message and exits
    with a status ([FATAL_ERR]); the message is kept without what
    [FATAL_ERR] puts before it. *)
Inductive exit_t (A : Type) :=
  | Returns (a : A)
  | Fatal (status : Z) (message : string).
Arguments Returns {A} a.
Arguments Fatal {A} status message.

Definition EX_USAGE : Z := 64.

Definition NL : string := String "010" "".

Section Given.

(** src/cli_options.c, [opts_given]. *)
Variable b : build.
Variable opts_given : ascii -> bool.

(** src/cli_options.c, [check_mutually_exclusive]: the inner loop, from
    where [opt] points to; it returns [gave_count] and [gave_opt1]. *)
Fixpoint check_scan (opt : string) (gave_count : nat) (gave_opt1 : ascii)
  : exit_t (nat * ascii) :=
  match opt with
  | EmptyString => Returns (gave_count, gave_opt1)
  | String c rest =>
      if opts_given c then
        let gave_count := S gave_count in
        if Nat.ltb 1 gave_count then
          let gave_opt2 := c in
          Fatal EX_USAGE
            (opt_format b gave_opt1 ++ " and " ++ opt_format b gave_opt2
               ++ " are mutually exclusive" ++ NL)
        else Returns (gave_count, c)
      else check_scan rest gave_count gave_opt1
  end.

(** The outer loop with [n] iterations to go. *)
Fixpoint check_sets (n : nat) (opt opts2 : string) (gave_count : nat)
         (gave_opt1 : ascii) : exit_t unit :=
  match n with
  | 0 => Returns tt
  | S n =>
      match check_scan opt gave_count gave_opt1 with
      | Fatal status message => Fatal status message
      | Returns (gave_count, gave_opt1) =>
          if Nat.eqb gave_count 0 then Returns tt
          else check_sets n opts2 opts2 gave_count gave_opt1
      end
  end.

Definition check_mutually_exclusive (opts1 opts2 : string) : exit_t unit :=
  check_sets 2 opts1 opts2 0 Ascii.zero.

(** src/cli_options.c, [parse_options]: its three calls of
    [check_mutually_exclusive], made once the options are read. *)
Definition parse_options_checks : exit_t unit :=
  match check_mutually_exclusive (SOPT SOPT_DIGRAPHS) (SOPT SOPT_TRIGRAPHS)
  with
  | Fatal status message => Fatal status message
  | Returns _ =>
      match check_mutually_exclusive (SOPT SOPT_HELP)
              (String.concat ""
                 ([ SOPT SOPT_ALT_TOKENS ]
                  ++ ifdef (YYDEBUG b) [ SOPT SOPT_BISON_DEBUG ]
                  ++ ifdef (ENABLE_CDECL_DEBUG b) [ SOPT SOPT_CDECL_DEBUG ]
                  ++ [ SOPT SOPT_COLOR;
                       SOPT SOPT_CONFIG;
                       SOPT SOPT_DIGRAPHS;
                       SOPT SOPT_EAST_CONST;
                       SOPT SOPT_EXPLAIN;
                       SOPT SOPT_EXPLICIT_ECSU;
                       SOPT SOPT_EXPLICIT_INT;
                       SOPT SOPT_FILE ]
                  ++ ifdef (ENABLE_FLEX_DEBUG b) [ SOPT SOPT_FLEX_DEBUG ]
                  ++ [ SOPT SOPT_INTERACTIVE;
                       SOPT SOPT_LANGUAGE;
                       SOPT SOPT_NO_CONFIG;
                       SOPT SOPT_NO_PROMPT;
                       SOPT SOPT_NO_SEMICOLON;
                       SOPT SOPT_NO_TYPEDEFS;
                       SOPT SOPT_NO_USING;
                       SOPT SOPT_OUTPUT;
                       SOPT SOPT_TRIGRAPHS;
                       SOPT SOPT_VERSION ])%list) with
      | Fatal status message => Fatal status message
      | Returns _ =>
          check_mutually_exclusive (SOPT SOPT_VERSION)
            (String.concat ""
               ([ SOPT SOPT_ALT_TOKENS ]
                ++ ifdef (YYDEBUG b) [ SOPT SOPT_BISON_DEBUG ]
                ++ ifdef (ENABLE_CDECL_DEBUG b) [ SOPT SOPT_CDECL_DEBUG ]
                ++ [ SOPT SOPT_COLOR;
                     SOPT SOPT_CONFIG;
                     SOPT SOPT_DIGRAPHS;
                     SOPT SOPT_EAST_CONST;
                     SOPT SOPT_EXPLAIN;
                     SOPT SOPT_EXPLICIT_ECSU;
                     SOPT SOPT_EXPLICIT_INT;
                     SOPT SOPT_FILE ]
                ++ ifdef (ENABLE_FLEX_DEBUG b) [ SOPT SOPT_FLEX_DEBUG ]
                ++ [ SOPT SOPT_HELP;
                     SOPT SOPT_INTERACTIVE;
                     SOPT SOPT_LANGUAGE;
                     SOPT SOPT_NO_CONFIG;
                     SOPT SOPT_NO_PROMPT;
                     SOPT SOPT_NO_SEMICOLON;
                     SOPT SOPT_NO_TYPEDEFS;
                     SOPT SOPT_NO_USING;
                     SOPT SOPT_OUTPUT;
                     SOPT SOPT_TRIGRAPHS ])%list)
      end
  end.

End Given.

(** src/color.h, [color_when]. *)
Inductive color_when_t :=
  COLOR_NEVER | COLOR_ISATTY | COLOR_NOT_FILE | COLOR_ALWAYS.

(** The C library's [tolower] in the C locale. *)
Definition tolower (c : ascii) : ascii :=
  let n := nat_of_ascii c in
  if Nat.leb 65 n && Nat.leb n 90 then ascii_of_nat (n + 32) else c.

(** The C library's [strcasecmp( a, b ) == 0]. *)
Fixpoint strcasecmp_eq (a b : string) : bool :=
  match a, b with
  | EmptyString, EmptyString => true
  | String x a, String y b =>
      Ascii.eqb (tolower x) (tolower y) && strcasecmp_eq a b
  | _, _ => false
  end.

(** src/cli_options.c, [parse_color_when]: [COLORIZE_MAP] without the
    entry that ends it. *)
Definition COLORIZE_MAP : list (string * color_when_t) :=
  [ ("always",    COLOR_ALWAYS);
    ("auto",      COLOR_ISATTY);
    ("isatty",    COLOR_ISATTY);
    ("never",     COLOR_NEVER);
    ("not_file",  COLOR_NOT_FILE);
    ("not_isreg", COLOR_NOT_FILE);
    ("tty",       COLOR_ISATTY) ].

(** src/cli_options.c, [parse_color_when]; [strbuf_sepsn_puts] of strbuf.h
    puts the separator before every string but the first. *)
Definition parse_color_when (b : build) (when : string)
  : exit_t color_when_t :=
  match find (fun m => strcasecmp_eq when (fst m)) COLORIZE_MAP with
  | Some m => Returns (snd m)
  | None =>
      Fatal EX_USAGE
        (String "034" when ++ String "034" ": invalid value for "
           ++ opt_format b SOPT_COLOR ++ "; must be one of: "
           ++ String.concat ", " (map fst COLORIZE_MAP) ++ NL)
  end.

(** src/cli_options.c, [is_cppdecl]; [CPPDECL] is defined in
    src/common.h. *)
Definition CPPDECL := "c++decl".

Definition is_cppdecl (prog_name : string) : bool :=
  existsb (fun pname => strcasecmp_eq pname prog_name)
    [ CPPDECL; "cppdecl"; "cxxdecl" ].

End CliOptions.

(* ------------------------------------------------------------------ *)
(** ** src/autocomplete.c: completion of commands and keywords *)

Module Autocomplete.
Import Util.
Open Scope string_scope.

(** The character that a pointer to a C string points to, NUL at the end
    of the string, and the pointer after it. *)
Definition head (s : string) : ascii :=
  match s with
  | String c _ => c
  | EmptyString => NUL
  end.

Definition tail (s : string) : string :=
  match s with
  | String _ rest => rest
  | EmptyString => EmptyString
  end.

(** The C library's [strncmp( a, b, n ) == 0]. *)
Fixpoint strncmp_eq (a b : string) (n : nat) : bool :=
  match n with
  | 0 => true
  | S n =>
      if Ascii.eqb (head a) (head b) then
        if Ascii.eqb (head a) NUL then true
        else strncmp_eq (tail a) (tail b) n
      else false
  end.

(** The C library's [strcpy( buf + dst, src )], the loop of
    [strcpy_len]. *)
Definition strcpy (buf : list ascii) (dst : nat) (src : string)
  : option (list ascii) :=
  match strcpy_len_loop buf dst src with
  | Some (buf, _) => Some buf
  | None => None
  end.

(** The C string that an array of characters holds. *)
Definition c_string_at (buf : list ascii) : string :=
  c_chars (string_of_list_ascii buf).

(** A [c_lang_lit_t]; a null [literal] is [None]. *)
Record c_lang_lit_t := {
  lang_ids : Z;
  literal  : option string;
}.

(** The members of a [c_keyword_t], a [cdecl_command_t], a [set_option_t]
    and a [c_lang_t] that this file reads. *)
Record c_keyword_t := {
  k_literal   : string;
  ac_lang_ids : Z;
}.

Record cdecl_command_t := {
  c_literal  : string;
  c_lang_ids : Z;
}.

Inductive set_opt_type_t :=
  SET_OPT_TOGGLE | SET_OPT_AFF_ONLY | SET_OPT_NEG_ONLY.

Record set_option_t := {
  opt_name : string;
  opt_type : set_opt_type_t;
}.

Record c_lang_t := {
  lang_name : string;
  is_alias  : bool;
}.

(** [L_OPTIONS], as the comment of [init_set_options] gives it. *)
Definition L_OPTIONS := "options".

Section Tables.

(** The tables of other translation units, each without the entry that
    ends it, and the functions of other translation units. *)
Variable LANG_NONE : Z.
Variable AC_CDECL_KEYWORDS : list c_lang_lit_t.
Variable C_KEYWORDS : list c_keyword_t.
Variable CDECL_COMMANDS : list cdecl_command_t.
Variable SET_OPTIONS : list set_option_t.
Variable LANGS : list c_lang_t.
Variable opt_lang_is_any : Z -> bool.
Variable check_strdup_tolower : string -> string.

(** What [malloc] returns for a number of elements: an array of so many
    elements, with whatever they hold. *)
Variable malloc_lits : nat -> list c_lang_lit_t.
Variable malloc_ptrs : nat -> list (option string).
Variable malloc_chars : nat -> list ascii.

(** src/autocomplete.c, [init_cdecl_keywords]: the pre-flight. *)
Fixpoint cdecl_keywords_preflight (ks : list c_keyword_t)
         (cdecl_keywords_size : nat) : nat :=
  match ks with
  | [] => cdecl_keywords_size
  | k :: ks =>
      cdecl_keywords_preflight ks
        (if negb (Z.eqb (ac_lang_ids k) LANG_NONE)
         then S cdecl_keywords_size else cdecl_keywords_size)
  end.

(** The loop that copies [AC_CDECL_KEYWORDS], which ends at an entry
    with a null literal; [p] is the index that the pointer [p] is at. *)
Fixpoint copy_ac_keywords (lls : list c_lang_lit_t)
         (cdecl_keywords : list c_lang_lit_t) (p : nat)
  : option (list c_lang_lit_t * nat) :=
  match lls with
  | [] => Some (cdecl_keywords, p)
  | ll :: lls =>
      match literal ll with
      | None => Some (cdecl_keywords, p)
      | Some _ =>
          match poke cdecl_keywords p ll with
          | Some cdecl_keywords => copy_ac_keywords lls cdecl_keywords (S p)
          | None => None
          end
      end
  end.

(** The loop that copies the C keywords that are completed. *)
Fixpoint copy_c_keywords (ks : list c_keyword_t)
         (cdecl_keywords : list c_lang_lit_t) (p : nat)
  : option (list c_lang_lit_t * nat) :=
  match ks with
  | [] => Some (cdecl_keywords, p)
  | k :: ks =>
      if negb (Z.eqb (ac_lang_ids k) LANG_NONE) then
        match poke cdecl_keywords p
                {| lang_ids := ac_lang_ids k;
                   literal := Some (k_literal k) |} with
        | Some cdecl_keywords => copy_c_keywords ks cdecl_keywords (S p)
        | None => None
        end
      else copy_c_keywords ks cdecl_keywords p
  end.

(** src/autocomplete.c, [init_cdecl_keywords]: the array that it returns,
    or nothing when a store falls outside of the array.  [ARRAY_SIZE]
    counts the entry that ends [AC_CDECL_KEYWORDS]; [MEM_ZERO] stores an
    entry of zeros. *)
Definition init_cdecl_keywords : option (list c_lang_lit_t) :=
  let cdecl_keywords_size := S (List.length AC_CDECL_KEYWORDS) in
  let cdecl_keywords_size :=
    cdecl_keywords_preflight C_KEYWORDS cdecl_keywords_size in
  let cdecl_keywords := malloc_lits cdecl_keywords_size in
  let p := 0 in
  match copy_ac_keywords AC_CDECL_KEYWORDS cdecl_keywords p with
  | Some (cdecl_keywords, p) =>
      match copy_c_keywords C_KEYWORDS cdecl_keywords p with
      | Some (cdecl_keywords, p) =>
          poke cdecl_keywords p {| lang_ids := 0; literal := None |}
      | None => None
      end
  | None => None
  end.

(** src/autocomplete.c, [init_set_options]: the two loops of the
    pre-flight. *)
Fixpoint set_options_preflight (opts : list set_option_t)
         (set_options_size : nat) : nat :=
  match opts with
  | [] => set_options_size
  | opt :: opts =>
      set_options_preflight opts
        (set_options_size + 1
         + match opt_type opt with SET_OPT_TOGGLE => 1 | _ => 0 end)
  end.

Fixpoint langs_preflight (langs : list c_lang_t) (set_options_size : nat)
  : nat :=
  match langs with
  | [] => set_options_size
  | lang :: langs =>
      langs_preflight langs
        (if negb (is_alias lang) then S set_options_size
         else set_options_size)
  end.

(** The string that the cases [SET_OPT_TOGGLE] and [SET_OPT_NEG_ONLY]
    build in an array of characters of their own. *)
Definition no_option (name : string) : option string :=
  let buf := malloc_chars (2 + strlen name + 1) in
  match strcpy buf 0 "no" with
  | Some buf =>
      match strcpy buf 2 name with
      | Some buf => Some (c_string_at buf)
      | None => None
      end
  | None => None
  end.

Definition store_no_option (set_options : list (option string)) (p : nat)
           (opt : set_option_t) : option (list (option string) * nat) :=
  match no_option (opt_name opt) with
  | Some no_name =>
      match poke set_options p (Some no_name) with
      | Some set_options => Some (set_options, S p)
      | None => None
      end
  | None => None
  end.

(** The loop over the options; an element of the array is the C string
    that it points to, and [None] when it is null. *)
Fixpoint store_set_options (opts : list set_option_t)
         (set_options : list (option string)) (p : nat)
  : option (list (option string) * nat) :=
  match opts with
  | [] => Some (set_options, p)
  | opt :: opts =>
      match
        match opt_type opt with
        | SET_OPT_AFF_ONLY =>
            match poke set_options p (Some (c_chars (opt_name opt))) with
            | Some set_options => Some (set_options, S p)
            | None => None
            end
        | SET_OPT_TOGGLE =>
            match poke set_options p (Some (c_chars (opt_name opt))) with
            | Some set_options => store_no_option set_options (S p) opt
            | None => None
            end
        | SET_OPT_NEG_ONLY => store_no_option set_options p opt
        end
      with
      | Some (set_options, p) => store_set_options opts set_options p
      | None => None
      end
  end.

(** The loop over the languages. *)
Fixpoint store_langs (langs : list c_lang_t)
         (set_options : list (option string)) (p : nat)
  : option (list (option string) * nat) :=
  match langs with
  | [] => Some (set_options, p)
  | lang :: langs =>
      if negb (is_alias lang) then
        match poke set_options p
                (Some (check_strdup_tolower (lang_name lang))) with
        | Some set_options => store_langs langs set_options (S p)
        | None => None
        end
      else store_langs langs set_options p
  end.

(** src/autocomplete.c, [init_set_options]: the array that it returns, or
    nothing when a store falls outside of an array. *)
Definition init_set_options : option (list (option string)) :=
  let set_options_size := 1 + 1 in
  let set_options_size := set_options_preflight SET_OPTIONS set_options_size in
  let set_options_size := langs_preflight LANGS set_options_size in
  let set_options := malloc_ptrs set_options_size in
  let p := 0 in
  match poke set_options p (Some L_OPTIONS) with
  | Some set_options =>
      match store_set_options SET_OPTIONS set_options (S p) with
      | Some (set_options, p) =>
          match store_langs LANGS set_options p with
          | Some (set_options, p) => poke set_options p None
          | None => None
          end
      | None => None
      end
  | None => None
  end.

(** The strings that an option is completed to. *)
Definition set_option_names (opt : set_option_t) : list string :=
  match opt_type opt with
  | SET_OPT_AFF_ONLY => [ c_chars (opt_name opt) ]
  | SET_OPT_TOGGLE =>
      [ c_chars (opt_name opt); "no" ++ c_chars (opt_name opt) ]
  | SET_OPT_NEG_ONLY => [ "no" ++ c_chars (opt_name opt) ]
  end.

(** The static variables of [command_generator]. *)
Record generator_state := {
  match_index : nat;
  text_len    : nat;
}.

(** src/autocomplete.c, [command_generator]: the loop, at the entry
    [CDECL_COMMANDS + match_index] that [commands] starts with. *)
Fixpoint command_loop (commands : list cdecl_command_t) (match_index : nat)
         (text : string) (text_len : nat) : option string * nat :=
  match commands with
  | [] => (None, match_index)
  | c :: commands =>
      let match_index := S match_index in
      if negb (opt_lang_is_any (c_lang_ids c)) then
        command_loop commands match_index text text_len
      else if strncmp_eq text (c_literal c) text_len then
        (Some (c_chars (c_literal c)), match_index)
      else command_loop commands match_index text text_len
  end.

(** src/autocomplete.c, [command_generator]: the string returned, null
    when there is none, and the static variables after the call. *)
Definition command_generator (st : generator_state) (text : string)
           (state : Z) : option string * generator_state :=
  let st :=
    if Z.eqb state 0 then
      {| match_index := 0; text_len := strlen text |}
    else st in
  let '(found, index) :=
    command_loop (skipn (match_index st) CDECL_COMMANDS) (match_index st)
      text (text_len st) in
  (found, {| match_index := index; text_len := text_len st |}).

(** How readline collects the matches: it calls the generator with a
    state of 0 first and with another state afterwards, until the
    generator returns null; [calls] bounds the number of calls. *)
Fixpoint generate (calls : nat) (st : generator_state) (text : string)
         (state : Z) : list string :=
  match calls with
  | 0 => []
  | S calls =>
      match command_generator st text state with
      | (Some s, st) => s :: generate calls st text 1
      | (None, _) => []
      end
  end.

End Tables.

End Autocomplete.

(* ------------------------------------------------------------------ *)
(** ** src/autocomplete.c, later revision: the command of a line *)

Module Autocomplete2.
Import Util.
Open Scope string_scope.

Section Line.

(** [is_ident] of util.h, which is not among the sources. *)
Variable is_ident : ascii -> bool.

(** The character [s[i]] of a C string; the NUL that ends the string is
    at its length. *)
Fixpoint char_at (s : string) (i : nat) : ascii :=
  match i with
  | 0 => Autocomplete.head s
  | S i => char_at (Autocomplete.tail s) i
  end.

(** src/autocomplete.c, [is_command]. *)
Definition is_command (command s : string) (s_len : nat) : bool :=
  let command_len := strlen command in
  if Nat.ltb s_len command_len
     || negb (Autocomplete.strncmp_eq s command command_len) then false
  else if Nat.eqb command_len s_len then true
  else negb (is_ident (char_at s command_len)).

End Line.

End Autocomplete2.

(* ------------------------------------------------------------------ *)
(** ** src/util.c: memory to free at exit *)

Module FreeList.
Open Scope Z_scope.

(** A pointer is an address, the null pointer is 0. *)
Record free_node_t := {
  fn_ptr  : Z;
  fn_next : Z;
}.

(** The memory that the list is in: the addresses of the blocks that are
    allocated, what has been stored in blocks as nodes, and the static
    variable [free_head]. *)
Record heap := {
  blocks    : list Z;
  nodes     : list (Z * free_node_t);
  free_head : Z;
}.

(** The node at an address, when the address is that of an allocated
    block; the latest node stored there. *)
Definition load (h : heap) (p : Z) : option free_node_t :=
  if existsb (Z.eqb p) (blocks h) then
    match find (fun e => Z.eqb (fst e) p) (nodes h) with
    | Some e => Some (snd e)
    | None => None
    end
  else None.

(** The C library's [free]: nothing for the null pointer; there is no
    result for an address that is not allocated. *)
Definition free (p : Z) (h : heap) : option heap :=
  if Z.eqb p 0 then Some h
  else if existsb (Z.eqb p) (blocks h) then
    Some {| blocks := remove Z.eq_dec p (blocks h);
            nodes := nodes h;
            free_head := free_head h |}
  else None.

(** src/util.c, [free_later]; [new_node] is the address that [MALLOC]
    returns.  There is no result when the assertion fails. *)
Definition free_later (new_node : Z) (p : Z) (h : heap) : option heap :=
  if Z.eqb p 0 then None
  else
    Some {| blocks := new_node :: blocks h;
            nodes :=
              (new_node, {| fn_ptr := p; fn_next := free_head h |})
                :: nodes h;
            free_head := new_node |}.

(** src/util.c, [free_now]: the loop, with a bound on its iterations.
    There is no result when a node is read that is not allocated, when
    [free] has none, or when the bound is reached. *)
Fixpoint free_now_loop (bound : nat) (p : Z) (h : heap) : option heap :=
  if Z.eqb p 0 then Some h
  else
    match bound with
    | O => None
    | S bound =>
        match load h p with
        | Some node =>
            let next := fn_next node in
            match free (fn_ptr node) h with
            | Some h =>
                match free p h with
                | Some h => free_now_loop bound next h
                | None => None
                end
            | None => None
            end
        | None => None
        end
    end.

(** src/util.c, [free_now]; every iteration frees a block, so that the
    number of blocks bounds the iterations. *)
Definition free_now (h : heap) : option heap :=
  match free_now_loop (List.length (blocks h)) (free_head h) h with
  | Some h =>
      Some {| blocks := blocks h; nodes := nodes h; free_head := 0 |}
  | None => None
  end.

(** Calls of [free_later], the first of the list first: for each call
    the address that [MALLOC] returns and the pointer. *)
Fixpoint free_later_all (calls : list (Z * Z)) (h : heap) : option heap :=
  match calls with
  | [] => Some h
  | (new_node, p) :: calls =>
      match free_later new_node p h with
      | Some h => free_later_all calls h
      | None => None
      end
  end.

(** The list at [p] holds the pointers of [l], each in the node whose
    address goes with it, from the head on. *)
Fixpoint is_list (stored : list (Z * free_node_t)) (p : Z)
         (l : list (Z * Z)) : Prop :=
  match l with
  | [] => p = 0
  | (node, ptr) :: l =>
      p = node /\ node <> 0
      /\ exists next,
           find (fun e => Z.eqb (fst e) node) stored
           = Some (node, {| fn_ptr := ptr; fn_next := next |})
           /\ is_list stored next l
  end.

End FreeList.

(* ------------------------------------------------------------------ *)
(** ** src/help.c: the help text *)

Module Help.
Open Scope string_scope.

Definition NOT_IN_LANG := "~".
Definition SAME_AS_C   := "".

Record help_text_t := {
  text     : string;
  cpp_text : string;
}.

(** A double quote, and the character that starts a color sequence. *)
Definition DQ  : string := String "034" "".
Definition ESC : string := String "027" "".

(** src/help.c, [HELP_TEXT]. *)
Definition HELP_TEXT : list help_text_t :=
  [ {| text := "[] = 0 or 1; * = 0 or more; {} = one of; | = alternate; <> = defined elsewhere";
       cpp_text := SAME_AS_C |};
    {| text := "command:"; cpp_text := SAME_AS_C |};
    {| text := "  explain <gibberish> | declare <name> as <english>";
       cpp_text := "  explain <gibberish> | declare { <name> | <operator> } as <english>" |};
    {| text := "  cast <name> into <english>";
       cpp_text := "  [const | dynamic | reinterpret | static] cast <name> into <english>" |};
    {| text := "  define <name> as <english> | typedef <gibberish>";
       cpp_text := "  define <name> as <english> | typedef <gibberish> | using <name> = <gibberish>" |};
    {| text := "  show { <name> | all | predefined | user } [typedef]";
       cpp_text := SAME_AS_C |};
    {| text := "  set [options]              | help | ?            | exit | quit | q";
       cpp_text := SAME_AS_C |};
    {| text := "english:"; cpp_text := SAME_AS_C |};
    {| text := "  <store>* array [[static] <cv-qual>* {<number>|\*}] of <english>";
       cpp_text := "  <store>* array [<number>] of <english>" |};
    {| text := "  <store>* variable length array <cv-qual>* of <english>";
       cpp_text := NOT_IN_LANG |};
    {| text := "  block [([<args>])] [returning <english>]";
       cpp_text := SAME_AS_C |};
    {| text := "  <store>* function [([<args>])] [returning <english>]";
       cpp_text := "  <store>* <fn-qual>* [[non-]member] function [([<args>])] [returning <english>]" |};
    {| text := NOT_IN_LANG;
       cpp_text := "  <store>* <fn-qual>* [[non-]member] operator [([<args>])] [returning <english>]" |};
    {| text := "  <cv-qual>* pointer to <english>";
       cpp_text := "  <cv-qual>* pointer to [member of class <name>] <english>" |};
    {| text := NOT_IN_LANG;
       cpp_text := "  [rvalue] reference to <english>" |};
    {| text := "  <store>* <modifier>* [<C-type>]";
       cpp_text := "  <store>* <modifier>* [<C++-type>]" |};
    {| text := "  { enum | struct | union } <name>";
       cpp_text := "  { enum [class|struct] | struct | union | class } <name>" |};
    {| text := "args: a comma separated list of <name>, <english>, or <name> as <english>";
       cpp_text := "args: a comma separated list of <english> or <name> as <english>" |};
    {| text := "gibberish: a C declaration, like " ++ DQ ++ "int x" ++ DQ
                 ++ "; or cast, like " ++ DQ ++ "(int)x" ++ DQ;
       cpp_text := "gibberish: a C++ declaration, like " ++ DQ ++ "int x"
                     ++ DQ ++ "; or cast, like " ++ DQ ++ "(int)x" ++ DQ |};
    {| text := "C-type: bool char char16_t char32_t wchar_t int float double void";
       cpp_text := "C++-type: bool char char16_t char32_t wchar_t int float double void" |};
    {| text := "cv-qual: _Atomic const restrict volatile";
       cpp_text := "cv-qual: const volatile" |};
    {| text := NOT_IN_LANG;
       cpp_text := "fn-qual: const volatile [rvalue] reference" |};
    {| text := "modifier: short long signed unsigned atomic const restrict volatile";
       cpp_text := "modifier: short long signed unsigned const volatile" |};
    {| text := "store: auto extern register static thread_local";
       cpp_text := "store: constexpr extern friend register static thread_local [pure] virtual" |} ].

(** The character [s[0]] of a C string, the NUL that ends it when it is
    empty. *)
Definition char0 (s : string) : ascii :=
  match s with
  | String c _ => c
  | EmptyString => Ascii.zero
  end.

(** The C library's [isalpha] in the C locale. *)
Definition isalpha (c : ascii) : bool :=
  let n := nat_of_ascii c in
  (Nat.leb 65 n && Nat.leb n 90) || (Nat.leb 97 n && Nat.leb n 122).

Section Colors.

(** The globals of src/color.h; a null capability is [None]. *)
Variable colorize : bool.
Variable sgr_help_nonterm : option string.
Variable sgr_help_punct : option string.
Variable sgr_help_title : option string.

Definition SGR_END := ESC ++ "[m".
Definition SGR_EL  := ESC ++ "[K".

(** src/color.h, [SGR_START_COLOR] and [SGR_END_COLOR], on the output so
    far. *)
Definition SGR_START_COLOR (color : option string) (out : string) : string :=
  match color with
  | Some sgr => if colorize then out ++ ESC ++ "[" ++ sgr ++ "m" ++ SGR_EL
                else out
  | None => out
  end.

Definition SGR_END_COLOR (out : string) : string :=
  if colorize then out ++ SGR_END ++ SGR_EL else out.

Definition PUTC_OUT (c : ascii) (out : string) : string :=
  out ++ String c "".

(** The characters that the [switch] of [print_help_line] lists after
    the backslash. *)
Definition is_punct (c : ascii) : bool :=
  existsb (Ascii.eqb c) [ "*"; "["; "]"; "{"; "|"; "}" ]%char.

(** src/help.c, [print_help_line]: the loop, with [c] at the first
    character of [s]; [at_start] is [c == line].  The inner loop of a
    title is [print_help_title]; when it reaches the end of the line, the
    outer loop goes on behind the end, which has no result. *)
Fixpoint print_help_loop (at_start escaped : bool) (s : string)
         (out : string) {struct s} : option string :=
  match s with
  | EmptyString => Some out
  | String c rest =>
      if Ascii.eqb c "092" && negb escaped then
        print_help_loop false true rest out
      else if Ascii.eqb c "<" && negb escaped then
        print_help_loop false escaped rest
          (PUTC_OUT c (SGR_START_COLOR sgr_help_nonterm out))
      else if Ascii.eqb c ">" && negb escaped then
        print_help_loop false escaped rest (SGR_END_COLOR (PUTC_OUT c out))
      else if is_punct c && negb escaped then
        print_help_loop false escaped rest
          (SGR_END_COLOR (PUTC_OUT c (SGR_START_COLOR sgr_help_punct out)))
      else if at_start && isalpha c then
        print_help_title rest
          (PUTC_OUT c (SGR_START_COLOR sgr_help_title out))
      else
        print_help_loop false false rest (PUTC_OUT c out)
  end
with print_help_title (s : string) (out : string) {struct s}
  : option string :=
  match s with
  | EmptyString => None
  | String c rest =>
      if Ascii.eqb c ":" then
        print_help_loop false false rest (PUTC_OUT c (SGR_END_COLOR out))
      else print_help_title rest (PUTC_OUT c out)
  end.

(** src/help.c, [print_help_line]. *)
Definition print_help_line (line : string) (out : string) : option string :=
  match print_help_loop true false line out with
  | Some out => Some (PUTC_OUT "010" out)
  | None => None
  end.

(** src/help.c, [print_help]; [is_cpp] is [opt_lang >= LANG_CPP_MIN]. *)
Fixpoint print_help_from (is_cpp : bool) (rows : list help_text_t)
         (out : string) : option string :=
  match rows with
  | [] => Some out
  | help :: rows =>
      if is_cpp && Ascii.eqb (char0 (cpp_text help)) (char0 NOT_IN_LANG)
      then print_help_from is_cpp rows out
      else if is_cpp
              && negb (Ascii.eqb (char0 (cpp_text help)) (char0 SAME_AS_C))
      then
        match print_help_line (cpp_text help) out with
        | Some out => print_help_from is_cpp rows out
        | None => None
        end
      else if negb (Ascii.eqb (char0 (text help)) (char0 NOT_IN_LANG)) then
        match print_help_line (text help) out with
        | Some out => print_help_from is_cpp rows out
        | None => None
        end
      else print_help_from is_cpp rows out
  end.

Definition print_help (is_cpp : bool) : option string :=
  print_help_from is_cpp HELP_TEXT "".

End Colors.

(** A text without the color sequences in it: a sequence goes from the
    character that starts it to the first letter after it. *)
Fixpoint strip_sgr (in_sequence : bool) (s : string) : string :=
  match s with
  | EmptyString => EmptyString
  | String c rest =>
      if in_sequence then strip_sgr (negb (isalpha c)) rest
      else if Ascii.eqb c "027" then strip_sgr true rest
      else String c (strip_sgr false rest)
  end.

(** Whether a text ends inside of a color sequence. *)
Fixpoint in_sgr (in_sequence : bool) (s : string) : bool :=
  match s with
  | EmptyString => in_sequence
  | String c rest =>
      if in_sequence then in_sgr (negb (isalpha c)) rest
      else if Ascii.eqb c "027" then in_sgr true rest
      else in_sgr false rest
  end.

(** A capability holds neither a letter nor the character that starts a
    sequence. *)
Definition sgr_ok (color : option string) : bool :=
  match color with
  | Some sgr =>
      forallb (fun c => negb (isalpha c) && negb (Ascii.eqb c "027"))
        (list_ascii_of_string sgr)
  | None => true
  end.

(** The lines of a text, each ended by a newline. *)
Fixpoint lines_from (s : string) (line : string) : list string :=
  match s with
  | EmptyString => []
  | String c rest =>
      if Ascii.eqb c "010" then line :: lines_from rest ""
      else lines_from rest (line ++ String c "")
  end.

Definition lines (s : string) : list string := lines_from s "".

End Help.

(* ------------------------------------------------------------------ *)
(** ** src/c_kind.h: the kinds of AST nodes as bits *)

Module CKind.
Open Scope Z_scope.

(** The enumerators of [enum c_ast_kind], in the order of the header. *)
Inductive c_ast_kind_t :=
  | K_PLACEHOLDER | K_BUILTIN | K_CLASS_STRUCT_UNION | K_NAME | K_TYPEDEF
  | K_VARIADIC
  | K_ARRAY | K_ENUM | K_POINTER | K_POINTER_TO_MEMBER | K_REFERENCE
  | K_RVALUE_REFERENCE
  | K_CONSTRUCTOR | K_DESTRUCTOR
  | K_APPLE_BLOCK | K_FUNCTION | K_OPERATOR | K_USER_DEF_CONVERSION
  | K_USER_DEF_LITERAL.

(** The value of an enumerator. *)
Definition value (k : c_ast_kind_t) : Z :=
  match k with
  | K_PLACEHOLDER         => Z.shiftl 1 0
  | K_BUILTIN             => Z.shiftl 1 1
  | K_CLASS_STRUCT_UNION  => Z.shiftl 1 2
  | K_NAME                => Z.shiftl 1 3
  | K_TYPEDEF             => Z.shiftl 1 4
  | K_VARIADIC            => Z.shiftl 1 5
  | K_ARRAY               => Z.shiftl 1 6
  | K_ENUM                => Z.shiftl 1 7
  | K_POINTER             => Z.shiftl 1 8
  | K_POINTER_TO_MEMBER   => Z.shiftl 1 9
  | K_REFERENCE           => Z.shiftl 1 10
  | K_RVALUE_REFERENCE    => Z.shiftl 1 11
  | K_CONSTRUCTOR         => Z.shiftl 1 12
  | K_DESTRUCTOR          => Z.shiftl 1 13
  | K_APPLE_BLOCK         => Z.shiftl 1 14
  | K_FUNCTION            => Z.shiftl 1 15
  | K_OPERATOR            => Z.shiftl 1 16
  | K_USER_DEF_CONVERSION => Z.shiftl 1 17
  | K_USER_DEF_LITERAL    => Z.shiftl 1 18
  end.

(** The shorthands for any of several kinds. *)
Definition K_ANY_ENUM_CLASS_STRUCT_UNION : Z :=
  Z.lor (value K_ENUM) (value K_CLASS_STRUCT_UNION).
Definition K_ANY_FUNCTION_LIKE : Z :=
  fold_right Z.lor 0
    [ value K_APPLE_BLOCK; value K_CONSTRUCTOR; value K_DESTRUCTOR;
      value K_FUNCTION; value K_OPERATOR; value K_USER_DEF_CONVERSION;
      value K_USER_DEF_LITERAL ].
Definition K_ANY_POINTER : Z :=
  Z.lor (value K_POINTER) (value K_POINTER_TO_MEMBER).
Definition K_ANY_REFERENCE : Z :=
  Z.lor (value K_REFERENCE) (value K_RVALUE_REFERENCE).
Definition K_ANY_OBJECT : Z :=
  fold_right Z.lor 0
    [ K_ANY_POINTER; K_ANY_REFERENCE; value K_ARRAY; value K_BUILTIN;
      K_ANY_ENUM_CLASS_STRUCT_UNION; value K_TYPEDEF ].
Definition K_ANY_PARENT : Z :=
  fold_right Z.lor 0
    [ K_ANY_FUNCTION_LIKE; K_ANY_POINTER; K_ANY_REFERENCE; value K_ARRAY;
      value K_ENUM ].
Definition K_ANY_REFERRER : Z := Z.lor K_ANY_PARENT (value K_TYPEDEF).

(** The test that the code makes of a kind against kinds:
    [(kind & kinds) != 0]. *)
Definition is_any (k : c_ast_kind_t) (kinds : Z) : bool :=
  negb (Z.eqb (Z.land (value k) kinds) 0).

End CKind.


(* ------------------------------------------------------------------ *)
(** ** src/c_type.h: a type identifier as an opaque handle *)

Module CTypeData.
Open Scope Z_scope.

(** [SIZEOF_C_TYPE_ID_T]: a [c_type_id_t] has 64 bits. *)
Definition SIZEOF_C_TYPE_ID_T : Z := 8.

(** The cells that [MALLOC( c_type_id_t, 1 )] has returned and that are
    not freed, each with the value stored in it. *)
Definition heap := list (Z * Z).

Section Platform.

(** The size of a pointer in bytes, and the address that [MALLOC] returns
    for a heap. *)
Variable SIZEOF_VOIDP : Z.
Variable malloc : heap -> Z.

(** A conversion to an unsigned integer or pointer of [size] bytes keeps
    the low bits. *)
Definition cast (size : Z) (v : Z) : Z := v mod 2 ^ (8 * size).

(** src/c_type.h, [c_type_id_data_new]: the handle and the heap. *)
Definition c_type_id_data_new (type_id : Z) (h : heap) : Z * heap :=
  if SIZEOF_VOIDP <? SIZEOF_C_TYPE_ID_T then
    let data := malloc h in
    (data, (data, type_id) :: h)
  else (cast SIZEOF_VOIDP type_id, h).

(** src/c_type.h, [c_type_id_data_get]; there is no result when the cell
    read is not allocated. *)
Definition c_type_id_data_get (data : Z) (h : heap) : option Z :=
  if SIZEOF_VOIDP <? SIZEOF_C_TYPE_ID_T then
    match find (fun cell => Z.eqb (fst cell) data) h with
    | Some cell => Some (snd cell)
    | None => None
    end
  else Some (cast SIZEOF_C_TYPE_ID_T data).

(** src/c_type.h, [c_type_id_data_free]: the heap afterwards. *)
Definition c_type_id_data_free (data : Z) (h : heap) : heap :=
  if SIZEOF_VOIDP <? SIZEOF_C_TYPE_ID_T then
    filter (fun cell => negb (Z.eqb (fst cell) data)) h
  else h.

End Platform.

End CTypeData.

(* ================================================================== *)
(** * Theorems *)

(* ------------------------------------------------------------------ *)
(** ** Type identifiers *)

Section CTypeFacts.
Import CType.
Open Scope Z_scope.

Lemma sector_masks_disjoint (i j : sector) :
  i <> j -> Z.land (sector_mask i) (sector_mask j) = 0.
Proof. destruct i, j; intros H; try reflexivity; now elim H. Qed.

Lemma T_single_bits_sorted_into_sectors :
  forallb
    (fun c =>
       single_bit c &&
       existsb
         (fun i =>
            in_sector c i &&
            forallb
              (fun j =>
                 if sector_mask j =? sector_mask i then true
                 else Z.land c (sector_mask j) =? 0)
              all_sectors)
         all_sectors)
    T_single_bits = true.
Proof. vm_compute. reflexivity. Qed.

(** C2: the five sector masks are pairwise disjoint, so a type identifier
    masked with two different sectors is zero; and every single-bit [T_]
    constant of src/c_type.h is one bit that lies inside one sector mask and
    has no bit in any other. *)
Theorem type_sectors_disjoint :
  (forall (t : c_type_id_t) (i j : sector),
      i <> j -> Z.land (Z.land t (sector_mask i)) (sector_mask j) = 0)
  /\
  (forall c, In c T_single_bits ->
      single_bit c = true /\
      exists i, in_sector c i = true /\
                forall j, j <> i -> Z.land c (sector_mask j) = 0).
Proof.
  split.
  - intros t i j Hij.
    rewrite <- Z.land_assoc, (sector_masks_disjoint Hij).
    apply Z.land_0_r.
  - intros c Hc.
    pose proof T_single_bits_sorted_into_sectors as Hall.
    rewrite forallb_forall in Hall.
    specialize (Hall c Hc).
    apply andb_true_iff in Hall. destruct Hall as [Hbit Hex].
    split; [exact Hbit|].
    apply existsb_exists in Hex. destruct Hex as [i [_ Hi]].
    apply andb_true_iff in Hi. destruct Hi as [Hin Hout].
    exists i. split; [exact Hin|].
    intros j Hji. rewrite forallb_forall in Hout.
    assert (Hj : In j all_sectors) by (destruct j; simpl; tauto).
    specialize (Hout j Hj).
    destruct (sector_mask j =? sector_mask i) eqn:E.
    + exfalso. apply Hji. apply Z.eqb_eq in E.
      destruct i, j; try reflexivity; discriminate E.
    + now apply Z.eqb_eq.
Qed.

Lemma type_sectors_disjoint_witness :
  Z.land (Z.land (Z.lor T_INT T_CONST) (sector_mask S_TYPE))
         (sector_mask S_QUALIFIER) = 0
  /\ single_bit T_NOEXCEPT = true
  /\ exists i, in_sector T_NOEXCEPT i = true /\
               forall j, j <> i -> Z.land T_NOEXCEPT (sector_mask j) = 0.
Proof.
  split.
  - apply (proj1 type_sectors_disjoint). discriminate.
  - apply (proj2 type_sectors_disjoint). vm_compute. tauto.
Defined.

End CTypeFacts.

Section CTypeAdd.
Import CType.
Open Scope Z_scope.

Lemma c_type_add_not_long (dest new : c_type_id_t) :
  has_any new T_LONG = false ->
  has_any dest new = true ->
  c_type_add dest new = (false, dest).
Proof.
  intros Hl Hd. unfold c_type_add.
  rewrite Hl, !andb_false_r, Hd. reflexivity.
Qed.

Lemma c_type_add_crossed (dest new a b : c_type_id_t) :
  has_any new T_LONG = false ->
  crosses dest new a b = true ->
  (a = T_SIGNED /\ b = T_UNSIGNED) \/ (a = T_FLOAT /\ b = T_INT) ->
  c_type_add dest new = (false, dest).
Proof.
  intros Hl Hc Hab. unfold c_type_add.
  rewrite Hl, !andb_false_r.
  destruct (has_any dest new); [reflexivity|].
  destruct Hab as [[-> ->]|[-> ->]].
  - rewrite Hc. reflexivity.
  - rewrite Hc. destruct (crosses dest new T_SIGNED T_UNSIGNED); reflexivity.
Qed.

(** C3, as the claim states it, fails on the model: [extern] added to
    [static] shares no bit with it, is no [long], crosses neither
    [signed]/[unsigned] nor [float]/[int], and still is refused. *)
Lemma c_type_add_storage_conflict :
  has_any T_STATIC T_EXTERN = false /\
  has_any T_EXTERN T_LONG = false /\
  crosses T_STATIC T_EXTERN T_SIGNED T_UNSIGNED = false /\
  crosses T_STATIC T_EXTERN T_FLOAT T_INT = false /\
  c_type_add T_STATIC T_EXTERN <> (true, Z.lor T_STATIC T_EXTERN).
Proof. repeat split; try reflexivity. vm_compute. discriminate. Qed.

(** C3 (amended): [c_type_add] returns true and leaves the bitwise or of
    [dest] and [new] in [dest] when they share no bit, [new] adds no [long]
    to a [long long], no [signed] meets [unsigned], no [float] meets [int],
    and they do not both carry a storage class.  [long] added to a [dest]
    with [long] but without [long long] succeeds and sets [long long];
    [long] added to a [dest] with [long long] fails; [signed] added to
    [unsigned], [float] added to [int] (and the reverse of each) fail; a
    storage class added to a [dest] that has one fails; and every other
    type bit already in [dest] fails when added again. *)
Theorem c_type_add_spec (dest : c_type_id_t) :
  (forall new,
      has_any dest new = false ->
      has_any dest T_LONG_LONG && has_any new T_LONG = false ->
      crosses dest new T_SIGNED T_UNSIGNED = false ->
      crosses dest new T_FLOAT T_INT = false ->
      has_any dest T_STORAGE_CLASSES && has_any new T_STORAGE_CLASSES = false ->
      c_type_add dest new = (true, Z.lor dest new))
  /\ (has_any dest T_LONG = true -> has_any dest T_LONG_LONG = false ->
      c_type_add dest T_LONG = (true, Z.lor dest T_LONG_LONG))
  /\ (has_any dest T_LONG_LONG = true ->
      c_type_add dest T_LONG = (false, dest))
  /\ (has_any dest T_UNSIGNED = true ->
      c_type_add dest T_SIGNED = (false, dest))
  /\ (has_any dest T_SIGNED = true ->
      c_type_add dest T_UNSIGNED = (false, dest))
  /\ (has_any dest T_INT = true -> c_type_add dest T_FLOAT = (false, dest))
  /\ (has_any dest T_FLOAT = true -> c_type_add dest T_INT = (false, dest))
  /\ (forall new,
      has_any dest T_STORAGE_CLASSES = true ->
      has_any new T_STORAGE_CLASSES = true ->
      fst (c_type_add dest new) = false)
  /\ (forall b, In b T_single_bits -> has_any dest b = true ->
      (b = T_LONG /\ has_any dest T_LONG_LONG = false)
      \/ c_type_add dest b = (false, dest)).
Proof.
  repeat apply conj.
  - intros new Hdn Hll Hsu Hfi Hst. unfold c_type_add.
    rewrite Hll.
    assert (Hl : has_any dest T_LONG && has_any new T_LONG = false).
    { destruct (has_any dest T_LONG) eqn:E1; [|reflexivity].
      destruct (has_any new T_LONG) eqn:E2; [|reflexivity].
      exfalso. unfold has_any in *.
      apply negb_true_iff, Z.eqb_neq in E1.
      apply negb_true_iff, Z.eqb_neq in E2.
      apply negb_false_iff, Z.eqb_eq in Hdn.
      apply E1. apply Z.bits_inj'. intros n Hn.
      rewrite Z.land_spec, Z.bits_0.
      destruct (Z.eq_dec n 10) as [->|Hne].
      - assert (Hb : Z.testbit (Z.land dest new) 10 = false)
          by (rewrite Hdn; apply Z.bits_0).
        rewrite Z.land_spec in Hb.
        assert (Hn10 : Z.testbit new 10 = true).
        { destruct (Z.testbit new 10) eqn:T; [reflexivity|].
          exfalso. apply E2. apply Z.bits_inj'. intros m Hm.
          rewrite Z.land_spec, Z.bits_0.
          destruct (Z.eq_dec m 10) as [->|Hm10].
          - rewrite T. reflexivity.
          - replace (Z.testbit T_LONG m) with false;
              [apply andb_false_r|].
            symmetry. change T_LONG with (2 ^ 10).
            apply Z.pow2_bits_false. congruence. }
        rewrite Hn10, andb_true_r in Hb. rewrite Hb. reflexivity.
      - replace (Z.testbit T_LONG n) with false; [apply andb_false_r|].
        symmetry. change T_LONG with (2 ^ 10).
        apply Z.pow2_bits_false. congruence. }
    rewrite Hl, Hdn, Hsu, Hfi, Hst. reflexivity.
  - intros Hl Hll. unfold c_type_add.
    rewrite Hll, Hl. cbn [andb].
    change (has_any T_LONG T_LONG) with true. cbn iota.
    change (Z.lor (Z.land T_LONG (Z.lnot T_LONG)) T_LONG_LONG)
      with T_LONG_LONG.
    rewrite Hll.
    unfold crosses.
    change (has_any T_LONG_LONG T_SIGNED) with false.
    change (has_any T_LONG_LONG T_UNSIGNED) with false.
    change (has_any T_LONG_LONG T_FLOAT) with false.
    change (has_any T_LONG_LONG T_INT) with false.
    change (has_any T_LONG_LONG T_STORAGE_CLASSES) with false.
    rewrite !andb_false_r. reflexivity.
  - intros Hll. unfold c_type_add. rewrite Hll. reflexivity.
  - intros H. apply c_type_add_crossed with (a := T_SIGNED) (b := T_UNSIGNED);
      [reflexivity| |tauto].
    unfold crosses. rewrite H. apply orb_true_r.
  - intros H. apply c_type_add_crossed with (a := T_SIGNED) (b := T_UNSIGNED);
      [reflexivity| |tauto].
    unfold crosses. rewrite H. reflexivity.
  - intros H. apply c_type_add_crossed with (a := T_FLOAT) (b := T_INT);
      [reflexivity| |tauto].
    unfold crosses. rewrite H. apply orb_true_r.
  - intros H. apply c_type_add_crossed with (a := T_FLOAT) (b := T_INT);
      [reflexivity| |tauto].
    unfold crosses. rewrite H. reflexivity.
  - intros new Hd Hn. unfold c_type_add.
    destruct (has_any dest T_LONG_LONG && has_any new T_LONG);
      [reflexivity|].
    destruct (has_any dest T_LONG && has_any new T_LONG) eqn:El.
    + set (new' := Z.lor _ _).
      assert (Hn' : has_any new' T_STORAGE_CLASSES = true).
      { unfold has_any in *. apply negb_true_iff, Z.eqb_neq.
        apply negb_true_iff, Z.eqb_neq in Hn. intros E. apply Hn.
        apply Z.bits_inj'. intros n Hpos. rewrite Z.bits_0.
        assert (Hb : Z.testbit (Z.land new' T_STORAGE_CLASSES) n = false)
          by (rewrite E; apply Z.bits_0).
        subst new'. rewrite Z.land_spec, Z.lor_spec, Z.land_spec in Hb.
        rewrite Z.land_spec.
        destruct (Z.testbit T_STORAGE_CLASSES n) eqn:Ts;
          [|apply andb_false_r].
        rewrite andb_true_r in *.
        apply orb_false_iff in Hb. destruct Hb as [Hb _].
        apply andb_false_iff in Hb. destruct Hb as [Hb|Hb]; [exact Hb|].
        exfalso. rewrite Z.lnot_spec in Hb by exact Hpos.
        apply negb_false_iff in Hb.
        destruct (Z.eq_dec n 10) as [->|Hne].
        - vm_compute in Ts. discriminate.
        - change T_LONG with (2 ^ 10) in Hb.
          rewrite Z.pow2_bits_false in Hb by congruence. discriminate. }
      rewrite Hd, Hn'.
      destruct (has_any dest new'); [reflexivity|].
      destruct (crosses dest new' T_SIGNED T_UNSIGNED); [reflexivity|].
      destruct (crosses dest new' T_FLOAT T_INT); reflexivity.
    + rewrite Hd, Hn.
      destruct (has_any dest new); [reflexivity|].
      destruct (crosses dest new T_SIGNED T_UNSIGNED); [reflexivity|].
      destruct (crosses dest new T_FLOAT T_INT); reflexivity.
  - intros b Hb Hd.
    destruct (Z.eq_dec b T_LONG) as [->|Hne].
    + destruct (has_any dest T_LONG_LONG) eqn:Hll; [right|left; tauto].
      unfold c_type_add. rewrite Hll. reflexivity.
    + right. apply c_type_add_not_long; [|exact Hd].
      unfold T_single_bits in Hb. simpl in Hb.
      repeat (destruct Hb as [<-|Hb]; [try reflexivity; now elim Hne|]).
      contradiction.
Qed.

Lemma c_type_add_spec_witness :
  c_type_add T_INT T_UNSIGNED = (true, Z.lor T_INT T_UNSIGNED)
  /\ c_type_add (Z.lor T_UNSIGNED T_LONG) T_LONG
     = (true, Z.lor (Z.lor T_UNSIGNED T_LONG) T_LONG_LONG)
  /\ c_type_add (Z.lor T_LONG T_LONG_LONG) T_LONG
     = (false, Z.lor T_LONG T_LONG_LONG)
  /\ c_type_add T_UNSIGNED T_SIGNED = (false, T_UNSIGNED)
  /\ c_type_add T_INT T_FLOAT = (false, T_INT)
  /\ fst (c_type_add T_STATIC T_EXTERN) = false
  /\ ((T_SHORT = T_LONG /\ has_any (Z.lor T_SHORT T_INT) T_LONG_LONG = false)
      \/ c_type_add (Z.lor T_SHORT T_INT) T_SHORT
         = (false, Z.lor T_SHORT T_INT)).
Proof.
  split; [|split; [|split; [|split; [|split; [|split]]]]].
  - apply (proj1 (c_type_add_spec T_INT)); reflexivity.
  - apply (proj1 (proj2 (c_type_add_spec (Z.lor T_UNSIGNED T_LONG))));
      reflexivity.
  - apply (proj1 (proj2 (proj2
             (c_type_add_spec (Z.lor T_LONG T_LONG_LONG))))); reflexivity.
  - apply (proj1 (proj2 (proj2 (proj2 (c_type_add_spec T_UNSIGNED)))));
      reflexivity.
  - apply (proj1 (proj2 (proj2 (proj2 (proj2 (proj2
             (c_type_add_spec T_INT))))))); reflexivity.
  - apply (proj1 (proj2 (proj2 (proj2 (proj2 (proj2 (proj2 (proj2
             (c_type_add_spec T_STATIC))))))))); reflexivity.
  - apply (proj2 (proj2 (proj2 (proj2 (proj2 (proj2 (proj2 (proj2
             (c_type_add_spec (Z.lor T_SHORT T_INT)))))))))).
    + vm_compute. tauto.
    + reflexivity.
Defined.

End CTypeAdd.

(* ------------------------------------------------------------------ *)
(** ** Digraphs and trigraphs *)

Section GraphToken.
Import Options.
Open Scope Z_scope.

Lemma LANG_CPP_14_lt_17 : LANG_CPP_14 < LANG_CPP_17.
Proof. reflexivity. Qed.

Ltac graph_cases token :=
  destruct (char_at token 0) as [[] [] [] [] [] [] [] []];
  try (now left);
  right; repeat (destruct (Ascii.eqb _ _)); simpl; tauto.

Lemma graph_token_c_di (o : options) (token : string) :
  opt_alt_tokens o = false -> opt_graph o = C_GRAPH_DI ->
  LANG_C_95 <= opt_lang o ->
  graph_token_c o token = token
  \/ In (graph_token_c o token) digraph_spellings.
Proof.
  intros Ha Hg Hl. unfold graph_token_c. rewrite Ha, Hg. cbn [negb].
  apply Z.leb_le in Hl. rewrite Hl.
  graph_cases token.
Qed.

Lemma graph_token_c_tri (o : options) (token : string) :
  opt_alt_tokens o = false -> opt_graph o = C_GRAPH_TRI ->
  LANG_C_89 <= opt_lang o <= LANG_CPP_14 ->
  graph_token_c o token = token
  \/ In (graph_token_c o token) trigraph_spellings.
Proof.
  intros Ha Hg [Hl Hu]. unfold graph_token_c. rewrite Ha, Hg. cbn [negb].
  apply Z.leb_le in Hl, Hu. rewrite Hl, Hu. cbn [andb].
  graph_cases token.
Qed.

(** C5: [graph_token_c] returns its token unchanged when alternative tokens
    are on; a result other than the token is a digraph spelling in digraph
    mode with a language of C95 or later, or a trigraph spelling in trigraph
    mode with a language from C89 to C++14; in every other case (no graph
    mode, digraph mode before C95, trigraph mode before C89 or after C++14,
    so in C++17 or later) the token is returned unchanged. *)
Theorem graph_token_c_spec (o : options) (token : string) :
  (opt_alt_tokens o = true -> graph_token_c o token = token)
  /\ (graph_token_c o token <> token ->
        opt_alt_tokens o = false /\
        ((opt_graph o = C_GRAPH_DI /\ LANG_C_95 <= opt_lang o /\
          In (graph_token_c o token) digraph_spellings)
         \/
         (opt_graph o = C_GRAPH_TRI /\
          LANG_C_89 <= opt_lang o <= LANG_CPP_14 /\
          In (graph_token_c o token) trigraph_spellings)))
  /\ (opt_graph o = C_GRAPH_NONE -> graph_token_c o token = token)
  /\ (opt_graph o = C_GRAPH_DI -> opt_lang o < LANG_C_95 ->
        graph_token_c o token = token)
  /\ (opt_graph o = C_GRAPH_TRI ->
        opt_lang o < LANG_C_89 \/ LANG_CPP_14 < opt_lang o ->
        graph_token_c o token = token)
  /\ (opt_graph o = C_GRAPH_TRI -> LANG_CPP_17 <= opt_lang o ->
        graph_token_c o token = token).
Proof.
  assert (Hnone : opt_graph o = C_GRAPH_NONE -> graph_token_c o token = token).
  { intros Hg. unfold graph_token_c. rewrite Hg.
    destruct (opt_alt_tokens o); reflexivity. }
  assert (Hdi : opt_graph o = C_GRAPH_DI -> opt_lang o < LANG_C_95 ->
                graph_token_c o token = token).
  { intros Hg Hl. unfold graph_token_c. rewrite Hg.
    apply Z.leb_gt in Hl. rewrite Hl.
    destruct (opt_alt_tokens o); reflexivity. }
  assert (Htri : opt_graph o = C_GRAPH_TRI ->
                 opt_lang o < LANG_C_89 \/ LANG_CPP_14 < opt_lang o ->
                 graph_token_c o token = token).
  { intros Hg Hl. unfold graph_token_c. rewrite Hg.
    assert (E : (LANG_C_89 <=? opt_lang o) && (opt_lang o <=? LANG_CPP_14)
                = false).
    { apply andb_false_iff. destruct Hl as [Hl|Hl]; [left|right];
        now apply Z.leb_gt. }
    rewrite E. destruct (opt_alt_tokens o); reflexivity. }
  repeat apply conj; try assumption.
  - intros Ha. unfold graph_token_c. rewrite Ha. reflexivity.
  - intros Hne.
    destruct (opt_alt_tokens o) eqn:Ha.
    { exfalso. apply Hne. unfold graph_token_c. rewrite Ha. reflexivity. }
    split; [reflexivity|].
    destruct (opt_graph o) eqn:Hg.
    + exfalso. apply Hne. apply Hnone. reflexivity.
    + left. split; [reflexivity|].
      destruct (Z_lt_le_dec (opt_lang o) LANG_C_95) as [Hl|Hl].
      { exfalso. apply Hne. apply Hdi; [reflexivity|exact Hl]. }
      split; [exact Hl|].
      destruct (graph_token_c_di o token Ha Hg Hl) as [E|E];
        [now elim Hne | exact E].
    + right. split; [reflexivity|].
      destruct (Z_lt_le_dec (opt_lang o) LANG_C_89) as [Hl|Hl].
      { exfalso. apply Hne. apply Htri; [reflexivity|now left]. }
      destruct (Z_lt_le_dec LANG_CPP_14 (opt_lang o)) as [Hu|Hu].
      { exfalso. apply Hne. apply Htri; [reflexivity|now right]. }
      split; [split; assumption|].
      destruct (graph_token_c_tri o token Ha Hg (conj Hl Hu)) as [E|E];
        [now elim Hne | exact E].
  - intros Hg Hl. apply Htri; [exact Hg|]. right.
    pose proof LANG_CPP_14_lt_17. lia.
Qed.

Lemma graph_token_c_spec_witness :
  let o_di  := {| opt_alt_tokens := false; opt_east_const := false;
                  opt_graph := C_GRAPH_DI; opt_lang := LANG_C_99;
                  opt_semicolon := true |} in
  let o_tri := {| opt_alt_tokens := false; opt_east_const := false;
                  opt_graph := C_GRAPH_TRI; opt_lang := LANG_CPP_17;
                  opt_semicolon := true |} in
  let o_alt := {| opt_alt_tokens := true; opt_east_const := false;
                  opt_graph := C_GRAPH_TRI; opt_lang := LANG_C_99;
                  opt_semicolon := true |} in
  (graph_token_c o_di "[" = "<:" /\
   LANG_C_95 <= opt_lang o_di /\
   In (graph_token_c o_di "[") digraph_spellings)
  /\ graph_token_c o_tri "[" = "["
  /\ graph_token_c o_alt "[" = "[".
Proof.
  intros o_di o_tri o_alt. split; [|split].
  - split; [reflexivity|].
    destruct (proj1 (proj2 (graph_token_c_spec o_di "["))) as [_ [H|H]].
    + vm_compute. discriminate.
    + destruct H as [_ [H1 H2]]. split; assumption.
    + destruct H as [H _]. discriminate H.
  - apply (proj2 (proj2 (proj2 (proj2 (proj2
             (graph_token_c_spec o_tri "[")))))).
    + reflexivity.
    + vm_compute. discriminate.
  - apply (proj1 (graph_token_c_spec o_alt "[")). reflexivity.
Defined.

End GraphToken.

(* ------------------------------------------------------------------ *)
(** ** The English printer *)

Section StringFacts.
Open Scope string_scope.

Lemma append_assoc (a b c : string) : (a ++ b) ++ c = a ++ (b ++ c).
Proof. induction a as [|x a IH]; simpl; [reflexivity | now rewrite IH]. Qed.

Lemma append_empty_r (a : string) : a ++ "" = a.
Proof. induction a as [|x a IH]; simpl; [reflexivity | now rewrite IH]. Qed.

End StringFacts.

Section EnglishFacts.
Import CType Outcome English.
Open Scope string_scope.
Open Scope outcome_scope.
Context {N : names}.

(** Induction on an AST, with the hypothesis for the child and for every
    argument. *)
Lemma c_ast_induction (P : c_ast -> Prop) :
  (forall d of_ast args,
      match of_ast with Some child => P child | None => True end ->
      Forall P args ->
      P (C_AST d of_ast args)) ->
  forall ast, P ast.
Proof.
  intros step. fix IH 1. intros [d of_ast args]. apply step.
  - destruct of_ast as [child|]; [apply IH | exact I].
  - induction args as [|a args IHargs]; constructor; [apply IH | exact IHargs].
Qed.

Lemma appends_visit_args (visit : c_ast -> string -> outcome string)
      (args : list c_ast) :
  Forall (fun a => appends (visit a)) args ->
  forall comma, appends (visit_args visit args comma).
Proof.
  induction 1 as [|a args Ha _ IH]; intros comma eout.
  - cbn. now rewrite append_empty_r.
  - assert (step : forall pre,
      (e <- visit a (eout ++ pre) ;; visit_args visit args true e)
      = (s <- (e <- visit a pre ;; visit_args visit args true e) ;;
         Done (eout ++ s))).
    { intros pre. rewrite (Ha (eout ++ pre)), (Ha pre).
      destruct (visit a "") as [s|f]; cbn [bind]; [|reflexivity].
      rewrite (IH true ((eout ++ pre) ++ s)), (IH true (pre ++ s)).
      destruct (visit_args visit args true "") as [s'|f]; cbn [bind];
        [|reflexivity].
      now rewrite !append_assoc. }
    cbn [visit_args].
    destruct comma, (negb (c_kind_eqb (kind (c_ast_d a)) K_NAME)),
      (c_ast_name a); cbv zeta; rewrite ?append_assoc;
      try apply step;
      (rewrite <- (append_empty_r eout) at 1; apply (step "")).
Qed.

Lemma appends_c_ast_visit_down (ast : c_ast) : appends (c_ast_visit_down ast).
Proof.
  induction ast as [d of_ast args IHof IHargs] using c_ast_induction.
  intros eout.
  pose proof (appends_visit_args c_ast_visit_down IHargs) as Hargs.
  assert (Hv : forall e,
    c_ast_visitor_english c_ast_visit_down (C_AST d of_ast args) e
    = (r <- c_ast_visitor_english c_ast_visit_down (C_AST d of_ast args) "" ;;
       Done (fst r, e ++ snd r))).
  { intros e. unfold c_ast_visitor_english. cbn [c_ast_d c_ast_args].
    destruct (kind d) eqn:Ek; try reflexivity;
      repeat match goal with
             | |- context [if ?b then _ else _] => destruct b
             | |- context [match name d with _ => _ end] => destruct (name d)
             end;
      cbn [bind fst snd];
      rewrite ?append_assoc, ?append_empty_r; try reflexivity;
      (destruct args as [|a args']; cbn [bind fst snd];
       [ rewrite ?append_assoc; reflexivity
       | match goal with
         | |- context [visit_args _ _ false (e ++ ?x)] =>
             rewrite (Hargs false (e ++ x)), (Hargs false ("" ++ x))
         end;
         destruct (visit_args c_ast_visit_down (a :: args') false "");
         cbn [bind fst snd]; rewrite ?append_assoc; reflexivity ]). }
  destruct of_ast as [child|].
  - cbn in IHof.
    change (c_ast_visit_down (C_AST d (Some child) args) eout) with
      (r <- c_ast_visitor_english c_ast_visit_down
              (C_AST d (Some child) args) eout ;;
       let '(found, eout) := r in
       if found then Done eout
       else if c_ast_is_parent d then c_ast_visit_down child eout
            else Done eout).
    change (c_ast_visit_down (C_AST d (Some child) args) "") with
      (r <- c_ast_visitor_english c_ast_visit_down
              (C_AST d (Some child) args) "" ;;
       let '(found, eout) := r in
       if found then Done eout
       else if c_ast_is_parent d then c_ast_visit_down child eout
            else Done eout).
    rewrite (Hv eout).
    destruct (c_ast_visitor_english c_ast_visit_down
                (C_AST d (Some child) args) "") as [[found s]|f];
      cbn [bind fst snd]; [|reflexivity].
    destruct found; [reflexivity|].
    destruct (c_ast_is_parent d); [|reflexivity].
    rewrite (IHof (eout ++ s)), (IHof s).
    destruct (c_ast_visit_down child "") as [s'|f]; cbn [bind];
      [|reflexivity].
    now rewrite append_assoc.
  - change (c_ast_visit_down (C_AST d None args) eout) with
      (r <- c_ast_visitor_english c_ast_visit_down (C_AST d None args) eout ;;
       let '(found, eout) := r in
       if found then Done eout
       else if c_ast_is_parent d then Done eout else Done eout).
    change (c_ast_visit_down (C_AST d None args) "") with
      (r <- c_ast_visitor_english c_ast_visit_down (C_AST d None args) "" ;;
       let '(found, eout) := r in
       if found then Done eout
       else if c_ast_is_parent d then Done eout else Done eout).
    rewrite (Hv eout).
    destruct (c_ast_visitor_english c_ast_visit_down
                (C_AST d None args) "") as [[found s]|f];
      cbn [bind fst snd]; [|reflexivity].
    destruct found; [reflexivity|].
    destruct (c_ast_is_parent d); reflexivity.
Qed.



Lemma c_ast_visit_down_unfold (ast : c_ast) (eout : string) :
  c_ast_visit_down ast eout
  = (r <- c_ast_visitor_english c_ast_visit_down ast eout ;;
     let '(found, eout) := r in
     if found then Done eout
     else if c_ast_is_parent (c_ast_d ast) then
       match c_ast_of ast with
       | Some child => c_ast_visit_down child eout
       | None => Done eout
       end
     else Done eout).
Proof. destruct ast. reflexivity. Qed.

Lemma english_of_K_NAME (a : c_ast) :
  kind (c_ast_d a) = K_NAME ->
  english_of a = Done (match name (c_ast_d a) with Some n => n | None => "" end).
Proof.
  intros Hk. unfold english_of, c_ast_english.
  rewrite c_ast_visit_down_unfold. unfold c_ast_visitor_english, c_ast_is_parent.
  rewrite Hk. destruct (name (c_ast_d a)); reflexivity.
Qed.

Lemma visit_arg_phrase (a : c_ast) (eout : string) :
  c_ast_visit_down a
    (if negb (c_kind_eqb (kind (c_ast_d a)) K_NAME) then
       match c_ast_name a with
       | Some name => eout ++ name ++ " " ++ L_AS ++ " "
       | None => eout
       end
     else eout)
  = (p <- param_phrase a ;; Done (eout ++ p)).
Proof.
  unfold param_phrase.
  destruct (kind (c_ast_d a)) eqn:Hk; cbn [c_kind_eqb negb];
    try (destruct (c_ast_name a) as [n|];
         [ rewrite (appends_c_ast_visit_down a (eout ++ _));
           unfold english_of, c_ast_english;
           destruct (c_ast_visit_down a ""); cbn [bind];
           rewrite ?append_assoc; reflexivity
         | rewrite (appends_c_ast_visit_down a eout);
           unfold english_of, c_ast_english;
           destruct (c_ast_visit_down a ""); reflexivity ]).
  rewrite (appends_c_ast_visit_down a eout).
  pose proof (english_of_K_NAME a Hk) as E.
  unfold english_of, c_ast_english in E. rewrite E.
  destruct (name (c_ast_d a)); reflexivity.
Qed.

Lemma param_phrases_nil_iff (args : list c_ast) (ps : list string) :
  param_phrases args = Done ps -> (ps = [] <-> args = []).
Proof.
  destruct args as [|a args]; cbn [param_phrases].
  - intros [= <-]. tauto.
  - destruct (param_phrase a); cbn [bind]; [|discriminate].
    destruct (param_phrases args); cbn [bind]; [|discriminate].
    intros [= <-]. split; discriminate.
Qed.

Lemma visit_args_phrases (args : list c_ast) :
  forall comma eout,
    visit_args c_ast_visit_down args comma eout
    = (ps <- param_phrases args ;;
       Done (eout ++ sep_before comma args ++ String.concat ", " ps)).
Proof.
  induction args as [|a args IH]; intros comma eout.
  - cbn. destruct comma; now rewrite append_empty_r.
  - cbn [visit_args param_phrases]. cbv zeta.
    rewrite (visit_arg_phrase a (if comma then eout ++ ", " else eout)).
    destruct (param_phrase a) as [p|f]; cbn [bind]; [|reflexivity].
    rewrite IH.
    destruct (param_phrases args) as [ps|f] eqn:Eps; cbn [bind];
      [|reflexivity].
    f_equal.
    pose proof (param_phrases_nil_iff args Eps) as Hnil.
    destruct args as [|b args].
    + assert (ps = []) by (apply Hnil; reflexivity). subst ps.
      destruct comma; cbn; rewrite ?append_assoc, ?append_empty_r;
        reflexivity.
    + destruct ps as [|q ps].
      { exfalso. assert (E : b :: args = []) by (apply Hnil; reflexivity).
        discriminate E. }
      destruct comma; cbn [sep_before String.concat];
        rewrite ?append_assoc; reflexivity.
Qed.


End EnglishFacts.
Section EnglishParams.
Import CType Outcome English.
Open Scope string_scope.
Open Scope outcome_scope.
Context {N : names}.

(** C7: the English printer writes the parameter list of a function-like
    node as " (", the parameters separated by ", ", and ")"; a parameter of
    kind [K_NAME] is written as its name alone, any other parameter as
    "<name> as <english>" when a name is found in it and as "<english>" when
    none is. *)
Theorem english_parameter_list (ast : c_ast) (eout : string) :
  is_function_like (kind (c_ast_d ast)) = true ->
  c_ast_args ast <> [] ->
  c_ast_visitor_english c_ast_visit_down ast eout
  = (ps <- param_phrases (c_ast_args ast) ;;
     Done (false,
           eout ++ func_head ast ++ " (" ++ String.concat ", " ps ++ ")"
                ++ " " ++ L_RETURNING ++ " "))
  /\ (forall a, In a (c_ast_args ast) ->
        (kind (c_ast_d a) = K_NAME ->
           param_phrase a
           = Done (match name (c_ast_d a) with Some n => n | None => "" end))
        /\ (kind (c_ast_d a) <> K_NAME ->
            forall n, c_ast_name a = Some n ->
            param_phrase a = (e <- english_of a ;; Done (n ++ " as " ++ e)))
        /\ (kind (c_ast_d a) <> K_NAME ->
            c_ast_name a = None ->
            param_phrase a = english_of a)).
Proof.
  intros Hk Hargs. split.
  - unfold c_ast_visitor_english, func_head.
    destruct (c_ast_args ast) as [|a args] eqn:Ea; [now elim Hargs|].
    destruct (kind (c_ast_d ast)) eqn:Ek; try discriminate Hk;
      rewrite visit_args_phrases;
      destruct (param_phrases (a :: args)) as [ps|f]; cbn [bind];
        try reflexivity;
      repeat match goal with
             | |- context [if ?b then _ else _] => destruct b
             end;
      cbn [sep_before]; rewrite ?append_assoc; reflexivity.
  - intros a _. unfold param_phrase. repeat split.
    + intros ->. destruct (name (c_ast_d a)); reflexivity.
    + intros Hne n ->. destruct (kind (c_ast_d a)); try reflexivity.
      now elim Hne.
    + intros Hne ->. destruct (kind (c_ast_d a));
        try (destruct (english_of a); reflexivity).
      now elim Hne.
Qed.

Lemma visit_args_no_placeholder
      (visit : c_ast -> string -> outcome string) (args : list c_ast) :
  Forall (fun a => forall e, visit a e <> Stop PlaceholderReached) args ->
  forall comma eout,
    visit_args visit args comma eout <> Stop PlaceholderReached.
Proof.
  induction 1 as [|a args Ha _ IH]; intros comma eout; cbn [visit_args].
  - discriminate.
  - cbv zeta.
    match goal with
    | |- context [visit a ?x] => specialize (Ha x); destruct (visit a x)
    end; cbn [bind]; [apply IH | exact Ha].
Qed.

Lemma c_ast_english_no_placeholder (ast : c_ast) :
  no_placeholder ast = true ->
  forall eout, c_ast_english ast eout <> Stop PlaceholderReached.
Proof.
  unfold c_ast_english.
  induction ast as [d of_ast args IHof IHargs] using c_ast_induction.
  intros Hnp eout. cbn [no_placeholder] in Hnp.
  apply andb_true_iff in Hnp. destruct Hnp as [Hnp Hargs].
  apply andb_true_iff in Hnp. destruct Hnp as [Hk Hof].
  assert (Hvis : forall comma e,
             visit_args c_ast_visit_down args comma e
             <> Stop PlaceholderReached).
  { apply visit_args_no_placeholder.
    rewrite forallb_forall in Hargs. rewrite Forall_forall in *.
    intros a Ha. apply IHargs; [exact Ha | apply Hargs, Ha]. }
  rewrite c_ast_visit_down_unfold.
  assert (Hv : forall r,
             c_ast_visitor_english c_ast_visit_down (C_AST d of_ast args) eout
             = r -> r <> Stop PlaceholderReached).
  { intros r <-. unfold c_ast_visitor_english. cbn [c_ast_d c_ast_args].
    destruct (kind d); try discriminate;
      try (destruct (name d); discriminate).
    all: destruct args as [|a args']; cbn [bind]; try discriminate.
    all: match goal with
         | |- context [visit_args ?v ?l ?c ?e] =>
             specialize (Hvis c e); destruct (visit_args v l c e)
         end; cbn [bind];
           [discriminate | intros [= ->]; now apply Hvis]. }
  destruct (c_ast_visitor_english c_ast_visit_down (C_AST d of_ast args) eout)
    as [[found e']|f] eqn:Ev; cbn [bind].
  - destruct found; [discriminate|].
    cbn [c_ast_of c_ast_d].
    destruct (c_ast_is_parent d); [|discriminate].
    destruct of_ast as [child|]; [|discriminate].
    apply IHof. exact Hof.
  - intros [= ->]. now apply (Hv _ eq_refl).
Qed.

End EnglishParams.

Section EnglishWitness.
Import CType Outcome English.
Open Scope string_scope.

Lemma english_parameter_list_witness :
  c_ast_visitor_english (N := demo_names)
    (c_ast_visit_down (N := demo_names)) demo_func "declare f as "
  = Done (false, "declare f as function (x as int, char, y) returning ").
Proof.
  destruct (@english_parameter_list demo_names demo_func "declare f as ")
    as [E _].
  - reflexivity.
  - discriminate.
  - rewrite E. reflexivity.
Defined.

End EnglishWitness.

(* ------------------------------------------------------------------ *)
(** ** The gibberish printer *)

Section GibberishTail.
Import CType Options Outcome Gibberish.
Open Scope string_scope.
Open Scope outcome_scope.
Context {N : names}.
Variable o : options.

Lemma gout_FPUTS (s : string) (g : g_state) : gout (FPUTS s g) = gout g ++ s.
Proof. reflexivity. Qed.











End GibberishTail.

Section GibberishExamples.
Import CType Options Outcome Gibberish.
Open Scope string_scope.
Open Scope outcome_scope.




(** The block of this example has none of the bits that are for members
    only. *)
Example demo_block_member_only_ok : member_only_ok demo_block = true.
Proof. reflexivity. Qed.

End GibberishExamples.
Section GibberishTypedef.
Import CType Options Outcome Gibberish.
Open Scope string_scope.
Open Scope outcome_scope.
Context {N : names}.
Variable o : options.

Lemma c_typedef_scope_unscoped (tdef : c_typedef_t) (gout : string) :
  scope_close_braces_to_print (c_typedef_scope o tdef gout) = 0%nat ->
  sl_scope_type (c_typedef_scope o tdef gout) = T_NONE_type.
Proof.
  unfold c_typedef_scope.
  destruct (c_ast_find_name_down (tdef_ast tdef)) as [sn|]; [|reflexivity].
  destruct (1 <? c_sname_count sn)%nat eqn:Hc; [|reflexivity].
  destruct (negb (btids (c_sname_first_type sn) =? TB_NAMESPACE)%Z
            || OPT_LANG_IS o (Z.lor (LANG_MIN LANG_CPP_17) LANG_C_ANY)).
  - destruct (c_type_is_tid_any (c_sname_first_type sn) TS_INLINE);
      discriminate.
  - destruct (print_scopes o sn (c_sname_first_type sn) gout) as [s t].
    cbn. apply Nat.ltb_lt in Hc. lia.
Qed.

(** C6 (amended): [c_typedef_gibberish] writes, after the declaration, a
    semicolon and the closing braces of the scopes of a scoped type name,
    then a semicolon if and only if the semicolon option is set and the
    type of the scope is not a namespace, then one newline, and nothing
    after it; for a type name without scopes that is a terminating
    semicolon exactly when the option is set. *)
Theorem c_typedef_gibberish_end (tdef : c_typedef_t) (fl : Z)
        (gout : string) :
  let sl := c_typedef_scope o tdef gout in
  let braces :=
    if (0 <? scope_close_braces_to_print sl)%nat
    then ";" ++ close_braces (scope_close_braces_to_print sl) else "" in
  let semicolon :=
    if opt_semicolon o && negb (btids (sl_scope_type sl) =? TB_NAMESPACE)%Z
    then ";" else "" in
  c_typedef_gibberish o tdef fl gout
  = (assert (flag_set fl (Z.lor C_GIB_TYPEDEF C_GIB_USING)) ;;;
     assert (negb (flag_set fl
                     (fold_right Z.lor 0%Z
                        [ C_GIB_CAST; C_GIB_DECL; C_GIB_MULTI_DECL;
                          C_GIB_OMIT_TYPE ]))) ;;;
     declaration <- c_typedef_declaration o tdef fl sl ;;
     Done (declaration ++ braces ++ semicolon ++ newline))
  /\ (semicolon = ";" <->
      opt_semicolon o = true /\ btids (sl_scope_type sl) <> TB_NAMESPACE)
  /\ (scope_close_braces_to_print sl = 0%nat ->
      braces = "" /\ (semicolon = ";" <-> opt_semicolon o = true)).
Proof.
  intros sl braces semicolon. split; [|split; [|intros H0; split]].
  - unfold c_typedef_gibberish. fold sl.
    destruct (assert (flag_set fl (Z.lor C_GIB_TYPEDEF C_GIB_USING)));
      cbn [bind]; [|reflexivity].
    destruct (assert (negb (flag_set fl _))); cbn [bind]; [|reflexivity].
    destruct (c_typedef_declaration o tdef fl sl) as [d|f]; cbn [bind];
      [|reflexivity].
    subst braces semicolon.
    destruct (0 <? scope_close_braces_to_print sl)%nat,
      (opt_semicolon o && negb (btids (sl_scope_type sl) =? TB_NAMESPACE)%Z);
      rewrite ?append_assoc; reflexivity.
  - subst semicolon.
    destruct (opt_semicolon o); cbn [andb]; [|intuition discriminate].
    destruct (btids (sl_scope_type sl) =? TB_NAMESPACE)%Z eqn:E; cbn [negb].
    + apply Z.eqb_eq in E. intuition discriminate.
    + apply Z.eqb_neq in E. intuition.
  - subst braces. rewrite H0. reflexivity.
  - subst semicolon sl.
    rewrite (c_typedef_scope_unscoped tdef gout H0).
    destruct (opt_semicolon o); cbn; intuition discriminate.
Qed.

End GibberishTypedef.

Section GibberishTypedefExamples.
Import CType Options Outcome Gibberish.
Open Scope string_scope.

Lemma c_typedef_gibberish_end_witness :
  c_typedef_gibberish (N := demo_names) (demo_options LANG_C_99)
    demo_typedef_plain (@C_GIB_TYPEDEF demo_names) ""
  = Done ("typedef int I" ++ "" ++ ";" ++ newline).
Proof.
  destruct (c_typedef_gibberish_end (N := demo_names)
              (demo_options LANG_C_99) demo_typedef_plain
              (@C_GIB_TYPEDEF demo_names) "") as [E [_ H0]].
  rewrite E.
  destruct (H0 eq_refl) as [-> Hs].
  replace (if opt_semicolon (demo_options LANG_C_99) &&
              negb (btids (sl_scope_type
                             (c_typedef_scope (demo_options LANG_C_99)
                                demo_typedef_plain "")) =? TB_NAMESPACE)%Z
           then ";" else "") with ";" by (symmetry; now apply Hs).
  reflexivity.
Defined.

(** C6, as the claim states it, fails for a type in a namespace: with the
    semicolon option set, nothing but the closing brace precedes the
    newline; with the option not set, a semicolon still follows the
    declaration. *)
Lemma c_typedef_gibberish_in_namespace :
  (opt_semicolon (demo_options LANG_CPP_11) = true /\
   c_typedef_gibberish (N := demo_names) (demo_options LANG_CPP_11)
     demo_typedef_in_namespace (@C_GIB_TYPEDEF demo_names) ""
   = Done ("namespace N { typedef int I; }" ++ newline))
  /\
  c_typedef_gibberish (N := demo_names)
    {| opt_alt_tokens := false; opt_east_const := false;
       opt_graph := C_GRAPH_NONE; opt_lang := LANG_CPP_11;
       opt_semicolon := false |}
    demo_typedef_in_namespace (@C_GIB_TYPEDEF demo_names) ""
  = Done ("namespace N { typedef int I; }" ++ newline).
Proof. repeat split; reflexivity. Qed.

End GibberishTypedefExamples.
Section GibberishSafety.
Import CType Options Outcome Gibberish.
Open Scope string_scope.
Open Scope outcome_scope.
Context {N : names}.
Variable o : options.

(** Induction on an AST, with the hypothesis for every AST it points to. *)
Lemma g_ast_induction (P : c_ast -> Prop) :
  (forall d of_ast params align_type for_ast,
      match of_ast with Some a => P a | None => True end ->
      Forall P params ->
      match align_type with Some a => P a | None => True end ->
      P (C_AST d of_ast params align_type for_ast)) ->
  forall ast, P ast.
Proof.
  intros step. fix IH 1. intros [d of_ast params al fo]. apply step.
  - destruct of_ast as [a|]; [apply IH | exact I].
  - induction params as [|a params IHp]; constructor;
      [apply IH | exact IHp].
  - destruct al as [a|]; [apply IH | exact I].
Qed.

Lemma npr_bind {A B : Type} (m : outcome A) (k : A -> outcome B) :
  npr m -> (forall a, npr (k a)) -> npr (bind m k).
Proof.
  unfold npr. destruct m as [a|f]; cbn [bind]; intros Hm Hk.
  - apply Hk.
  - intros [= ->]. now apply Hm.
Qed.

Lemma npr_assert (b : bool) : npr (assert b).
Proof. destruct b; discriminate. Qed.

Lemma npr_Done {A : Type} (a : A) : npr (Done a).
Proof. discriminate. Qed.

Lemma npr_assertion {A : Type} : npr (@Stop A AssertionFailed).
Proof. discriminate. Qed.

Ltac npr_if :=
  match goal with
  | |- npr (if ?b then _ else _) => destruct b
  end.

Lemma npr_g_print_ast_array_size (g : g_state) (ast : c_ast) :
  npr (g_print_ast_array_size o g ast).
Proof.
  unfold g_print_ast_array_size.
  apply npr_bind; [apply npr_assert | intros _; apply npr_Done].
Qed.

Lemma npr_g_print_ast_bit_width (g : g_state) (ast : c_ast) :
  npr (g_print_ast_bit_width g ast).
Proof.
  unfold g_print_ast_bit_width.
  apply npr_bind; [apply npr_assert | intros _].
  destruct (0 <? _)%Z; apply npr_Done.
Qed.

Lemma npr_g_print_ast_list (print : g_state -> c_ast -> outcome g_state)
      (ast_list : list c_ast) :
  Forall (fun p => forall g, npr (print g p)) ast_list ->
  forall g comma, npr (g_print_ast_list print g comma ast_list).
Proof.
  induction 1 as [|p l Hp _ IH]; intros g comma; cbn [g_print_ast_list].
  - apply npr_Done.
  - cbv zeta. apply npr_bind; [apply Hp | intros pg; apply IH].
Qed.

Lemma npr_g_print_postfix (up : list frame) :
  frames_ok up ->
  forall g ast print_params,
    c_ast_kind ast <> K_PLACEHOLDER ->
    (forall g, npr (print_params g)) ->
    npr (g_print_postfix o g up ast print_params).
Proof.
  induction 1 as [|[parent_ast parent_params] up' [Hpk Hpp] Hup IH];
    intros g ast print_params Hk Hparams.
  - cbn [g_print_postfix].
    apply npr_bind; [apply npr_assert | intros _].
    apply npr_bind; [apply npr_Done | intros g'].
    destruct (c_ast_kind ast); try apply npr_Done;
      try apply npr_g_print_ast_array_size;
      try (apply npr_bind; [apply Hparams | intros; apply npr_Done]).
    now elim Hk.
  - cbn [g_print_postfix fst snd] in *.
    apply npr_bind; [apply npr_assert | intros _].
    apply npr_bind.
    + destruct (c_ast_kind parent_ast) eqn:Ep; try apply npr_Done;
        try (apply IH; [rewrite Ep; discriminate | assumption]);
        try (apply npr_bind; [|intros; apply npr_Done];
             match goal with
             | |- npr (if ?b then _ else _) =>
                 destruct b;
                 [ apply IH; [rewrite Ep; discriminate | assumption]
                 | apply npr_Done ]
             end).
      now elim Hpk.
    + intros g'.
      destruct (c_ast_kind ast); try apply npr_Done;
        try apply npr_g_print_ast_array_size;
        try (apply npr_bind; [apply Hparams | intros; apply npr_Done]).
      now elim Hk.
Qed.

Lemma npr_g_print_declarator
      (print_of : g_state -> c_ast -> outcome g_state)
      (print_params : g_state -> outcome g_state)
      (l : g_locals) (g : g_state) (up : list frame) (ast : c_ast) :
  frames_ok up ->
  c_ast_kind ast <> K_PLACEHOLDER ->
  (forall g, npr (print_params g)) ->
  (forall g a, c_ast_of ast = Some a -> npr (print_of g a)) ->
  npr (g_print_declarator o print_of print_params l g up ast).
Proof.
  intros Hup Hk Hpp Hof. unfold g_print_declarator. cbv zeta.
  apply npr_bind.
  - destruct (c_ast_of ast) as [a|]; [now apply Hof | apply npr_Done].
  - intros g'.
    match goal with
    | |- npr (if ?b then _ else _) => destruct b
    end; [apply npr_Done|].
    apply npr_g_print_postfix; assumption.
Qed.

Lemma npr_g_print_ast (ast : c_ast) :
  no_placeholder ast = true ->
  forall g up, frames_ok up -> npr (g_print_ast o g up ast).
Proof.
  induction ast as [d of_ast params al fo IHof IHparams _]
    using g_ast_induction.
  intros Hnp g up Hup. cbn [no_placeholder] in Hnp.
  apply andb_true_iff in Hnp. destruct Hnp as [Hnp _].
  apply andb_true_iff in Hnp. destruct Hnp as [Hnp Hparams].
  apply andb_true_iff in Hnp. destruct Hnp as [Hk Hof].
  assert (Hkind : c_ast_kind (C_AST d of_ast params al fo) <> K_PLACEHOLDER).
  { unfold c_ast_kind. cbn [c_ast_d]. intros E. rewrite E in Hk.
    discriminate Hk. }
  assert (Hpp : forall g, npr (g_print_params o
                                 (C_AST d of_ast params al fo) g)).
  { intros g'. unfold g_print_params. apply npr_g_print_ast_list.
    cbn [c_ast_params]. rewrite forallb_forall in Hparams.
    rewrite Forall_forall in *. intros p Hp g''.
    apply IHparams; [exact Hp | apply Hparams, Hp | constructor]. }
  assert (Hchild : forall g' a,
             of_ast = Some a ->
             npr (g_print_of o up (C_AST d of_ast params al fo) g' a)).
  { intros g' a ->. unfold g_print_of. apply IHof; [exact Hof|].
    constructor; [|exact Hup]. split; [exact Hkind | exact Hpp]. }
  assert (Hdecl : forall l g',
             npr (g_print_declarator o
                    (g_print_of o up (C_AST d of_ast params al fo))
                    (g_print_params o (C_AST d of_ast params al fo))
                    l g' up (C_AST d of_ast params al fo))).
  { intros l g'. apply npr_g_print_declarator; assumption. }
  cbn [g_print_ast c_ast_d c_ast_of c_ast_for].
  destruct (kind d) eqn:Ek;
    try (apply npr_bind; [apply Hdecl | intros; apply npr_Done]);
    try apply npr_g_print_ast_bit_width;
    try apply npr_Done.
  - discriminate Hk.
  - apply npr_bind; [|intros; apply npr_Done].
    destruct of_ast as [a|]; [|apply npr_Done].
    apply (Hchild _ a eq_refl).
  - apply npr_bind; [apply npr_assert | intros _].
    npr_if; apply npr_Done.
  - apply npr_bind; [|intros; apply npr_g_print_ast_bit_width].
    npr_if; [|apply npr_Done].
    apply npr_bind; [|intros; apply npr_Done].
    destruct fo; [apply npr_Done | apply npr_assertion].
  - apply npr_bind; [|intros; apply npr_Done].
    destruct of_ast as [a|]; [|apply npr_assertion].
    apply (Hchild _ a eq_refl).
  - apply npr_bind; [|intros; apply npr_Done].
    destruct of_ast as [a|]; [|apply npr_assertion].
    apply (Hchild _ a eq_refl).
  - apply npr_bind; [|intros; apply npr_Done].
    destruct of_ast as [a|]; [|apply npr_assertion].
    apply (Hchild _ a eq_refl).
  - apply npr_bind; [|intros; apply npr_Done].
    destruct of_ast as [a|]; [|apply npr_assertion].
    apply (Hchild _ a eq_refl).
Qed.

Lemma npr_c_ast_gibberish (ast : c_ast) :
  no_placeholder ast = true ->
  forall fl gout, npr (c_ast_gibberish o ast fl gout).
Proof.
  induction ast as [d of_ast params al fo _ _ IHal] using g_ast_induction.
  intros Hnp fl gout.
  pose proof (npr_g_print_ast _ Hnp) as Hast.
  cbn [no_placeholder] in Hnp.
  apply andb_true_iff in Hnp. destruct Hnp as [_ Hal].
  cbn [c_ast_gibberish c_ast_d c_ast_align_type].
  repeat (apply npr_bind; [apply npr_assert | intros _]).
  apply npr_bind.
  - npr_if; [|apply npr_Done].
    destruct (align_kind d); try apply npr_Done.
    destruct al as [a|]; [|apply npr_assertion].
    apply npr_bind; [|intros; apply npr_Done].
    apply IHal. exact Hal.
  - intros gout'. unfold c_ast_gibberish_impl.
    apply npr_bind; [|intros; apply npr_Done].
    apply Hast. constructor.
Qed.

Lemma npr_c_typedef_gibberish (tdef : c_typedef_t) :
  no_placeholder (tdef_ast tdef) = true ->
  forall fl gout, npr (c_typedef_gibberish o tdef fl gout).
Proof.
  intros Hnp fl gout. unfold c_typedef_gibberish.
  repeat (apply npr_bind; [apply npr_assert | intros _]).
  cbv zeta.
  apply npr_bind; [|intros; apply npr_Done].
  unfold c_typedef_declaration. cbv zeta.
  apply npr_bind.
  - repeat match goal with
           | |- npr (if ?b then _ else _) => destruct b
           | |- npr (match ?x with _ => _ end) => destruct x
           end;
      first [apply npr_Done | apply npr_assertion].
  - intros gout'. unfold c_ast_gibberish_impl.
    apply npr_bind; [|intros; apply npr_Done].
    apply npr_g_print_ast; [exact Hnp | constructor].
Qed.

End GibberishSafety.

Section PrintersSafety.
Import Outcome.

(** X27: no printer ([c_ast_gibberish], [c_typedef_gibberish],
    [c_ast_english]) that is handed an AST without a node of kind
    [K_PLACEHOLDER] stops at the assertion that guards its traversal against
    placeholders. *)
Theorem printers_never_reach_placeholder :
  (forall (N : Gibberish.names) (o : Options.options) (ast : Gibberish.c_ast)
          (fl : Z) (gout : string),
      Gibberish.no_placeholder ast = true ->
      Gibberish.c_ast_gibberish o ast fl gout <> Stop PlaceholderReached)
  /\
  (forall (N : Gibberish.names) (o : Options.options)
          (tdef : Gibberish.c_typedef_t) (fl : Z) (gout : string),
      Gibberish.no_placeholder (Gibberish.tdef_ast tdef) = true ->
      Gibberish.c_typedef_gibberish o tdef fl gout
      <> Stop PlaceholderReached)
  /\
  (forall (N : English.names) (ast : English.c_ast) (eout : string),
      English.no_placeholder ast = true ->
      English.c_ast_english ast eout <> Stop PlaceholderReached).
Proof.
  split; [|split].
  - intros N o ast fl gout H. now apply npr_c_ast_gibberish.
  - intros N o tdef fl gout H. now apply npr_c_typedef_gibberish.
  - intros N ast eout H. now apply c_ast_english_no_placeholder.
Qed.

Lemma printers_never_reach_placeholder_witness :
  Gibberish.c_ast_gibberish (N := Gibberish.demo_names)
    (Gibberish.demo_options Options.LANG_C_99)
    Gibberish.demo_array_of_ptr_to_func
    (@Gibberish.C_GIB_DECL Gibberish.demo_names) ""
  <> Stop PlaceholderReached
  /\ Gibberish.c_typedef_gibberish (N := Gibberish.demo_names)
       (Gibberish.demo_options Options.LANG_C_99)
       Gibberish.demo_typedef_plain
       (@Gibberish.C_GIB_TYPEDEF Gibberish.demo_names) ""
     <> Stop PlaceholderReached
  /\ English.c_ast_english (N := English.demo_names) English.demo_func ""
     <> Stop PlaceholderReached.
Proof.
  destruct printers_never_reach_placeholder as [H1 [H2 H3]].
  split; [|split].
  - apply H1. reflexivity.
  - apply H2. reflexivity.
  - apply H3. reflexivity.
Defined.

End PrintersSafety.
Section GibberishTotal.
Import CType Options Outcome Gibberish.
Open Scope string_scope.
Open Scope outcome_scope.
Context {N : names}.
Variable o : options.

Lemma is_done_bind {A B : Type} (m : outcome A) (k : A -> outcome B) :
  is_done m -> (forall a, is_done (k a)) -> is_done (bind m k).
Proof. destruct m as [a|f]; cbn; [intros _ Hk; apply Hk | tauto]. Qed.

Lemma is_done_Done {A : Type} (a : A) : is_done (Done a).
Proof. exact I. Qed.

Lemma is_done_assert (b : bool) : b = true -> is_done (assert b).
Proof. intros ->. exact I. Qed.

Ltac done_if :=
  match goal with
  | |- is_done (if ?b then _ else _) => destruct b
  end.

Lemma is_done_g_print_ast_list
      (print : g_state -> c_ast -> outcome g_state)
      (ast_list : list c_ast) :
  Forall (fun p => forall g, is_done (print g p)) ast_list ->
  forall g comma, is_done (g_print_ast_list print g comma ast_list).
Proof.
  induction 1 as [|p l Hp _ IH]; intros g comma; cbn [g_print_ast_list].
  - exact I.
  - cbv zeta. apply is_done_bind; [apply Hp | intros pg; apply IH].
Qed.

Lemma is_done_g_print_postfix (up : list frame) :
  frames_done up ->
  forall g ast print_params,
    c_ast_is_parent (Some ast) = true ->
    (forall g, is_done (print_params g)) ->
    is_done (g_print_postfix o g up ast print_params).
Proof.
  induction 1 as [|[parent_ast parent_params] up' [Hpk Hpp] Hup IH];
    intros g ast print_params Hk Hparams.
  - cbn [g_print_postfix].
    apply is_done_bind; [now apply is_done_assert | intros _].
    apply is_done_bind; [exact I | intros g'].
    unfold c_ast_is_parent in Hk. unfold g_print_ast_array_size.
    destruct (c_ast_kind ast) eqn:Ek; try exact I; try discriminate Hk;
      try (apply is_done_bind; [apply Hparams | intros; exact I]).
    unfold c_ast_kind in Ek. rewrite Ek. exact I.
  - cbn [g_print_postfix fst snd] in *.
    apply is_done_bind; [now apply is_done_assert | intros _].
    apply is_done_bind.
    + destruct (c_ast_kind parent_ast) eqn:Ep; try exact I;
        try (apply IH; [unfold c_ast_is_parent; rewrite Ep; reflexivity
                       | assumption]);
        try (apply is_done_bind; [|intros; exact I];
             done_if;
             [ apply IH; [unfold c_ast_is_parent; rewrite Ep; reflexivity
                         | assumption]
             | exact I ]).
      now elim Hpk.
    + intros g'.
      unfold c_ast_is_parent in Hk. unfold g_print_ast_array_size.
      destruct (c_ast_kind ast) eqn:Ek; try exact I; try discriminate Hk;
        try (apply is_done_bind; [apply Hparams | intros; exact I]).
      unfold c_ast_kind in Ek. rewrite Ek. exact I.
Qed.

Lemma is_done_g_print_declarator
      (print_of : g_state -> c_ast -> outcome g_state)
      (print_params : g_state -> outcome g_state)
      (l : g_locals) (g : g_state) (up : list frame) (ast : c_ast) :
  frames_done up ->
  c_ast_is_parent (Some ast) = true ->
  (forall g, is_done (print_params g)) ->
  (forall g a, c_ast_of ast = Some a -> is_done (print_of g a)) ->
  is_done (g_print_declarator o print_of print_params l g up ast).
Proof.
  intros Hup Hk Hpp Hof. unfold g_print_declarator. cbv zeta.
  apply is_done_bind.
  - destruct (c_ast_of ast) as [a|]; [now apply Hof | exact I].
  - intros g'. done_if; [exact I|].
    apply is_done_g_print_postfix; assumption.
Qed.

Lemma is_done_g_print_ast (ast : c_ast) :
  well_formed o ast = true ->
  forall g up, frames_done up -> is_done (g_print_ast o g up ast).
Proof.
  induction ast as [d of_ast params al fo IHof IHparams _]
    using g_ast_induction.
  intros Hwf g up Hup. cbn [well_formed] in Hwf.
  apply andb_true_iff in Hwf. destruct Hwf as [Hwf _].
  apply andb_true_iff in Hwf. destruct Hwf as [Hwf Hparams].
  apply andb_true_iff in Hwf. destruct Hwf as [Hk Hof].
  assert (Hkind : c_ast_kind (C_AST d of_ast params al fo) <> K_PLACEHOLDER).
  { unfold c_ast_kind. cbn [c_ast_d]. intros E. rewrite E in Hk.
    discriminate Hk. }
  assert (Hpp : forall g, is_done (g_print_params o
                                     (C_AST d of_ast params al fo) g)).
  { intros g'. unfold g_print_params. apply is_done_g_print_ast_list.
    cbn [c_ast_params]. rewrite forallb_forall in Hparams.
    rewrite Forall_forall in *. intros p Hp g''.
    apply IHparams; [exact Hp | apply Hparams, Hp | constructor]. }
  assert (Hchild : forall g' a,
             of_ast = Some a ->
             is_done (g_print_of o up (C_AST d of_ast params al fo) g' a)).
  { intros g' a ->. unfold g_print_of. apply IHof; [exact Hof|].
    constructor; [|exact Hup]. split; [exact Hkind | exact Hpp]. }
  assert (Hdecl : forall l g',
             kind_in (kind d) K_ANY_PARENT = true ->
             is_done (g_print_declarator o
                        (g_print_of o up (C_AST d of_ast params al fo))
                        (g_print_params o (C_AST d of_ast params al fo))
                        l g' up (C_AST d of_ast params al fo))).
  { intros l g' Hp. apply is_done_g_print_declarator; assumption. }
  cbn [g_print_ast c_ast_d c_ast_of c_ast_for].
  unfold g_print_ast_bit_width, c_ast_is_kind_any, c_ast_kind.
  cbn [c_ast_d].
  destruct (kind d) eqn:Ek;
    try (apply is_done_bind;
         [apply Hdecl; reflexivity | intros; exact I]);
    try exact I;
    try discriminate Hk.
  - cbn. done_if; exact I.
  - apply is_done_bind; [|intros; exact I].
    destruct of_ast as [a|]; [|exact I].
    apply (Hchild _ a eq_refl).
  - apply is_done_bind; [now apply is_done_assert | intros _].
    done_if; exact I.
  - apply is_done_bind.
    + done_if; [|exact I].
      apply is_done_bind; [|intros; exact I].
      destruct fo; [exact I | discriminate Hk].
    + intros g'. cbn. done_if; exact I.
  - apply is_done_bind; [|intros; exact I].
    destruct of_ast as [a|]; [|discriminate Hk].
    apply (Hchild _ a eq_refl).
  - apply is_done_bind; [|intros; exact I].
    destruct of_ast as [a|]; [|discriminate Hk].
    apply (Hchild _ a eq_refl).
  - apply is_done_bind; [|intros; exact I].
    destruct of_ast as [a|]; [|discriminate Hk].
    apply (Hchild _ a eq_refl).
  - apply is_done_bind; [|intros; exact I].
    destruct of_ast as [a|]; [|discriminate Hk].
    apply (Hchild _ a eq_refl).
Qed.

(** X23: a well-formed AST is printed.  [c_ast_gibberish] returns, for
    flags that pass its assertions, on every AST that has no placeholder,
    in which every pointer, reference, pointer to member and typedef has
    its target and an alignment by type its type, and that has an untyped
    name only before C2x: no assertion of the printer fails and no null
    pointer is followed. *)
Lemma c_ast_gibberish_prints (ast : c_ast) :
  well_formed o ast = true ->
  gibberish_flags_ok C_GIB_DECL = true ->
  forall fl gout,
    gibberish_flags_ok fl = true ->
    is_done (c_ast_gibberish o ast fl gout).
Proof.
  intros Hwf Hdecl.
  induction ast as [d of_ast params al fo _ _ IHal] using g_ast_induction.
  intros fl gout Hfl.
  pose proof (is_done_g_print_ast _ Hwf) as Hast.
  cbn [well_formed] in Hwf.
  apply andb_true_iff in Hwf. destruct Hwf as [_ Hal].
  unfold gibberish_flags_ok in Hfl.
  apply andb_true_iff in Hfl. destruct Hfl as [Hfl H4].
  apply andb_true_iff in Hfl. destruct Hfl as [Hfl H3].
  apply andb_true_iff in Hfl. destruct Hfl as [H1 H2].
  cbn [c_ast_gibberish c_ast_d c_ast_align_type].
  rewrite H1, H2, H3, H4. cbn [assert bind].
  apply is_done_bind.
  - done_if; [|exact I].
    destruct (align_kind d); try exact I.
    destruct al as [a|]; [|discriminate Hal].
    apply is_done_bind; [|intros; exact I].
    apply IHal; [exact Hal | exact Hdecl].
  - intros gout'. unfold c_ast_gibberish_impl.
    apply is_done_bind; [|intros; exact I].
    apply Hast. constructor.
Qed.


Lemma c_typedef_scope_sname (tdef : c_typedef_t) (gout : string) :
  c_ast_find_name_down (tdef_ast tdef) <> None ->
  sl_sname (c_typedef_scope o tdef gout) <> None.
Proof.
  unfold c_typedef_scope.
  destruct (c_ast_find_name_down (tdef_ast tdef)) as [sn|];
    [intros _ | tauto].
  repeat match goal with
         | |- context [if ?b then _ else _] => destruct b
         | |- context [let '(_, _) := ?p in _] => destruct p
         end; discriminate.
Qed.

(** X24: a well-formed typedef is printed.  [c_typedef_gibberish]
    returns on every typedef whose AST is well formed and has a name, for
    flags that say typedef or using and nothing else. *)
Lemma c_typedef_gibberish_prints (tdef : c_typedef_t) (fl : Z)
      (gout : string) :
  well_formed o (tdef_ast tdef) = true ->
  c_ast_find_name_down (tdef_ast tdef) <> None ->
  flag_set fl (Z.lor C_GIB_TYPEDEF C_GIB_USING) = true ->
  flag_set fl (fold_right Z.lor 0%Z
                 [ C_GIB_CAST; C_GIB_DECL; C_GIB_MULTI_DECL;
                   C_GIB_OMIT_TYPE ]) = false ->
  is_done (c_typedef_gibberish o tdef fl gout).
Proof.
  intros Hwf Hname H1 H2. unfold c_typedef_gibberish.
  rewrite H1, H2. cbn [negb assert bind]. cbv zeta.
  apply is_done_bind; [|intros; exact I].
  unfold c_typedef_declaration. cbv zeta.
  pose proof (c_typedef_scope_sname tdef gout Hname) as Hsn.
  apply is_done_bind.
  - done_if; [exact I|]. done_if; [|exact I].
    destruct (sl_sname (c_typedef_scope o tdef gout)); [exact I|].
    now elim Hsn.
  - intros gout'. unfold c_ast_gibberish_impl.
    apply is_done_bind; [|intros; exact I].
    apply is_done_g_print_ast; [exact Hwf | constructor].
Qed.

End GibberishTotal.

(* ------------------------------------------------------------------ *)
(** ** Patching placeholders *)

Section BuilderFacts.
Import Gibberish Builder.

Lemma builder_ast_induction (P : Builder.c_ast -> Prop) :
  (forall id k d p cs, Forall P cs -> P (Builder.C_AST id k d p cs)) ->
  forall ast, P ast.
Proof.
  intros H. fix IH 1. intros [id k d p cs]. apply H.
  revert cs. fix IHcs 1. intros [|c cs]; constructor.
  - apply IH.
  - apply IHcs.
Qed.

Lemma has_placeholder_set_parent (ast : Builder.c_ast) p :
  has_placeholder (c_ast_set_parent ast p) = has_placeholder ast.
Proof. destruct ast; reflexivity. Qed.

Lemma replace_placeholders_patched (type_ast ast : Builder.c_ast) :
  patched_with type_ast ast (replace_placeholders type_ast ast).
Proof.
  induction ast as [id k d p cs IH] using builder_ast_induction.
  cbn [replace_placeholders]. unfold kind_eqb.
  destruct (c_ast_kind_eq_dec k K_PLACEHOLDER) as [->|Hk].
  - constructor.
  - constructor; [exact Hk|].
    induction IH as [|c cs Hc _ IHcs]; cbn [map]; constructor; assumption.
Qed.

Lemma replace_placeholders_clean (type_ast ast : Builder.c_ast) :
  has_placeholder type_ast = false ->
  has_placeholder (replace_placeholders type_ast ast) = false.
Proof.
  intros Ht.
  induction ast as [id k d p cs IH] using builder_ast_induction.
  cbn [replace_placeholders].
  destruct (kind_eqb k K_PLACEHOLDER) eqn:Hk.
  - now rewrite has_placeholder_set_parent.
  - cbn [has_placeholder]. rewrite Hk. cbn [orb].
    induction IH as [|c cs Hc _ IHcs]; [reflexivity|].
    cbn [map existsb]. now rewrite Hc, IHcs.
Qed.

(** C4: with [type_ast] without parent, less deep than [decl_ast], and a
    placeholder left in [decl_ast], the call leaves [decl_ast] with every
    placeholder replaced with [type_ast] (so with no placeholder but those
    of [type_ast]); when one of the three conditions fails, both ASTs are
    after the call what they were before. *)
Theorem c_ast_patch_placeholder_spec (type_ast decl_ast : Builder.c_ast) :
  (c_ast_parent type_ast = None ->
   c_ast_depth type_ast < c_ast_depth decl_ast ->
   has_placeholder decl_ast = true ->
   exists decl_ast',
     c_ast_patch_placeholder type_ast (Some decl_ast)
     = (type_ast, Some decl_ast')
     /\ patched_with type_ast decl_ast decl_ast'
     /\ (has_placeholder type_ast = false ->
         has_placeholder decl_ast' = false))
  /\ (~ (c_ast_parent type_ast = None
         /\ c_ast_depth type_ast < c_ast_depth decl_ast
         /\ has_placeholder decl_ast = true) ->
      c_ast_patch_placeholder type_ast (Some decl_ast)
      = (type_ast, Some decl_ast)).
Proof.
  split.
  - intros Hp Hd Hh. exists (replace_placeholders type_ast decl_ast).
    split; [|split].
    + unfold c_ast_patch_placeholder, may_patch. rewrite Hp, Hh.
      apply Nat.ltb_lt in Hd. rewrite Hd. reflexivity.
    + apply replace_placeholders_patched.
    + apply replace_placeholders_clean.
  - intros Hn. unfold c_ast_patch_placeholder.
    destruct (may_patch type_ast decl_ast) eqn:Hm; [|reflexivity].
    exfalso. apply Hn. unfold may_patch in Hm.
    apply andb_true_iff in Hm. destruct Hm as [Hm Hh].
    apply andb_true_iff in Hm. destruct Hm as [Hp Hd].
    apply Nat.ltb_lt in Hd.
    destruct (c_ast_parent type_ast); [discriminate|]. tauto.
Qed.

Lemma c_ast_patch_placeholder_spec_witness :
  (exists decl_ast',
      c_ast_patch_placeholder demo_type (Some demo_decl)
      = (demo_type, Some decl_ast')
      /\ patched_with demo_type demo_decl decl_ast'
      /\ (has_placeholder demo_type = false ->
          has_placeholder decl_ast' = false))
  /\ c_ast_patch_placeholder demo_decl (Some demo_type)
     = (demo_decl, Some demo_type).
Proof.
  split.
  - apply (proj1 (c_ast_patch_placeholder_spec demo_type demo_decl)).
    + reflexivity.
    + cbn. lia.
    + reflexivity.
  - apply (proj2 (c_ast_patch_placeholder_spec demo_decl demo_type)).
    cbn. intros [_ [H _]]. lia.
Defined.

End BuilderFacts.

(* ------------------------------------------------------------------ *)
(** ** Edits and traces *)

Section DamLevTraces.
Import DamLev.
Local Abbreviation length := (@List.length ascii).

Lemma edit_step x y : edit x y -> step x y.
Proof.
  intros []; induction p as [|a p IH]; cbn [app];
    solve [constructor | apply step_cons; exact IH].
Qed.

Lemma edit_sym x y : edit x y -> edit y x.
Proof. intros []; constructor; congruence. Qed.

Lemma edit_cons a x y : edit x y -> edit (a :: x) (a :: y).
Proof.
  intros [p c q|p c q|p c c' q Hc|p c c' q].
  - apply (edit_insert (a :: p)).
  - apply (edit_delete (a :: p)).
  - apply (edit_substitute (a :: p)); exact Hc.
  - apply (edit_transpose (a :: p)).
Qed.

Lemma edit_rev x y : edit x y -> edit (rev x) (rev y).
Proof.
  intros [p c q|p c q|p c c' q Hc|p c c' q];
    rewrite !rev_app_distr; cbn [rev]; rewrite <- ?app_assoc; cbn [app].
  - apply edit_insert.
  - apply edit_delete.
  - apply edit_substitute; exact Hc.
  - apply edit_transpose.
Qed.

Lemma step_length x y : step x y -> length y <= S (length x).
Proof. induction 1; cbn [List.length]; lia. Qed.

(** A step in [u ++ w] is a step in [u], a step in [w], or the
    transposition of the last of [u] and the first of [w]. *)
Lemma step_app_inv u w y :
  step (u ++ w) y ->
  (exists u', step u u' /\ y = u' ++ w)
  \/ (exists w', step w w' /\ y = u ++ w')
  \/ (exists u1 c c' w1,
         u = u1 ++ [c] /\ w = c' :: w1 /\ y = u1 ++ c' :: c :: w1).
Proof.
  revert y. induction u as [|a u IH]; cbn [app]; intros y H.
  - right; left. exists y. split; [exact H|reflexivity].
  - inversion H as [c x|c x|c c' x|c c' x|c x x' Hx]; subst.
    + left. exists (c :: a :: u). split; [constructor|reflexivity].
    + left. exists u. split; [constructor|reflexivity].
    + left. exists (c' :: u). split; [constructor|reflexivity].
    + destruct u as [|b u]; cbn [app] in *.
      * right; right. exists [], a, c', x. subst w. repeat split.
      * match goal with E : _ :: _ = _ :: _ |- _ => injection E as E1 E2 end.
        subst. left. eexists. split; [apply step_swap|reflexivity].
    + destruct (IH _ Hx) as [[u' [Hu ->]]|[[w' [Hw ->]]|
                             [u1 [c [c' [w1 [-> [-> ->]]]]]]]].
      * left. exists (a :: u'). split; [now constructor|reflexivity].
      * right; left. exists w'. split; [exact Hw|reflexivity].
      * right; right. exists (a :: u1), c, c', w1. repeat split.
Qed.

(** *** Building traces *)

Lemma trace_le_intro x y n m : trace x y n -> n <= m -> trace_le x y m.
Proof. intros H Hle. exists n. split; assumption. Qed.

Lemma trace_le_weaken x y n m : trace_le x y n -> n <= m -> trace_le x y m.
Proof. intros [k [Hk H]] Hle. exists k. split; [lia|exact H]. Qed.

Lemma tl_del a x y n : trace_le x y n -> trace_le (a :: x) y (S n).
Proof. intros [k [Hk H]]. exists (S k). split; [lia|now constructor]. Qed.

Lemma tl_ins b x y n : trace_le x y n -> trace_le x (b :: y) (S n).
Proof. intros [k [Hk H]]. exists (S k). split; [lia|now constructor]. Qed.

Lemma tl_match a x y n : trace_le x y n -> trace_le (a :: x) (a :: y) n.
Proof. intros [k [Hk H]]. exists k. split; [lia|now constructor]. Qed.

Lemma tl_sub a b x y n : trace_le x y n -> trace_le (a :: x) (b :: y) (S n).
Proof. intros [k [Hk H]]. exists (S k). split; [lia|now constructor]. Qed.

Lemma tl_swap a b u v x y n :
  trace_le x y n ->
  trace_le (a :: u ++ b :: x) (b :: v ++ a :: y)
           (S (n + length u + length v)).
Proof.
  intros [k [Hk H]]. exists (S (k + length u + length v)).
  split; [lia|now constructor].
Qed.

Lemma tl_dels u x y n : trace_le x y n -> trace_le (u ++ x) y (n + length u).
Proof.
  intros H. induction u as [|a u IH]; cbn [app List.length].
  - now rewrite Nat.add_0_r.
  - rewrite Nat.add_succ_r. now apply tl_del.
Qed.

Lemma tl_inss v x y n : trace_le x y n -> trace_le x (v ++ y) (n + length v).
Proof.
  intros H. induction v as [|b v IH]; cbn [app List.length].
  - now rewrite Nat.add_0_r.
  - rewrite Nat.add_succ_r. now apply tl_ins.
Qed.

Lemma trace_refl x : trace x x 0.
Proof. induction x; now constructor. Qed.


(** *** One more edit costs a trace at most one more *)

Ltac tl_cost := cbn [List.length]; rewrite ?length_app; cbn [List.length]; lia.

(** Two characters transposed in front of a matched one. *)
Lemma trace_swap_before_match x0 z0 n :
  trace x0 z0 n ->
  forall a' y1 a v,
    x0 = a' :: y1 ->
    trace_le (a' :: a :: y1) (a :: v ++ z0) (S (n + length v)).
Proof.
  induction 1 as [|a0 x y n H IH|b x y n H IH|a0 x y n H IH|a0 b x y n H IH
                  |a0 b u v0 x y n H IH]; intros a' y1 a v E.
  - discriminate.
  - injection E as E1 E2; subst.
    eapply trace_le_weaken.
    + apply tl_del, tl_match, tl_inss. eapply trace_le_intro; [exact H|].
      apply le_n.
    + tl_cost.
  - specialize (IH a' y1 a (v ++ [b]) E).
    rewrite <- app_assoc in IH. cbn [app] in IH.
    eapply trace_le_weaken; [exact IH|]. tl_cost.
  - injection E as E1 E2; subst.
    eapply trace_le_weaken.
    + apply (tl_swap a' a [] v). eapply trace_le_intro; [exact H|].
      apply le_n.
    + tl_cost.
  - injection E as E1 E2; subst.
    eapply trace_le_weaken.
    + apply tl_sub, tl_inss, tl_sub. eapply trace_le_intro; [exact H|].
      apply le_n.
    + tl_cost.
  - injection E as E1 E2; subst.
    eapply trace_le_weaken.
    + apply tl_del, tl_match, tl_dels, tl_inss, tl_match, tl_inss, tl_ins.
      eapply trace_le_intro; [exact H|]. apply le_n.
    + tl_cost.
Qed.

(** The second of two transposed characters transposed again with the
    character after it. *)
Lemma trace_swap_after_swap x0 yy k :
  trace x0 yy k ->
  forall c x' a b u v v1,
    x0 = c :: x' ->
    trace_le (a :: u ++ c :: b :: x') (b :: v ++ a :: v1 ++ yy)
             (k + length u + length v + length v1 + 2).
Proof.
  induction 1 as [|a0 x y n H IH|e x y n H IH|a0 x y n H IH|a0 e x y n H IH
                  |a0 e u1 v2 x y n H IH]; intros c x' a b u v v1 E.
  - discriminate.
  - injection E as E1 E2; subst.
    eapply trace_le_weaken.
    + pose proof (tl_swap a b (u ++ [c]) v
                    (tl_inss v1 (trace_le_intro H (le_n _)))) as T.
      rewrite <- app_assoc in T. cbn [app] in T. exact T.
    + tl_cost.
  - specialize (IH c x' a b u v (v1 ++ [e]) E).
    rewrite <- app_assoc in IH. cbn [app] in IH.
    eapply trace_le_weaken; [exact IH|]. tl_cost.
  - injection E as E1 E2; subst.
    eapply trace_le_weaken.
    + apply tl_ins, tl_inss, tl_match, tl_dels, tl_inss, tl_match, tl_del.
      eapply trace_le_intro; [exact H|]. apply le_n.
    + tl_cost.
  - injection E as E1 E2; subst.
    eapply trace_le_weaken.
    + apply tl_ins, tl_inss, tl_match, tl_dels, tl_inss, tl_sub, tl_del.
      eapply trace_le_intro; [exact H|]. apply le_n.
    + tl_cost.
  - injection E as E1 E2; subst.
    eapply trace_le_weaken.
    + apply tl_ins, tl_inss, tl_match, tl_dels, tl_inss.
      apply (tl_swap c e (b :: u1) v2).
      eapply trace_le_intro; [exact H|]. apply le_n.
    + tl_cost.
Qed.

Lemma trace_step y z m :
  trace y z m -> forall y', step y y' -> trace_le y' z (S m).
Proof.
  induction 1 as [|a y0 z n H IH|b y z0 n H IH|a y0 z0 n H IH
                  |a b y0 z0 n H IH|a b u v x yy k H IH]; intros y' Hs.
  - (* nothing lined up *)
    inversion Hs; subst.
    apply tl_del. eapply trace_le_intro; [constructor|apply le_n].
  - (* the head deleted *)
    inversion Hs as [c x0|c x0|c c' x0|c c' x0|c x0 x1 Hx]; subst.
    + apply tl_del. eapply trace_le_intro; [constructor; exact H|apply le_n].
    + eapply trace_le_intro; [exact H|lia].
    + eapply trace_le_weaken; [apply tl_del; eapply trace_le_intro;
                               [exact H|apply le_n]|lia].
    + eapply trace_le_weaken; [apply (IH (c' :: a :: x0))|lia].
      apply step_cons, step_ins.
    + apply tl_del. apply IH. exact Hx.
  - (* a character inserted *)
    apply tl_ins. apply IH. exact Hs.
  - (* the head matched *)
    inversion Hs as [c x0|c x0|c c' x0|c c' x0|c x0 x1 Hx]; subst.
    + apply tl_del. eapply trace_le_intro; [constructor; exact H|apply le_n].
    + apply tl_ins. eapply trace_le_intro; [exact H|apply le_n].
    + apply tl_sub. eapply trace_le_intro; [exact H|apply le_n].
    + pose proof (trace_swap_before_match H a [] eq_refl) as T.
      cbn [app List.length] in T. rewrite Nat.add_0_r in T. exact T.
    + apply tl_match. apply IH. exact Hx.
  - (* the head replaced *)
    inversion Hs as [c x0|c x0|c c' x0|c c' x0|c x0 x1 Hx]; subst.
    + apply tl_del. eapply trace_le_intro; [constructor; exact H|apply le_n].
    + eapply trace_le_weaken; [apply tl_ins; eapply trace_le_intro;
                               [exact H|apply le_n]|lia].
    + eapply trace_le_weaken; [apply tl_sub; eapply trace_le_intro;
                               [exact H|apply le_n]|lia].
    + apply tl_ins. apply (IH (c' :: a :: x0)).
      apply step_cons, step_ins.
    + apply tl_sub. apply IH. exact Hx.
  - (* the head transposed *)
    assert (T0 : trace_le x yy k) by (eapply trace_le_intro; [exact H|lia]).
    inversion Hs as [c x0|c x0|c c' x0|c c' x0 E|c x0 x1 Hx]; subst.
    + apply tl_del. apply tl_swap. exact T0.
    + eapply trace_le_weaken.
      * apply tl_dels, tl_match, tl_inss, tl_ins. exact T0.
      * tl_cost.
    + eapply trace_le_weaken.
      * apply tl_del, tl_dels, tl_match, tl_inss, tl_ins. exact T0.
      * tl_cost.
    + destruct u as [|c u]; cbn [app] in *.
      * match goal with E : _ :: _ = _ :: _ |- _ => injection E as E1 E2 end.
        subst. eapply trace_le_weaken.
        -- apply tl_match, tl_inss, tl_match. exact T0.
        -- tl_cost.
      * match goal with E : _ :: _ = _ :: _ |- _ => injection E as E1 E2 end.
        subst. eapply trace_le_weaken.
        -- apply tl_del, tl_swap. exact T0.
        -- tl_cost.
    + destruct (step_app_inv _ _ Hx) as [[u' [Hu ->]]|[[w' [Hw ->]]|
                   [u1 [c [c' [w1 [-> [E ->]]]]]]]].
      * pose proof (step_length Hu).
        eapply trace_le_weaken; [apply tl_swap; exact T0|]. tl_cost.
      * inversion Hw as [c x0|c x0|c c' x0|c c' x0|c x0 x2 Hx2]; subst.
        -- eapply trace_le_weaken.
           ++ pose proof (tl_swap a b (u ++ [c]) v T0) as T.
              rewrite <- app_assoc in T. cbn [app] in T. exact T.
           ++ tl_cost.
        -- eapply trace_le_weaken.
           ++ apply tl_sub, tl_dels, tl_inss, tl_ins. exact T0.
           ++ tl_cost.
        -- eapply trace_le_weaken.
           ++ apply tl_sub, tl_dels, tl_inss, tl_sub. exact T0.
           ++ tl_cost.
        -- pose proof (trace_swap_after_swap H a b u v [] eq_refl) as T.
           cbn [app List.length] in T.
           eapply trace_le_weaken; [exact T|]. tl_cost.
        -- eapply trace_le_weaken; [apply tl_swap; apply IH; exact Hx2|].
           tl_cost.
      * injection E as <- <-.
        eapply trace_le_weaken.
        -- apply tl_swap. apply tl_del. exact T0.
        -- tl_cost.
Qed.

Lemma edits_trace n x z : edits n x z -> trace_le x z n.
Proof.
  induction 1 as [s|n s u t He Hu IH].
  - eapply trace_le_intro; [apply trace_refl|apply le_n].
  - destruct IH as [m [Hm T]].
    eapply trace_le_weaken.
    + apply (trace_step T). apply edit_step, edit_sym. exact He.
    + lia.
Qed.

(** *** A trace is a sequence of edits *)

Lemma edits_trans n m x y z :
  edits n x y -> edits m y z -> edits (n + m) x z.
Proof.
  induction 1 as [s|n s u t He Hu IH]; intros Hz; cbn [Nat.add].
  - exact Hz.
  - eapply edits_step; [exact He|]. apply IH. exact Hz.
Qed.

Lemma edits_one x y : edit x y -> edits 1 x y.
Proof. intros H. eapply edits_step; [exact H|apply edits_none]. Qed.

Lemma edits_cons a n x y : edits n x y -> edits n (a :: x) (a :: y).
Proof.
  induction 1 as [s|n s u t He Hu IH].
  - apply edits_none.
  - eapply edits_step; [apply edit_cons; exact He|exact IH].
Qed.

Lemma edits_dels u x : edits (length u) (u ++ x) x.
Proof.
  induction u as [|a u IH]; cbn [app List.length].
  - apply edits_none.
  - eapply edits_step; [apply (edit_delete [] a)|exact IH].
Qed.

Lemma edits_inss v y : edits (length v) y (v ++ y).
Proof.
  induction v as [|b v IH]; cbn [app List.length].
  - apply edits_none.
  - rewrite <- Nat.add_1_r.
    eapply edits_trans; [exact IH|].
    apply edits_one. apply (edit_insert [] b).
Qed.

Lemma trace_edits x y n : trace x y n -> exists k, k <= n /\ edits k x y.
Proof.
  induction 1 as [|a x y n H [k [Hk IH]]|b x y n H [k [Hk IH]]
                  |a x y n H [k [Hk IH]]|a b x y n H [k [Hk IH]]
                  |a b u v x y n H [k [Hk IH]]].
  - exists 0. split; [lia|apply edits_none].
  - exists (S k). split; [lia|].
    eapply edits_step; [apply (edit_delete [] a)|exact IH].
  - exists (k + 1). split; [lia|].
    eapply edits_trans; [exact IH|].
    apply edits_one. apply (edit_insert [] b).
  - exists k. split; [lia|]. apply edits_cons. exact IH.
  - destruct (ascii_dec a b) as [->|Hab].
    + exists k. split; [lia|]. apply edits_cons. exact IH.
    + exists (S k). split; [lia|].
      eapply edits_step; [apply (edit_substitute [] x Hab)|].
      apply edits_cons. exact IH.
  - exists (length u + (1 + (k + length v))). split; [lia|].
    eapply edits_trans.
    { apply (edits_cons a). apply (edits_dels u (b :: x)). }
    eapply edits_trans.
    { apply edits_one. apply (edit_transpose [] a b x). }
    eapply edits_trans.
    { apply (edits_cons b). apply (edits_cons a). exact IH. }
    apply (edits_cons b). apply (edits_inss v (a :: y)).
Qed.

(** *** The recurrence *)

Lemma split_at_spec c l u r : split_at c l = Some (u, r) -> l = u ++ c :: r.
Proof.
  revert u. induction l as [|x l IH]; cbn [split_at]; intros u H.
  - discriminate.
  - destruct (Ascii.eqb_spec x c) as [->|Hx].
    + injection H as <- <-. reflexivity.
    + destruct (split_at c l) as [[u0 r0]|]; [|discriminate].
      injection H as <- <-. cbn [app]. f_equal. now apply IH.
Qed.

(** The first [b] of [u ++ b :: x] is in [u] or is the one shown. *)
Lemma split_at_app b u x :
  exists u1 r w,
    split_at b (u ++ b :: x) = Some (u1, r)
    /\ r = w ++ x /\ length u1 + length w <= length u.
Proof.
  induction u as [|c u (u1 & r & w & E & -> & Hl)]; cbn [app split_at].
  - exists [], x, []. rewrite Ascii.eqb_refl. repeat split. cbn. lia.
  - destruct (Ascii.eqb c b).
    + exists [], (u ++ b :: x), (u ++ [b]).
      split; [reflexivity|]. split.
      * rewrite <- app_assoc. reflexivity.
      * rewrite length_app. cbn. lia.
    + rewrite E. exists (c :: u1), (w ++ x), w.
      repeat split. cbn [List.length]. lia.
Qed.

Lemma lw_fuel_enough n : forall m x y,
  length x + length y < n -> length x + length y < m ->
  lw_fuel n x y = lw_fuel m x y.
Proof.
  induction n as [|n IH]; intros m x y Hn Hm; [lia|].
  destruct m as [|m]; [lia|]. cbn [lw_fuel].
  destruct x as [|a x]; [reflexivity|].
  destruct y as [|b y]; [reflexivity|].
  cbn [List.length] in *.
  rewrite (IH m x (b :: y)), (IH m (a :: x) y), (IH m x y)
    by (cbn [List.length]; lia).
  f_equal.
  destruct (split_at b x) as [[u xr]|] eqn:Ex; [|reflexivity].
  destruct (split_at a y) as [[v yr]|] eqn:Ey; [|reflexivity].
  apply split_at_spec in Ex. apply split_at_spec in Ey.
  assert (length xr < length x)
    by (rewrite Ex, length_app; cbn [List.length]; lia).
  assert (length yr < length y)
    by (rewrite Ey, length_app; cbn [List.length]; lia).
  rewrite (IH m xr yr) by lia. reflexivity.
Qed.

Lemma lw_nil_l y : lw [] y = length y.
Proof. reflexivity. Qed.

Lemma lw_nil_r x : lw x [] = length x.
Proof. destruct x; reflexivity. Qed.

Lemma lw_cons a b x y :
  lw (a :: x) (b :: y)
  = min_opt
      (Nat.min (Nat.min (lw x (b :: y) + 1) (lw (a :: x) y + 1))
               (lw x y + (if Ascii.eqb a b then 0 else 1)))
      (match split_at b x, split_at a y with
       | Some (u, xr), Some (v, yr) =>
           Some (lw xr yr + length u + length v + 1)
       | _, _ => None
       end).
Proof.
  unfold lw at 1. cbn [lw_fuel List.length].
  set (n := S (length x) + S (length y)).
  rewrite (@lw_fuel_enough n (S (length x + length (b :: y))) x (b :: y)),
    (@lw_fuel_enough n (S (length (a :: x) + length y)) (a :: x) y),
    (@lw_fuel_enough n (S (length x + length y)) x y)
    by (subst n; cbn [List.length]; lia).
  fold (lw x (b :: y)). fold (lw (a :: x) y). fold (lw x y).
  f_equal.
  destruct (split_at b x) as [[u xr]|] eqn:Ex; [|reflexivity].
  destruct (split_at a y) as [[v yr]|] eqn:Ey; [|reflexivity].
  apply split_at_spec in Ex. apply split_at_spec in Ey.
  assert (length xr < length x)
    by (rewrite Ex, length_app; cbn [List.length]; lia).
  assert (length yr < length y)
    by (rewrite Ey, length_app; cbn [List.length]; lia).
  rewrite (@lw_fuel_enough n (S (length xr + length yr)) xr yr)
    by (subst n; lia).
  reflexivity.
Qed.

Lemma min_opt_le n o : min_opt n o <= n.
Proof. destruct o; cbn [min_opt]; lia. Qed.

Lemma lw_del a x y : lw (a :: x) y <= S (lw x y).
Proof.
  destruct y as [|b y].
  - rewrite !lw_nil_r. cbn [List.length]. lia.
  - rewrite lw_cons. etransitivity; [apply min_opt_le|]. lia.
Qed.

Lemma lw_ins b x y : lw x (b :: y) <= S (lw x y).
Proof.
  destruct x as [|a x].
  - rewrite !lw_nil_l. cbn [List.length]. lia.
  - rewrite lw_cons. etransitivity; [apply min_opt_le|]. lia.
Qed.

Lemma lw_apps p q x y : lw (p ++ x) (q ++ y) <= lw x y + length p + length q.
Proof.
  induction p as [|a p IHp]; cbn [app List.length].
  - induction q as [|b q IHq]; cbn [app List.length]; [lia|].
    pose proof (lw_ins b x (q ++ y)). lia.
  - pose proof (lw_del a (p ++ x) (q ++ y)). lia.
Qed.

(** The recurrence is below every trace... *)
Lemma trace_lw x y n : trace x y n -> lw x y <= n.
Proof.
  induction 1 as [|a x y n H IH|b x y n H IH|a x y n H IH|a b x y n H IH
                  |a b u v x y n H IH].
  - reflexivity.
  - pose proof (lw_del a x y). lia.
  - pose proof (lw_ins b x y). lia.
  - rewrite lw_cons, Ascii.eqb_refl.
    etransitivity; [apply min_opt_le|]. lia.
  - rewrite lw_cons. etransitivity; [apply min_opt_le|].
    destruct (Ascii.eqb a b); lia.
  - rewrite lw_cons.
    destruct (split_at_app b u x) as (u1 & xr & w & -> & -> & Hu).
    destruct (split_at_app a v y) as (v1 & yr & w' & -> & -> & Hv).
    cbn [min_opt].
    pose proof (lw_apps w w' x y). lia.
Qed.

Lemma trace_nil_l y : trace [] y (length y).
Proof. induction y; cbn [List.length]; now constructor. Qed.

Lemma trace_nil_r x : trace x [] (length x).
Proof. induction x; cbn [List.length]; now constructor. Qed.

(** ... and is the cost of a trace. *)
Lemma lw_trace_len n : forall x y,
  length x + length y < n -> trace_le x y (lw x y).
Proof.
  induction n as [|n IH]; intros x y Hn; [lia|].
  destruct x as [|a x].
  { eapply trace_le_intro; [apply trace_nil_l|]. now rewrite lw_nil_l. }
  destruct y as [|b y].
  { eapply trace_le_intro; [apply trace_nil_r|]. now rewrite lw_nil_r. }
  cbn [List.length] in Hn.
  assert (T1 : trace_le (a :: x) (b :: y) (lw x (b :: y) + 1)).
  { rewrite Nat.add_1_r. apply tl_del, IH. cbn [List.length]. lia. }
  assert (T2 : trace_le (a :: x) (b :: y) (lw (a :: x) y + 1)).
  { rewrite Nat.add_1_r. apply tl_ins, IH. cbn [List.length]. lia. }
  assert (T3 : trace_le (a :: x) (b :: y)
                        (lw x y + (if Ascii.eqb a b then 0 else 1))).
  { destruct (Ascii.eqb_spec a b) as [->|Hab].
    - rewrite Nat.add_0_r. apply tl_match, IH. lia.
    - rewrite Nat.add_1_r. apply tl_sub, IH. lia. }
  assert (T123 : trace_le (a :: x) (b :: y)
                   (Nat.min (Nat.min (lw x (b :: y) + 1) (lw (a :: x) y + 1))
                            (lw x y + (if Ascii.eqb a b then 0 else 1)))).
  { destruct (Nat.min_dec (Nat.min (lw x (b :: y) + 1) (lw (a :: x) y + 1))
                          (lw x y + (if Ascii.eqb a b then 0 else 1)))
      as [E|E]; rewrite E; [|exact T3].
    destruct (Nat.min_dec (lw x (b :: y) + 1) (lw (a :: x) y + 1))
      as [E'|E']; rewrite E'; assumption. }
  rewrite lw_cons.
  destruct (split_at b x) as [[u xr]|] eqn:Ex; [|exact T123].
  destruct (split_at a y) as [[v yr]|] eqn:Ey; [|exact T123].
  cbn [min_opt].
  match goal with
  | |- trace_le _ _ (Nat.min ?p ?q) =>
      destruct (Nat.min_dec p q) as [E|E]; rewrite E; [exact T123|]
  end.
  apply split_at_spec in Ex. apply split_at_spec in Ey. subst x y.
  rewrite !length_app in Hn. cbn [List.length] in Hn.
  eapply trace_le_weaken; [apply tl_swap, (IH xr yr); lia|]. lia.
Qed.

Lemma lw_trace x y : trace_le x y (lw x y).
Proof. apply (lw_trace_len (n := S (length x + length y))). lia. Qed.

(** The recurrence gives the least number of edits. *)
Lemma lw_edit_distance x y : edit_distance x y (lw x y).
Proof.
  assert (Hlow : forall m, edits m x y -> lw x y <= m).
  { intros m Hm. destruct (edits_trace Hm) as [k [Hk T]].
    pose proof (trace_lw T). lia. }
  split; [|exact Hlow].
  destruct (lw_trace x y) as [m [Hm T]].
  destruct (trace_edits T) as [k [Hk He]].
  pose proof (Hlow k He).
  replace (lw x y) with k by lia. exact He.
Qed.

(** *** Prefixes, and where a character was last seen *)

Lemma firstn_succ (l : list ascii) i :
  i < length l -> firstn (S i) l = firstn i l ++ [nth i l zero].
Proof.
  revert i. induction l as [|a l IH]; cbn [List.length]; intros i Hi; [lia|].
  destruct i as [|i]; [reflexivity|].
  cbn [firstn nth app]. f_equal. apply IH. lia.
Qed.

Lemma rev_firstn_succ (l : list ascii) i :
  i < length l -> rev (firstn (S i) l) = nth i l zero :: rev (firstn i l).
Proof. intros Hi. now rewrite firstn_succ, rev_app_distr by exact Hi. Qed.

Lemma firstn_length_app (l1 l2 : list ascii) :
  firstn (length l1) (l1 ++ l2) = l1.
Proof. induction l1 as [|a l1 IH]; cbn; [reflexivity|now rewrite IH]. Qed.

Lemma rev_firstn_suffix (l : list ascii) n u r :
  rev (firstn n l) = u ++ r -> rev (firstn (length r) l) = r.
Proof.
  intros H.
  assert (E : firstn n l = rev r ++ rev u).
  { rewrite <- rev_app_distr, <- H, rev_involutive. reflexivity. }
  rewrite <- (firstn_skipn n l), E, <- app_assoc.
  rewrite <- (length_rev r), firstn_length_app. apply rev_involutive.
Qed.

Lemma last_seen_none c rl : split_at c rl = None -> last_seen c rl = 0.
Proof.
  induction rl as [|x rl IH]; cbn [split_at last_seen]; [reflexivity|].
  destruct (Ascii.eqb x c); [discriminate|].
  destruct (split_at c rl) as [[u r]|]; [discriminate|]. exact IH.
Qed.

Lemma last_seen_some c rl u r :
  split_at c rl = Some (u, r) -> last_seen c rl = S (length r).
Proof.
  revert u. induction rl as [|x rl IH]; cbn [split_at last_seen]; intros u H.
  - discriminate.
  - destruct (Ascii.eqb x c).
    + injection H as <- <-. reflexivity.
    + destruct (split_at c rl) as [[u0 r0]|]; [|discriminate].
      injection H as <- <-. now apply (IH u0).
Qed.

Lemma lw_le_length x y : lw x y <= length x + length y.
Proof.
  pose proof (lw_apps x y [] []) as H.
  rewrite !app_nil_r in H. exact H.
Qed.

(** *** Loops *)

Lemma fold_left_seq_inv (St : Type) (f : St -> nat -> St)
      (P : nat -> St -> Prop) n :
  forall a st,
    P a st ->
    (forall k st, a <= k < a + n -> P k st -> P (S k) (f st k)) ->
    P (a + n) (fold_left f (seq a n) st).
Proof.
  induction n as [|n IH]; intros a st H0 Hstep; cbn [seq fold_left].
  - now rewrite Nat.add_0_r.
  - rewrite <- Nat.add_succ_comm. apply IH.
    + apply Hstep; [lia|exact H0].
    + intros k st' Hk. apply Hstep. lia.
Qed.

End DamLevTraces.

(* ------------------------------------------------------------------ *)
(** ** The loops compute the recurrence *)

Section DamLevCode.
Import DamLev.
Local Abbreviation length := (@List.length ascii).

Variable size_bits : Z.
Variables source target : list ascii.
Hypothesis Hfit :
  (2 * Z.of_nat (length source + length target) < 2 ^ size_bits)%Z.

Lemma size_wrap_small z :
  (0 <= z < 2 ^ size_bits)%Z -> size_wrap size_bits z = z.
Proof. intros H. unfold size_wrap. apply Z.mod_small. exact H. Qed.

(** Removes the wrap-arounds of the goal, innermost first. *)
Ltac unwrap :=
  unfold size_add, size_sub, size_of_nat;
  repeat match goal with
         | |- context [size_wrap size_bits ?z] =>
             lazymatch z with
             | context [size_wrap] => fail
             | _ => rewrite (@size_wrap_small z) by lia
             end
         end.

Lemma cell_inf i j :
  i = 0 \/ j = 0 ->
  cell source target i j = Z.of_nat (length source + length target).
Proof. intros [->| ->]; [reflexivity|destruct i; reflexivity]. Qed.

Lemma cell_lw i j :
  1 <= i -> 1 <= j ->
  cell source target i j
  = Z.of_nat (lw (rev (firstn (i - 1) source)) (rev (firstn (j - 1) target))).
Proof.
  intros Hi Hj. destruct i as [|i]; [lia|]. destruct j as [|j]; [lia|].
  cbn [cell]. now rewrite !Nat.sub_succ, !Nat.sub_0_r.
Qed.

Lemma length_rev_firstn (l : list ascii) n :
  n <= length l -> length (rev (firstn n l)) = n.
Proof. intros H. rewrite length_rev, length_firstn. lia. Qed.

Lemma inf_small :
  size_add size_bits (size_of_nat size_bits (length source))
           (size_of_nat size_bits (length target))
  = Z.of_nat (length source + length target).
Proof. unwrap. lia. Qed.

(** The two loops that fill rows 0 and 1 and columns 0 and 1. *)
Lemma init_agrees (fresh : ideal_matrix) :
  let inf := Z.of_nat (length source + length target) in
  agrees source target
    (ideal_init_cols size_bits inf (length target)
       (ideal_init_rows size_bits inf (length source) (ideal_set fresh 0 0 inf)))
    (fun i j => i <= 1 \/ j <= 1).
Proof.
  intros inf.
  assert (Hrows :
    forall i j, i <= length source + 1 -> j <= 1 -> (i = 0 -> j = 0) ->
      ideal_init_rows size_bits inf (length source) (ideal_set fresh 0 0 inf) i j
      = cell source target i j).
  { unfold ideal_init_rows.
    pose proof (@fold_left_seq_inv ideal_matrix
      (fun m i => ideal_set (ideal_set m (i + 1) 1 (size_of_nat size_bits i))
                             (i + 1) 0 inf)
      (fun k m => forall i j, i <= k -> j <= 1 -> (i = 0 -> j = 0) ->
                              m i j = cell source target i j)
      (length source + 1) 0 (ideal_set fresh 0 0 inf)) as H.
    cbn [Nat.add] in H. intros i j Hi Hj Hij. apply H; try assumption.
    - clear. intros i j Hi Hj Hij.
      assert (i = 0) as -> by lia. rewrite (Hij eq_refl). reflexivity.
    - clear i j Hi Hj Hij H. intros k m Hk IH i j Hi Hj Hij.
      unfold ideal_set.
      destruct (Nat.eqb_spec i (k + 1)) as [->|Hne]; cbn [andb].
      + destruct (Nat.eqb_spec j 0) as [->|Hj0].
        * symmetry. apply cell_inf. now right.
        * destruct (Nat.eqb_spec j 1) as [->|Hj1]; [|lia].
          rewrite cell_lw by lia. cbn [firstn rev].
          rewrite lw_nil_r, length_rev_firstn by lia.
          unwrap. lia.
      + apply IH; [lia|exact Hj|exact Hij]. }
  unfold agrees, ideal_init_cols.
  pose proof (@fold_left_seq_inv ideal_matrix
    (fun m j => ideal_set (ideal_set m 1 (j + 1) (size_of_nat size_bits j))
                           0 (j + 1) inf)
    (fun k m => forall i j,
         i <= length source + 1 -> j <= length target + 1 ->
         (j <= 1 /\ (i = 0 -> j = 0)) \/ (i <= 1 /\ 1 <= j <= k) ->
         m i j = cell source target i j)
    (length target + 1) 0
    (ideal_init_rows size_bits inf (length source) (ideal_set fresh 0 0 inf))) as H.
  cbn [Nat.add] in H. intros i j Hi Hj Hij. apply H; try assumption.
  - clear i j Hi Hj Hij H. intros i j Hi Hj [[Hj1 Hij]|[_ Hij]]; [|lia].
    now apply Hrows.
  - clear i j Hi Hj Hij H. intros k m Hk IH i j Hi Hj Hij.
    unfold ideal_set.
    destruct (Nat.eqb_spec j (k + 1)) as [->|Hne].
    + destruct (Nat.eqb_spec i 0) as [->|Hi0]; cbn [andb].
      * symmetry. apply cell_inf. now left.
      * destruct (Nat.eqb_spec i 1) as [->|Hi1]; cbn [andb].
        -- rewrite cell_lw by lia. cbn [firstn rev].
           rewrite lw_nil_l, length_rev_firstn by lia.
           unwrap. lia.
        -- apply IH; [exact Hi|exact Hj|]. lia.
    + rewrite !andb_false_r. apply IH; [exact Hi|exact Hj|]. lia.
  - destruct Hij as [Hi1|Hj1]; [|destruct (Nat.eq_dec j 0); lia].
    destruct (Nat.eq_dec j 0) as [->|Hj0]; [|lia].
    destruct (Nat.eq_dec i 0) as [->|Hi0]; lia.
Qed.

Lemma min_dist_min i j : min_dist i j = Z.min i j.
Proof. unfold min_dist. destruct (Z.ltb_spec i j); lia. Qed.

(** One turn of the loop over [col] stores the value of the recurrence. *)
Lemma col_body_cell (m : ideal_matrix) (last_row : last_row_t) (row col lmc : nat) :
  1 <= row <= length source -> 1 <= col <= length target ->
  agrees source target m
         (fun i j => i <= row \/ j <= 1 \/ (i = row + 1 /\ j <= col)) ->
  (forall c, last_row c = last_seen c (rev (firstn (row - 1) source))) ->
  lmc = last_seen (nth (row - 1) source zero)
                  (rev (firstn (col - 1) target)) ->
  ideal_col_body size_bits target last_row row (nth (row - 1) source zero)
           (m, lmc) col
  = (ideal_set m (row + 1) (col + 1)
                (cell source target (row + 1) (col + 1)),
     last_seen (nth (row - 1) source zero) (rev (firstn col target))).
Proof.
  intros Hrow Hcol Hm Hlr Hlmc. unfold agrees in Hm.
  set (a := nth (row - 1) source zero) in *.
  set (b := nth (col - 1) target zero).
  set (x := rev (firstn (row - 1) source)) in *.
  set (y := rev (firstn (col - 1) target)) in *.
  assert (Hx : rev (firstn row source) = a :: x).
  { replace row with (S (row - 1)) at 1 by lia. apply rev_firstn_succ. lia. }
  assert (Hy : rev (firstn col target) = b :: y).
  { replace col with (S (col - 1)) at 1 by lia. apply rev_firstn_succ. lia. }
  assert (Lx : length x = row - 1) by (apply length_rev_firstn; lia).
  assert (Ly : length y = col - 1) by (apply length_rev_firstn; lia).
  assert (C1 : m row (col + 1) = Z.of_nat (lw x (b :: y))).
  { rewrite Hm by (cbv beta; lia). rewrite cell_lw by lia.
    replace (col + 1 - 1) with col by lia. now rewrite Hy. }
  assert (C2 : m (row + 1) col = Z.of_nat (lw (a :: x) y)).
  { rewrite Hm by (cbv beta; lia). rewrite cell_lw by lia.
    replace (row + 1 - 1) with row by lia. now rewrite Hx. }
  assert (C3 : m row col = Z.of_nat (lw x y)).
  { rewrite Hm by (cbv beta; lia). now rewrite cell_lw by lia. }
  pose proof (lw_le_length x (b :: y)) as B1.
  pose proof (lw_le_length (a :: x) y) as B2.
  pose proof (lw_le_length x y) as B3.
  cbn [List.length] in B1, B2.
  unfold ideal_col_body. fold b. rewrite C1, C2, C3, Hlr. fold x.
  f_equal.
  - f_equal.
    rewrite cell_lw by lia.
    replace (row + 1 - 1) with row by lia.
    replace (col + 1 - 1) with col by lia.
    rewrite Hx, Hy, lw_cons.
    destruct (split_at b x) as [[u xr]|] eqn:Ex.
    + destruct (split_at a y) as [[v yr]|] eqn:Ey.
      * (* both characters were seen before *)
        rewrite Hlmc, (last_seen_some _ _ Ex), (last_seen_some _ _ Ey).
        pose proof (split_at_spec _ _ Ex) as Sx.
        pose proof (split_at_spec _ _ Ey) as Sy.
        assert (Lu : length x = length u + S (length xr))
          by (rewrite Sx, length_app; reflexivity).
        assert (Lv : length y = length v + S (length yr))
          by (rewrite Sy, length_app; reflexivity).
        rewrite Hm by (cbv beta; lia).
        rewrite cell_lw by lia. rewrite !Nat.sub_succ, !Nat.sub_0_r.
        rewrite (@rev_firstn_suffix source (row - 1) (u ++ [b]) xr)
          by (fold x; rewrite Sx, <- app_assoc; reflexivity).
        rewrite (@rev_firstn_suffix target (col - 1) (v ++ [a]) yr)
          by (fold y; rewrite Sy, <- app_assoc; reflexivity).
        pose proof (lw_le_length xr yr) as B4.
        cbn [min_opt].
        clearbody a b x y.
        destruct (Ascii.eqb a b); unwrap; rewrite !min_dist_min; lia.
      * (* the character of [source] is new in [target] *)
        rewrite Hlmc, (last_seen_some _ _ Ex), (last_seen_none _ _ Ey).
        pose proof (split_at_spec _ _ Ex) as Sx.
        assert (Lu : length x = length u + S (length xr))
          by (rewrite Sx, length_app; reflexivity).
        rewrite Hm by (cbv beta; lia).
        rewrite cell_inf by now right.
        cbn [min_opt].
        clearbody a b x y.
        destruct (Ascii.eqb a b); unwrap; rewrite !min_dist_min; lia.
    + (* the character of [target] is new in [source] *)
      rewrite (last_seen_none _ _ Ex).
      assert (Hl : lmc <= col - 1).
      { rewrite Hlmc, <- Ly. clear. induction y as [|c y IH];
          cbn [last_seen List.length]; [lia|].
        destruct (Ascii.eqb c a); lia. }
      rewrite Hm by (cbv beta; lia).
      rewrite cell_inf by now left.
      cbn [min_opt].
      clearbody a b x y.
      destruct (Ascii.eqb a b); unwrap; rewrite !min_dist_min; lia.
  - rewrite Hy. cbn [last_seen List.length]. rewrite Ly, Hlmc.
    rewrite (Ascii.eqb_sym b a).
    destruct (Ascii.eqb a b); [lia|reflexivity].
Qed.

(** The loop over [col] fills row [row + 1]. *)
Lemma col_loop_agrees (m : ideal_matrix) (last_row : last_row_t) (row : nat) :
  1 <= row <= length source ->
  agrees source target m (fun i j => i <= row \/ j <= 1) ->
  (forall c, last_row c = last_seen c (rev (firstn (row - 1) source))) ->
  agrees source target
    (fst (fold_left
            (ideal_col_body size_bits target last_row row
                      (nth (row - 1) source zero))
            (seq 1 (length target)) (m, 0)))
    (fun i j => i <= row + 1 \/ j <= 1).
Proof.
  intros Hrow Hm Hlr.
  pose proof (@fold_left_seq_inv (ideal_matrix * nat)
    (ideal_col_body size_bits target last_row row (nth (row - 1) source zero))
    (fun k st =>
       agrees source target (fst st)
              (fun i j => i <= row \/ j <= 1 \/ (i = row + 1 /\ j <= k))
       /\ snd st = last_seen (nth (row - 1) source zero)
                             (rev (firstn (k - 1) target)))
    (length target) 1 (m, 0)) as H.
  cbv beta in H.
  destruct H as [H _].
  - split; [|reflexivity].
    intros i j Hi Hj Hij. apply Hm; [exact Hi|exact Hj|]. cbv beta. lia.
  - intros k [m' lmc] Hk [Hm' Hlmc]. cbn [fst snd] in Hm', Hlmc.
    rewrite (@col_body_cell m' last_row row k lmc)
      by (try assumption; lia).
    cbn [fst snd]. split.
    + intros i j Hi Hj Hij. unfold ideal_set.
      destruct (Nat.eqb_spec i (row + 1)) as [->|Hne]; cbn [andb].
      * destruct (Nat.eqb_spec j (k + 1)) as [->|Hne']; [reflexivity|].
        apply Hm'; [exact Hi|exact Hj|]. cbv beta. lia.
      * apply Hm'; [exact Hi|exact Hj|]. cbv beta. lia.
    + now rewrite Nat.sub_succ, Nat.sub_0_r.
  - intros i j Hi Hj Hij. apply H; [exact Hi|exact Hj|]. cbv beta. lia.
Qed.

(** The loop over [row] fills the ideal_matrix. *)
Lemma row_loop_agrees (m : ideal_matrix) :
  agrees source target m (fun i j => i <= 1 \/ j <= 1) ->
  agrees source target
    (fst (fold_left (ideal_row_body size_bits source target)
                    (seq 1 (length source)) (m, fun _ => 0)))
    (fun i j => True).
Proof.
  intros Hm.
  pose proof (@fold_left_seq_inv (ideal_matrix * last_row_t)
    (ideal_row_body size_bits source target)
    (fun k st =>
       agrees source target (fst st) (fun i j => i <= k \/ j <= 1)
       /\ forall c, snd st c = last_seen c (rev (firstn (k - 1) source)))
    (length source) 1 (m, fun _ => 0)) as H.
  cbv beta in H.
  destruct H as [H _].
  - split; [exact Hm|reflexivity].
  - intros k [m' last_row] Hk [Hm' Hlr]. cbn [fst snd] in Hm', Hlr.
    unfold ideal_row_body.
    pose proof (@col_loop_agrees m' last_row k ltac:(lia) Hm' Hlr) as Hc.
    destruct (fold_left _ (seq 1 (length target)) (m', 0)) as [m'' lmc].
    cbn [fst snd] in *. split.
    + intros i j Hi Hj Hij. apply Hc; [exact Hi|exact Hj|]. cbv beta. lia.
    + intros c. rewrite Nat.sub_succ, Nat.sub_0_r.
      replace (firstn k source) with (firstn (S (k - 1)) source)
        by (f_equal; lia).
      rewrite rev_firstn_succ by lia. cbn [last_seen List.length].
      rewrite length_rev_firstn by lia. rewrite Hlr.
      rewrite (Ascii.eqb_sym c).
      destruct (Ascii.eqb _ c); [lia|reflexivity].
  - intros i j Hi Hj _. apply H; [exact Hi|exact Hj|]. cbv beta. lia.
Qed.

(** The function returns the value of the recurrence on the two strings. *)
Lemma ideal_dist_lw (fresh : ideal_matrix) :
  ideal_dist size_bits fresh source target
  = Z.of_nat (lw (rev source) (rev target)).
Proof.
  unfold ideal_dist.
  destruct (Nat.eqb_spec (length source) 0) as [Hs|Hs].
  { destruct source; [|discriminate]. cbn [rev].
    rewrite lw_nil_l, length_rev. unwrap. reflexivity. }
  destruct (Nat.eqb_spec (length target) 0) as [Ht|Ht].
  { destruct target; [|discriminate]. cbn [rev].
    rewrite lw_nil_r, length_rev. unwrap. reflexivity. }
  rewrite inf_small.
  pose proof (row_loop_agrees (init_agrees fresh)) as H.
  cbv zeta in H.
  destruct (fold_left _ (seq 1 (length source)) _) as [m lr].
  cbn [fst] in H.
  rewrite H by (cbv beta; auto with arith).
  rewrite cell_lw by lia.
  rewrite !Nat.add_sub, !firstn_all. reflexivity.
Qed.

Lemma edits_rev n x y : edits n x y -> edits n (rev x) (rev y).
Proof.
  induction 1 as [s|n s u t He Hu IH].
  - apply edits_none.
  - eapply edits_step; [apply edit_rev; exact He|exact IH].
Qed.

Lemma edit_distance_rev x y n :
  edit_distance (rev x) (rev y) n -> edit_distance x y n.
Proof.
  intros [He Hmin]. split.
  - rewrite <- (rev_involutive x), <- (rev_involutive y).
    apply edits_rev. exact He.
  - intros m Hm. apply Hmin. apply edits_rev. exact Hm.
Qed.

End DamLevCode.


(* ------------------------------------------------------------------ *)
(** ** More on the edit distance *)

Section DamLevMetric.
Import DamLev.
Local Abbreviation length := (@List.length ascii).

Lemma edits_sym n x y : edits n x y -> edits n y x.
Proof.
  induction 1 as [s|n s u t He Hu IH].
  - apply edits_none.
  - rewrite <- Nat.add_1_r.
    eapply edits_trans; [exact IH|].
    apply edits_one, edit_sym. exact He.
Qed.

Lemma edit_distance_unique x y n m :
  edit_distance x y n -> edit_distance x y m -> n = m.
Proof.
  intros [H1 L1] [H2 L2]. pose proof (L1 _ H2). pose proof (L2 _ H1). lia.
Qed.

Lemma lw_sym x y : lw x y = lw y x.
Proof.
  apply (@edit_distance_unique x y); [apply lw_edit_distance|].
  destruct (lw_edit_distance y x) as [He Hmin]. split.
  - apply edits_sym. exact He.
  - intros m Hm. apply Hmin. apply edits_sym. exact Hm.
Qed.

Lemma lw_triangle x y z : lw x z <= lw x y + lw y z.
Proof.
  destruct (lw_edit_distance x z) as [_ Hmin].
  destruct (lw_edit_distance x y) as [Hxy _].
  destruct (lw_edit_distance y z) as [Hyz _].
  apply Hmin. eapply edits_trans; eassumption.
Qed.

Lemma trace_longer x : forall y, trace_le x y (Nat.max (length x) (length y)).
Proof.
  induction x as [|a x IH]; intros y.
  - eapply trace_le_intro; [apply trace_nil_l|]. cbn [List.length]. lia.
  - destruct y as [|b y].
    + eapply trace_le_intro; [apply trace_nil_r|]. lia.
    + cbn [List.length]. rewrite <- Nat.succ_max_distr.
      apply tl_sub. apply IH.
Qed.

Lemma lw_le_longer x y : lw x y <= Nat.max (length x) (length y).
Proof.
  destruct (trace_longer x y) as [m [Hm T]].
  pose proof (trace_lw T). lia.
Qed.

Lemma edit_length x y :
  edit x y -> length x <= S (length y) /\ length y <= S (length x).
Proof.
  intros []; rewrite !length_app; cbn [List.length]; lia.
Qed.

Lemma edits_length n x y :
  edits n x y -> length x <= length y + n /\ length y <= length x + n.
Proof.
  induction 1 as [s|n s u t He Hu IH]; [lia|].
  apply edit_length in He. lia.
Qed.

Lemma lw_ge_difference x y :
  length x - length y <= lw x y /\ length y - length x <= lw x y.
Proof.
  destruct (lw_edit_distance x y) as [He _].
  apply edits_length in He. lia.
Qed.

End DamLevMetric.

(* ------------------------------------------------------------------ *)
(** ** The code on the block computes what the loops compute *)

Section DamLevBlock.
Import DamLev DamLevDist.
Local Abbreviation length := (@List.length ascii).

Variable size_bits : Z.
Variables sizeof_ptr sizeof_size_t : Z.
Hypothesis Hptr : (0 < sizeof_ptr)%Z.
Hypothesis Hsize : (0 < sizeof_size_t)%Z.

Lemma content_at_same (l : list (Z * Z * value)) (off w : Z) (v : value) :
  content_at ((off, w, v) :: l) off w = C_VALUE v.
Proof. cbn [content_at]. now rewrite !Z.eqb_refl. Qed.

(** A store leaves what lies apart from it as it was. *)
Lemma content_at_apart (l : list (Z * Z * value)) (off w off' w' : Z)
      (v : value) :
  (0 < w)%Z -> (0 < w')%Z ->
  (off + w <= off' \/ off' + w' <= off)%Z ->
  content_at ((off, w, v) :: l) off' w' = content_at l off' w'.
Proof.
  intros Hw Hw' Hd. cbn [content_at].
  assert (E : (off =? off')%Z = false) by (apply Z.eqb_neq; lia).
  rewrite E. cbn [andb]. unfold overlap.
  destruct Hd as [Hd|Hd].
  - assert (E1 : (off' <? off + w)%Z = false) by (apply Z.ltb_ge; lia).
    rewrite E1. reflexivity.
  - assert (E2 : (off <? off' + w')%Z = false) by (apply Z.ltb_ge; lia).
    rewrite E2, andb_false_r. reflexivity.
Qed.

Lemma store_inv (b b' : block) (off w : Z) (v : value) :
  store b off w v = Some b' ->
  in_block b off w = true
  /\ b' = {| block_size := block_size b;
             block_fresh := block_fresh b;
             block_stores := (off, w, v) :: block_stores b |}.
Proof.
  unfold store. destruct (in_block b off w); [|discriminate].
  intros H. injection H as <-. split; reflexivity.
Qed.

Lemma store_in_block (b : block) (off w : Z) (v : value) :
  (0 <= off)%Z -> (off + w <= block_size b)%Z ->
  store b off w v
  = Some {| block_size := block_size b;
            block_fresh := block_fresh b;
            block_stores := (off, w, v) :: block_stores b |}.
Proof.
  intros H0 H1. unfold store, in_block.
  assert (E0 : (0 <=? off)%Z = true) by (apply Z.leb_le; lia).
  assert (E1 : (off + w <=? block_size b)%Z = true) by (apply Z.leb_le; lia).
  now rewrite E0, E1.
Qed.

Section Strings.
Variables source target : list ascii.
Hypothesis Hfit :
  (matrix_bytes sizeof_ptr sizeof_size_t source target < 2 ^ size_bits)%Z.

Local Abbreviation slen := (length source).
Local Abbreviation tlen := (length target).
Local Abbreviation row_offset :=
  (row_offset sizeof_ptr sizeof_size_t source target).
Local Abbreviation cell_offset :=
  (cell_offset sizeof_ptr sizeof_size_t source target).
Local Abbreviation matrix_bytes :=
  (matrix_bytes sizeof_ptr sizeof_size_t source target).
Local Abbreviation holds := (holds sizeof_ptr sizeof_size_t source target).

(** The cells lie behind the row pointers and inside the block. *)
Lemma cell_in_block (i j : nat) :
  i < slen + 2 -> j < tlen + 2 ->
  (sizeof_ptr * Z.of_nat (slen + 2) <= cell_offset i j
   /\ cell_offset i j + sizeof_size_t <= matrix_bytes)%Z.
Proof.
  intros Hi Hj. unfold DamLevDist.cell_offset, DamLevDist.row_offset,
    DamLevDist.matrix_bytes.
  split; nia.
Qed.

(** No two cells overlap. *)
Lemma cell_apart (i j i' j' : nat) :
  i < slen + 2 -> j < tlen + 2 -> i' < slen + 2 -> j' < tlen + 2 ->
  (i, j) <> (i', j') ->
  (cell_offset i j + sizeof_size_t <= cell_offset i' j'
   \/ cell_offset i' j' + sizeof_size_t <= cell_offset i j)%Z.
Proof.
  intros Hi Hj Hi' Hj' Hne.
  unfold DamLevDist.cell_offset, DamLevDist.row_offset.
  destruct (Nat.lt_trichotomy i i') as [Hlt|[Heq|Hgt]].
  - left. nia.
  - subst i'. assert (j <> j') by congruence.
    destruct (Nat.lt_trichotomy j j') as [Hj1|[Hj2|Hj3]]; [left|lia|right]; nia.
  - right. nia.
Qed.

Lemma ptr_in_block (i : nat) :
  i < slen + 2 ->
  (0 <= Z.of_nat i * sizeof_ptr
   /\ Z.of_nat i * sizeof_ptr + sizeof_ptr
      <= sizeof_ptr * Z.of_nat (slen + 2)
   /\ sizeof_ptr * Z.of_nat (slen + 2) <= matrix_bytes)%Z.
Proof.
  intros Hi. unfold DamLevDist.matrix_bytes. repeat split; nia.
Qed.

Lemma holds_get (m : block) (d : ideal_matrix) (i j : nat) :
  holds m d -> i < slen + 2 -> j < tlen + 2 ->
  matrix_get sizeof_ptr sizeof_size_t m i j = Some (d i j).
Proof.
  intros [_ [Hp Hc]] Hi Hj. unfold matrix_get.
  rewrite (Hp i Hi). cbn [bind]. exact (Hc i j Hi Hj).
Qed.

Lemma holds_set (m : block) (d : ideal_matrix) (i j : nat) (v : size_t) :
  holds m d -> i < slen + 2 -> j < tlen + 2 ->
  exists m',
    matrix_set sizeof_ptr sizeof_size_t m i j v = Some m'
    /\ holds m' (ideal_set d i j v).
Proof.
  intros [Hb [Hp Hc]] Hi Hj. unfold matrix_set.
  rewrite (Hp i Hi). cbn [bind].
  change (row_offset i + Z.of_nat j * sizeof_size_t)%Z with (cell_offset i j).
  pose proof (cell_in_block Hi Hj) as [Hlo Hhi].
  pose proof (ptr_in_block Hi) as [Hp0 _].
  rewrite store_in_block by (rewrite ?Hb; nia).
  eexists. split; [reflexivity|].
  split; [exact Hb|]. split.
  - intros i' Hi'. rewrite <- (Hp i' Hi'). unfold load_ptr.
    cbn [block_stores]. unfold in_block. cbn [block_size].
    rewrite content_at_apart; [reflexivity|exact Hsize|exact Hptr|].
    right. pose proof (ptr_in_block Hi') as [_ [Hp1 _]]. lia.
  - intros i' j' Hi' Hj'. unfold load_size_t.
    cbn [block_stores block_fresh]. unfold in_block. cbn [block_size].
    unfold ideal_set.
    destruct ((i' =? i) && (j' =? j)) eqn:E.
    + apply andb_true_iff in E. destruct E as [E1 E2].
      apply Nat.eqb_eq in E1, E2. subst i' j'.
      rewrite content_at_same.
      pose proof (Hc i j Hi Hj) as Hold. unfold load_size_t, in_block in Hold.
      destruct ((0 <=? cell_offset i j)%Z
                && (cell_offset i j + sizeof_size_t <=? block_size m)%Z);
        [reflexivity|discriminate].
    + rewrite content_at_apart; [exact (Hc i' j' Hi' Hj')|exact Hsize|exact Hsize|].
      apply cell_apart; try assumption.
      intros Heq. injection Heq as -> ->.
      rewrite !Nat.eqb_refl in E. discriminate.
Qed.

(** The loops: what holds before a loop of the code and of the loops on
    the matrix without memory holds after it. *)
Lemma for_each_fold_left (S T : Type) (R : S -> T -> Prop)
      (body : S -> nat -> option S) (ibody : T -> nat -> T) (l : list nat) :
  (forall s t i, In i l -> R s t ->
     exists s', body s i = Some s' /\ R s' (ibody t i)) ->
  forall s t, R s t ->
    exists s', for_each body l s = Some s' /\ R s' (fold_left ibody l t).
Proof.
  induction l as [|i l IH]; intros Hstep s t HR.
  - exists s. split; [reflexivity|exact HR].
  - destruct (Hstep s t i (or_introl eq_refl) HR) as [s1 [E1 R1]].
    cbn [for_each fold_left]. rewrite E1. cbn [bind].
    apply IH; [|exact R1].
    intros s0 t0 i0 Hin. apply Hstep. now right.
Qed.

Lemma init_rows_holds (inf : size_t) (m : block) (d : ideal_matrix) :
  holds m d ->
  exists m',
    init_rows size_bits sizeof_ptr sizeof_size_t inf slen m = Some m'
    /\ holds m' (ideal_init_rows size_bits inf slen d).
Proof.
  intros H. unfold init_rows, ideal_init_rows.
  apply (@for_each_fold_left block ideal_matrix holds); [|exact H].
  intros s t i Hin Hst. apply in_seq in Hin.
  destruct (@holds_set s t (i + 1) 1 (size_of_nat size_bits i) Hst)
    as [s1 [E1 H1]]; [lia|lia|].
  rewrite E1. cbn [bind].
  apply holds_set; [exact H1|lia|lia].
Qed.

Lemma init_cols_holds (inf : size_t) (m : block) (d : ideal_matrix) :
  holds m d ->
  exists m',
    init_cols size_bits sizeof_ptr sizeof_size_t inf tlen m = Some m'
    /\ holds m' (ideal_init_cols size_bits inf tlen d).
Proof.
  intros H. unfold init_cols, ideal_init_cols.
  apply (@for_each_fold_left block ideal_matrix holds); [|exact H].
  intros s t j Hin Hst. apply in_seq in Hin.
  destruct (@holds_set s t 1 (j + 1) (size_of_nat size_bits j) Hst)
    as [s1 [E1 H1]]; [lia|lia|].
  rewrite E1. cbn [bind].
  apply holds_set; [exact H1|lia|lia].
Qed.

Lemma col_body_holds (last_row : last_row_t) (row col lmc : nat) (sc : ascii)
      (m : block) (d : ideal_matrix) :
  holds m d ->
  (forall c, last_row c <= slen) ->
  row <= slen -> col <= tlen -> lmc <= tlen ->
  exists m',
    col_body size_bits sizeof_ptr sizeof_size_t target last_row row sc
             (m, lmc) col
    = Some (m', snd (ideal_col_body size_bits target last_row row sc
                                    (d, lmc) col))
    /\ holds m' (fst (ideal_col_body size_bits target last_row row sc
                                     (d, lmc) col))
    /\ snd (ideal_col_body size_bits target last_row row sc (d, lmc) col)
       <= tlen.
Proof.
  intros H Hlr Hrow Hcol Hlmc. unfold col_body, ideal_col_body.
  pose proof (Hlr (nth (col - 1) target zero)) as Hl.
  rewrite !(holds_get H) by lia. cbn [bind].
  match goal with
  | |- context [matrix_set _ _ m ?i ?j ?v] =>
      destruct (@holds_set m d i j v H) as [m' [E' H']]; [lia|lia|]
  end.
  exists m'. rewrite E'. cbn [bind fst snd].
  split; [reflexivity|]. split; [exact H'|].
  destruct (Ascii.eqb sc (nth (col - 1) target zero)); lia.
Qed.

Lemma row_body_holds (last_row : last_row_t) (row : nat)
      (m : block) (d : ideal_matrix) :
  holds m d ->
  (forall c, last_row c <= slen) ->
  row <= slen ->
  exists m',
    row_body size_bits sizeof_ptr sizeof_size_t source target
             (m, last_row) row
    = Some (m', snd (ideal_row_body size_bits source target
                                    (d, last_row) row))
    /\ holds m' (fst (ideal_row_body size_bits source target
                                     (d, last_row) row))
    /\ (forall c,
          snd (ideal_row_body size_bits source target (d, last_row) row) c
          <= slen).
Proof.
  intros H Hlr Hrow. unfold row_body, ideal_row_body.
  set (sc := nth (row - 1) source zero).
  destruct (@for_each_fold_left (block * nat) (ideal_matrix * nat)
              (fun s t => holds (fst s) (fst t) /\ snd s = snd t
                          /\ snd s <= tlen)
              (col_body size_bits sizeof_ptr sizeof_size_t target last_row
                        row sc)
              (ideal_col_body size_bits target last_row row sc)
              (seq 1 tlen))
    with (s := (m, 0)) (t := (d, 0)) as [s' [E' [H' [Hs' _]]]].
  - intros [m0 c0] [d0 c0'] col Hin [H0 [Ec Hc]]. cbn [fst snd] in *.
    subst c0'. apply in_seq in Hin.
    destruct (@col_body_holds last_row row col c0 sc m0 d0 H0 Hlr Hrow)
      as [m1 [E1 [H1 Hc1]]]; [lia|exact Hc|].
    eexists. split; [exact E1|]. cbn [fst snd].
    split; [exact H1|]. split; [reflexivity|exact Hc1].
  - cbn [fst snd]. split; [exact H|]. split; [reflexivity|lia].
  - rewrite E'. cbn [bind].
    destruct (fold_left _ _ _) as [d' c'] eqn:Ef. cbn [fst snd] in *.
    exists (fst s'). split; [reflexivity|]. split; [exact H'|].
    intros c. destruct (Ascii.eqb c sc); [exact Hrow|apply Hlr].
Qed.

Lemma matrix_bytes_bounds :
  (Z.of_nat (slen + 2) <= sizeof_ptr * Z.of_nat (slen + 2) <= matrix_bytes
   /\ Z.of_nat (tlen + 2) <= sizeof_size_t * Z.of_nat (tlen + 2)
   /\ sizeof_size_t * Z.of_nat (tlen + 2)
      <= Z.of_nat (slen + 2) * (sizeof_size_t * Z.of_nat (tlen + 2))
      <= matrix_bytes)%Z.
Proof. unfold DamLevDist.matrix_bytes. repeat split; nia. Qed.

(** The two dimensions that [dam_lev_dist] gives to [matrix2_new]. *)
Lemma matrix_dim (n : nat) :
  (Z.of_nat (n + 2) < 2 ^ size_bits)%Z ->
  size_add size_bits (size_of_nat size_bits n) 2%Z = Z.of_nat (n + 2).
Proof.
  intros H. unfold size_add, size_of_nat.
  rewrite (@size_wrap_small size_bits (Z.of_nat n)) by lia.
  rewrite size_wrap_small by lia. lia.
Qed.

Lemma row_pointer (i : nat) :
  i < slen + 2 ->
  (sizeof_ptr * Z.of_nat (slen + 2)
   + size_mul size_bits (size_of_nat size_bits i)
              (sizeof_size_t * Z.of_nat (tlen + 2))%Z)%Z
  = row_offset i.
Proof.
  intros Hi. pose proof matrix_bytes_bounds as Hb.
  unfold size_mul, size_of_nat, DamLevDist.row_offset.
  rewrite (@size_wrap_small size_bits (Z.of_nat i)) by lia.
  rewrite size_wrap_small by nia. reflexivity.
Qed.

Variable malloc : size_t -> option (Z -> size_t).
Variable fresh : Z -> size_t.
Hypothesis Hmalloc : malloc matrix_bytes = Some fresh.

(** The loop of [matrix2_new]: after [k] turns the first [k] row pointers
    are stored, and the bytes behind the row pointers are as [malloc] left
    them. *)
Lemma matrix2_new_rows (n : nat) :
  forall (k : nat) (m : block),
    k + n = slen + 2 ->
    block_size m = matrix_bytes ->
    block_fresh m = fresh ->
    (forall i, i < k ->
       load_ptr sizeof_ptr m (Z.of_nat i * sizeof_ptr)
       = Some (row_offset i)) ->
    (forall off, (sizeof_ptr * Z.of_nat (slen + 2) <= off)%Z ->
       content_at (block_stores m) off sizeof_size_t = C_FRESH) ->
    exists m',
      for_each
        (fun rows i =>
           store rows (Z.of_nat i * sizeof_ptr) sizeof_ptr
                 (V_PTR (sizeof_ptr * Z.of_nat (slen + 2)
                         + size_mul size_bits (size_of_nat size_bits i)
                             (sizeof_size_t * Z.of_nat (tlen + 2))%Z)))
        (seq k n) m
      = Some m'
      /\ holds m' (fun i j => fresh (cell_offset i j)).
Proof.
  induction n as [|n IH]; intros k m Hk Hb Hf Hp Hc.
  - exists m. split; [reflexivity|].
    split; [exact Hb|]. split.
    + intros i Hi. apply Hp. lia.
    + intros i j Hi Hj. pose proof (cell_in_block Hi Hj) as [Hlo Hhi].
      unfold load_size_t, in_block. rewrite Hb, (Hc _ Hlo), Hf.
      assert (E0 : (0 <=? cell_offset i j)%Z = true) by (apply Z.leb_le; nia).
      assert (E1 : (cell_offset i j + sizeof_size_t <=? matrix_bytes)%Z = true)
        by (apply Z.leb_le; lia).
      now rewrite E0, E1.
  - assert (Hk' : k < slen + 2) by lia.
    pose proof (ptr_in_block Hk') as [P0 [P1 P2]].
    cbn [seq for_each].
    rewrite store_in_block by (rewrite ?Hb; lia).
    cbn [bind]. apply IH; cbn [block_size block_fresh block_stores];
      [lia|exact Hb|exact Hf| |].
    + intros i Hi. unfold load_ptr, in_block.
      cbn [block_size block_stores].
      destruct (Nat.eq_dec i k) as [->|Hne].
      * rewrite content_at_same, Hb, (row_pointer Hk').
        assert (E0 : (0 <=? Z.of_nat k * sizeof_ptr)%Z = true)
          by (apply Z.leb_le; lia).
        assert (E1 : (Z.of_nat k * sizeof_ptr + sizeof_ptr <=? matrix_bytes)%Z
                     = true) by (apply Z.leb_le; lia).
        now rewrite E0, E1.
      * rewrite content_at_apart; [|exact Hptr|exact Hptr|right; nia].
        apply Hp. lia.
    + intros off Hoff.
      rewrite content_at_apart; [|exact Hptr|exact Hsize|left; lia].
      apply Hc. exact Hoff.
Qed.

Lemma matrix2_new_holds :
  exists m,
    matrix2_new size_bits sizeof_ptr malloc sizeof_size_t
                (Z.of_nat (slen + 2)) (Z.of_nat (tlen + 2))
    = Some m
    /\ holds m (fun i j => fresh (cell_offset i j)).
Proof.
  pose proof matrix_bytes_bounds as Hb.
  unfold matrix2_new.
  assert (E1 : size_mul size_bits sizeof_ptr (Z.of_nat (slen + 2))
               = (sizeof_ptr * Z.of_nat (slen + 2))%Z)
    by (apply size_wrap_small; lia).
  assert (E2 : size_mul size_bits sizeof_size_t (Z.of_nat (tlen + 2))
               = (sizeof_size_t * Z.of_nat (tlen + 2))%Z)
    by (apply size_wrap_small; lia).
  rewrite E1, E2.
  assert (E3 : size_mul size_bits (Z.of_nat (slen + 2))
                        (sizeof_size_t * Z.of_nat (tlen + 2))%Z
               = (Z.of_nat (slen + 2)
                  * (sizeof_size_t * Z.of_nat (tlen + 2)))%Z)
    by (apply size_wrap_small; lia).
  rewrite E3.
  assert (E4 : size_add size_bits (sizeof_ptr * Z.of_nat (slen + 2))%Z
                 (Z.of_nat (slen + 2)
                  * (sizeof_size_t * Z.of_nat (tlen + 2)))%Z
               = matrix_bytes)
    by (apply size_wrap_small; unfold DamLevDist.matrix_bytes in *; lia).
  rewrite E4, Hmalloc. cbn [bind]. rewrite Nat2Z.id.
  apply matrix2_new_rows; cbn [block_size block_fresh block_stores];
    try reflexivity.
  - intros i Hi. lia.
Qed.

(** On a block as large as the matrix, [dam_lev_dist] returns what the
    loops on the matrix without memory compute. *)
Lemma dam_lev_dist_ideal :
  dam_lev_dist size_bits sizeof_ptr sizeof_size_t malloc source target
  = Some (ideal_dist size_bits (fun i j => fresh (cell_offset i j))
                     source target).
Proof.
  pose proof matrix_bytes_bounds as Hb.
  unfold dam_lev_dist, ideal_dist.
  destruct (slen =? 0); [reflexivity|].
  destruct (tlen =? 0); [reflexivity|].
  rewrite !matrix_dim by lia.
  destruct matrix2_new_holds as [m0 [E0 H0]]. rewrite E0. cbn [bind].
  set (inf := size_add size_bits (size_of_nat size_bits slen)
                       (size_of_nat size_bits tlen)).
  destruct (@holds_set m0 _ 0 0 inf H0) as [m1 [E1 H1]]; [lia|lia|].
  rewrite E1. cbn [bind].
  destruct (@init_rows_holds inf m1 _ H1) as [m2 [E2 H2]].
  rewrite E2. cbn [bind].
  destruct (@init_cols_holds inf m2 _ H2) as [m3 [E3 H3]].
  rewrite E3. cbn [bind].
  destruct (@for_each_fold_left (block * last_row_t)
              (ideal_matrix * last_row_t)
              (fun s t => holds (fst s) (fst t) /\ snd s = snd t
                          /\ forall c, snd s c <= slen)
              (row_body size_bits sizeof_ptr sizeof_size_t source target)
              (ideal_row_body size_bits source target)
              (seq 1 slen))
    with (s := (m3, fun _ : ascii => 0))
         (t := (ideal_init_cols size_bits inf tlen
                  (ideal_init_rows size_bits inf slen
                     (ideal_set (fun i j => fresh (cell_offset i j))
                                0 0 inf)),
                fun _ : ascii => 0))
    as [s' [E' [H' _]]].
  - intros [ms lr] [ds lr'] row Hin [Hs [El Hl]]. cbn [fst snd] in *.
    subst lr'. apply in_seq in Hin.
    destruct (@row_body_holds lr row ms ds Hs Hl) as [m' [Em [Hm Hlm]]];
      [lia|].
    eexists. split; [exact Em|]. cbn [fst snd].
    split; [exact Hm|]. split; [reflexivity|exact Hlm].
  - cbn [fst snd]. split; [exact H3|]. split; [reflexivity|]. intros c. lia.
  - rewrite E'. cbn [bind].
    destruct (fold_left _ _ _) as [d' lr'] eqn:Ef. cbn [fst] in H'.
    apply (holds_get H'); lia.
Qed.

End Strings.
End DamLevBlock.

(* ------------------------------------------------------------------ *)
(** ** What [dam_lev_dist] returns *)

Section DamLevDistance.
Import DamLev DamLevDist.
Local Abbreviation length := (@List.length ascii).

Variable size_bits : Z.
Variables sizeof_ptr sizeof_size_t : Z.

(** A matrix that fits leaves room for the distances. *)
Lemma matrix_bytes_fit (source target : list ascii) :
  (0 < sizeof_ptr)%Z -> (0 < sizeof_size_t)%Z ->
  (matrix_bytes sizeof_ptr sizeof_size_t source target < 2 ^ size_bits)%Z ->
  (2 * Z.of_nat (length source + length target) < 2 ^ size_bits)%Z.
Proof. unfold matrix_bytes. intros Hp Hs Hfit. nia. Qed.

(** With a block as large as the matrix, [dam_lev_dist] returns the
    recurrence of Lowrance and Wagner. *)
Lemma dam_lev_dist_lw (malloc : size_t -> option (Z -> size_t))
      (fresh : Z -> size_t) (source target : list ascii) :
  (0 < sizeof_ptr)%Z -> (0 < sizeof_size_t)%Z ->
  (matrix_bytes sizeof_ptr sizeof_size_t source target < 2 ^ size_bits)%Z ->
  malloc (matrix_bytes sizeof_ptr sizeof_size_t source target) = Some fresh ->
  dam_lev_dist size_bits sizeof_ptr sizeof_size_t malloc source target
  = Some (Z.of_nat (lw (rev source) (rev target))).
Proof.
  intros Hp Hs Hfit Hm.
  rewrite (@dam_lev_dist_ideal size_bits sizeof_ptr sizeof_size_t Hp Hs
             source target Hfit malloc fresh Hm).
  f_equal. apply ideal_dist_lw. now apply matrix_bytes_fit.
Qed.

(** X26: when the size of the matrix does not wrap around and [malloc]
    returns a block of that size, whatever it holds, [dam_lev_dist] returns
    the Damerau-Levenshtein distance of [source] and [target], the least
    number of insertions, deletions, substitutions and transpositions of
    adjacent characters that turn the one into the other; it returns the
    length of [target] when [source] is empty, the length of [source] when
    [target] is empty, and 0 exactly when the two are equal. *)
Theorem dam_lev_dist_edit_distance
        (malloc : size_t -> option (Z -> size_t)) (fresh : Z -> size_t)
        (source target : list ascii) :
  (0 < sizeof_ptr)%Z -> (0 < sizeof_size_t)%Z ->
  (matrix_bytes sizeof_ptr sizeof_size_t source target < 2 ^ size_bits)%Z ->
  malloc (matrix_bytes sizeof_ptr sizeof_size_t source target) = Some fresh ->
  (exists d : nat,
      dam_lev_dist size_bits sizeof_ptr sizeof_size_t malloc source target
      = Some (Z.of_nat d)
      /\ edit_distance source target d)
  /\ (source = [] ->
      dam_lev_dist size_bits sizeof_ptr sizeof_size_t malloc source target
      = Some (Z.of_nat (length target)))
  /\ (target = [] ->
      dam_lev_dist size_bits sizeof_ptr sizeof_size_t malloc source target
      = Some (Z.of_nat (length source)))
  /\ (dam_lev_dist size_bits sizeof_ptr sizeof_size_t malloc source target
      = Some 0%Z
      <-> source = target).
Proof.
  intros Hp Hs Hfit Hm.
  pose proof (dam_lev_dist_lw malloc source target Hp Hs Hfit Hm) as E.
  pose proof (@edit_distance_rev _ _ _
                (lw_edit_distance (rev source) (rev target)))
    as [He Hmin].
  split; [|split; [|split]].
  - exists (lw (rev source) (rev target)).
    split; [exact E|]. split; assumption.
  - intros H. rewrite E, H. cbn [rev].
    now rewrite lw_nil_l, length_rev.
  - intros H. rewrite E, H. cbn [rev].
    now rewrite lw_nil_r, length_rev.
  - rewrite E. split.
    + intros H0. injection H0 as H0.
      assert (H : lw (rev source) (rev target) = 0) by lia.
      rewrite H in He. inversion He. reflexivity.
    + intros Hst.
      assert (H : lw (rev source) (rev target) <= 0).
      { apply Hmin. rewrite Hst. apply edits_none. }
      f_equal. lia.
Qed.

(** X1: the distance is symmetric.  When neither matrix has a size that
    wraps around and [malloc] returns the two blocks, [dam_lev_dist]
    returns for [target] and [source] what it returns for [source] and
    [target], whatever the two blocks hold. *)
Theorem dam_lev_dist_sym
        (malloc malloc' : size_t -> option (Z -> size_t))
        (fresh fresh' : Z -> size_t) (source target : list ascii) :
  (0 < sizeof_ptr)%Z -> (0 < sizeof_size_t)%Z ->
  (matrix_bytes sizeof_ptr sizeof_size_t source target < 2 ^ size_bits)%Z ->
  (matrix_bytes sizeof_ptr sizeof_size_t target source < 2 ^ size_bits)%Z ->
  malloc (matrix_bytes sizeof_ptr sizeof_size_t source target) = Some fresh ->
  malloc' (matrix_bytes sizeof_ptr sizeof_size_t target source)
  = Some fresh' ->
  exists d : size_t,
    dam_lev_dist size_bits sizeof_ptr sizeof_size_t malloc source target
    = Some d
    /\ dam_lev_dist size_bits sizeof_ptr sizeof_size_t malloc' target source
       = Some d.
Proof.
  intros Hp Hs Hst Hts Hm Hm'.
  exists (Z.of_nat (lw (rev source) (rev target))). split.
  - exact (dam_lev_dist_lw malloc source target Hp Hs Hst Hm).
  - rewrite (dam_lev_dist_lw malloc' target source Hp Hs Hts Hm').
    do 2 f_equal. apply lw_sym.
Qed.

(** X2: the triangle inequality.  When none of the three matrices has a
    size that wraps around and [malloc] returns the three blocks, the
    distance from [s] to [u] is at most the distance from [s] to [t] plus
    the distance from [t] to [u]. *)
Theorem dam_lev_dist_triangle
        (malloc : size_t -> option (Z -> size_t))
        (fresh1 fresh2 fresh3 : Z -> size_t) (s t u : list ascii) :
  (0 < sizeof_ptr)%Z -> (0 < sizeof_size_t)%Z ->
  (matrix_bytes sizeof_ptr sizeof_size_t s u < 2 ^ size_bits)%Z ->
  (matrix_bytes sizeof_ptr sizeof_size_t s t < 2 ^ size_bits)%Z ->
  (matrix_bytes sizeof_ptr sizeof_size_t t u < 2 ^ size_bits)%Z ->
  malloc (matrix_bytes sizeof_ptr sizeof_size_t s u) = Some fresh1 ->
  malloc (matrix_bytes sizeof_ptr sizeof_size_t s t) = Some fresh2 ->
  malloc (matrix_bytes sizeof_ptr sizeof_size_t t u) = Some fresh3 ->
  exists su st tu : size_t,
    dam_lev_dist size_bits sizeof_ptr sizeof_size_t malloc s u = Some su
    /\ dam_lev_dist size_bits sizeof_ptr sizeof_size_t malloc s t = Some st
    /\ dam_lev_dist size_bits sizeof_ptr sizeof_size_t malloc t u = Some tu
    /\ (su <= st + tu)%Z.
Proof.
  intros Hp Hs Hsu Hst Htu M1 M2 M3.
  exists (Z.of_nat (lw (rev s) (rev u))), (Z.of_nat (lw (rev s) (rev t))),
    (Z.of_nat (lw (rev t) (rev u))).
  split; [exact (dam_lev_dist_lw malloc s u Hp Hs Hsu M1)|].
  split; [exact (dam_lev_dist_lw malloc s t Hp Hs Hst M2)|].
  split; [exact (dam_lev_dist_lw malloc t u Hp Hs Htu M3)|].
  pose proof (lw_triangle (rev s) (rev t) (rev u)). lia.
Qed.

(** X3: bounds.  When the size of the matrix does not wrap around and
    [malloc] returns the block, the distance is at least the difference of
    the two lengths and at most the greater of them; so it never exceeds
    what a [size_t] holds. *)
Theorem dam_lev_dist_bounds
        (malloc : size_t -> option (Z -> size_t)) (fresh : Z -> size_t)
        (source target : list ascii) :
  (0 < sizeof_ptr)%Z -> (0 < sizeof_size_t)%Z ->
  (matrix_bytes sizeof_ptr sizeof_size_t source target < 2 ^ size_bits)%Z ->
  malloc (matrix_bytes sizeof_ptr sizeof_size_t source target) = Some fresh ->
  exists d : size_t,
    dam_lev_dist size_bits sizeof_ptr sizeof_size_t malloc source target
    = Some d
    /\ (Z.abs (Z.of_nat (length source) - Z.of_nat (length target))
        <= d
        <= Z.max (Z.of_nat (length source)) (Z.of_nat (length target)))%Z.
Proof.
  intros Hp Hs Hfit Hm.
  exists (Z.of_nat (lw (rev source) (rev target))).
  split; [exact (dam_lev_dist_lw malloc source target Hp Hs Hfit Hm)|].
  pose proof (lw_le_longer (rev source) (rev target)) as Hu.
  pose proof (lw_ge_difference (rev source) (rev target)) as Hl.
  rewrite !length_rev in Hu, Hl. lia.
Qed.

End DamLevDistance.

Section DamLevExamples.
Import DamLev DamLevDist.

(** With 64 bits: [ca] becomes [abc] by a transposition and an insertion
    between the two transposed characters. *)
Lemma dam_lev_dist_edit_distance_witness :
  let source := list_ascii_of_string "ca"%string in
  let target := list_ascii_of_string "abc"%string in
  let fresh : Z -> size_t := fun _ => 7%Z in
  let malloc : size_t -> option (Z -> size_t) := fun _ => Some fresh in
  matrix_bytes 8 8 source target = 192%Z
  /\ dam_lev_dist 64 8 8 malloc source target = Some 2%Z
  /\ edit_distance source target 2.
Proof.
  intros source target fresh malloc.
  assert (E2 : dam_lev_dist 64 8 8 malloc source target = Some 2%Z)
    by (vm_compute; reflexivity).
  split; [reflexivity|]. split; [exact E2|].
  destruct (@dam_lev_dist_edit_distance 64 8 8 malloc fresh source target)
    as [[d [E Hd]] _]; try reflexivity.
  rewrite E2 in E. injection E as E.
  assert (Hd2 : d = 2) by lia. rewrite <- Hd2. exact Hd.
Defined.

Example dam_lev_dist_kitten_sitting :
  dam_lev_dist 64 8 8 (fun _ => Some (fun _ => 7%Z))
    (list_ascii_of_string "kitten"%string)
    (list_ascii_of_string "sitting"%string) = Some 3%Z.
Proof. vm_compute. reflexivity. Qed.

Lemma dam_lev_dist_sym_witness :
  exists d : size_t,
    dam_lev_dist 64 8 8 (fun _ => Some (fun _ => 0%Z))
      (list_ascii_of_string "ca"%string) (list_ascii_of_string "abc"%string)
    = Some d
    /\ dam_lev_dist 64 8 8 (fun _ => Some (fun _ => 1%Z))
         (list_ascii_of_string "abc"%string)
         (list_ascii_of_string "ca"%string)
       = Some d.
Proof.
  apply (@dam_lev_dist_sym 64 8 8 (fun _ => Some (fun _ => 0%Z))
           (fun _ => Some (fun _ => 1%Z)) (fun _ => 0%Z) (fun _ => 1%Z)
           (list_ascii_of_string "ca"%string)
           (list_ascii_of_string "abc"%string));
    reflexivity.
Defined.

Lemma dam_lev_dist_triangle_witness :
  exists su st tu : size_t,
    dam_lev_dist 64 8 8 (fun _ => Some (fun _ => 0%Z))
      (list_ascii_of_string "ca"%string) (list_ascii_of_string "abc"%string)
    = Some su
    /\ dam_lev_dist 64 8 8 (fun _ => Some (fun _ => 0%Z))
         (list_ascii_of_string "ca"%string)
         (list_ascii_of_string "ac"%string)
       = Some st
    /\ dam_lev_dist 64 8 8 (fun _ => Some (fun _ => 0%Z))
         (list_ascii_of_string "ac"%string)
         (list_ascii_of_string "abc"%string)
       = Some tu
    /\ (su <= st + tu)%Z.
Proof.
  apply (@dam_lev_dist_triangle 64 8 8 (fun _ => Some (fun _ => 0%Z))
           (fun _ => 0%Z) (fun _ => 0%Z) (fun _ => 0%Z)
           (list_ascii_of_string "ca"%string)
           (list_ascii_of_string "ac"%string)
           (list_ascii_of_string "abc"%string));
    reflexivity.
Defined.

Lemma dam_lev_dist_bounds_witness :
  exists d : size_t,
    dam_lev_dist 64 8 8 (fun _ => Some (fun _ => 0%Z))
      (list_ascii_of_string "ca"%string) (list_ascii_of_string "abc"%string)
    = Some d
    /\ (Z.abs (2 - 3) <= d <= Z.max 2 3)%Z.
Proof.
  apply (@dam_lev_dist_bounds 64 8 8 (fun _ => Some (fun _ => 0%Z))
           (fun _ => 0%Z)
           (list_ascii_of_string "ca"%string)
           (list_ascii_of_string "abc"%string));
    reflexivity.
Defined.

(** C8: not for every pair of strings has [dam_lev_dist] a result.  With
    pointers and a [size_t] of 32 bits, a source of 4094 characters and a
    target of 262144, the matrix has 4295016448 bytes and [matrix2_new]
    asks [malloc] for 49152: the size wraps around.  Whatever the block
    holds, the row pointers fit into it, the second of them points 1064968
    bytes from its beginning, and the store [dist_matrix[1][1] = 0] of the
    first loop lies outside of the block.  And when [malloc] returns NULL,
    which [matrix2_new] does not test, the first row pointer is stored
    through NULL. *)
Theorem dam_lev_dist_outside_block :
  let source := repeat "a"%char 4094 in
  let target := repeat "b"%char (2 ^ 18) in
  matrix_bytes 4 4 source target = 4295016448%Z
  /\ (forall fresh : Z -> size_t,
        let malloc : size_t -> option (Z -> size_t) :=
          fun size => if (size =? 49152)%Z then Some fresh else None in
        option_map block_size (matrix2_new 32 4 malloc 4%Z 4096%Z 262146%Z)
        = Some 49152%Z
        /\ bind (matrix2_new 32 4 malloc 4%Z 4096%Z 262146%Z)
                (fun dist_matrix => load_ptr 4 dist_matrix 4)
           = Some 1064968%Z
        /\ bind (matrix2_new 32 4 malloc 4%Z 4096%Z 262146%Z)
                (fun dist_matrix => matrix_set 4 4 dist_matrix 1 1 0%Z)
           = None
        /\ dam_lev_dist 32 4 4 malloc source target = None)
  /\ dam_lev_dist 64 8 8 (fun _ => None)
       (list_ascii_of_string "ca"%string) (list_ascii_of_string "abc"%string)
     = None.
Proof.
  intros source target.
  split; [vm_compute; reflexivity|].
  split; [|vm_compute; reflexivity].
  intros fresh malloc.
  split; [|split; [|split]]; vm_compute; reflexivity.
Qed.

End DamLevExamples.


Section Matrix2Facts.
Import DamLev Matrix2.
Variable size_bits : Z.



End Matrix2Facts.

Section Matrix2Examples.
Import DamLev Matrix2.


End Matrix2Examples.

(* ------------------------------------------------------------------ *)
(** ** More on digraphs and trigraphs *)

Section GraphTokenTwice.
Import Options.
Open Scope string_scope.
Open Scope Z_scope.

(** No spelling that [graph_token_c] substitutes is substituted itself. *)
Lemma graph_spelling_fixed (o : options) (s : string) :
  In s (digraph_spellings ++ trigraph_spellings)%list ->
  graph_token_c o s = s.
Proof.
  intros H. unfold graph_token_c.
  destruct (opt_alt_tokens o); [reflexivity|]. cbn [negb].
  destruct (opt_graph o); [reflexivity| |].
  - destruct (LANG_C_95 <=? opt_lang o); [|reflexivity].
    cbn in H.
    repeat (destruct H as [<-|H]; [reflexivity|]). contradiction.
  - destruct ((LANG_C_89 <=? opt_lang o) && (opt_lang o <=? LANG_CPP_14));
      [|reflexivity].
    cbn in H.
    repeat (destruct H as [<-|H]; [reflexivity|]). contradiction.
Qed.

(** X5: substituting twice is substituting once.  Whatever the options
    and the token, [graph_token_c] leaves its own result unchanged: a
    digraph or trigraph spelling is never taken for a token to
    substitute. *)
Theorem graph_token_c_idempotent (o : options) (token : string) :
  graph_token_c o (graph_token_c o token) = graph_token_c o token.
Proof.
  destruct (opt_alt_tokens o) eqn:Ha.
  { unfold graph_token_c. rewrite Ha. reflexivity. }
  destruct (opt_graph o) eqn:Hg.
  - unfold graph_token_c. rewrite Ha, Hg. reflexivity.
  - destruct (Z_lt_le_dec (opt_lang o) LANG_C_95) as [Hl|Hl].
    + assert (E : forall t, graph_token_c o t = t).
      { intros t. unfold graph_token_c. rewrite Ha, Hg.
        apply Z.leb_gt in Hl. rewrite Hl. reflexivity. }
      now rewrite !E.
    + destruct (graph_token_c_di o token Ha Hg Hl) as [E|E].
      * now rewrite !E.
      * apply graph_spelling_fixed. apply in_or_app. now left.
  - destruct (Z_lt_le_dec (opt_lang o) LANG_C_89) as [Hl|Hl];
      [|destruct (Z_lt_le_dec LANG_CPP_14 (opt_lang o)) as [Hu|Hu]].
    + assert (E : forall t, graph_token_c o t = t).
      { intros t. unfold graph_token_c. rewrite Ha, Hg.
        apply Z.leb_gt in Hl. rewrite Hl. reflexivity. }
      now rewrite !E.
    + assert (E : forall t, graph_token_c o t = t).
      { intros t. unfold graph_token_c. rewrite Ha, Hg.
        apply Z.leb_gt in Hu. rewrite Hu, andb_false_r. reflexivity. }
      now rewrite !E.
    + destruct (graph_token_c_tri o token Ha Hg (conj Hl Hu)) as [E|E].
      * now rewrite !E.
      * apply graph_spelling_fixed. apply in_or_app. now right.
Qed.

End GraphTokenTwice.

(* ------------------------------------------------------------------ *)
(** ** Declarations that are printed *)

Section GibberishTotalExamples.
Import CType Options Outcome Gibberish.
Open Scope string_scope.

Lemma c_ast_gibberish_prints_witness :
  well_formed (demo_options LANG_C_99) demo_array_of_ptr_to_func = true
  /\ is_done (c_ast_gibberish (N := demo_names) (demo_options LANG_C_99)
                demo_array_of_ptr_to_func (@C_GIB_DECL demo_names) "").
Proof.
  split; [reflexivity|].
  apply (@c_ast_gibberish_prints demo_names (demo_options LANG_C_99)
           demo_array_of_ptr_to_func eq_refl eq_refl
           (@C_GIB_DECL demo_names) "" eq_refl).
Defined.

Lemma c_typedef_gibberish_prints_witness :
  well_formed (demo_options LANG_C_99) (tdef_ast demo_typedef_plain) = true
  /\ is_done (c_typedef_gibberish (N := demo_names)
                (demo_options LANG_C_99) demo_typedef_plain
                (@C_GIB_TYPEDEF demo_names) "").
Proof.
  split; [reflexivity|].
  apply (@c_typedef_gibberish_prints demo_names (demo_options LANG_C_99)
           demo_typedef_plain (@C_GIB_TYPEDEF demo_names) "").
  - reflexivity.
  - discriminate.
  - reflexivity.
  - reflexivity.
Defined.

End GibberishTotalExamples.

(* ------------------------------------------------------------------ *)
(** ** When the English printer returns *)

Section EnglishReturns.
Import CType Outcome English EnglishVisit.
Open Scope string_scope.
Open Scope outcome_scope.
Context {N : names}.

Lemma is_done_bind_iff {A B : Type} (m : outcome A) (k : A -> outcome B) :
  is_done (bind m k) <-> exists a, m = Done a /\ is_done (k a).
Proof.
  destruct m as [a|f]; cbn.
  - split; [intros H; eauto | intros (a' & [= <-] & H); exact H].
  - split; [tauto | intros (a' & E & _); discriminate].
Qed.

Lemma is_done_visit_args (visit : c_ast -> string -> outcome string)
      (P : c_ast -> bool) (args : list c_ast) :
  Forall (fun a => forall e, is_done (visit a e) <-> P a = true) args ->
  forall comma eout,
    is_done (visit_args visit args comma eout) <-> forallb P args = true.
Proof.
  induction 1 as [|a args Ha _ IH]; intros comma eout;
    cbn [visit_args forallb].
  - cbn. tauto.
  - cbv zeta. rewrite is_done_bind_iff, andb_true_iff.
    split.
    + intros (e & E & H). split.
      * match type of E with
        | visit a ?x = _ => apply (Ha x)
        end.
        rewrite E. exact I.
      * apply (IH true e). exact H.
    + intros [H1 H2].
      match goal with
      | |- context [visit a ?x] =>
          pose proof (proj2 (Ha x) H1) as Hd; destruct (visit a x) as [e|f]
      end; [|contradiction].
      exists e. split; [reflexivity|]. apply IH. exact H2.
Qed.

End EnglishReturns.

(** X20: when the English printer returns.  [c_ast_english] returns
    exactly when no node that it visits is of the kind [K_NONE] or
    [K_PLACEHOLDER]; a node of such a kind stops it at an assertion.  The
    nodes visited are the node, the arguments of a block, a function or an
    operator, and the AST that a node of a parent kind is of. *)
Theorem c_ast_english_returns_iff {N : English.names} (ast : English.c_ast)
        (eout : string) :
  Outcome.is_done (English.c_ast_english ast eout)
  <-> EnglishVisit.visits_printable ast = true.
Proof.
  unfold English.c_ast_english. revert eout.
  induction ast as [d of_ast args IHof IHargs] using c_ast_induction.
  intros eout.
  assert (Hargs : forall comma e,
             Outcome.is_done
               (English.visit_args English.c_ast_visit_down args comma e)
             <-> forallb EnglishVisit.visits_printable args = true).
  { apply is_done_visit_args. exact IHargs. }
  rewrite c_ast_visit_down_unfold.
  cbn [EnglishVisit.visits_printable English.c_ast_of English.c_ast_d].
  unfold English.c_ast_visitor_english.
  cbn [English.c_ast_d English.c_ast_args].
  unfold English.c_ast_is_parent.
  destruct (English.kind d) eqn:Hk;
    cbn [Outcome.bind English.is_function_like andb Outcome.is_done];
    try (split; [discriminate || tauto | discriminate || tauto]);
    try (destruct (English.name d); cbn [Outcome.bind Outcome.is_done];
         tauto);
    try (destruct of_ast as [child|]; cbn [Outcome.is_done];
         [apply IHof | tauto]).
  all: destruct args as [|a args'];
    [ cbn [Outcome.bind forallb andb];
      destruct of_ast as [child|]; cbn [Outcome.is_done];
      [apply IHof | tauto]
    | ].
  all: match goal with
       | |- context [English.visit_args ?v ?l ?c ?e] =>
           specialize (Hargs c e);
           destruct (English.visit_args v l c e) as [e'|f]
       end; cbn [Outcome.bind Outcome.is_done] in *.
  all: try (apply proj1 in Hargs; rewrite (Hargs I); cbn [andb];
            destruct of_ast as [child|]; cbn [Outcome.is_done];
            [apply IHof | tauto]).
  all: split; [tauto|]; intros H;
    apply andb_true_iff in H; destruct H as [H _];
    apply Hargs in H; exact H.
Qed.

(* ------------------------------------------------------------------ *)
(** ** Paths and string copies *)

Section UtilFacts.
Import Util.
Open Scope string_scope.
Open Scope list_scope.

Lemma strrchr_none (c : ascii) (s : string) :
  contains c s = false -> strrchr s c = None.
Proof.
  induction s as [|x rest IH]; cbn; [reflexivity|].
  intros H. apply orb_false_iff in H. destruct H as [Hx Hr].
  rewrite (IH Hr), Hx. reflexivity.
Qed.

Lemma strrchr_last (c : ascii) (dir name : string) :
  contains c name = false ->
  strrchr (dir ++ String c name)%string c = Some (String c name).
Proof.
  intros H. induction dir as [|x rest IH]; cbn.
  - rewrite (strrchr_none _ _ H), Ascii.eqb_refl. reflexivity.
  - rewrite IH. reflexivity.
Qed.

(** X6: the last component of a path.  [base_name] returns a path without
    a slash as it is; of a path with a slash it returns what follows the
    last slash, unless nothing follows it: then it returns the slash
    itself. *)
Theorem base_name_spec :
  (forall path, contains "/" path = false -> base_name path = path)
  /\ (forall dir name,
        name <> "" -> contains "/" name = false ->
        base_name (dir ++ "/" ++ name)%string = name)
  /\ (forall dir, base_name (dir ++ "/")%string = "/").
Proof.
  split; [|split].
  - intros path H. unfold base_name. now rewrite (strrchr_none _ _ H).
  - intros dir name Hne H. unfold base_name.
    change (dir ++ "/" ++ name)%string with (dir ++ String "/" name)%string.
    rewrite (strrchr_last _ dir _ H).
    destruct name; [now elim Hne | reflexivity].
  - intros dir. unfold base_name.
    rewrite (strrchr_last "/" dir "" eq_refl). reflexivity.
Qed.

Lemma base_name_spec_witness :
  base_name "/usr/local/bin/c++decl" = "c++decl"
  /\ base_name "cdecl" = "cdecl"
  /\ base_name "/usr/local/bin/" = "/".
Proof.
  destruct base_name_spec as (H1 & H2 & H3). split; [|split].
  - apply (H2 "/usr/local/bin" "c++decl"); [discriminate | reflexivity].
  - apply (H1 "cdecl"). reflexivity.
  - apply (H3 "/usr/local/bin").
Defined.

Lemma poke_app {A : Type} (pre tl : list A) (x c : A) :
  poke (pre ++ x :: tl) (List.length pre) c = Some (pre ++ c :: tl).
Proof.
  unfold poke.
  replace (Nat.ltb (List.length pre) (List.length (pre ++ x :: tl))) with true.
  - rewrite firstn_app, firstn_all, Nat.sub_diag. cbn [firstn].
    rewrite app_nil_r.
    replace (S (List.length pre)) with (List.length pre + 1) by lia.
    rewrite skipn_app, skipn_all2 by lia.
    replace (List.length pre + 1 - List.length pre) with 1 by lia.
    reflexivity.
  - symmetry. apply Nat.ltb_lt. rewrite length_app. cbn. lia.
Qed.

Lemma poke_none {A : Type} (buf : list A) (i : nat) (c : A) :
  List.length buf <= i -> poke buf i c = None.
Proof.
  intros H. unfold poke.
  destruct (Nat.ltb_spec i (List.length buf)); [lia | reflexivity].
Qed.

Lemma strlen_c_chars (s : string) : String.length (c_chars s) = strlen s.
Proof.
  induction s as [|c rest IH]; cbn; [reflexivity|].
  destruct (Ascii.eqb c NUL); cbn; [reflexivity | now rewrite IH].
Qed.

Lemma strcpy_len_loop_app (src : string) :
  forall (pre tl : list ascii),
    strlen src < List.length tl ->
    strcpy_len_loop (pre ++ tl) (List.length pre) src
    = Some (pre ++ list_ascii_of_string (c_chars src)
                ++ NUL :: skipn (S (strlen src)) tl,
            List.length pre + strlen src + 1).
Proof.
  induction src as [|c rest IH]; intros pre tl Hlen.
  - destruct tl as [|x tl]; [cbn in Hlen; lia|].
    cbn [strcpy_len_loop]. rewrite poke_app. cbn.
    do 2 f_equal. lia.
  - destruct tl as [|x tl]; [cbn in Hlen; lia|].
    cbn [strcpy_len_loop]. rewrite poke_app.
    cbn [strlen c_chars] in *.
    destruct (Ascii.eqb c NUL) eqn:Hc.
    + apply Ascii.eqb_eq in Hc. subst c. cbn. do 2 f_equal. lia.
    + cbn [List.length] in Hlen.
      replace (pre ++ c :: tl) with ((pre ++ [c]) ++ tl)
        by (rewrite <- app_assoc; reflexivity).
      replace (S (List.length pre)) with (List.length (pre ++ [c]))
        by (rewrite length_app; cbn; lia).
      rewrite IH by lia.
      rewrite length_app. cbn [List.length list_ascii_of_string skipn].
      rewrite <- !app_assoc. cbn [app].
      do 2 f_equal. lia.
Qed.

Lemma strcpy_len_loop_overflow (src : string) :
  forall (buf : list ascii) (dst : nat),
    List.length buf <= dst + strlen src ->
    strcpy_len_loop buf dst src = None.
Proof.
  induction src as [|c rest IH]; intros buf dst Hlen; cbn in *.
  - rewrite poke_none by lia. reflexivity.
  - destruct (Nat.ltb_spec dst (List.length buf)) as [Hin|Hout].
    + unfold poke. destruct (Nat.ltb_spec dst (List.length buf)); [|lia].
      destruct (Ascii.eqb c NUL); [lia|].
      apply IH.
      rewrite length_app, length_firstn. cbn [List.length].
      rewrite length_skipn. lia.
    + rewrite poke_none by lia. reflexivity.
Qed.

Lemma strcpy_len_app (src : string) (pre tl : list ascii) :
  strlen src < List.length tl ->
  strcpy_len (pre ++ tl) (List.length pre) src
  = Some (pre ++ list_ascii_of_string (c_chars src)
              ++ NUL :: skipn (S (strlen src)) tl,
          strlen src).
Proof.
  intros H. unfold strcpy_len. rewrite strcpy_len_loop_app by exact H.
  do 2 f_equal. lia.
Qed.

(** X7: copying a string.  When the characters of [src] and the NUL after
    them fit in the array from [dst] on, [strcpy_len] stores exactly them,
    leaves the rest of the array as it was and returns the length of
    [src]; when they do not fit, it stores outside of the array. *)
Theorem strcpy_len_spec (buf : list ascii) (dst : nat) (src : string) :
  (dst + strlen src < List.length buf ->
   strcpy_len buf dst src
   = Some (firstn dst buf ++ list_ascii_of_string (c_chars src)
             ++ NUL :: skipn (dst + strlen src + 1) buf,
           strlen src))
  /\ (List.length buf <= dst + strlen src ->
      strcpy_len buf dst src = None).
Proof.
  split; intros H.
  - assert (Hd : List.length (firstn dst buf) = dst)
      by (rewrite length_firstn; lia).
    pose proof (@strcpy_len_app src (firstn dst buf) (skipn dst buf)) as E.
    rewrite firstn_skipn, Hd, length_skipn, skipn_skipn in E.
    rewrite E by lia.
    replace (S (strlen src) + dst) with (dst + strlen src + 1) by lia.
    reflexivity.
  - unfold strcpy_len. now rewrite strcpy_len_loop_overflow.
Qed.

Lemma strcpy_len_spec_witness :
  strcpy_len (list_ascii_of_string "0123456789") 2 "abc"
  = Some (list_ascii_of_string ("01abc" ++ String NUL "6789")%string, 3)
  /\ strcpy_len (list_ascii_of_string "0123") 2 "abc" = None.
Proof.
  split.
  - apply (proj1 (strcpy_len_spec (list_ascii_of_string "0123456789") 2
                    "abc")).
    cbn. lia.
  - apply (proj2 (strcpy_len_spec (list_ascii_of_string "0123") 2 "abc")).
    cbn. lia.
Defined.

End UtilFacts.

(* ------------------------------------------------------------------ *)
(** ** The command built from the command line *)

Section CdeclFacts.
Import Util Cdecl.
Open Scope string_scope.
Open Scope list_scope.

Variable true_or_set : bool -> bool * bool.
Variable malloc : nat -> list ascii.
Hypothesis true_or_set_spec : forall flag, true_or_set flag = (flag, true).
Hypothesis malloc_spec : forall n, List.length (malloc n) = n.

Lemma preflight_acc (argv : list string) :
  forall space n,
    preflight true_or_set argv space n
    = n + preflight true_or_set argv space 0.
Proof.
  induction argv as [|arg rest IH]; intros space n; cbn [preflight].
  - lia.
  - rewrite true_or_set_spec.
    rewrite (IH true (n + _)), (IH true (0 + _)). lia.
Qed.

Lemma length_list_ascii_of_string (s : string) :
  List.length (list_ascii_of_string s) = String.length s.
Proof. induction s; cbn; congruence. Qed.

Lemma preflight_build_text (argv : list string) :
  forall space,
    preflight true_or_set argv space 0
    = List.length (build_text argv space).
Proof.
  induction argv as [|arg rest IH]; intros space; cbn [preflight build_text].
  - reflexivity.
  - rewrite true_or_set_spec, preflight_acc, IH.
    rewrite !length_app, length_list_ascii_of_string, strlen_c_chars.
    destruct space; cbn; lia.
Qed.

Lemma build_app (argv : list string) :
  forall space pre x tl,
    preflight true_or_set argv space 0 <= List.length tl ->
    exists x',
      build true_or_set argv space (pre ++ x :: tl) (List.length pre)
      = Some (pre ++ build_text argv space
                  ++ x' :: skipn (preflight true_or_set argv space 0) tl,
              List.length pre + preflight true_or_set argv space 0).
Proof.
  induction argv as [|arg rest IH]; intros space pre x tl Hlen.
  - exists x. cbn. rewrite Nat.add_0_r. reflexivity.
  - cbn [build preflight build_text] in *.
    rewrite true_or_set_spec in *.
    rewrite preflight_acc in Hlen. rewrite preflight_acc.
    set (need := preflight true_or_set rest true 0) in *.
    destruct space.
    + destruct tl as [|y tl]; [cbn in Hlen; lia|]. cbn [List.length] in Hlen.
      rewrite poke_app.
      replace (pre ++ " "%char :: y :: tl)
        with ((pre ++ [" "%char]) ++ y :: tl)
        by (rewrite <- app_assoc; reflexivity).
      replace (S (List.length pre))
        with (List.length (pre ++ [" "%char]))
        by (rewrite length_app; cbn; lia).
      rewrite strcpy_len_app by (cbn; lia).
      cbn [skipn].
      rewrite app_assoc.
      rewrite <- (strlen_c_chars arg), <- length_list_ascii_of_string.
      rewrite <- length_app.
      destruct (IH true
                  ((pre ++ [" "%char]) ++ list_ascii_of_string (c_chars arg))
                  NUL
                  (skipn (List.length (list_ascii_of_string (c_chars arg)))
                     tl)) as [x' E].
      { rewrite length_skipn, length_list_ascii_of_string, strlen_c_chars.
        fold need. lia. }
      exists x'. rewrite E. fold need.
      rewrite skipn_skipn.
      rewrite !length_app, !length_list_ascii_of_string, !strlen_c_chars.
      cbn [List.length].
      rewrite <- !app_assoc. cbn [app].
      replace (0 + (1 + strlen arg) + need) with (S (need + strlen arg))
        by lia.
      cbn [skipn]. do 2 f_equal. lia.
    + rewrite strcpy_len_app by (cbn; lia).
      cbn [skipn].
      rewrite app_assoc.
      rewrite <- (strlen_c_chars arg), <- length_list_ascii_of_string.
      rewrite <- length_app.
      destruct (IH true
                  (pre ++ list_ascii_of_string (c_chars arg))
                  NUL
                  (skipn (List.length (list_ascii_of_string (c_chars arg)))
                     tl)) as [x' E].
      { rewrite length_skipn, length_list_ascii_of_string, strlen_c_chars.
        fold need. lia. }
      exists x'. rewrite E. fold need.
      rewrite skipn_skipn.
      rewrite !length_app, !length_list_ascii_of_string, !strlen_c_chars.
      rewrite <- !app_assoc. cbn [app].
      replace (0 + (0 + strlen arg) + need) with (need + strlen arg)
        by lia.
      do 2 f_equal. lia.
Qed.

Lemma list_ascii_of_string_app (s t : string) :
  list_ascii_of_string (s ++ t)
  = list_ascii_of_string s ++ list_ascii_of_string t.
Proof. induction s; cbn; congruence. Qed.

Lemma build_text_concat (w : string) (ws : list string) :
  list_ascii_of_string (String.concat " " (map c_chars (w :: ws)))
  = list_ascii_of_string (c_chars w) ++ build_text ws true.
Proof.
  revert w. induction ws as [|v ws IH]; intros w.
  - cbn. now rewrite app_nil_r.
  - change (String.concat " " (map c_chars (w :: v :: ws)))
      with (c_chars w ++ " " ++ String.concat " " (map c_chars (v :: ws)))%string.
    rewrite !list_ascii_of_string_app, IH. reflexivity.
Qed.

Lemma build_text_concat_first (ws : list string) :
  list_ascii_of_string (String.concat " " (map c_chars ws))
  = build_text ws false.
Proof.
  destruct ws as [|w ws]; [reflexivity|].
  rewrite build_text_concat. reflexivity.
Qed.

Lemma parse_command_line_buf (command : option string)
      (argv : list string) :
  let text := command_text command argv in
  parse_command_line true_or_set malloc command argv
  = Some (list_ascii_of_string text
            ++ skipn (String.length text)
                 (malloc (String.length text + 1)),
          String.length text).
Proof.
  cbv zeta.
  assert (Htext : list_ascii_of_string (command_text command argv)
                  = match command with
                    | Some c => list_ascii_of_string (c_chars c)
                                  ++ build_text argv true
                    | None => build_text argv false
                    end ++ [";"%char]).
  { unfold command_text, command_words.
    rewrite list_ascii_of_string_app.
    destruct command as [c|];
      [rewrite build_text_concat | rewrite build_text_concat_first];
      reflexivity. }
  assert (Hlen : String.length (command_text command argv)
                 = preflight true_or_set argv
                     (match command with Some _ => true | None => false end)
                     (match command with
                      | Some c => 1 + strlen c
                      | None => 1
                      end)).
  { rewrite <- length_list_ascii_of_string, Htext, preflight_acc.
    rewrite preflight_build_text.
    destruct command as [c|];
      rewrite !length_app, ?length_list_ascii_of_string, ?strlen_c_chars;
      cbn [List.length]; lia. }
  unfold parse_command_line. cbv zeta.
  rewrite <- Hlen, Htext.
  set (n := String.length (command_text command argv)) in *.
  pose proof (malloc_spec (n + 1)) as Hm.
  rewrite preflight_acc in Hlen.
  destruct command as [c|].
  - pose proof (@strcpy_len_app c [] (malloc (n + 1))) as E.
    cbn [app List.length] in E. rewrite E by lia. clear E.
    cbn [Nat.add].
    rewrite <- (strlen_c_chars c), <- length_list_ascii_of_string.
    destruct (@build_app argv true (list_ascii_of_string (c_chars c)) NUL
                (skipn (S (List.length (list_ascii_of_string (c_chars c))))
                   (malloc (n + 1)))) as [x' E].
    { rewrite length_skipn, length_list_ascii_of_string, strlen_c_chars.
      lia. }
    rewrite E. clear E.
    rewrite (preflight_build_text argv true) at 2.
    rewrite <- length_app, app_assoc, poke_app, skipn_skipn.
    rewrite <- (app_assoc _ [";"%char]). cbn [app].
    do 4 f_equal. f_equal.
    rewrite length_list_ascii_of_string, strlen_c_chars. lia.
  - destruct (malloc (n + 1)) as [|x tl] eqn:Em; [cbn in Hm; lia|].
    cbn [List.length] in Hm.
    destruct (@build_app argv false [] x tl) as [x' E]; [lia|].
    cbn [app List.length] in E. rewrite E. clear E.
    cbn [Nat.add].
    rewrite (preflight_build_text argv false) at 2.
    rewrite poke_app.
    rewrite <- (app_assoc _ [";"%char]). cbn [app].
    replace n with (S (preflight true_or_set argv false 0)) by lia.
    reflexivity.
Qed.

End CdeclFacts.

(** X8: the command of the command line.  The pre-flight of
    [parse_command_line] counts exactly what the loop stores: no store
    falls outside of the array, and what [parse_string] is given to parse
    is the words (the program's name when it is a command, and the
    arguments) with one space between them and a semicolon after them.
    The last byte of the array, counted for a NUL, is left as [malloc]
    returned it. *)
Theorem parse_command_line_spec
        (true_or_set : bool -> bool * bool) (malloc : nat -> list ascii)
        (command : option string) (argv : list string) :
  (forall flag, true_or_set flag = (flag, true)) ->
  (forall n, List.length (malloc n) = n) ->
  exists buf buf_len,
    Cdecl.parse_command_line true_or_set malloc command argv
    = Some (buf, buf_len)
    /\ List.length buf = buf_len + 1
    /\ Cdecl.parse_string_input buf buf_len = Cdecl.command_text command argv
    /\ nth buf_len buf Util.NUL = nth buf_len (malloc (buf_len + 1)) Util.NUL.
Proof.
  intros Hts Hm.
  pose proof (@parse_command_line_buf _ _ Hts Hm command argv) as E.
  cbv zeta in E.
  set (text := Cdecl.command_text command argv) in *.
  eexists _, _. split; [exact E|].
  assert (Hl : List.length (list_ascii_of_string text) = String.length text)
    by apply length_list_ascii_of_string.
  split; [|split].
  - rewrite length_app, length_skipn, Hm, Hl. lia.
  - unfold Cdecl.parse_string_input.
    rewrite firstn_app, <- Hl, firstn_all, Nat.sub_diag. cbn [firstn].
    rewrite app_nil_r. apply string_of_list_ascii_of_string.
  - rewrite app_nth2 by lia. rewrite Hl, Nat.sub_diag.
    rewrite <- (Nat.add_0_r (String.length text)) at 3.
    rewrite <- nth_skipn. reflexivity.
Qed.

Lemma parse_command_line_spec_witness :
  exists buf buf_len,
    Cdecl.parse_command_line (fun flag => (flag, true))
      (fun n => repeat "?"%char n) None
      ["explain"%string; "int"%string; "*p"%string]
    = Some (buf, buf_len)
    /\ List.length buf = buf_len + 1
    /\ Cdecl.parse_string_input buf buf_len = "explain int *p;"%string
    /\ nth buf_len buf Util.NUL = "?"%char.
Proof.
  destruct (@parse_command_line_spec (fun flag => (flag, true))
              (fun n => repeat "?"%char n) None
              ["explain"%string; "int"%string; "*p"%string])
    as (buf & buf_len & E & H1 & H2 & H3).
  - reflexivity.
  - intros n. apply repeat_length.
  - exists buf, buf_len. vm_compute in E. injection E as <- <-.
    repeat split.
Defined.

(* ------------------------------------------------------------------ *)
(** ** Command-line options *)

Section CliOptionsFacts.
Import CliOptions.
Open Scope string_scope.
Open Scope list_scope.

Variable b : build.
Variable opts_given : ascii -> bool.

Lemma check_scan_none (opt : string) (gave_count : nat) (gave_opt1 : ascii) :
  existsb opts_given (list_ascii_of_string opt) = false ->
  check_scan b opts_given opt gave_count gave_opt1
  = Returns (gave_count, gave_opt1).
Proof.
  induction opt as [|c rest IH]; cbn; [reflexivity|].
  intros H. apply orb_false_iff in H. destruct H as [Hc Hr].
  rewrite Hc. apply IH, Hr.
Qed.

Lemma check_scan_some (opt : string) (gave_count : nat) (gave_opt1 : ascii) :
  existsb opts_given (list_ascii_of_string opt) = true ->
  exists c,
    find opts_given (list_ascii_of_string opt) = Some c
    /\ check_scan b opts_given opt gave_count gave_opt1
       = match gave_count with
         | 0 => Returns (1, c)
         | S _ =>
             Fatal EX_USAGE
               (opt_format b gave_opt1 ++ " and " ++ opt_format b c
                  ++ " are mutually exclusive" ++ NL)%string
         end.
Proof.
  induction opt as [|c rest IH]; cbn; [discriminate|].
  destruct (opts_given c) eqn:Hc; cbn [orb].
  - intros _. exists c. split; [reflexivity|].
    destruct gave_count; reflexivity.
  - exact IH.
Qed.

Lemma check_mutually_exclusive_cases (opts1 opts2 : string) :
  check_mutually_exclusive b opts_given opts1 opts2
  = match find opts_given (list_ascii_of_string opts1),
          find opts_given (list_ascii_of_string opts2) with
    | Some gave_opt1, Some gave_opt2 =>
        Fatal EX_USAGE
          (opt_format b gave_opt1 ++ " and " ++ opt_format b gave_opt2
             ++ " are mutually exclusive" ++ NL)%string
    | _, _ => Returns tt
    end.
Proof.
  unfold check_mutually_exclusive. cbn [check_sets].
  destruct (existsb opts_given (list_ascii_of_string opts1)) eqn:H1.
  - destruct (check_scan_some opts1 0 Ascii.zero H1) as (c1 & F1 & E1).
    rewrite E1, F1. cbn [Nat.eqb].
    destruct (existsb opts_given (list_ascii_of_string opts2)) eqn:H2.
    + destruct (check_scan_some opts2 1 c1 H2) as (c2 & F2 & E2).
      rewrite E2, F2. reflexivity.
    + rewrite (check_scan_none opts2 1 c1 H2). cbn [Nat.eqb].
      destruct (find opts_given (list_ascii_of_string opts2)) eqn:F2;
        [|reflexivity].
      apply find_some in F2. destruct F2 as [Hin Hg].
      assert (existsb opts_given (list_ascii_of_string opts2) = true)
        by (apply existsb_exists; eauto).
      congruence.
  - rewrite (check_scan_none opts1 0 Ascii.zero H1). cbn [Nat.eqb].
    destruct (find opts_given (list_ascii_of_string opts1)) eqn:F1;
      [|reflexivity].
    apply find_some in F1. destruct F1 as [Hin Hg].
    assert (existsb opts_given (list_ascii_of_string opts1) = true)
      by (apply existsb_exists; eauto).
    congruence.
Qed.

Lemma find_existsb {A : Type} (f : A -> bool) (l : list A) :
  existsb f l = match find f l with Some _ => true | None => false end.
Proof.
  induction l as [|x l IH]; cbn; [reflexivity|].
  destruct (f x); [reflexivity | exact IH].
Qed.

Lemma check_mutually_exclusive_returns (opts1 opts2 : string) :
  check_mutually_exclusive b opts_given opts1 opts2 = Returns tt
  <-> existsb opts_given (list_ascii_of_string opts1)
      && existsb opts_given (list_ascii_of_string opts2) = false.
Proof.
  rewrite check_mutually_exclusive_cases, !find_existsb.
  destruct (find opts_given (list_ascii_of_string opts1));
    destruct (find opts_given (list_ascii_of_string opts2)); cbn;
    split; intros H; try reflexivity; discriminate.
Qed.

End CliOptionsFacts.

(** X9: options that exclude each other.  [check_mutually_exclusive]
    returns when no given option is in the first set or none is in the
    second; when both sets have a given option, it is a usage error whose
    message names the first given option of each set, however many more
    were given. *)
Theorem check_mutually_exclusive_spec
        (b : CliOptions.build) (opts_given : ascii -> bool)
        (opts1 opts2 : string) :
  let given opts := filter opts_given (list_ascii_of_string opts) in
  CliOptions.check_mutually_exclusive b opts_given opts1 opts2
  = match given opts1, given opts2 with
    | gave_opt1 :: _, gave_opt2 :: _ =>
        CliOptions.Fatal CliOptions.EX_USAGE
          (CliOptions.opt_format b gave_opt1 ++ " and "
             ++ CliOptions.opt_format b gave_opt2
             ++ " are mutually exclusive" ++ CliOptions.NL)%string
    | _, _ => CliOptions.Returns tt
    end.
Proof.
  cbv zeta. rewrite check_mutually_exclusive_cases.
  assert (F : forall l : list ascii,
             find opts_given l
             = match filter opts_given l with
               | c :: _ => Some c
               | [] => None
               end).
  { induction l as [|x l IH]; cbn; [reflexivity|].
    destruct (opts_given x); [reflexivity | exact IH]. }
  rewrite !F.
  destruct (filter opts_given (list_ascii_of_string opts1));
    destruct (filter opts_given (list_ascii_of_string opts2)); reflexivity.
Qed.

Section CliOptionsChecks.
Import CliOptions.
Open Scope string_scope.
Open Scope list_scope.

Lemma existsb_mem (given : ascii -> bool) (l : list ascii) :
  existsb given l = false
  <-> forall c, existsb (Ascii.eqb c) l = true -> given c = false.
Proof.
  split.
  - intros H c Hc. apply existsb_exists in Hc. destruct Hc as (x & Hin & E).
    apply Ascii.eqb_eq in E. subst x.
    destruct (given c) eqn:G; [|reflexivity].
    assert (existsb given l = true) by (apply existsb_exists; eauto).
    congruence.
  - intros H. destruct (existsb given l) eqn:E; [|reflexivity].
    apply existsb_exists in E. destruct E as (x & Hin & G).
    rewrite H in G; [discriminate|].
    apply existsb_exists. exists x. split; [exact Hin|].
    apply Ascii.eqb_refl.
Qed.

Lemma exit_unit_cases (r : exit_t unit) (k : exit_t unit) :
  match r with
  | Fatal status message => Fatal status message
  | Returns _ => k
  end = Returns tt
  <-> r = Returns tt /\ k = Returns tt.
Proof.
  destruct r as [[]|status message]; split.
  - intros H. split; [reflexivity | exact H].
  - intros [_ H]. exact H.
  - intros H. discriminate H.
  - intros [H _]. discriminate H.
Qed.

(** The options that the second call of [check_mutually_exclusive] in
    [parse_options] lists are those of the table but for help, and those
    of the third call those of the table but for version. *)
Lemma sopts_but_one (b : build) (c : ascii) :
  let table := map val (CLI_OPTIONS_LONG b) in
  existsb (Ascii.eqb c)
    (list_ascii_of_string
       (String.concat ""
          ([ SOPT SOPT_ALT_TOKENS ]
           ++ ifdef (YYDEBUG b) [ SOPT SOPT_BISON_DEBUG ]
           ++ ifdef (ENABLE_CDECL_DEBUG b) [ SOPT SOPT_CDECL_DEBUG ]
           ++ [ SOPT SOPT_COLOR; SOPT SOPT_CONFIG; SOPT SOPT_DIGRAPHS;
                SOPT SOPT_EAST_CONST; SOPT SOPT_EXPLAIN;
                SOPT SOPT_EXPLICIT_ECSU; SOPT SOPT_EXPLICIT_INT;
                SOPT SOPT_FILE ]
           ++ ifdef (ENABLE_FLEX_DEBUG b) [ SOPT SOPT_FLEX_DEBUG ]
           ++ [ SOPT SOPT_INTERACTIVE; SOPT SOPT_LANGUAGE;
                SOPT SOPT_NO_CONFIG; SOPT SOPT_NO_PROMPT;
                SOPT SOPT_NO_SEMICOLON; SOPT SOPT_NO_TYPEDEFS;
                SOPT SOPT_NO_USING; SOPT SOPT_OUTPUT; SOPT SOPT_TRIGRAPHS;
                SOPT SOPT_VERSION ])))
  = existsb (Ascii.eqb c) table && negb (Ascii.eqb c SOPT_HELP)
  /\ existsb (Ascii.eqb c)
       (list_ascii_of_string
          (String.concat ""
             ([ SOPT SOPT_ALT_TOKENS ]
              ++ ifdef (YYDEBUG b) [ SOPT SOPT_BISON_DEBUG ]
              ++ ifdef (ENABLE_CDECL_DEBUG b) [ SOPT SOPT_CDECL_DEBUG ]
              ++ [ SOPT SOPT_COLOR; SOPT SOPT_CONFIG; SOPT SOPT_DIGRAPHS;
                   SOPT SOPT_EAST_CONST; SOPT SOPT_EXPLAIN;
                   SOPT SOPT_EXPLICIT_ECSU; SOPT SOPT_EXPLICIT_INT;
                   SOPT SOPT_FILE ]
              ++ ifdef (ENABLE_FLEX_DEBUG b) [ SOPT SOPT_FLEX_DEBUG ]
              ++ [ SOPT SOPT_HELP; SOPT SOPT_INTERACTIVE;
                   SOPT SOPT_LANGUAGE; SOPT SOPT_NO_CONFIG;
                   SOPT SOPT_NO_PROMPT; SOPT SOPT_NO_SEMICOLON;
                   SOPT SOPT_NO_TYPEDEFS; SOPT SOPT_NO_USING;
                   SOPT SOPT_OUTPUT; SOPT SOPT_TRIGRAPHS ])))
     = existsb (Ascii.eqb c) table && negb (Ascii.eqb c SOPT_VERSION).
Proof.
  destruct b as [[] [] []];
    destruct c as [[] [] [] [] [] [] [] []];
    vm_compute; split; reflexivity.
Qed.

Lemma existsb_val (b : build) (c : ascii) :
  existsb (Ascii.eqb c) (map val (CLI_OPTIONS_LONG b)) = true
  <-> exists opt, In opt (CLI_OPTIONS_LONG b) /\ val opt = c.
Proof.
  rewrite existsb_exists. split.
  - intros (x & Hin & E). apply Ascii.eqb_eq in E. subst x.
    apply in_map_iff in Hin. destruct Hin as (opt & E & Hin). eauto.
  - intros (opt & Hin & E). exists c. split; [|apply Ascii.eqb_refl].
    subst c. now apply in_map.
Qed.

End CliOptionsChecks.

(** X10: what [parse_options] accepts together.  However the program is
    built, the three checks that end [parse_options] pass exactly when
    digraphs and trigraphs were not both asked for and, if help or version
    was asked for, no other option of [CLI_OPTIONS_LONG] was given. *)
Theorem parse_options_checks_spec
        (b : CliOptions.build) (opts_given : ascii -> bool) :
  CliOptions.parse_options_checks b opts_given = CliOptions.Returns tt
  <-> (opts_given CliOptions.SOPT_DIGRAPHS
       && opts_given CliOptions.SOPT_TRIGRAPHS = false)
      /\ (forall alone, alone = CliOptions.SOPT_HELP
                        \/ alone = CliOptions.SOPT_VERSION ->
          opts_given alone = true ->
          forall opt, In opt (CliOptions.CLI_OPTIONS_LONG b) ->
                      CliOptions.val opt <> alone ->
                      opts_given (CliOptions.val opt) = false).
Proof.
  unfold CliOptions.parse_options_checks.
  rewrite !exit_unit_cases, !check_mutually_exclusive_returns.
  rewrite !andb_false_iff.
  change (existsb opts_given
            (list_ascii_of_string (CliOptions.SOPT CliOptions.SOPT_DIGRAPHS)))
    with (opts_given CliOptions.SOPT_DIGRAPHS || false).
  change (existsb opts_given
            (list_ascii_of_string (CliOptions.SOPT CliOptions.SOPT_TRIGRAPHS)))
    with (opts_given CliOptions.SOPT_TRIGRAPHS || false).
  change (existsb opts_given
            (list_ascii_of_string (CliOptions.SOPT CliOptions.SOPT_HELP)))
    with (opts_given CliOptions.SOPT_HELP || false).
  change (existsb opts_given
            (list_ascii_of_string (CliOptions.SOPT CliOptions.SOPT_VERSION)))
    with (opts_given CliOptions.SOPT_VERSION || false).
  rewrite !orb_false_r, !existsb_mem.
  assert (S1 := fun c => proj1 (sopts_but_one b c)).
  assert (S2 := fun c => proj2 (sopts_but_one b c)).
  cbv zeta in S1, S2.
  split.
  - intros (H1 & H2 & H3). split; [exact H1|].
    intros alone [->| ->] Hg opt Hin Hne.
    + destruct H2 as [H2|H2]; [congruence|].
      apply H2. rewrite S1. apply andb_true_iff. split.
      * apply existsb_val. eauto.
      * apply negb_true_iff, Ascii.eqb_neq. exact Hne.
    + destruct H3 as [H3|H3]; [congruence|].
      apply H3. rewrite S2. apply andb_true_iff. split.
      * apply existsb_val. eauto.
      * apply negb_true_iff, Ascii.eqb_neq. exact Hne.
  - intros (H1 & H2). split; [exact H1|]. split.
    + destruct (opts_given CliOptions.SOPT_HELP) eqn:Hg; [right | now left].
      intros c Hc. rewrite S1 in Hc. apply andb_true_iff in Hc.
      destruct Hc as [Hc Hne]. apply existsb_val in Hc.
      destruct Hc as (opt & Hin & <-).
      apply (H2 CliOptions.SOPT_HELP); [now left | exact Hg | exact Hin |].
      now apply Ascii.eqb_neq, negb_true_iff.
    + destruct (opts_given CliOptions.SOPT_VERSION) eqn:Hg;
        [right | now left].
      intros c Hc. rewrite S2 in Hc. apply andb_true_iff in Hc.
      destruct Hc as [Hc Hne]. apply existsb_val in Hc.
      destruct Hc as (opt & Hin & <-).
      apply (H2 CliOptions.SOPT_VERSION);
        [now right | exact Hg | exact Hin |].
      now apply Ascii.eqb_neq, negb_true_iff.
Qed.

Section CliOptionsTables.
Import CliOptions.
Open Scope string_scope.
Open Scope list_scope.

Lemma find_NoDup_val (l : list option_t) (opt : option_t) :
  NoDup (map val l) -> In opt l ->
  find (fun o => Ascii.eqb (val o) (val opt)) l = Some opt.
Proof.
  induction l as [|x l IH]; cbn; [tauto|].
  intros Hnd Hin. inversion Hnd as [|? ? Hx Hl]; subst.
  destruct Hin as [->|Hin].
  - now rewrite Ascii.eqb_refl.
  - destruct (Ascii.eqb (val x) (val opt)) eqn:E; [|now apply IH].
    apply Ascii.eqb_eq in E. elim Hx. rewrite E. now apply in_map.
Qed.

Lemma NoDup_vals (b : build) : NoDup (map val (CLI_OPTIONS_LONG b)).
Proof.
  destruct b as [[] [] []]; cbn;
    repeat (constructor;
            [cbn; intros H;
             repeat (destruct H as [H|H]; [discriminate H|]); exact H|]);
    constructor.
Qed.

Lemma NoDup_names (b : build) : NoDup (map name (CLI_OPTIONS_LONG b)).
Proof.
  destruct b as [[] [] []]; cbn;
    repeat (constructor;
            [cbn; intros H;
             repeat (destruct H as [H|H]; [discriminate H|]); exact H|]);
    constructor.
Qed.

Lemma shorts_longs (b : build) (c : ascii) (a : has_arg_t) :
  existsb (fun p => Ascii.eqb (fst p) c
                    && match snd p, a with
                       | no_argument, no_argument
                       | required_argument, required_argument => true
                       | _, _ => false
                       end)
    (match CLI_OPTIONS_SHORT b with
     | String _ rest => getopt_shorts rest
     | EmptyString => []
     end)
  = existsb (fun opt => Ascii.eqb (val opt) c
                        && match has_arg opt, a with
                           | no_argument, no_argument
                           | required_argument, required_argument => true
                           | _, _ => false
                           end)
      (CLI_OPTIONS_LONG b).
Proof.
  destruct b as [[] [] []]; destruct a;
    destruct c as [[] [] [] [] [] [] [] []]; vm_compute; reflexivity.
Qed.

End CliOptionsTables.

(** X11: the two tables of options agree.  However the program is built,
    [CLI_OPTIONS_SHORT] starts with a colon and what getopt reads after it
    is, in some order, the short options of [CLI_OPTIONS_LONG], each
    requiring an argument in the one table exactly when it does in the
    other; no short option and no long name occurs twice, so that
    [opt_get_long] finds the name of every entry from its short option and
    [opt_format] prints both. *)
Theorem cli_options_tables_agree (b : CliOptions.build) :
  (exists shorts,
      CliOptions.CLI_OPTIONS_SHORT b = String ":" shorts
      /\ NoDup (map fst (CliOptions.getopt_shorts shorts))
      /\ forall c a,
           In (c, a) (CliOptions.getopt_shorts shorts)
           <-> exists opt, In opt (CliOptions.CLI_OPTIONS_LONG b)
                           /\ CliOptions.val opt = c
                           /\ CliOptions.has_arg opt = a)
  /\ NoDup (map CliOptions.name (CliOptions.CLI_OPTIONS_LONG b))
  /\ forall opt,
       In opt (CliOptions.CLI_OPTIONS_LONG b) ->
       CliOptions.opt_get_long b (CliOptions.val opt) = CliOptions.name opt
       /\ CliOptions.opt_format b (CliOptions.val opt)
          = ("--" ++ CliOptions.name opt ++ "/-"
               ++ String (CliOptions.val opt) "")%string.
Proof.
  split; [|split].
  - destruct (CliOptions.CLI_OPTIONS_SHORT b) as [|colon shorts] eqn:E;
      [destruct b as [[] [] []]; discriminate E|].
    exists shorts.
    assert (colon = ":"%char) as ->
        by (destruct b as [[] [] []]; vm_compute in E; congruence).
    split; [reflexivity|]. split.
    + destruct b as [[] [] []]; vm_compute in E; injection E as <-; cbn;
        repeat (constructor;
                [cbn; intros H;
                 repeat (destruct H as [H|H]; [discriminate H|]); exact H|]);
        constructor.
    + intros c a. pose proof (shorts_longs b c a) as S. rewrite E in S.
      split.
      * intros Hin.
        assert (X : existsb
                      (fun opt =>
                         Ascii.eqb (CliOptions.val opt) c
                         && match CliOptions.has_arg opt, a with
                            | CliOptions.no_argument, CliOptions.no_argument
                            | CliOptions.required_argument,
                              CliOptions.required_argument => true
                            | _, _ => false
                            end) (CliOptions.CLI_OPTIONS_LONG b) = true).
        { rewrite <- S. apply existsb_exists. exists (c, a).
          split; [exact Hin|]. cbn. rewrite Ascii.eqb_refl.
          destruct a; reflexivity. }
        apply existsb_exists in X. destruct X as (opt & Ho & X).
        apply andb_true_iff in X. destruct X as [X1 X2].
        apply Ascii.eqb_eq in X1. exists opt. split; [exact Ho|].
        split; [exact X1|].
        destruct (CliOptions.has_arg opt), a; (reflexivity || discriminate).
      * intros (opt & Ho & <- & <-).
        assert (X : existsb
                      (fun p : ascii * CliOptions.has_arg_t =>
                         Ascii.eqb (fst p) (CliOptions.val opt)
                         && match snd p, CliOptions.has_arg opt with
                            | CliOptions.no_argument, CliOptions.no_argument
                            | CliOptions.required_argument,
                              CliOptions.required_argument => true
                            | _, _ => false
                            end) (CliOptions.getopt_shorts shorts) = true).
        { rewrite S. apply existsb_exists. exists opt.
          split; [exact Ho|]. rewrite Ascii.eqb_refl.
          destruct (CliOptions.has_arg opt); reflexivity. }
        apply existsb_exists in X. destruct X as ([c a] & Hp & X).
        cbn [fst snd] in X.
        apply andb_true_iff in X. destruct X as [X1 X2].
        apply Ascii.eqb_eq in X1. subst c.
        destruct a, (CliOptions.has_arg opt);
          (exact Hp || discriminate).
  - apply NoDup_names.
  - intros opt Hin.
    assert (G : CliOptions.opt_get_long b (CliOptions.val opt)
                = CliOptions.name opt).
    { unfold CliOptions.opt_get_long.
      now rewrite (find_NoDup_val _ _ (NoDup_vals b) Hin). }
    split; [exact G|].
    unfold CliOptions.opt_format. rewrite G.
    assert (N : CliOptions.name opt <> ""%string).
    { destruct b as [[] [] []]; cbn in Hin;
        repeat (destruct Hin as [<-|Hin]; [discriminate|]);
        contradiction. }
    destruct (CliOptions.name opt) as [|x n]; [now elim N|].
    reflexivity.
Qed.

(** X12: going through the table.  Called again and again on its own
    result, from the null pointer on, [cli_option_next] returns the entries
    of [CLI_OPTIONS_LONG] one after the other in the order of the table,
    and after the last one the null pointer. *)
Theorem cli_option_next_enumerates (b : CliOptions.build) (k : nat) :
  k <= List.length (CliOptions.CLI_OPTIONS_LONG b) ->
  Nat.iter (S k) (CliOptions.cli_option_next b) None
  = if Nat.ltb k (List.length (CliOptions.CLI_OPTIONS_LONG b))
    then Some k else None.
Proof.
  assert (Hpos : 0 < List.length (CliOptions.CLI_OPTIONS_LONG b))
    by (destruct b as [[] [] []]; cbn; lia).
  induction k as [|k IH]; intros Hk.
  - cbn. destruct (Nat.ltb_spec 0 (List.length (CliOptions.CLI_OPTIONS_LONG b)));
      [reflexivity | lia].
  - rewrite (Nat.iter_succ (S k)), IH by lia.
    destruct (Nat.ltb_spec k (List.length (CliOptions.CLI_OPTIONS_LONG b)));
      [|lia].
    unfold CliOptions.cli_option_next, CliOptions.cli_option_name.
    destruct (Nat.ltb_spec (S k)
                (List.length (CliOptions.CLI_OPTIONS_LONG b))) as [Hlt|Hge].
    + destruct (nth_error (CliOptions.CLI_OPTIONS_LONG b) (S k)) eqn:E;
        [reflexivity|].
      apply nth_error_None in E. lia.
    + destruct (nth_error (CliOptions.CLI_OPTIONS_LONG b) (S k)) eqn:E;
        [|reflexivity].
      assert (Hs : nth_error (CliOptions.CLI_OPTIONS_LONG b) (S k) <> None)
        by congruence.
      apply nth_error_Some in Hs. lia.
Qed.

Lemma cli_option_next_enumerates_witness :
  Nat.iter 3 (CliOptions.cli_option_next
                {| CliOptions.YYDEBUG := false;
                   CliOptions.ENABLE_CDECL_DEBUG := false;
                   CliOptions.ENABLE_FLEX_DEBUG := false |}) None
  = Some 2
  /\ Nat.iter 21 (CliOptions.cli_option_next
                    {| CliOptions.YYDEBUG := false;
                       CliOptions.ENABLE_CDECL_DEBUG := false;
                       CliOptions.ENABLE_FLEX_DEBUG := false |}) None
     = None.
Proof.
  split.
  - apply (@cli_option_next_enumerates
             {| CliOptions.YYDEBUG := false;
                CliOptions.ENABLE_CDECL_DEBUG := false;
                CliOptions.ENABLE_FLEX_DEBUG := false |} 2).
    cbn. lia.
  - apply (@cli_option_next_enumerates
             {| CliOptions.YYDEBUG := false;
                CliOptions.ENABLE_CDECL_DEBUG := false;
                CliOptions.ENABLE_FLEX_DEBUG := false |} 20).
    cbn. lia.
Defined.

Section ColorWhen.
Import CliOptions.
Open Scope string_scope.
Open Scope list_scope.

Lemma strcasecmp_eq_sym (a : string) :
  forall b, strcasecmp_eq a b = strcasecmp_eq b a.
Proof.
  induction a as [|x a IH]; intros [|y b]; cbn; try reflexivity.
  rewrite IH. f_equal. apply Ascii.eqb_sym.
Qed.

Lemma strcasecmp_eq_trans (a : string) :
  forall b c,
    strcasecmp_eq a b = true -> strcasecmp_eq b c = true ->
    strcasecmp_eq a c = true.
Proof.
  induction a as [|x a IH]; intros [|y b] [|z c]; cbn;
    try reflexivity; try discriminate.
  intros H1 H2.
  apply andb_true_iff in H1. destruct H1 as [E1 H1].
  apply andb_true_iff in H2. destruct H2 as [E2 H2].
  apply Ascii.eqb_eq in E1. apply Ascii.eqb_eq in E2.
  rewrite (IH _ _ H1 H2), E1, E2, Ascii.eqb_refl. reflexivity.
Qed.

End ColorWhen.

(** X13: when to colorize.  [parse_color_when] compares without regard
    to the case of letters: for a word that is, but for case, a name of
    [COLORIZE_MAP] it returns what the map gives for that name; for any
    other word it is a usage error. *)
Theorem parse_color_when_spec (b : CliOptions.build) (when : string) :
  (forall name color,
      In (name, color) CliOptions.COLORIZE_MAP ->
      CliOptions.strcasecmp_eq when name = true ->
      CliOptions.parse_color_when b when = CliOptions.Returns color)
  /\ ((forall name color,
          In (name, color) CliOptions.COLORIZE_MAP ->
          CliOptions.strcasecmp_eq when name = false) ->
      exists message,
        CliOptions.parse_color_when b when
        = CliOptions.Fatal CliOptions.EX_USAGE message).
Proof.
  split.
  - intros name color Hin Hname. unfold CliOptions.parse_color_when.
    destruct (find (fun m => CliOptions.strcasecmp_eq when (fst m))
                CliOptions.COLORIZE_MAP) as [[name' color']|] eqn:F.
    + apply find_some in F. destruct F as [Hin' Hname']. cbn [fst snd] in *.
      assert (E : CliOptions.strcasecmp_eq name' name = true).
      { apply (strcasecmp_eq_trans name' when name);
          [rewrite strcasecmp_eq_sym|]; assumption. }
      clear Hname Hname'. f_equal.
      cbn in Hin, Hin'.
      repeat (destruct Hin as [Hin|Hin];
              [injection Hin as <- <-|]);
        try contradiction;
        repeat (destruct Hin' as [Hin'|Hin'];
                [injection Hin' as <- <-|]);
        try contradiction; try reflexivity; discriminate E.
    + pose proof (find_none _ _ F (name, color) Hin) as N.
      cbn [fst] in N. congruence.
  - intros Hnone. unfold CliOptions.parse_color_when.
    destruct (find (fun m => CliOptions.strcasecmp_eq when (fst m))
                CliOptions.COLORIZE_MAP) as [[name' color']|] eqn:F.
    + apply find_some in F. destruct F as [Hin' Hname']. cbn [fst] in Hname'.
      rewrite (Hnone _ _ Hin') in Hname'. discriminate.
    + eexists. reflexivity.
Qed.

Lemma parse_color_when_spec_witness :
  CliOptions.parse_color_when
    {| CliOptions.YYDEBUG := false; CliOptions.ENABLE_CDECL_DEBUG := false;
       CliOptions.ENABLE_FLEX_DEBUG := false |} "TTY"
  = CliOptions.Returns CliOptions.COLOR_ISATTY.
Proof.
  apply (proj1 (parse_color_when_spec
                  {| CliOptions.YYDEBUG := false;
                     CliOptions.ENABLE_CDECL_DEBUG := false;
                     CliOptions.ENABLE_FLEX_DEBUG := false |} "TTY")
           "tty"%string CliOptions.COLOR_ISATTY).
  - cbn. tauto.
  - reflexivity.
Defined.

(* ------------------------------------------------------------------ *)
(** ** Completion *)

Section StrncmpFacts.
Import Util Autocomplete.
Open Scope string_scope.

Lemma prefix_empty (s : string) : prefix "" s = true.
Proof. destruct s; reflexivity. Qed.

Lemma strncmp_eq_prefix (a : string) :
  forall b, strncmp_eq a b (strlen a) = prefix (c_chars a) (c_chars b).
Proof.
  induction a as [|x a IH]; intros b;
    [cbn; now rewrite prefix_empty|].
  cbn [strlen c_chars].
  destruct (Ascii.eqb x NUL) eqn:Hx; [cbn; now rewrite prefix_empty|].
  cbn [strncmp_eq head tail].
  destruct b as [|y b]; cbn [head tail c_chars].
  - rewrite Hx. reflexivity.
  - destruct (Ascii.eqb x y) eqn:Hxy.
    + apply Ascii.eqb_eq in Hxy. subst y. rewrite Hx.
      cbn [prefix]. destruct (ascii_dec x x) as [_|N]; [apply IH|now elim N].
    + destruct (Ascii.eqb y NUL); [reflexivity|]. cbn [prefix].
      destruct (ascii_dec x y) as [E|_]; [|reflexivity].
      subst y. now rewrite Ascii.eqb_refl in Hxy.
Qed.

End StrncmpFacts.

Section GeneratorFacts.
Import Util Autocomplete.
Open Scope string_scope.
Open Scope list_scope.

Variable CDECL_COMMANDS : list cdecl_command_t.
Variable opt_lang_is_any : Z -> bool.
Variable text : string.

Lemma generate_from (rest : list cdecl_command_t) :
  forall pre calls state,
    CDECL_COMMANDS = pre ++ rest ->
    List.length rest < calls ->
    state <> 0%Z ->
    generate CDECL_COMMANDS opt_lang_is_any calls
      {| match_index := List.length pre; text_len := strlen text |}
      text state
    = map (fun c => c_chars (c_literal c))
        (filter (fun c =>
                   opt_lang_is_any (c_lang_ids c)
                   && prefix (c_chars text) (c_chars (c_literal c)))
           rest).
Proof.
  assert (Sk : forall pre' rest',
             CDECL_COMMANDS = pre' ++ rest' ->
             skipn (List.length pre') CDECL_COMMANDS = rest').
  { intros pre' rest' ->.
    now rewrite skipn_app, skipn_all, Nat.sub_diag. }
  induction rest as [|c rest IH]; intros pre calls state E Hcalls Hstate;
    (destruct calls as [|calls]; [cbn in Hcalls; lia|]);
    cbn [generate]; unfold command_generator;
    (destruct (Z.eqb_spec state 0) as [|_]; [contradiction|]);
    cbn [match_index text_len]; rewrite (Sk _ _ E).
  - reflexivity.
  - cbn [command_loop filter].
    rewrite <- strncmp_eq_prefix.
    assert (E' : CDECL_COMMANDS = (pre ++ [c]) ++ rest)
      by (rewrite <- app_assoc; exact E).
    assert (L : S (List.length pre) = List.length (pre ++ [c]))
      by (rewrite length_app; cbn; lia).
    cbn [List.length] in Hcalls.
    destruct (opt_lang_is_any (c_lang_ids c)); cbn [negb andb];
      [destruct (strncmp_eq text (c_literal c) (strlen text))|].
    + cbn [map]. f_equal. rewrite L.
      apply (IH (pre ++ [c]) calls 1%Z E'); [lia | discriminate].
    + specialize (IH (pre ++ [c]) (S calls) state E' ltac:(lia) Hstate).
      cbn [generate] in IH. unfold command_generator in IH.
      destruct (Z.eqb_spec state 0) as [|_]; [contradiction|].
      cbn [match_index text_len] in IH.
      rewrite (Sk _ _ E') in IH. rewrite L. exact IH.
    + specialize (IH (pre ++ [c]) (S calls) state E' ltac:(lia) Hstate).
      cbn [generate] in IH. unfold command_generator in IH.
      destruct (Z.eqb_spec state 0) as [|_]; [contradiction|].
      cbn [match_index text_len] in IH.
      rewrite (Sk _ _ E') in IH. rewrite L. exact IH.
Qed.

End GeneratorFacts.

(** X14: the commands that complete a text.  Called with a state of 0
    and then with another state until it returns null, whatever its static
    variables held before, [command_generator] returns the commands of
    [CDECL_COMMANDS] that are in the current language and start with the
    text: all of them, each once, in the order of the table. *)
Theorem command_generator_matches
        (CDECL_COMMANDS : list Autocomplete.cdecl_command_t)
        (opt_lang_is_any : Z -> bool)
        (st : Autocomplete.generator_state) (text : string) (calls : nat) :
  List.length CDECL_COMMANDS < calls ->
  Autocomplete.generate CDECL_COMMANDS opt_lang_is_any calls st text 0
  = map (fun c => Util.c_chars (Autocomplete.c_literal c))
      (filter (fun c =>
                 opt_lang_is_any (Autocomplete.c_lang_ids c)
                 && prefix (Util.c_chars text)
                      (Util.c_chars (Autocomplete.c_literal c)))
         CDECL_COMMANDS).
Proof.
  intros Hcalls.
  rewrite <- (@generate_from CDECL_COMMANDS opt_lang_is_any text
                CDECL_COMMANDS [] calls 1%Z eq_refl Hcalls)
    by discriminate.
  destruct calls as [|calls]; reflexivity.
Qed.

Lemma command_generator_matches_witness :
  Autocomplete.generate
    [ {| Autocomplete.c_literal := "declare"; Autocomplete.c_lang_ids := 1 |};
      {| Autocomplete.c_literal := "define"; Autocomplete.c_lang_ids := 1 |};
      {| Autocomplete.c_literal := "delete"; Autocomplete.c_lang_ids := 0 |};
      {| Autocomplete.c_literal := "explain"; Autocomplete.c_lang_ids := 1 |} ]
    (fun ids => negb (Z.eqb ids 0)) 5
    {| Autocomplete.match_index := 3; Autocomplete.text_len := 7 |}
    "de" 0
  = [ "declare"%string; "define"%string ].
Proof.
  apply (@command_generator_matches
           [ {| Autocomplete.c_literal := "declare";
                Autocomplete.c_lang_ids := 1 |};
             {| Autocomplete.c_literal := "define";
                Autocomplete.c_lang_ids := 1 |};
             {| Autocomplete.c_literal := "delete";
                Autocomplete.c_lang_ids := 0 |};
             {| Autocomplete.c_literal := "explain";
                Autocomplete.c_lang_ids := 1 |} ]
           (fun ids => negb (Z.eqb ids 0))
           {| Autocomplete.match_index := 3; Autocomplete.text_len := 7 |}
           "de" 5).
  cbn. lia.
Defined.

Section IsCommandFacts.
Import Util Autocomplete Autocomplete2.
Open Scope string_scope.

Lemma strncmp_eq_chars (c : string) :
  forall s i,
    strncmp_eq s c (strlen c) = true -> i < strlen c ->
    char_at s i = char_at c i.
Proof.
  induction c as [|x c IH]; intros s i H Hi; cbn [strlen] in *; [lia|].
  destruct (Ascii.eqb x NUL) eqn:Hx; [lia|].
  cbn [strncmp_eq head tail] in H.
  destruct (Ascii.eqb (head s) x) eqn:Hsx; [|discriminate].
  apply Ascii.eqb_eq in Hsx.
  rewrite Hsx, Hx in H.
  destruct i as [|i]; cbn [char_at head tail]; [exact Hsx|].
  apply IH; [exact H | lia].
Qed.

Lemma ident_char_at (is_ident : ascii -> bool) (c : string) :
  forall i,
    forallb is_ident (list_ascii_of_string (c_chars c)) = true ->
    i < strlen c -> is_ident (char_at c i) = true.
Proof.
  induction c as [|x c IH]; intros i H Hi; cbn [strlen c_chars] in *; [lia|].
  destruct (Ascii.eqb x NUL) eqn:Hx; [lia|].
  cbn [list_ascii_of_string forallb] in H.
  apply andb_true_iff in H. destruct H as [H1 H2].
  destruct i as [|i]; cbn [char_at head tail]; [exact H1|].
  apply IH; [exact H2 | lia].
Qed.

Lemma c_chars_ext (a : string) :
  forall b,
    strlen a = strlen b ->
    (forall i, i < strlen a -> char_at a i = char_at b i) ->
    c_chars a = c_chars b.
Proof.
  induction a as [|x a IH]; intros b Hlen Hch.
  - destruct b as [|y b]; [reflexivity|]. cbn [strlen c_chars] in *.
    destruct (Ascii.eqb y NUL); [reflexivity | discriminate].
  - cbn [strlen c_chars] in *.
    destruct (Ascii.eqb x NUL) eqn:Hx.
    + destruct b as [|y b]; [reflexivity|]. cbn [strlen c_chars] in *.
      destruct (Ascii.eqb y NUL); [reflexivity | discriminate].
    + destruct b as [|y b]; [discriminate|]. cbn [strlen c_chars] in *.
      destruct (Ascii.eqb y NUL) eqn:Hy; [discriminate|].
      pose proof (Hch 0 ltac:(lia)) as H0. cbn in H0. subst y.
      f_equal. apply IH; [lia|].
      intros i Hi. apply (Hch (S i)). lia.
Qed.

Lemma is_command_inv (is_ident : ascii -> bool) (command s : string)
      (s_len : nat) :
  is_command is_ident command s s_len = true ->
  strlen command <= s_len
  /\ strncmp_eq s command (strlen command) = true
  /\ (strlen command = s_len
      \/ is_ident (char_at s (strlen command)) = false).
Proof.
  unfold is_command.
  destruct (Nat.ltb_spec s_len (strlen command)) as [|Hle];
    [discriminate|].
  destruct (strncmp_eq s command (strlen command)); [|discriminate].
  cbn [negb orb].
  destruct (Nat.eqb_spec (strlen command) s_len) as [E|_].
  - intros _. auto.
  - intros H. apply negb_true_iff in H. auto.
Qed.

End IsCommandFacts.

(** X15: the command of a line is unambiguous.  Two commands made of
    identifier characters that [is_command] both finds at the start of the
    same line are the same command: the character after a command must
    not be an identifier character, so that no command is found in a
    longer word. *)
Theorem is_command_unique (is_ident : ascii -> bool)
        (command1 command2 s : string) (s_len : nat) :
  forallb is_ident (list_ascii_of_string (Util.c_chars command1)) = true ->
  forallb is_ident (list_ascii_of_string (Util.c_chars command2)) = true ->
  Autocomplete2.is_command is_ident command1 s s_len = true ->
  Autocomplete2.is_command is_ident command2 s s_len = true ->
  Util.c_chars command1 = Util.c_chars command2.
Proof.
  intros I1 I2 H1 H2.
  apply is_command_inv in H1. destruct H1 as (L1 & P1 & N1).
  apply is_command_inv in H2. destruct H2 as (L2 & P2 & N2).
  destruct (Nat.lt_trichotomy (Util.strlen command1) (Util.strlen command2))
    as [Hlt|[Heq|Hgt]].
  - destruct N1 as [N1|N1]; [lia|].
    rewrite (strncmp_eq_chars _ _ P2 Hlt) in N1.
    rewrite (ident_char_at _ _ I2 Hlt) in N1. discriminate.
  - apply c_chars_ext; [exact Heq|].
    intros i Hi.
    rewrite <- (strncmp_eq_chars _ _ P1 Hi).
    apply strncmp_eq_chars; [exact P2 | lia].
  - destruct N2 as [N2|N2]; [lia|].
    rewrite (strncmp_eq_chars _ _ P1 Hgt) in N2.
    rewrite (ident_char_at _ _ I1 Hgt) in N2. discriminate.
Qed.

Lemma is_command_unique_witness :
  Util.c_chars "set" = Util.c_chars "set".
Proof.
  apply (@is_command_unique
           (fun c => (Nat.leb 97 (nat_of_ascii c)
                      && Nat.leb (nat_of_ascii c) 122)%bool)
           "set" "set" "set options" 11); reflexivity.
Defined.

Section InitFacts.
Import Util Autocomplete.
Open Scope string_scope.
Open Scope list_scope.

Variable LANG_NONE : Z.

Lemma cdecl_keywords_preflight_count (ks : list c_keyword_t) :
  forall n,
    cdecl_keywords_preflight LANG_NONE ks n
    = n + List.length
            (filter (fun k => negb (Z.eqb (ac_lang_ids k) LANG_NONE)) ks).
Proof.
  induction ks as [|k ks IH]; intros n; cbn [cdecl_keywords_preflight filter];
    [cbn; lia|].
  rewrite IH.
  destruct (negb (Z.eqb (ac_lang_ids k) LANG_NONE)); cbn [List.length]; lia.
Qed.

Lemma copy_ac_keywords_app (lls : list c_lang_lit_t) :
  forall pre tl,
    Forall (fun ll => literal ll <> None) lls ->
    List.length lls <= List.length tl ->
    copy_ac_keywords lls (pre ++ tl) (List.length pre)
    = Some (pre ++ lls ++ skipn (List.length lls) tl,
            List.length pre + List.length lls).
Proof.
  induction lls as [|ll lls IH]; intros pre tl Hlit Hlen;
    cbn [copy_ac_keywords List.length] in *.
  - cbn. now rewrite Nat.add_0_r.
  - inversion Hlit as [|? ? Hll Hlls]; subst.
    destruct (literal ll) as [lit|]; [|now elim Hll].
    destruct tl as [|x tl]; [cbn in Hlen; lia|]. cbn [List.length] in Hlen.
    rewrite poke_app.
    replace (pre ++ ll :: tl) with ((pre ++ [ll]) ++ tl)
      by (rewrite <- app_assoc; reflexivity).
    replace (S (List.length pre)) with (List.length (pre ++ [ll]))
      by (rewrite length_app; cbn; lia).
    rewrite IH by (assumption || lia).
    rewrite length_app, <- app_assoc. cbn [app List.length skipn].
    do 2 f_equal. lia.
Qed.

Lemma copy_c_keywords_app (ks : list c_keyword_t) :
  forall pre tl,
    let copied :=
      map (fun k => {| lang_ids := ac_lang_ids k;
                       literal := Some (k_literal k) |})
        (filter (fun k => negb (Z.eqb (ac_lang_ids k) LANG_NONE)) ks) in
    List.length copied <= List.length tl ->
    copy_c_keywords LANG_NONE ks (pre ++ tl) (List.length pre)
    = Some (pre ++ copied ++ skipn (List.length copied) tl,
            List.length pre + List.length copied).
Proof.
  induction ks as [|k ks IH]; intros pre tl; cbv zeta;
    cbn [copy_c_keywords filter].
  - intros _. cbn. now rewrite Nat.add_0_r.
  - destruct (negb (Z.eqb (ac_lang_ids k) LANG_NONE)).
    + cbn [map List.length]. intros Hlen.
      destruct tl as [|x tl]; [cbn in Hlen; lia|]. cbn [List.length] in Hlen.
      rewrite poke_app.
      replace (pre ++ {| lang_ids := ac_lang_ids k;
                         literal := Some (k_literal k) |} :: tl)
        with ((pre ++ [{| lang_ids := ac_lang_ids k;
                          literal := Some (k_literal k) |}]) ++ tl)
        by (rewrite <- app_assoc; reflexivity).
      replace (S (List.length pre))
        with (List.length
                (pre ++ [{| lang_ids := ac_lang_ids k;
                            literal := Some (k_literal k) |}]))
        by (rewrite length_app; cbn; lia).
      rewrite (IH _ tl) by lia.
      rewrite length_app, <- app_assoc. cbn [app List.length skipn].
      do 2 f_equal. lia.
    + intros Hlen. apply (IH pre tl Hlen).
Qed.

End InitFacts.

(** X16: the array of keywords.  The pre-flight of [init_cdecl_keywords]
    counts exactly what is stored: when only the entry that ends
    [AC_CDECL_KEYWORDS] has a null literal, no store falls outside of the
    array, and the array returned is [AC_CDECL_KEYWORDS], then the C
    keywords that are completed in some language, then the entry of zeros
    that ends it, with no element left as [malloc] returned it. *)
Theorem init_cdecl_keywords_spec
        (LANG_NONE : Z)
        (AC_CDECL_KEYWORDS : list Autocomplete.c_lang_lit_t)
        (C_KEYWORDS : list Autocomplete.c_keyword_t)
        (malloc_lits : nat -> list Autocomplete.c_lang_lit_t) :
  Forall (fun ll => Autocomplete.literal ll <> None) AC_CDECL_KEYWORDS ->
  (forall n, List.length (malloc_lits n) = n) ->
  Autocomplete.init_cdecl_keywords LANG_NONE AC_CDECL_KEYWORDS C_KEYWORDS
    malloc_lits
  = Some (AC_CDECL_KEYWORDS
            ++ map (fun k =>
                      {| Autocomplete.lang_ids := Autocomplete.ac_lang_ids k;
                         Autocomplete.literal :=
                           Some (Autocomplete.k_literal k) |})
                 (filter (fun k =>
                            negb (Z.eqb (Autocomplete.ac_lang_ids k)
                                    LANG_NONE)) C_KEYWORDS)
            ++ [ {| Autocomplete.lang_ids := 0;
                    Autocomplete.literal := None |} ]).
Proof.
  intros Hlit Hm. unfold Autocomplete.init_cdecl_keywords. cbv zeta.
  rewrite cdecl_keywords_preflight_count.
  set (copied := filter _ C_KEYWORDS).
  set (n := S (List.length AC_CDECL_KEYWORDS) + List.length copied).
  pose proof (Hm n) as Hn.
  pose proof (@copy_ac_keywords_app AC_CDECL_KEYWORDS [] (malloc_lits n))
    as E1.
  cbn [app List.length Nat.add] in E1.
  rewrite E1 by (assumption || lia). clear E1.
  pose proof (@copy_c_keywords_app LANG_NONE C_KEYWORDS AC_CDECL_KEYWORDS
                (skipn (List.length AC_CDECL_KEYWORDS) (malloc_lits n)))
    as E2.
  cbv zeta in E2. fold copied in E2.
  rewrite E2 by (rewrite length_map, length_skipn; lia). clear E2.
  rewrite skipn_skipn, length_map.
  destruct (skipn (List.length copied + List.length AC_CDECL_KEYWORDS)
              (malloc_lits n)) as [|x tl] eqn:Es.
  { apply (f_equal (@List.length _)) in Es.
    rewrite length_skipn, Hn in Es. unfold n in Es.
    cbn [List.length] in Es. lia. }
  assert (tl = []) as ->.
  { apply (f_equal (@List.length _)) in Es.
    rewrite length_skipn, Hn in Es. unfold n in Es.
    destruct tl; [reflexivity | cbn [List.length] in Es; lia]. }
  rewrite <- (length_map (fun k =>
                {| Autocomplete.lang_ids := Autocomplete.ac_lang_ids k;
                   Autocomplete.literal :=
                     Some (Autocomplete.k_literal k) |}) copied).
  rewrite <- length_app, app_assoc, poke_app, <- app_assoc.
  reflexivity.
Qed.

Lemma init_cdecl_keywords_spec_witness :
  Autocomplete.init_cdecl_keywords 0
    [ {| Autocomplete.lang_ids := 7;
         Autocomplete.literal := Some "array"%string |} ]
    [ {| Autocomplete.k_literal := "auto";
         Autocomplete.ac_lang_ids := 3 |};
      {| Autocomplete.k_literal := "int";
         Autocomplete.ac_lang_ids := 0 |} ]
    (fun n => repeat {| Autocomplete.lang_ids := 99;
                        Autocomplete.literal := Some "?"%string |} n)
  = Some [ {| Autocomplete.lang_ids := 7;
              Autocomplete.literal := Some "array"%string |};
           {| Autocomplete.lang_ids := 3;
              Autocomplete.literal := Some "auto"%string |};
           {| Autocomplete.lang_ids := 0;
              Autocomplete.literal := None |} ].
Proof.
  apply (@init_cdecl_keywords_spec 0
           [ {| Autocomplete.lang_ids := 7;
                Autocomplete.literal := Some "array"%string |} ]
           [ {| Autocomplete.k_literal := "auto";
                Autocomplete.ac_lang_ids := 3 |};
             {| Autocomplete.k_literal := "int";
                Autocomplete.ac_lang_ids := 0 |} ]
           (fun n => repeat {| Autocomplete.lang_ids := 99;
                               Autocomplete.literal := Some "?"%string |} n)).
  - repeat constructor. discriminate.
  - intros n. apply repeat_length.
Defined.

Section SetOptionsFacts.
Import Util Autocomplete.
Open Scope string_scope.
Open Scope list_scope.

Variable check_strdup_tolower : string -> string.
Variable malloc_chars : nat -> list ascii.
Hypothesis malloc_chars_spec : forall n, List.length (malloc_chars n) = n.

Lemma c_chars_terminated (s : string) (rest : list ascii) :
  c_chars (string_of_list_ascii
             (list_ascii_of_string (c_chars s) ++ NUL :: rest))
  = c_chars s.
Proof.
  induction s as [|x s IH]; cbn [c_chars]; [reflexivity|].
  destruct (Ascii.eqb x NUL) eqn:Hx; [reflexivity|].
  cbn [list_ascii_of_string app string_of_list_ascii c_chars].
  rewrite Hx. f_equal. exact IH.
Qed.

Lemma no_option_spec (name : string) :
  no_option malloc_chars name = Some ("no" ++ c_chars name)%string.
Proof.
  unfold no_option, strcpy.
  pose proof (malloc_chars_spec (2 + strlen name + 1)) as Hm.
  pose proof (@strcpy_len_loop_app "no" [] (malloc_chars (2 + strlen name + 1)))
    as E1.
  cbn [app List.length] in E1. rewrite E1 by (rewrite Hm; cbn; lia).
  clear E1.
  cbn [c_chars strlen Ascii.eqb Bool.eqb NUL Ascii.zero list_ascii_of_string
         app].
  pose proof (@strcpy_len_loop_app name ["n"%char; "o"%char]
                (NUL :: skipn 3 (malloc_chars (2 + strlen name + 1)))) as E2.
  cbn [app List.length] in E2.
  rewrite E2 by (cbn [List.length]; rewrite length_skipn, Hm; lia).
  clear E2.
  unfold c_string_at. f_equal.
  change ("n"%char :: "o"%char
            :: list_ascii_of_string (c_chars name)
            ++ NUL :: skipn (S (strlen name))
                        (NUL :: skipn 3 (malloc_chars (2 + strlen name + 1))))
    with (list_ascii_of_string "no"
            ++ (list_ascii_of_string (c_chars name)
                  ++ NUL :: skipn (S (strlen name))
                       (NUL :: skipn 3
                                 (malloc_chars (2 + strlen name + 1))))).
  cbn [list_ascii_of_string app string_of_list_ascii c_chars Ascii.eqb
         Bool.eqb NUL Ascii.zero].
  rewrite c_chars_terminated. reflexivity.
Qed.

Lemma set_options_preflight_count (opts : list set_option_t) :
  forall n,
    set_options_preflight opts n
    = n + List.length (flat_map set_option_names opts).
Proof.
  induction opts as [|opt opts IH]; intros n;
    cbn [set_options_preflight flat_map]; [cbn; lia|].
  rewrite IH, length_app. unfold set_option_names.
  destruct (opt_type opt); cbn [List.length]; lia.
Qed.

Lemma langs_preflight_count (langs : list c_lang_t) :
  forall n,
    langs_preflight langs n
    = n + List.length (filter (fun lang => negb (is_alias lang)) langs).
Proof.
  induction langs as [|lang langs IH]; intros n;
    cbn [langs_preflight filter]; [cbn; lia|].
  rewrite IH. destruct (negb (is_alias lang)); cbn [List.length]; lia.
Qed.

Lemma poke_snoc {A : Type} (pre tl : list A) (x c : A) :
  poke (pre ++ x :: tl) (List.length pre) c = Some ((pre ++ [c]) ++ tl).
Proof. rewrite poke_app, <- app_assoc. reflexivity. Qed.

Lemma store_set_options_app (opts : list set_option_t) :
  forall pre tl,
    let stored := map Some (flat_map set_option_names opts) in
    List.length stored <= List.length tl ->
    store_set_options malloc_chars opts (pre ++ tl) (List.length pre)
    = Some (pre ++ stored ++ skipn (List.length stored) tl,
            List.length pre + List.length stored).
Proof.
  induction opts as [|opt opts IH]; intros pre tl; cbv zeta;
    cbn [store_set_options flat_map].
  - intros _. cbn. now rewrite Nat.add_0_r.
  - rewrite map_app, length_app.
    assert (N : set_option_names opt
                = match opt_type opt with
                  | SET_OPT_AFF_ONLY => [ c_chars (opt_name opt) ]
                  | SET_OPT_TOGGLE =>
                      [ c_chars (opt_name opt);
                        ("no" ++ c_chars (opt_name opt))%string ]
                  | SET_OPT_NEG_ONLY =>
                      [ ("no" ++ c_chars (opt_name opt))%string ]
                  end) by reflexivity.
    rewrite N. clear N.
    unfold store_no_option. rewrite no_option_spec.
    assert (L : forall (l : list (option string)) x,
               S (List.length l) = List.length (l ++ [x]))
      by (intros l x; rewrite length_app; cbn; lia).
    destruct (opt_type opt); cbn [map List.length]; intros Hlen.
    + destruct tl as [|x [|y tl]]; try (cbn in Hlen; lia).
      cbn [List.length] in Hlen.
      rewrite poke_snoc, (L pre (Some (c_chars (opt_name opt)))), poke_snoc.
      rewrite (L _ (Some ("no" ++ c_chars (opt_name opt))%string)).
      rewrite (IH _ tl) by lia.
      rewrite !length_app, <- !app_assoc. cbn [app List.length skipn].
      do 2 f_equal. lia.
    + destruct tl as [|x tl]; try (cbn in Hlen; lia).
      cbn [List.length] in Hlen.
      rewrite poke_snoc, (L pre (Some (c_chars (opt_name opt)))).
      rewrite (IH _ tl) by lia.
      rewrite !length_app, <- !app_assoc. cbn [app List.length skipn].
      do 2 f_equal. lia.
    + destruct tl as [|x tl]; try (cbn in Hlen; lia).
      cbn [List.length] in Hlen.
      rewrite poke_snoc,
        (L pre (Some ("no" ++ c_chars (opt_name opt))%string)).
      rewrite (IH _ tl) by lia.
      rewrite !length_app, <- !app_assoc. cbn [app List.length skipn].
      do 2 f_equal. lia.
Qed.

Lemma store_langs_app (langs : list c_lang_t) :
  forall pre tl,
    let stored :=
      map (fun lang => Some (check_strdup_tolower (lang_name lang)))
        (filter (fun lang => negb (is_alias lang)) langs) in
    List.length stored <= List.length tl ->
    store_langs check_strdup_tolower langs (pre ++ tl) (List.length pre)
    = Some (pre ++ stored ++ skipn (List.length stored) tl,
            List.length pre + List.length stored).
Proof.
  induction langs as [|lang langs IH]; intros pre tl; cbv zeta;
    cbn [store_langs filter].
  - intros _. cbn. now rewrite Nat.add_0_r.
  - destruct (negb (is_alias lang)).
    + cbn [map List.length]. intros Hlen.
      destruct tl as [|x tl]; [cbn in Hlen; lia|]. cbn [List.length] in Hlen.
      rewrite poke_snoc.
      replace (S (List.length pre))
        with (List.length
                (pre ++ [Some (check_strdup_tolower (lang_name lang))]))
        by (rewrite length_app; cbn; lia).
      rewrite (IH _ tl) by lia.
      rewrite length_app, <- app_assoc. cbn [app List.length skipn].
      do 2 f_equal. lia.
    + intros Hlen. apply (IH pre tl Hlen).
Qed.

End SetOptionsFacts.

(** X17: the array of set options.  The pre-flight of [init_set_options]
    counts exactly what is stored: no store falls outside of the array of
    pointers or of the array of characters made for a negated option, and
    the array returned holds, in this order, "options", for every option
    its name (unless it is only negative) and "no" with its name (unless
    it is only affirmative), the lower-case name of every language that is
    no alias, and a null pointer. *)
Theorem init_set_options_spec
        (SET_OPTIONS : list Autocomplete.set_option_t)
        (LANGS : list Autocomplete.c_lang_t)
        (check_strdup_tolower : string -> string)
        (malloc_ptrs : nat -> list (option string))
        (malloc_chars : nat -> list ascii) :
  (forall n, List.length (malloc_ptrs n) = n) ->
  (forall n, List.length (malloc_chars n) = n) ->
  Autocomplete.init_set_options SET_OPTIONS LANGS check_strdup_tolower
    malloc_ptrs malloc_chars
  = Some (map Some
            ("options"%string
               :: flat_map Autocomplete.set_option_names SET_OPTIONS
               ++ map (fun lang =>
                         check_strdup_tolower (Autocomplete.lang_name lang))
                    (filter (fun lang => negb (Autocomplete.is_alias lang))
                       LANGS))
            ++ [ None ]).
Proof.
  intros Hp Hc. unfold Autocomplete.init_set_options. cbv zeta.
  rewrite langs_preflight_count, set_options_preflight_count.
  set (names := flat_map Autocomplete.set_option_names SET_OPTIONS).
  set (langs := filter _ LANGS).
  set (n := 1 + 1 + List.length names + List.length langs).
  pose proof (Hp n) as Hn.
  destruct (malloc_ptrs n) as [|x tl] eqn:Em;
    [unfold n in Hn; cbn in Hn; lia|].
  cbn [List.length] in Hn.
  pose proof (@poke_app _ [] tl x (Some Autocomplete.L_OPTIONS)) as E0.
  cbn [app List.length] in E0. rewrite E0. clear E0.
  pose proof (@store_set_options_app malloc_chars Hc SET_OPTIONS
                [Some Autocomplete.L_OPTIONS] tl) as E1.
  cbv zeta in E1. fold names in E1. cbn [app List.length] in E1.
  rewrite E1 by (rewrite length_map; unfold n in Hn; lia). clear E1.
  pose proof (@store_langs_app check_strdup_tolower LANGS
                (Some Autocomplete.L_OPTIONS :: map Some names)
                (skipn (List.length (map Some names)) tl)) as E2.
  cbv zeta in E2. fold langs in E2. cbn [app List.length] in E2.
  change (1 + List.length (map Some names))
    with (S (List.length (map Some names))).
  rewrite E2 by (rewrite !length_map, length_skipn; unfold n in Hn; lia).
  clear E2.
  set (stored := map (fun lang => Some (check_strdup_tolower
                                          (Autocomplete.lang_name lang)))
                   langs).
  rewrite skipn_skipn.
  destruct (skipn (List.length stored + List.length (map Some names)) tl)
    as [|y tl'] eqn:Es.
  { apply (f_equal (@List.length _)) in Es.
    unfold stored in Es. rewrite length_skipn, !length_map in Es.
    unfold n in Hn. cbn [List.length] in Es. lia. }
  assert (tl' = []) as ->.
  { apply (f_equal (@List.length _)) in Es.
    unfold stored in Es. rewrite length_skipn, !length_map in Es.
    unfold n in Hn.
    destruct tl'; [reflexivity | cbn [List.length] in Es; lia]. }
  replace (S (List.length (map Some names)) + List.length stored)
    with (List.length
            ((Some Autocomplete.L_OPTIONS :: map Some names) ++ stored))
    by (rewrite length_app; reflexivity).
  replace (Some Autocomplete.L_OPTIONS :: map Some names ++ stored ++ [y])
    with (((Some Autocomplete.L_OPTIONS :: map Some names) ++ stored)
            ++ [y])
    by (rewrite <- app_assoc; reflexivity).
  rewrite poke_app.
  f_equal. cbn [map]. rewrite map_app, map_map.
  fold stored. cbn [app]. rewrite <- app_assoc. reflexivity.
Qed.

Lemma init_set_options_spec_witness :
  Autocomplete.init_set_options
    [ {| Autocomplete.opt_name := "prompt";
         Autocomplete.opt_type := Autocomplete.SET_OPT_TOGGLE |};
      {| Autocomplete.opt_name := "digraphs";
         Autocomplete.opt_type := Autocomplete.SET_OPT_AFF_ONLY |};
      {| Autocomplete.opt_name := "graphs";
         Autocomplete.opt_type := Autocomplete.SET_OPT_NEG_ONLY |} ]
    [ {| Autocomplete.lang_name := "C99"; Autocomplete.is_alias := false |};
      {| Autocomplete.lang_name := "C9X"; Autocomplete.is_alias := true |} ]
    (fun s => string_of_list_ascii
                 (map CliOptions.tolower (list_ascii_of_string s)))
    (fun n => repeat (Some "?"%string) n)
    (fun n => repeat "?"%char n)
  = Some [ Some "options"%string; Some "prompt"%string;
           Some "noprompt"%string; Some "digraphs"%string;
           Some "nographs"%string; Some "c99"%string; None ].
Proof.
  apply (@init_set_options_spec
           [ {| Autocomplete.opt_name := "prompt";
                Autocomplete.opt_type := Autocomplete.SET_OPT_TOGGLE |};
             {| Autocomplete.opt_name := "digraphs";
                Autocomplete.opt_type := Autocomplete.SET_OPT_AFF_ONLY |};
             {| Autocomplete.opt_name := "graphs";
                Autocomplete.opt_type := Autocomplete.SET_OPT_NEG_ONLY |} ]
           [ {| Autocomplete.lang_name := "C99";
                Autocomplete.is_alias := false |};
             {| Autocomplete.lang_name := "C9X";
                Autocomplete.is_alias := true |} ]
           (fun s => string_of_list_ascii
                 (map CliOptions.tolower (list_ascii_of_string s)))
           (fun n => repeat (Some "?"%string) n)
           (fun n => repeat "?"%char n)).
  - intros n. apply repeat_length.
  - intros n. apply repeat_length.
Defined.

(* ------------------------------------------------------------------ *)
(** ** Memory to free at exit *)

Section FreeListFacts.
Import FreeList.
Open Scope Z_scope.

Lemma existsb_eqb_In (p : Z) (l : list Z) :
  existsb (Z.eqb p) l = true <-> In p l.
Proof.
  rewrite existsb_exists. split.
  - intros (x & Hin & E). apply Z.eqb_eq in E. now subst.
  - intros Hin. exists p. split; [exact Hin | apply Z.eqb_refl].
Qed.

Lemma is_list_cons (stored : list (Z * free_node_t)) (e : Z * free_node_t)
      (l : list (Z * Z)) :
  forall p,
    ~ In (fst e) (map fst l) ->
    is_list stored p l -> is_list (e :: stored) p l.
Proof.
  induction l as [|[n q] l IH]; intros p Hfresh H; cbn [is_list] in *.
  - exact H.
  - destruct H as (-> & Hn & next & Hfind & Hl).
    split; [reflexivity|]. split; [exact Hn|].
    exists next. split.
    + cbn [find]. destruct (Z.eqb_spec (fst e) n) as [E|_]; [|exact Hfind].
      elim Hfresh. cbn. now left.
    + apply IH; [|exact Hl]. intros Hin. apply Hfresh. cbn. now right.
Qed.

Lemma free_later_all_list (calls : list (Z * Z)) :
  forall h l,
    is_list (nodes h) (free_head h) l ->
    NoDup (map fst calls ++ map fst l) ->
    Forall (fun c => fst c <> 0 /\ snd c <> 0) calls ->
    exists h',
      free_later_all calls h = Some h'
      /\ blocks h' = (map fst (rev calls) ++ blocks h)%list
      /\ is_list (nodes h') (free_head h') (rev calls ++ l).
Proof.
  induction calls as [|[n p] calls IH]; intros h l Hl Hnd Hnz.
  - exists h. cbn. auto.
  - inversion Hnz as [|? ? [Hn Hp] Hrest]; subst. cbn [fst snd] in Hn, Hp.
    cbn [map app] in Hnd. inversion Hnd as [|? ? Hfresh Hnd']; subst.
    cbn [free_later_all]. unfold free_later.
    destruct (Z.eqb_spec p 0) as [|_]; [contradiction|].
    destruct (IH {| blocks := n :: blocks h;
                    nodes := (n, {| fn_ptr := p; fn_next := free_head h |})
                               :: nodes h;
                    free_head := n |} ((n, p) :: l)) as (h' & E & B & L).
    + cbn [is_list nodes free_head].
      split; [reflexivity|]. split; [exact Hn|].
      exists (free_head h). split.
      * cbn. now rewrite Z.eqb_refl.
      * apply is_list_cons; [|exact Hl].
        cbn [fst]. intros Hin. apply Hfresh. apply in_or_app. now right.
    + cbn [map fst].
      apply (NoDup_Add (Add_app n (map fst calls) (map fst l))).
      split; assumption.
    + exact Hrest.
    + exists h'. split; [exact E|]. split.
      * rewrite B. cbn [blocks rev]. rewrite map_app, <- app_assoc.
        reflexivity.
      * cbn [rev]. rewrite <- app_assoc. exact L.
Qed.

Lemma NoDup_append {A : Type} (l1 l2 : list A) :
  NoDup l1 -> NoDup l2 -> (forall a, In a l1 -> ~ In a l2) ->
  NoDup (l1 ++ l2).
Proof.
  induction l1 as [|x l1 IH]; intros H1 H2 Hdis; [exact H2|].
  apply NoDup_cons_iff in H1. destruct H1 as [Hx H1].
  cbn [app]. constructor.
  - intros X. apply in_app_or in X. destruct X as [X|X]; [tauto|].
    apply (Hdis x); [now left | exact X].
  - apply IH; [exact H1 | exact H2 |].
    intros a Ha. apply Hdis. now right.
Qed.

Lemma free_now_loop_list (l : list (Z * Z)) :
  forall p h bound,
    is_list (nodes h) p l ->
    NoDup (map fst l ++ map snd l) ->
    (forall c, In c l ->
               In (fst c) (blocks h) /\ In (snd c) (blocks h)
               /\ snd c <> 0) ->
    (List.length l <= bound)%nat ->
    exists h',
      free_now_loop bound p h = Some h'
      /\ nodes h' = nodes h
      /\ free_head h' = free_head h
      /\ forall a,
           In a (blocks h')
           <-> In a (blocks h)
               /\ ~ In a (map fst l) /\ ~ In a (map snd l).
Proof.
  induction l as [|[n q] l IH]; intros p h bound Hl Hnd Hin Hb.
  - cbn [is_list] in Hl. subst p. exists h.
    destruct bound; cbn; repeat split; tauto.
  - cbn [is_list] in Hl. destruct Hl as (-> & Hn & next & Hfind & Hl).
    destruct bound as [|bound]; [cbn in Hb; lia|]. cbn [List.length] in Hb.
    cbn [map app] in Hnd.
    apply NoDup_cons_iff in Hnd. destruct Hnd as [Hn_fresh Hnd].
    apply (NoDup_Add (Add_app q (map fst l) (map snd l))) in Hnd.
    destruct Hnd as [Hnd Hq_fresh].
    destruct (Hin (n, q) (or_introl eq_refl)) as (Bn & Bq & Hq).
    cbn [fst snd] in Bn, Bq, Hq.
    assert (Hnq : n <> q).
    { intros ->. apply Hn_fresh. apply in_or_app. right. now left. }
    cbn [free_now_loop].
    destruct (Z.eqb_spec n 0) as [|_]; [contradiction|].
    unfold load. rewrite (proj2 (existsb_eqb_In n (blocks h)) Bn), Hfind.
    cbn [snd fn_ptr fn_next]. unfold free at 1.
    destruct (Z.eqb_spec q 0) as [|_]; [contradiction|].
    rewrite (proj2 (existsb_eqb_In q (blocks h)) Bq).
    unfold free. cbn [blocks nodes free_head].
    destruct (Z.eqb_spec n 0) as [|_]; [contradiction|].
    assert (Bn' : In n (remove Z.eq_dec q (blocks h)))
      by (apply in_in_remove; assumption).
    rewrite (proj2 (existsb_eqb_In n _) Bn').
    destruct (IH next
                {| blocks := remove Z.eq_dec n (remove Z.eq_dec q (blocks h));
                   nodes := nodes h; free_head := free_head h |} bound)
      as (h' & E & N & F & B).
    + exact Hl.
    + exact Hnd.
    + intros c Hc. destruct (Hin c (or_intror Hc)) as (B1 & B2 & B3).
      cbn [blocks].
      assert (F1 : In (fst c) (map fst l)) by now apply in_map.
      assert (F2 : In (snd c) (map snd l)) by now apply in_map.
      repeat split; [| |exact B3].
      * apply in_in_remove.
        { intros Ec. apply Hn_fresh. rewrite <- Ec.
          apply in_or_app. now left. }
        apply in_in_remove; [|exact B1].
        intros Ec. apply Hq_fresh. rewrite <- Ec. apply in_or_app. now left.
      * apply in_in_remove.
        { intros Ec. apply Hn_fresh. rewrite <- Ec.
          apply in_or_app. right. now right. }
        apply in_in_remove; [|exact B2].
        intros Ec. apply Hq_fresh. rewrite <- Ec. apply in_or_app. now right.
    + lia.
    + exists h'. split; [exact E|]. split; [exact N|]. split; [exact F|].
      intros a. rewrite B. cbn [blocks map].
      split.
      * intros (Ha & A1 & A2).
        apply in_remove in Ha. destruct Ha as [Ha Han].
        apply in_remove in Ha. destruct Ha as [Ha Haq].
        split; [exact Ha|]. split; intros [<-|X]; tauto.
      * intros (Ha & A1 & A2). split; [|split].
        -- apply in_in_remove; [intros ->; apply A1; now left|].
           apply in_in_remove; [intros ->; apply A2; now left | exact Ha].
        -- intros X. apply A1. now right.
        -- intros X. apply A2. now right.
Qed.

End FreeListFacts.

(** X18: memory to free at exit.  After calls of [free_later] with
    pointers that are allocated and different from each other, one call of
    [free_now] frees every one of them and every node of the list, reads
    no node that it has freed already, frees nothing else and leaves the
    list empty, so that a second call frees nothing. *)
Theorem free_now_frees_all (user : list Z) (calls : list (Z * Z)) :
  let h0 := {| FreeList.blocks := user; FreeList.nodes := [];
               FreeList.free_head := 0 |} in
  NoDup (map fst calls ++ user) ->
  NoDup (map snd calls) ->
  Forall (fun c => fst c <> 0%Z /\ snd c <> 0%Z /\ In (snd c) user) calls ->
  exists h h',
    FreeList.free_later_all calls h0 = Some h
    /\ FreeList.free_now h = Some h'
    /\ (forall a, In a (FreeList.blocks h')
                  <-> In a user /\ ~ In a (map snd calls))
    /\ FreeList.free_head h' = 0%Z
    /\ FreeList.free_now h' = Some h'.
Proof.
  intros h0 Hnd Hptrs Hcalls.
  destruct (@free_later_all_list calls h0 []) as (h & E & B & L).
  - reflexivity.
  - cbn [map]. rewrite app_nil_r. now apply NoDup_app_remove_r in Hnd.
  - eapply Forall_impl; [|exact Hcalls]. cbn. tauto.
  - rewrite app_nil_r in L. cbn [FreeList.blocks h0] in B.
    assert (Hdis : forall c, In c calls -> In (snd c) user
                                           /\ ~ In (fst c) user).
    { intros c Hc. rewrite Forall_forall in Hcalls.
      split; [apply (Hcalls c Hc)|].
      intros Hu.
      assert (X : In (fst c) (map fst calls)) by now apply in_map.
      revert X Hu. clear - Hnd. revert Hnd.
      generalize (map fst calls) as ns. intros ns Hnd X Hu.
      induction ns as [|x ns IH]; [contradiction|].
      cbn [app] in Hnd. apply NoDup_cons_iff in Hnd.
      destruct Hnd as [Hx Hnd]. destruct X as [->|X]; [|now apply IH].
      apply Hx. apply in_or_app. now right. }
    destruct (@free_now_loop_list (rev calls) (FreeList.free_head h) h
                (List.length (FreeList.blocks h))) as (h1 & E1 & N1 & F1 & B1).
    + exact L.
    + rewrite !map_rev. apply NoDup_append.
      * apply NoDup_rev. now apply NoDup_app_remove_r in Hnd.
      * now apply NoDup_rev.
      * intros a Ha Hb. rewrite <- in_rev in Ha, Hb.
        apply in_map_iff in Ha. destruct Ha as (c & <- & Hc).
        apply in_map_iff in Hb. destruct Hb as (c' & Ec & Hc').
        destruct (Hdis c Hc) as [_ Hn]. destruct (Hdis c' Hc') as [Hu _].
        apply Hn. now rewrite <- Ec.
    + intros c Hc. apply in_rev in Hc.
      rewrite Forall_forall in Hcalls.
      destruct (Hcalls c Hc) as (_ & Hp & Hu).
      rewrite B. split; [|split; [|exact Hp]].
      * apply in_or_app. left. rewrite map_rev, <- in_rev.
        now apply in_map.
      * apply in_or_app. now right.
    + rewrite B, length_app, length_map. lia.
    + exists h, {| FreeList.blocks := FreeList.blocks h1;
                   FreeList.nodes := FreeList.nodes h1;
                   FreeList.free_head := 0 |}.
      split; [exact E|]. split; [unfold FreeList.free_now; now rewrite E1|].
      split; [|split; [reflexivity|]].
      * intros a. cbn [FreeList.blocks]. rewrite B1, B, !map_rev.
        split.
        -- intros (X & A1 & A2). rewrite <- in_rev in A1, A2.
           apply in_app_or in X. rewrite <- in_rev in X.
           destruct X as [X|X]; [contradiction|]. tauto.
        -- intros (Hu & Hp). split; [apply in_or_app; now right|].
           rewrite <- !in_rev. split; [|exact Hp].
           intros X. apply in_map_iff in X. destruct X as (c & Ec & Hc).
           apply (proj2 (Hdis c Hc)). now rewrite Ec.
      * unfold FreeList.free_now. cbn [FreeList.free_head FreeList.blocks].
        destruct (List.length (FreeList.blocks h1)); reflexivity.
Qed.

Lemma free_now_frees_all_witness :
  exists h h',
    FreeList.free_later_all [ (100, 10); (200, 30) ]%Z
      {| FreeList.blocks := [10; 20; 30]%Z; FreeList.nodes := [];
         FreeList.free_head := 0 |} = Some h
    /\ FreeList.free_now h = Some h'
    /\ (forall a, In a (FreeList.blocks h')
                  <-> In a [10; 20; 30]%Z
                      /\ ~ In a (map snd [ (100, 10); (200, 30) ]%Z))
    /\ FreeList.free_head h' = 0%Z
    /\ FreeList.free_now h' = Some h'.
Proof.
  apply (@free_now_frees_all [10; 20; 30]%Z [ (100, 10); (200, 30) ]%Z).
  - cbn. repeat (constructor; [cbn; lia|]). constructor.
  - cbn. repeat (constructor; [cbn; lia|]). constructor.
  - repeat constructor; cbn; lia || tauto.
Defined.

(* ------------------------------------------------------------------ *)
(** ** The help text *)

(** X19: the help fits on the screen.  Without colors, [print_help] never
    reads behind the end of a line of [HELP_TEXT] (every title has its
    colon), and prints 21 lines for C and 23 lines for C++, none of more
    than 80 characters. *)
Theorem print_help_fits
        (sgr_help_nonterm sgr_help_punct sgr_help_title : option string)
        (is_cpp : bool) :
  exists out,
    Help.print_help false sgr_help_nonterm sgr_help_punct sgr_help_title
      is_cpp = Some out
    /\ List.length (Help.lines out) = (if is_cpp then 23 else 21)
    /\ Forall (fun line => String.length line <= 80) (Help.lines out).
Proof.
  destruct sgr_help_nonterm, sgr_help_punct, sgr_help_title, is_cpp;
    (eexists; split; [vm_compute; reflexivity|]);
    (split; [vm_compute; reflexivity|]);
    vm_compute;
    repeat (constructor; [repeat constructor|]); constructor.
Qed.

Section HelpColors.
Import Help.
Open Scope string_scope.

Lemma strip_sgr_app (s : string) :
  forall b t,
    strip_sgr b (s ++ t) = strip_sgr b s ++ strip_sgr (in_sgr b s) t
    /\ in_sgr b (s ++ t) = in_sgr (in_sgr b s) t.
Proof.
  induction s as [|c s IH]; intros b t; [split; reflexivity|].
  cbn [append strip_sgr in_sgr].
  destruct b; [apply IH|].
  destruct (Ascii.eqb c "027"); [apply IH|].
  destruct (IH false t) as [E1 E2]. cbn [append]. now rewrite E1, E2.
Qed.

Lemma sgr_params (sgr : string) :
  forallb (fun c => negb (isalpha c) && negb (Ascii.eqb c "027"))
    (list_ascii_of_string sgr) = true ->
  strip_sgr true sgr = "" /\ in_sgr true sgr = true.
Proof.
  induction sgr as [|c sgr IH]; cbn [list_ascii_of_string forallb];
    [split; reflexivity|].
  intros H. apply andb_true_iff in H. destruct H as [Hc H].
  apply andb_true_iff in Hc. destruct Hc as [Ha _].
  cbn [strip_sgr in_sgr]. rewrite Ha. apply IH, H.
Qed.

Variable sgr_help_nonterm sgr_help_punct sgr_help_title : option string.
Hypothesis nonterm_ok : sgr_ok sgr_help_nonterm = true.
Hypothesis punct_ok : sgr_ok sgr_help_punct = true.
Hypothesis title_ok : sgr_ok sgr_help_title = true.

Lemma strip_PUTC_OUT (c : ascii) (out : string) :
  Ascii.eqb c "027" = false ->
  in_sgr false out = false ->
  strip_sgr false (PUTC_OUT c out) = PUTC_OUT c (strip_sgr false out)
  /\ in_sgr false (PUTC_OUT c out) = false.
Proof.
  intros Hc Hout. unfold PUTC_OUT.
  destruct (strip_sgr_app out false (String c "")) as [E1 E2].
  rewrite E1, E2, Hout. cbn [strip_sgr in_sgr]. rewrite Hc. now split.
Qed.

Lemma strip_SGR_END_COLOR (out : string) :
  in_sgr false out = false ->
  strip_sgr false (SGR_END_COLOR true out) = strip_sgr false out
  /\ in_sgr false (SGR_END_COLOR true out) = false.
Proof.
  intros Hout. unfold SGR_END_COLOR.
  destruct (strip_sgr_app out false (SGR_END ++ SGR_EL)) as [E1 E2].
  rewrite E1, E2, Hout. split; [|reflexivity].
  change (strip_sgr false (SGR_END ++ SGR_EL)) with "".
  apply append_empty_r.
Qed.

Lemma strip_SGR_START_COLOR (color : option string) (out : string) :
  sgr_ok color = true ->
  in_sgr false out = false ->
  strip_sgr false (SGR_START_COLOR true color out) = strip_sgr false out
  /\ in_sgr false (SGR_START_COLOR true color out) = false.
Proof.
  intros Hok Hout. unfold SGR_START_COLOR.
  destruct color as [sgr|]; [|now split].
  cbn [sgr_ok] in Hok. destruct (sgr_params sgr Hok) as [P1 P2].
  destruct (strip_sgr_app out false (ESC ++ "[" ++ sgr ++ "m" ++ SGR_EL))
    as [E1 E2].
  rewrite E1, E2, Hout. clear E1 E2.
  change (ESC ++ "[" ++ sgr ++ "m" ++ SGR_EL)
    with (String "027" (String "[" (sgr ++ "m" ++ SGR_EL))).
  cbn [strip_sgr in_sgr Ascii.eqb Bool.eqb isalpha].
  change (negb (isalpha "[")) with true.
  destruct (strip_sgr_app sgr true ("m" ++ SGR_EL)) as [E1 E2].
  rewrite E1, E2, P1, P2. split; [|reflexivity].
  change (strip_sgr true ("m" ++ SGR_EL)) with "".
  apply append_empty_r.
Qed.

Lemma SGR_START_COLOR_off (color : option string) (out : string) :
  SGR_START_COLOR false color out = out.
Proof. destruct color; reflexivity. Qed.

Lemma SGR_END_COLOR_off (out : string) : SGR_END_COLOR false out = out.
Proof. reflexivity. Qed.

Lemma print_help_loop_colors (s : string) :
  existsb (Ascii.eqb "027") (list_ascii_of_string s) = false ->
  (forall at_start escaped out,
      in_sgr false out = false ->
      match print_help_loop true sgr_help_nonterm sgr_help_punct
              sgr_help_title at_start escaped s out,
            print_help_loop false sgr_help_nonterm sgr_help_punct
              sgr_help_title at_start escaped s (strip_sgr false out) with
      | Some colored, Some plain =>
          strip_sgr false colored = plain /\ in_sgr false colored = false
      | None, None => True
      | _, _ => False
      end)
  /\ (forall out,
         in_sgr false out = false ->
         match print_help_title true sgr_help_nonterm sgr_help_punct
                 sgr_help_title s out,
               print_help_title false sgr_help_nonterm sgr_help_punct
                 sgr_help_title s (strip_sgr false out) with
         | Some colored, Some plain =>
             strip_sgr false colored = plain /\ in_sgr false colored = false
         | None, None => True
         | _, _ => False
         end).
Proof.
  induction s as [|c s IH]; intros Hesc.
  - split; [intros at_start escaped out Hout; cbn; now split | intros; exact I].
  - cbn [list_ascii_of_string existsb] in Hesc.
    apply orb_false_iff in Hesc. destruct Hesc as [Hc Hesc].
    rewrite Ascii.eqb_sym in Hc.
    destruct (IH Hesc) as [IHl IHt]. clear IH.
    assert (P : forall out,
               in_sgr false out = false ->
               strip_sgr false (PUTC_OUT c out)
               = PUTC_OUT c (strip_sgr false out)
               /\ in_sgr false (PUTC_OUT c out) = false)
      by (intros out; now apply strip_PUTC_OUT).
    split.
    + intros at_start escaped out Hout.
      cbn [print_help_loop].
      rewrite !SGR_START_COLOR_off, !SGR_END_COLOR_off.
      destruct (Ascii.eqb c "\" && negb escaped); [now apply IHl|].
      destruct (Ascii.eqb c "<" && negb escaped).
      { destruct (strip_SGR_START_COLOR sgr_help_nonterm out nonterm_ok Hout)
          as [S1 S2].
        destruct (P _ S2) as [P1 P2]. rewrite <- S1, <- P1. now apply IHl. }
      destruct (Ascii.eqb c ">" && negb escaped).
      { destruct (P _ Hout) as [P1 P2].
        destruct (strip_SGR_END_COLOR _ P2) as [S1 S2].
        rewrite <- P1, <- S1. now apply IHl. }
      destruct (is_punct c && negb escaped).
      { destruct (strip_SGR_START_COLOR sgr_help_punct out punct_ok Hout)
          as [S1 S2].
        destruct (P _ S2) as [P1 P2].
        destruct (strip_SGR_END_COLOR _ P2) as [T1 T2].
        rewrite <- S1, <- P1, <- T1. now apply IHl. }
      destruct (at_start && isalpha c).
      { destruct (strip_SGR_START_COLOR sgr_help_title out title_ok Hout)
          as [S1 S2].
        destruct (P _ S2) as [P1 P2]. rewrite <- S1, <- P1. now apply IHt. }
      destruct (P _ Hout) as [P1 P2]. rewrite <- P1. now apply IHl.
    + intros out Hout. cbn [print_help_title].
      rewrite !SGR_END_COLOR_off.
      destruct (Ascii.eqb c ":").
      * destruct (strip_SGR_END_COLOR _ Hout) as [S1 S2].
        destruct (P _ S2) as [P1 P2]. rewrite <- S1, <- P1. now apply IHl.
      * destruct (P _ Hout) as [P1 P2]. rewrite <- P1. now apply IHt.
Qed.

End HelpColors.

(** X22: colors do not change the help.  When the capabilities hold
    neither a letter nor an escape character, [print_help_line] prints
    with colors the text that it prints without them, with color sequences
    added, and it reads behind the end of the line with colors exactly
    when it does so without them. *)
Theorem print_help_line_colors
        (sgr_help_nonterm sgr_help_punct sgr_help_title : option string)
        (line out : string) :
  Help.sgr_ok sgr_help_nonterm = true ->
  Help.sgr_ok sgr_help_punct = true ->
  Help.sgr_ok sgr_help_title = true ->
  existsb (Ascii.eqb "027") (list_ascii_of_string line) = false ->
  Help.in_sgr false out = false ->
  option_map (Help.strip_sgr false)
    (Help.print_help_line true sgr_help_nonterm sgr_help_punct sgr_help_title
       line out)
  = Help.print_help_line false sgr_help_nonterm sgr_help_punct
      sgr_help_title line (Help.strip_sgr false out).
Proof.
  intros H1 H2 H3 Hline Hout. unfold Help.print_help_line.
  destruct (@print_help_loop_colors sgr_help_nonterm sgr_help_punct
              sgr_help_title H1 H2 H3 line Hline) as [L _].
  specialize (L true false out Hout).
  destruct (Help.print_help_loop true _ _ _ true false line out)
    as [colored|];
    destruct (Help.print_help_loop false _ _ _ true false line
                (Help.strip_sgr false out)) as [plain|];
    try contradiction; [|reflexivity].
  destruct L as [L1 L2]. cbn [option_map]. f_equal.
  destruct (strip_PUTC_OUT "010" colored eq_refl L2) as [E _].
  rewrite E, L1. reflexivity.
Qed.

Section HelpColorsExamples.
Open Scope string_scope.

Lemma print_help_line_colors_witness :
  option_map (Help.strip_sgr false)
    (Help.print_help_line true (Some "36") (Some "30;1") (Some "34;1")
       "cv-qual: <x> | \<" "")
  = Some ("cv-qual: <x> | <" ++ String "010" "").
Proof.
  rewrite (@print_help_line_colors (Some "36") (Some "30;1") (Some "34;1")
             "cv-qual: <x> | \<" "");
    reflexivity.
Defined.

End HelpColorsExamples.

(* ------------------------------------------------------------------ *)
(** ** Kinds as bits *)

(** X21: kinds as a bit set.  No two kinds of src/c_kind.h share a bit,
    so that the test of a kind against a bitwise-or of kinds is the test
    for membership.  The enumerators are in such an order that the parent
    kinds are those from [K_ARRAY] on and the function-like kinds those
    from [K_CONSTRUCTOR] on; every kind is an object, or function-like, or
    one of placeholder, name and variadic, and only one of these. *)
Theorem c_kind_bits (k : CKind.c_ast_kind_t) :
  (forall k', CKind.is_any k (CKind.value k') = true <-> k = k')
  /\ (CKind.is_any k CKind.K_ANY_PARENT = true
      <-> (CKind.value CKind.K_ARRAY <= CKind.value k)%Z)
  /\ (CKind.is_any k CKind.K_ANY_FUNCTION_LIKE = true
      <-> (CKind.value CKind.K_CONSTRUCTOR <= CKind.value k)%Z)
  /\ (CKind.is_any k CKind.K_ANY_REFERRER = true
      <-> CKind.is_any k CKind.K_ANY_PARENT = true
          \/ k = CKind.K_TYPEDEF)
  /\ (CKind.is_any k CKind.K_ANY_OBJECT
      = negb (CKind.is_any k CKind.K_ANY_FUNCTION_LIKE)
        && negb (existsb (fun k' => CKind.is_any k (CKind.value k'))
                   [ CKind.K_PLACEHOLDER; CKind.K_NAME;
                     CKind.K_VARIADIC ]))%bool.
Proof.
  split; [|split; [|split; [|split]]].
  - intros k'. destruct k, k'; vm_compute;
      split; intros H; (reflexivity || discriminate H).
  - destruct k; vm_compute; split; intros H;
      try reflexivity; try discriminate H; try (now elim H).
  - destruct k; vm_compute; split; intros H;
      try reflexivity; try discriminate H; try (now elim H).
  - destruct k; vm_compute; split; intros H;
      try reflexivity; try (now left); try (now right);
      destruct H as [H|H]; discriminate H.
  - destruct k; reflexivity.
Qed.

(* ------------------------------------------------------------------ *)
(** ** A type identifier as an opaque handle *)

(** X25: the handle of a type identifier.  Whatever the size of a
    pointer, [c_type_id_data_get] returns from the handle that
    [c_type_id_data_new] made the type identifier it was made for, and
    [c_type_id_data_free] leaves the heap as it was before the handle was
    made: the test of the sizes chooses the cast only where a pointer
    holds all 64 bits. *)
Theorem c_type_id_data_round_trip
        (SIZEOF_VOIDP : Z) (malloc : CTypeData.heap -> Z)
        (type_id : Z) (h : CTypeData.heap) :
  (0 < SIZEOF_VOIDP)%Z ->
  (0 <= type_id < 2 ^ 64)%Z ->
  ~ In (malloc h) (map fst h) ->
  let '(data, h') :=
    CTypeData.c_type_id_data_new SIZEOF_VOIDP malloc type_id h in
  CTypeData.c_type_id_data_get SIZEOF_VOIDP data h' = Some type_id
  /\ CTypeData.c_type_id_data_free SIZEOF_VOIDP data h' = h.
Proof.
  intros Hsize Hid Hfresh.
  unfold CTypeData.c_type_id_data_new, CTypeData.c_type_id_data_get,
    CTypeData.c_type_id_data_free, CTypeData.SIZEOF_C_TYPE_ID_T.
  destruct (Z.ltb_spec SIZEOF_VOIDP 8) as [Hsmall|Hbig].
  - cbn [find fst snd filter]. rewrite Z.eqb_refl. cbn [negb].
    split; [reflexivity|].
    revert Hfresh. generalize (malloc h) as data. intros data Hfresh.
    induction h as [|[a v] h IH]; [reflexivity|].
    cbn [filter fst map] in *.
    destruct (Z.eqb_spec a data) as [E|_].
    + elim Hfresh. left. exact E.
    + cbn [negb]. f_equal. apply IH. intros X. apply Hfresh. now right.
  - split; [|reflexivity]. f_equal. unfold CTypeData.cast.
    assert (P : (2 ^ 64 <= 2 ^ (8 * SIZEOF_VOIDP))%Z)
      by (apply Z.pow_le_mono_r; lia).
    rewrite (Z.mod_small type_id (2 ^ (8 * SIZEOF_VOIDP))) by lia.
    apply Z.mod_small. exact Hid.
Qed.

Lemma c_type_id_data_round_trip_witness :
  (CTypeData.c_type_id_data_get 4 (fst (CTypeData.c_type_id_data_new 4
      (fun h => 1 + fold_right Z.max 0 (map fst h)) CType.T_RVALUE_REFERENCE
      [ (1, 5) ]%Z))
     (snd (CTypeData.c_type_id_data_new 4
      (fun h => 1 + fold_right Z.max 0 (map fst h)) CType.T_RVALUE_REFERENCE
      [ (1, 5) ]%Z))
   = Some CType.T_RVALUE_REFERENCE)%Z
  /\ (CTypeData.c_type_id_data_get 8 (fst (CTypeData.c_type_id_data_new 8
        (fun h => 1 + fold_right Z.max 0 (map fst h))
        CType.T_RVALUE_REFERENCE []))
       (snd (CTypeData.c_type_id_data_new 8
        (fun h => 1 + fold_right Z.max 0 (map fst h))
        CType.T_RVALUE_REFERENCE []))
     = Some CType.T_RVALUE_REFERENCE)%Z.
Proof.
  split.
  - pose proof (@c_type_id_data_round_trip 4
                  (fun h => 1 + fold_right Z.max 0 (map fst h))%Z
                  CType.T_RVALUE_REFERENCE [ (1, 5) ]%Z) as H.
    cbv beta iota zeta in H.
    apply H; [lia | cbv; split; [discriminate | reflexivity] |].
    cbn. lia.
  - pose proof (@c_type_id_data_round_trip 8
                  (fun h => 1 + fold_right Z.max 0 (map fst h))%Z
                  CType.T_RVALUE_REFERENCE []) as H.
    cbv beta iota zeta in H.
    apply H; [lia | cbv; split; [discriminate | reflexivity] |].
    cbn. tauto.
Defined.
